(** * Ladder Draw: a shallow embedding of the ladder generator and its
      collaborators, with the properties of the specification.

    The development follows the JavaScript modules of the repository:
    - [Ladder] (js/ladder.js): sampling of the target permutation, natural
      rung generation, path tracing, adjustment transpositions, adjustment
      rung placement, decorative filling and the orchestration [generate];
    - [Renderer] (js/renderer.js): the participant colours, the highlighted
      path, the reverse mapping of the results and the column of a click;
    - [Main] (js/main.js): input parsing, [validateInputs], [handleStart],
      the other handlers of the page and the saved inputs;
    - [Share] (js/share.js): [generateShareableURL], [parseShareableURL],
      [generateFilename].

    Modelling conventions.
    - A JavaScript number that holds an integer is a [Z].
    - An array is a [list]; an array that may hold [undefined] (or a hole)
      is a [list (option Z)], and an indexed store follows JavaScript:
      inside the array it overwrites, past the end it extends the array.
    - An object used as a dictionary with integer keys is a [gmap Z _]; a
      [Set] of numbers is a [gset Z].
    - [Math.random] is an explicit random source: an infinite sequence of
      rationals and a cursor, threaded through a small state monad. A
      double is a rational ([isDouble]), and the contract of the built-in
      asks for doubles in [0,1). The product [Math.random() * (i + 1)] is
      rounded to the nearest double, ties to even, as the multiplication
      of numbers does ([roundDouble]); the density [0.4] is [2/5] (no
      double lies between [2/5] and the double written [0.4], so the
      comparison with a drawn double is the same).
    - Lengths are never negative: [n], [numColumns] and [numRows] are
      integers, and a loop bounded by a negative one does not run. *)

From Stdlib Require Import ZArith QArith Qround Qpower Qabs Lia Lqa Ascii.
From stdpp Require Import base tactics option list gmap sorting strings pretty.

Local Open Scope Z_scope.

(** ** Numbers

    The doubles, as rationals: [m * 2^e] with [|m| < 2^53] and
    [-1074 ≤ e ≤ 971]. *)
Definition isDouble (x : Q) : Prop :=
  ∃ m e : Z, Z.abs m < 2 ^ 53 ∧ -1074 ≤ e ≤ 971 ∧ (x == inject_Z m * 2 ^ e)%Q.

(** The binade of a positive rational: the [e] with [2^e ≤ x < 2^(e+1)]. *)
Definition binade (x : Q) : Z :=
  let e := Z.log2 (Qnum x) - Z.log2 (Z.pos (Qden x)) in
  if Qle_bool (2 ^ e) x then e else e - 1.

(** The double nearest to a positive rational, ties to the even
    significand: 53 bits from the binade down, and no bit below [2^-1074].
    A result of [2^1024] or more, which is [Infinity], does not arise from
    the products taken here, which stay below the length of an array. *)
Definition roundPositive (x : Q) : Q :=
  let ulp := (2 ^ Z.max (binade x - 52) (-1074))%Q in
  let m := (x / ulp)%Q in
  let n := Qfloor m in
  let n' := match (m - inject_Z n ?= 1 # 2)%Q with
            | Lt => n
            | Gt => n + 1
            | Eq => if Z.even n then n else n + 1
            end in
  (inject_Z n' * ulp)%Q.

(** The value of an arithmetic operation whose exact result is [x]. *)
Definition roundDouble (x : Q) : Q :=
  match (x ?= 0)%Q with
  | Eq => 0%Q
  | Gt => roundPositive x
  | Lt => (- roundPositive (- x))%Q
  end.

(** ** The random source *)

Record RandomSource := { draws : nat → Q; cursor : nat }.

Definition Rand (A : Type) : Type := RandomSource → A * RandomSource.

Definition ret {A} (a : A) : Rand A := λ s, (a, s).

Definition bind {A B} (m : Rand A) (k : A → Rand B) : Rand B :=
  λ s, let '(a, s') := m s in k a s'.

Notation "'let*' x ':=' m 'in' k" := (bind m (λ x, k))
  (at level 10, x pattern, m at level 100, k at level 200).

(** [Math.random()]: the next value of the source. *)
Definition Math_random : Rand Q :=
  λ s, (draws s (cursor s), {| draws := draws s; cursor := S (cursor s) |}).

(** The contract of [Math.random]: every value is a double in [0,1). *)
Definition valid_source (s : RandomSource) : Prop :=
  ∀ k, isDouble (draws s k) ∧ (0 <= draws s k)%Q ∧ (draws s k < 1)%Q.

(** [x < y] on rationals, as a boolean. *)
Definition Qlt_bool (x y : Q) : bool := negb (Qle_bool y x).

(** [for (const x of xs) { acc = body(x, acc) }] in the random monad. *)
Fixpoint forEachM {A S} (xs : list A) (body : A → S → Rand S) (acc : S) : Rand S :=
  match xs with
  | [] => ret acc
  | x :: xs' => let* acc' := body x acc in forEachM xs' body acc'
  end.

(** ** JavaScript arrays of numbers with possibly undefined entries *)

Module JsArray.

(** [new Array(n)]: [n] empty slots. *)
Definition make (n : Z) : list (option Z) := replicate (Z.to_nat n) None.

(** [arr[i]] for a numeric index; [undefined] is [None]. *)
Definition get (arr : list (option Z)) (i : Z) : option Z :=
  if decide (0 ≤ i) then mjoin (arr !! Z.to_nat i) else None.

(** [arr[i] = v] for a numeric index [i]: overwrite inside the array,
    extend it (with empty slots in between) past its end; a negative
    index sets a property and leaves the elements alone. *)
Definition set (arr : list (option Z)) (i : Z) (v : option Z) : list (option Z) :=
  if decide (i < 0) then arr
  else if decide (Z.to_nat i < length arr)%nat then <[Z.to_nat i := v]> arr
  else arr ++ replicate (Z.to_nat i - length arr) None ++ [v].

(** [arr[k] = v] where the key [k] is itself the result of a lookup:
    the key [undefined] names a property, not an element. *)
Definition set_at (arr : list (option Z)) (k : option Z) (v : option Z) : list (option Z) :=
  match k with
  | Some i => set arr i v
  | None => arr
  end.

(** [arr.indexOf(v)] on an array without holes: the first index whose
    element is strictly equal to [v], or [-1]. *)
Fixpoint indexOf_from (arr : list (option Z)) (v : option Z) (i : Z) : Z :=
  match arr with
  | [] => -1
  | x :: arr' => if decide (x = v) then i else indexOf_from arr' v (i + 1)
  end.

Definition indexOf (arr : list (option Z)) (v : option Z) : Z := indexOf_from arr v 0.

(** [[arr[i], arr[j]] = [arr[j], arr[i]]]: the right-hand side is read
    first, then [arr[i]] and [arr[j]] are stored in that order. *)
Definition swap (arr : list (option Z)) (i j : Z) : list (option Z) :=
  let vj := get arr j in
  let vi := get arr i in
  set (set arr i vj) j vi.

End JsArray.

(** ** js/ladder.js *)

Module Ladder.

(** A horizontal line [{ fromColumn, row }]: a rung between the columns
    [fromColumn] and [fromColumn + 1] at [row]. *)
Record Rung := { fromColumn : Z; row : Z }.

(** [CONFIG] *)
Definition MIN_ROWS : Z := 6.
Definition ROWS_PER_PARTICIPANT : Q := 3.
Definition MAX_ROWS : Z := 200.
Definition LINE_DENSITY : Q := 1 # 2.
Definition FILL_DENSITY : Q := 2 # 5.

(** [Math.floor(Math.random() * k)], the product rounded to a double. *)
Definition randomIndex (k : Z) : Rand Z :=
  let* r := Math_random in ret (Qfloor (roundDouble (r * inject_Z k))).

(** [generateRandomMapping(n)]: Fisher-Yates on [0..n-1], for [i] from
    [n-1] down to [1], then the inverse table [mapping[shuffled[i]] = i].
    A store under the key [undefined] is not an integer-keyed entry. *)
Definition shuffleStep (i : Z) (shuffled : list (option Z)) : Rand (list (option Z)) :=
  let* j := randomIndex (i + 1) in
  ret (JsArray.swap shuffled i j).

Definition invertInto (shuffled : list (option Z)) (mapping : gmap Z Z) (i : Z) : gmap Z Z :=
  match JsArray.get shuffled i with
  | Some k => <[k := i]> mapping
  | None => mapping
  end.

Definition generateRandomMapping (n : Z) : Rand (gmap Z Z) :=
  let shuffled := Some <$> seqZ 0 n in
  let* shuffled := forEachM (reverse (seqZ 1 (n - 1))) shuffleStep shuffled in
  ret (foldl (invertInto shuffled) ∅ (seqZ 0 n)).

(** [generateRandomLines(numColumns, numRows)] *)
Definition scanColumn (r : Z) (col : Z) (st : list Rung * gset Z)
  : Rand (list Rung * gset Z) :=
  let '(lines, usedColumns) := st in
  if decide (col ∈ usedColumns ∨ col + 1 ∈ usedColumns) then ret st
  else
    let* x := Math_random in
    if Qlt_bool x LINE_DENSITY
    then ret (lines ++ [{| fromColumn := col; row := r |}],
              usedColumns ∪ {[col]} ∪ {[col + 1]})
    else ret st.

Definition scanRow (numColumns : Z) (r : Z) (lines : list Rung) : Rand (list Rung) :=
  let* st := forEachM (seqZ 0 (numColumns - 1)) (scanColumn r) (lines, ∅) in
  ret (fst st).

Definition generateRandomLines (numColumns numRows : Z) : Rand (list Rung) :=
  forEachM (seqZ 1 (numRows - 1)) (scanRow numColumns) [].

(** [calculateMapping(numColumns, numRows, horizontalLines)] *)
Definition addToRow (byRow : gmap Z (list Rung)) (line : Rung) : gmap Z (list Rung) :=
  match byRow !! row line with
  | Some linesAtRow => <[row line := linesAtRow ++ [line]]> byRow
  | None => byRow
  end.

Definition linesByRow (numRows : Z) (horizontalLines : list Rung) : gmap Z (list Rung) :=
  foldl addToRow (foldl (λ byRow r, <[r := []]> byRow) ∅ (seqZ 0 numRows)) horizontalLines.

(** The inner [for (const line of linesAtRow)] with its two [break]s. *)
Fixpoint followRow (linesAtRow : list Rung) (currentCol : Z) : Z :=
  match linesAtRow with
  | [] => currentCol
  | line :: rest =>
      if decide (fromColumn line = currentCol) then currentCol + 1
      else if decide (fromColumn line = currentCol - 1) then currentCol - 1
      else followRow rest currentCol
  end.

Definition traceColumn (byRow : gmap Z (list Rung)) (numRows startCol : Z) : Z :=
  foldl (λ currentCol r, followRow (default [] (byRow !! r)) currentCol)
        startCol (seqZ 0 numRows).

Definition calculateMapping (numColumns numRows : Z) (horizontalLines : list Rung)
  : gmap Z Z :=
  let byRow := linesByRow numRows horizontalLines in
  foldl (λ mapping startCol, <[startCol := traceColumn byRow numRows startCol]> mapping)
        ∅ (seqZ 0 numColumns).

(** [calculateAdjustmentTranspositions(actualMapping, targetMapping, n)] *)
Definition positionTable (mapping : gmap Z Z) (n : Z) : list (option Z) :=
  foldl (λ perm p, JsArray.set_at perm (mapping !! p) (Some p))
        (JsArray.make n) (seqZ 0 n).

(** [while (currentPos > pos) { swap; push; currentPos-- }]: the body
    runs [currentPos - pos] times when that is positive, never otherwise. *)
Fixpoint bubbleLeft (steps : nat) (currentPos : Z) (st : list (option Z) * list Z)
  : list (option Z) * list Z :=
  match steps with
  | O => st
  | S steps' =>
      let '(working, transpositions) := st in
      bubbleLeft steps' (currentPos - 1)
        (JsArray.swap working (currentPos - 1) currentPos,
         transpositions ++ [currentPos - 1])
  end.

Definition settle (targetPerm : list (option Z)) (st : list (option Z) * list Z) (pos : Z)
  : list (option Z) * list Z :=
  let currentPos := JsArray.indexOf (fst st) (JsArray.get targetPerm pos) in
  bubbleLeft (Z.to_nat (currentPos - pos)) currentPos st.

Definition calculateAdjustmentTranspositions (actualMapping targetMapping : gmap Z Z) (n : Z)
  : list Z :=
  let currentPerm := positionTable actualMapping n in
  let targetPerm := positionTable targetMapping n in
  snd (foldl (settle targetPerm) (currentPerm, []) (seqZ 0 n)).

(** [addAdjustmentLines(lines, transpositions, startRow, numColumns)] *)
Record Adjusted := { lines : list Rung; numRows : Z }.

(** [for (let i = minRowIdx; i < rows.length; i++)]: the first row, from
    index [i] on, in which neither [col] nor [col + 1] is used. *)
Fixpoint findFreeRow (rowsFrom : list (gset Z)) (i : nat) (col : Z) : option nat :=
  match rowsFrom with
  | [] => None
  | usedCols :: rest =>
      if decide ((col ∉ usedCols) ∧ (col + 1 ∉ usedCols)) then Some i
      else findFreeRow rest (S i) col
  end.

Definition placeTransposition (startRow : Z) (st : list Rung * list (gset Z) * nat) (col : Z)
  : list Rung * list (gset Z) * nat :=
  let '(result, rows, minRowIdx) := st in
  match findFreeRow (drop minRowIdx rows) minRowIdx col with
  | Some i =>
      (result ++ [{| fromColumn := col; row := startRow + Z.of_nat i |}],
       alter (λ usedCols, usedCols ∪ {[col]} ∪ {[col + 1]}) i rows,
       i)
  | None =>
      let rows' := rows ++ [{[col; col + 1]}] in
      (result ++ [{| fromColumn := col; row := startRow + Z.of_nat (length rows') - 1 |}],
       rows',
       (length rows' - 1)%nat)
  end.

Definition addAdjustmentLines (lines0 : list Rung) (transpositions : list Z)
    (startRow numColumns : Z) : Adjusted :=
  let '(result, rows, _) :=
    foldl (placeTransposition startRow) (lines0, [], O) transpositions in
  {| lines := result; numRows := startRow + Z.max 1 (Z.of_nat (length rows)) |}.

(** [fillWithDecorativePairs(lines, numRows, numColumns)] *)
Definition markUsed (usedByRow : gmap Z (gset Z)) (line : Rung) : gmap Z (gset Z) :=
  let used := default ∅ (usedByRow !! row line) in
  <[row line := used ∪ {[fromColumn line]} ∪ {[fromColumn line + 1]}]> usedByRow.

(** [for (let r = from; r < to; r += 2)]: the values [r] takes. *)
Fixpoint everySecond (fuel : nat) (from to : Z) : list Z :=
  match fuel with
  | O => []
  | S fuel' => if decide (from < to) then from :: everySecond fuel' (from + 2) to else []
  end.

Definition fillColumn (r col : Z) (st : list Rung * gset Z * gset Z)
  : Rand (list Rung * gset Z * gset Z) :=
  let '(result, usedThisRow, usedNextRow) := st in
  if decide (col ∈ usedThisRow ∨ col + 1 ∈ usedThisRow) then ret st
  else if decide (col ∈ usedNextRow ∨ col + 1 ∈ usedNextRow) then ret st
  else
    let* x := Math_random in
    if Qlt_bool x FILL_DENSITY
    then ret (result ++ [{| fromColumn := col; row := r |};
                         {| fromColumn := col; row := r + 1 |}],
              usedThisRow ∪ {[col]} ∪ {[col + 1]},
              usedNextRow ∪ {[col]} ∪ {[col + 1]})
    else ret st.

Definition fillRowPair (numColumns r : Z) (st : list Rung * gmap Z (gset Z))
  : Rand (list Rung * gmap Z (gset Z)) :=
  let '(result, usedByRow) := st in
  let usedThisRow := default ∅ (usedByRow !! r) in
  let usedNextRow := default ∅ (usedByRow !! (r + 1)) in
  let* st' := forEachM (seqZ 0 (numColumns - 1)) (fillColumn r)
                (result, usedThisRow, usedNextRow) in
  let '(result', usedThisRow', usedNextRow') := st' in
  ret (result', <[r + 1 := usedNextRow']> (<[r := usedThisRow']> usedByRow)).

Definition fillWithDecorativePairs (lines0 : list Rung) (numRows numColumns : Z)
  : Rand (list Rung) :=
  let usedByRow := foldl markUsed ∅ lines0 in
  let* st := forEachM (everySecond (Z.to_nat (numRows - 2)) 1 (numRows - 1))
               (fillRowPair numColumns) (lines0, usedByRow) in
  ret (fst st).

(** The comparator of the final sort,
    [(a, b) => a.row - b.row || a.fromColumn - b.fromColumn]. *)
Definition compareRungs (a b : Rung) : Z :=
  if decide (row a - row b ≠ 0) then row a - row b else fromColumn a - fromColumn b.

Definition rungLe (a b : Rung) : Prop := compareRungs a b ≤ 0.

Global Instance rungLe_dec a b : Decision (rungLe a b) :=
  decide (compareRungs a b ≤ 0).

(** [Math.round(x)] *)
Definition Math_round (x : Q) : Z := Qfloor (x + (1 # 2)).

Record LadderData := {
  participants : list string;
  results : list string;
  verticalLines : Z;
  rows : Z;
  horizontalLines : list Rung;
  mapping : gmap Z Z
}.

(** [generate(participants, results)] *)
Definition generate (participants0 results0 : list string) : Rand LadderData :=
  let numColumns := Z.of_nat (length participants0) in
  let baseRows :=
    Z.max MIN_ROWS
      (Z.min MAX_ROWS (Math_round (inject_Z numColumns * ROWS_PER_PARTICIPANT))) in
  let* horizontalLines0 := generateRandomLines numColumns baseRows in
  let actualMapping := calculateMapping numColumns baseRows horizontalLines0 in
  let* targetMapping := generateRandomMapping numColumns in
  let adjustments :=
    calculateAdjustmentTranspositions actualMapping targetMapping numColumns in
  let adjusted := addAdjustmentLines horizontalLines0 adjustments baseRows numColumns in
  let* filledLines :=
    fillWithDecorativePairs (lines adjusted) (numRows adjusted + 1) numColumns in
  ret {| participants := participants0;
         results := results0;
         verticalLines := numColumns;
         rows := numRows adjusted + 1;
         horizontalLines := merge_sort rungLe filledLines;
         mapping := targetMapping |}.

(** [getResultForParticipant(ladderData, participantIndex)]:
    [results[mapping[participantIndex]] || ''], where the empty string is
    the only falsy string. *)
Definition orEmpty (v : option string) : string :=
  match v with
  | Some s => if decide (s = "") then "" else s
  | None => ""
  end.

Definition elementAt (arr : list string) (i : option Z) : option string :=
  match i with
  | Some k => if decide (0 ≤ k) then arr !! Z.to_nat k else None
  | None => None
  end.

Definition getResultForParticipant (ladderData : LadderData) (participantIndex : Z)
  : string :=
  let resultIndex := mapping ladderData !! participantIndex in
  orEmpty (elementAt (results ladderData) resultIndex).

(** [getAllResults(ladderData)]: one entry per participant; [resultIndex]
    is [undefined] ([None]) for a participant the mapping does not know. *)
Record Assignment := {
  participant : string;
  result : string;
  participantIndex : Z;
  resultIndex : option Z
}.

Definition getAllResults (ladderData : LadderData) : list Assignment :=
  imap (λ index participant0,
          let resultIndex0 := mapping ladderData !! Z.of_nat index in
          {| participant := participant0;
             result := orEmpty (elementAt (results ladderData) resultIndex0);
             participantIndex := Z.of_nat index;
             resultIndex := resultIndex0 |})
       (participants ladderData).

(** A position of a traced path, [{ col, row }]; [beforeMove] and
    [afterMove] are set on the two ends of a rung that the path crosses and
    absent ([false]) elsewhere. *)
Module Path.

Record Position := { col : Z; row : Z; beforeMove : bool; afterMove : bool }.

Definition plain (c r : Z) : Position :=
  {| col := c; row := r; beforeMove := false; afterMove := false |}.

Definition before (c r : Z) : Position :=
  {| col := c; row := r; beforeMove := true; afterMove := false |}.

Definition after (c r : Z) : Position :=
  {| col := c; row := r; beforeMove := false; afterMove := true |}.

End Path.

(** The inner loop of [tracePath] at the row [r]: the two positions it
    pushes and the new column when a rung is crossed, [None] when [moved]
    stays [false]. *)
Fixpoint crossRow (linesAtRow : list Rung) (r currentCol : Z)
  : option (list Path.Position * Z) :=
  match linesAtRow with
  | [] => None
  | line :: rest =>
      if decide (fromColumn line = currentCol) then
        Some ([Path.before currentCol r; Path.after (currentCol + 1) r], currentCol + 1)
      else if decide (fromColumn line = currentCol - 1) then
        Some ([Path.before currentCol r; Path.after (currentCol - 1) r], currentCol - 1)
      else crossRow rest r currentCol
  end.

Definition tracePathRow (byRow : gmap Z (list Rung)) (st : list Path.Position * Z) (r : Z)
  : list Path.Position * Z :=
  let '(path, currentCol) := st in
  match crossRow (default [] (byRow !! r)) r currentCol with
  | Some (crossing, currentCol') => (path ++ crossing, currentCol')
  | None => (path ++ [Path.plain currentCol r], currentCol)
  end.

(** [tracePath(ladderData, startColumn)] *)
Definition tracePath (ladderData : LadderData) (startColumn : Z) : list Path.Position :=
  let byRow := linesByRow (rows ladderData) (horizontalLines ladderData) in
  let '(path, currentCol) :=
    foldl (tracePathRow byRow) ([Path.plain startColumn (-1)], startColumn)
          (seqZ 0 (rows ladderData)) in
  path ++ [Path.plain currentCol (rows ladderData)].

End Ladder.

(** ** js/renderer.js

    The parts of the renderer that compute with the ladder; the drawing on
    the canvas and the geometry in floating point numbers are left out. *)

Module Renderer.

Import Ladder.

(** [PARTICIPANT_COLORS] *)
Definition PARTICIPANT_COLORS : list string :=
  ["#E57373"; "#64B5F6"; "#81C784"; "#FFB74D"; "#BA68C8"; "#4DD0E1"; "#F06292";
   "#AED581"; "#FFD54F"; "#7986CB"; "#4DB6AC"; "#FF8A65"; "#A1887F"; "#90A4AE";
   "#9575CD"].

(** [getParticipantColor(index)]: the remainder [index % length] has the
    sign of [index], and a negative one names no element of the array;
    [None] is [undefined]. *)
Definition getParticipantColor (index : Z) : option string :=
  let k := Z.rem index (Z.of_nat (length PARTICIPANT_COLORS)) in
  if decide (0 ≤ k) then PARTICIPANT_COLORS !! Z.to_nat k else None.

(** The keys of the segments of a path, [`${a}-${b}`]. *)
Definition segmentKey (a b : Z) : string := pretty a +:+ "-" +:+ pretty b.

(** The rungs by row as [computeHighlightPath] collects them:
    [linesByRow[line.row].push(line)] without a guard, a [TypeError]
    ([None]) for a rung whose row is not one of [0..rows-1]. *)
Definition pushToRow (byRow : option (gmap Z (list Rung))) (line : Rung)
  : option (gmap Z (list Rung)) :=
  rowsSoFar ← byRow;
  linesAtRow ← rowsSoFar !! row line;
  Some (<[row line := linesAtRow ++ [line]]> rowsSoFar).

Definition linesByRowOrThrow (numRows : Z) (horizontalLines : list Rung)
  : option (gmap Z (list Rung)) :=
  foldl pushToRow (Some (foldl (λ byRow r, <[r := []]> byRow) ∅ (seqZ 0 numRows)))
        horizontalLines.

Record HighlightPath := {
  vertical : gset string;
  horizontal : gset string;
  endCol : Z
}.

(** The inner loop of [computeHighlightPath] at the row [r]: the key of
    the rung that is crossed and the new column, if there is one. *)
Fixpoint highlightRung (linesAtRow : list Rung) (r currentCol : Z) : option (string * Z) :=
  match linesAtRow with
  | [] => None
  | line :: rest =>
      if decide (fromColumn line = currentCol) then
        Some (segmentKey r (fromColumn line), currentCol + 1)
      else if decide (fromColumn line = currentCol - 1) then
        Some (segmentKey r (fromColumn line), currentCol - 1)
      else highlightRung rest r currentCol
  end.

Definition highlightRow (byRow : gmap Z (list Rung)) (st : gset string * gset string * Z)
    (r : Z) : gset string * gset string * Z :=
  let '(vertical0, horizontal0, currentCol) := st in
  let vertical1 := vertical0 ∪ {[segmentKey currentCol r]} in
  match highlightRung (default [] (byRow !! r)) r currentCol with
  | Some (horzKey, currentCol') => (vertical1, horizontal0 ∪ {[horzKey]}, currentCol')
  | None => (vertical1, horizontal0, currentCol)
  end.

(** [computeHighlightPath(ladderData, startCol)] *)
Definition computeHighlightPath (ladderData : LadderData) (startCol : Z)
  : option HighlightPath :=
  byRow ← linesByRowOrThrow (rows ladderData) (horizontalLines ladderData);
  let '(vertical0, horizontal0, currentCol) :=
    foldl (highlightRow byRow) (∅, ∅, startCol) (seqZ 0 (rows ladderData)) in
  Some {| vertical := vertical0 ∪ {[segmentKey currentCol (rows ladderData)]};
          horizontal := horizontal0;
          endCol := currentCol |}.

(** The reverse mapping that [drawResults] builds, from result columns to
    participants; a store under the key [undefined] is no integer-keyed
    entry. *)
Definition reverseMapping (ladderData : LadderData) : gmap Z Z :=
  foldl (λ reverse participantIdx,
           match mapping ladderData !! participantIdx with
           | Some resultCol => <[resultCol := participantIdx]> reverse
           | None => reverse
           end)
        ∅ (seqZ 0 (Z.of_nat (length (participants ladderData)))).

(** The colour in which [drawResults] draws the result of the column
    [index]: [getParticipantColor(reverseMapping[index])], [undefined]
    when the reverse mapping has no such column. *)
Definition resultColor (ladderData : LadderData) (index : Z) : option string :=
  reverseMapping ladderData !! index ≫= getParticipantColor.

(** A click as [getParticipantIndexFromClick] sees it: whether it lies in
    the name area at the top, and for each column whether it is within the
    hit radius of that column. Both are comparisons of floating point
    coordinates. *)
Record Click := { inNameArea : bool; hitsColumn : Z → bool }.

Fixpoint firstHit (hits : Z → bool) (columns : list Z) : Z :=
  match columns with
  | [] => -1
  | i :: rest => if hits i then i else firstHit hits rest
  end.

(** [getParticipantIndexFromClick(canvas, ladderData, clientX, clientY)] *)
Definition getParticipantIndexFromClick (ladderData : LadderData) (click : Click) : Z :=
  if inNameArea click
  then firstHit (hitsColumn click) (seqZ 0 (verticalLines ladderData))
  else -1.

End Renderer.

(** ** js/main.js *)

Module Main.

(** [text.split('\n')] *)
Fixpoint splitLines (text : string) : list string :=
  match text with
  | EmptyString => [EmptyString]
  | String c rest =>
      if decide (c = "010"%char) then EmptyString :: splitLines rest
      else match splitLines rest with
           | line :: more => String c line :: more
           | [] => [String c EmptyString]
           end
  end.

(** The parts of the page that [handleStart] reads and writes. *)
Record Page := {
  participantsTextarea : string;
  resultsTextarea : string;
  errorMessage : string;
  errorMessageHidden : bool;
  inputSectionHidden : bool;
  resultSectionHidden : bool;
  ladderData : option Ladder.LadderData
}.

Section WithTrim.

(** [String.prototype.trim], a built-in of the platform. *)
Variable trim : string → string.

(** [parseTextareaLines(text)] *)
Definition parseTextareaLines (text : string) : list string :=
  filter (λ line, (0 < String.length line)%nat) (trim <$> splitLines text).

(** [validateInputs(participants, results)]: the error message, or
    [None] for [null]. *)
Definition validateInputs (participants results : list string) : option string :=
  if decide (length participants < 2)%nat then
    Some "참여자를 최소 2명 이상 입력해주세요."
  else if decide (length results < 2)%nat then
    Some "결과 항목을 최소 2개 이상 입력해주세요."
  else if decide (length participants ≠ length results) then
    Some ("참여자 수(" +:+ pretty (length participants) +:+ "명)와 결과 항목 수("
          +:+ pretty (length results) +:+ "개)가 일치해야 합니다.")
  else if decide (100 < length participants)%nat then
    Some "참여자는 최대 100명까지 지원됩니다."
  else
    let participantSet : gset string := list_to_set participants in
    if decide (size participantSet ≠ length participants) then
      Some "중복된 참여자 이름이 있습니다."
    else None.

(** [showError(message)] *)
Definition showError (message : string) (page : Page) : Page :=
  {| participantsTextarea := participantsTextarea page;
     resultsTextarea := resultsTextarea page;
     errorMessage := message;
     errorMessageHidden := false;
     inputSectionHidden := inputSectionHidden page;
     resultSectionHidden := resultSectionHidden page;
     ladderData := ladderData page |}.

(** [state.ladderData = data] *)
Definition setLadderData (data : Ladder.LadderData) (page : Page) : Page :=
  {| participantsTextarea := participantsTextarea page;
     resultsTextarea := resultsTextarea page;
     errorMessage := errorMessage page;
     errorMessageHidden := errorMessageHidden page;
     inputSectionHidden := inputSectionHidden page;
     resultSectionHidden := resultSectionHidden page;
     ladderData := Some data |}.

(** [showResultSection()] *)
Definition showResultSection (page : Page) : Page :=
  {| participantsTextarea := participantsTextarea page;
     resultsTextarea := resultsTextarea page;
     errorMessage := errorMessage page;
     errorMessageHidden := errorMessageHidden page;
     inputSectionHidden := true;
     resultSectionHidden := false;
     ladderData := ladderData page |}.

(** A string is truthy exactly when it is not empty; [null] is falsy. *)
Definition truthy (v : option string) : bool :=
  match v with
  | Some s => bool_decide (s ≠ "")
  | None => false
  end.

(** [handleStart()]; drawing on the canvas and filling the summary list
    leave the fields of [Page] alone. *)
Definition handleStart (page : Page) : Rand Page :=
  let participants := parseTextareaLines (participantsTextarea page) in
  let results := parseTextareaLines (resultsTextarea page) in
  let validationError := validateInputs participants results in
  if truthy validationError then
    ret (showError (default "" validationError) page)
  else
    let* data := Ladder.generate participants results in
    ret (showResultSection (setLadderData data page)).

End WithTrim.

(** *** String.prototype.trim

    The white space and the line terminators of ECMAScript, each as the
    bytes of its UTF-8 encoding: TAB, LF, VT, FF, CR, SP, U+00A0, U+1680,
    U+2000 to U+200A, U+2028, U+2029, U+202F, U+205F, U+3000 and U+FEFF. *)
Definition whiteSpace : list (list ascii) :=
  (λ bytes : list N, ascii_of_N <$> bytes) <$>
    [[9]; [10]; [11]; [12]; [13]; [32]; [194; 160]; [225; 154; 128];
     [226; 128; 128]; [226; 128; 129]; [226; 128; 130]; [226; 128; 131];
     [226; 128; 132]; [226; 128; 133]; [226; 128; 134]; [226; 128; 135];
     [226; 128; 136]; [226; 128; 137]; [226; 128; 138];
     [226; 128; 168]; [226; 128; 169]; [226; 128; 175]; [226; 129; 159];
     [227; 128; 128]; [239; 187; 191]]%N.

(** Whether the text starts with one of the sequences [ws], and with which. *)
Definition leading (ws : list (list ascii)) (text : list ascii) : option (list ascii) :=
  List.find (λ w, bool_decide (w `prefix_of` text)) ws.

(** The text without the sequences of [ws] it starts with. *)
Fixpoint dropLeading (fuel : nat) (ws : list (list ascii)) (text : list ascii)
  : list ascii :=
  match fuel with
  | O => text
  | S fuel' =>
      match leading ws text with
      | Some w => dropLeading fuel' ws (drop (length w) text)
      | None => text
      end
  end.

Definition trimStart (text : list ascii) : list ascii :=
  dropLeading (length text) whiteSpace text.

Definition trimEnd (text : list ascii) : list ascii :=
  reverse (dropLeading (length text) (reverse <$> whiteSpace) (reverse text)).

Definition trim (s : string) : string :=
  String.string_of_list_ascii (trimEnd (trimStart (String.list_ascii_of_string s))).

(** [text.replace(/,/g, '\n')] *)
Fixpoint replaceCommas (text : string) : string :=
  match text with
  | EmptyString => EmptyString
  | String c rest =>
      String (if decide (c = ","%char) then "010"%char else c) (replaceCommas rest)
  end.

(** [parseCsvContent(text)] *)
Definition parseCsvContent (text : string) : list string :=
  filter (λ item, (0 < String.length item)%nat)
         (trim <$> splitLines (replaceCommas text)).

(** [items.join('\n')] *)
Definition joinLines (items : list string) : string :=
  String.concat (String "010"%char EmptyString) items.

(** *** The state of the page

    [page] holds the elements that [handleStart] reads and writes and
    [state.ladderData]; the rest is [state.highlightIndex], the text of
    the two counters and [localStorage] ([None] when the storage is not
    available and every access throws). *)
Record State := {
  page : Page;
  highlightIndex : Z;
  participantCount : string;
  resultCount : string;
  localStorage : option (gmap string string)
}.

Definition onPage (f : Page → Page) (st : State) : State :=
  {| page := f (page st);
     highlightIndex := highlightIndex st;
     participantCount := participantCount st;
     resultCount := resultCount st;
     localStorage := localStorage st |}.

Definition setHighlightIndex (index : Z) (st : State) : State :=
  {| page := page st;
     highlightIndex := index;
     participantCount := participantCount st;
     resultCount := resultCount st;
     localStorage := localStorage st |}.

(** The [value] that a text area gives back for the text stored in it:
    every pair CR LF and every other CR is read as LF. *)
Fixpoint normalizeNewlines (text : string) : string :=
  match text with
  | EmptyString => EmptyString
  | String c rest =>
      if decide (c = "013"%char) then
        match rest with
        | String c' rest' =>
            if decide (c' = "010"%char) then String "010"%char (normalizeNewlines rest')
            else String "010"%char (normalizeNewlines rest)
        | EmptyString => String "010"%char EmptyString
        end
      else String c (normalizeNewlines rest)
  end.

(** [elements.participantsTextarea.value = value]; the field of the page
    holds what [elements.participantsTextarea.value] reads from then on. *)
Definition setParticipantsValue (value : string) (p : Page) : Page :=
  {| participantsTextarea := normalizeNewlines value;
     resultsTextarea := resultsTextarea p;
     errorMessage := errorMessage p;
     errorMessageHidden := errorMessageHidden p;
     inputSectionHidden := inputSectionHidden p;
     resultSectionHidden := resultSectionHidden p;
     ladderData := ladderData p |}.

(** [elements.resultsTextarea.value = value] *)
Definition setResultsValue (value : string) (p : Page) : Page :=
  {| participantsTextarea := participantsTextarea p;
     resultsTextarea := normalizeNewlines value;
     errorMessage := errorMessage p;
     errorMessageHidden := errorMessageHidden p;
     inputSectionHidden := inputSectionHidden p;
     resultSectionHidden := resultSectionHidden p;
     ladderData := ladderData p |}.

(** [hideError()] *)
Definition hideError (p : Page) : Page :=
  {| participantsTextarea := participantsTextarea p;
     resultsTextarea := resultsTextarea p;
     errorMessage := errorMessage p;
     errorMessageHidden := true;
     inputSectionHidden := inputSectionHidden p;
     resultSectionHidden := resultSectionHidden p;
     ladderData := ladderData p |}.

(** [showInputSection()] *)
Definition showInputSection (p : Page) : Page :=
  hideError
    {| participantsTextarea := participantsTextarea p;
       resultsTextarea := resultsTextarea p;
       errorMessage := errorMessage p;
       errorMessageHidden := errorMessageHidden p;
       inputSectionHidden := false;
       resultSectionHidden := true;
       ladderData := ladderData p |}.

(** [state.ladderData = null] *)
Definition clearLadderData (p : Page) : Page :=
  {| participantsTextarea := participantsTextarea p;
     resultsTextarea := resultsTextarea p;
     errorMessage := errorMessage p;
     errorMessageHidden := errorMessageHidden p;
     inputSectionHidden := inputSectionHidden p;
     resultSectionHidden := resultSectionHidden p;
     ladderData := None |}.

(** [updateCounts()]; a number stored as [textContent] becomes its
    decimal text. *)
Definition updateCounts (st : State) : State :=
  let participants := parseTextareaLines trim (participantsTextarea (page st)) in
  let results := parseTextareaLines trim (resultsTextarea (page st)) in
  {| page := page st;
     highlightIndex := highlightIndex st;
     participantCount := pretty (length participants);
     resultCount := pretty (length results);
     localStorage := localStorage st |}.

Definition participantsKey : string := "ladder-draw-participants".
Definition resultsKey : string := "ladder-draw-results".

(** [saveToStorage()] *)
Definition saveToStorage (st : State) : State :=
  {| page := page st;
     highlightIndex := highlightIndex st;
     participantCount := participantCount st;
     resultCount := resultCount st;
     localStorage :=
       (λ items, <[resultsKey := resultsTextarea (page st)]>
                   (<[participantsKey := participantsTextarea (page st)]> items))
         <$> localStorage st |}.

(** [loadFromStorage()]: a saved text that is missing or empty is falsy
    and leaves the text area alone. *)
Definition loadFromStorage (st : State) : State :=
  match localStorage st with
  | None => st
  | Some items =>
      let savedParticipants := items !! participantsKey in
      let savedResults := items !! resultsKey in
      let st1 :=
        if truthy savedParticipants
        then onPage (setParticipantsValue (default "" savedParticipants)) st
        else st in
      if truthy savedResults
      then onPage (setResultsValue (default "" savedResults)) st1
      else st1
  end.

(** [init()]; [bindEvents] registers the listeners below. *)
Definition init (st : State) : State := updateCounts (loadFromStorage st).

(** [handleParticipantsInput()] and [handleResultsInput()] *)
Definition handleParticipantsInput (st : State) : State :=
  onPage hideError (saveToStorage (updateCounts st)).

Definition handleResultsInput (st : State) : State :=
  onPage hideError (saveToStorage (updateCounts st)).

Inductive Target := ParticipantsTextarea | ResultsTextarea.

(** [handleCsvImport(event, targetTextarea)]: [content] is the text of the
    chosen file as the reader delivers it, [None] when no file was chosen. *)
Definition handleCsvImport (content : option string) (target : Target) (st : State) : State :=
  match content with
  | None => st
  | Some text =>
      let items := parseCsvContent text in
      let st1 :=
        match target with
        | ParticipantsTextarea => onPage (setParticipantsValue (joinLines items)) st
        | ResultsTextarea => onPage (setResultsValue (joinLines items)) st
        end in
      onPage hideError (saveToStorage (updateCounts st1))
  end.

(** [handleStart()] on the whole state. *)
Definition handleStartClick (st : State) : Rand State :=
  let* page' := handleStart trim (page st) in
  ret (onPage (λ _, page') st).

(** [handleReset()] *)
Definition handleReset (st : State) : State :=
  onPage showInputSection (setHighlightIndex (-1) (onPage clearLadderData st)).

(** A keyboard event: [ctrlKey], [metaKey] and [key]. *)
Record KeyboardEvent := { ctrlKey : bool; metaKey : bool; key : string }.

(** [handleKeyDown(event)] *)
Definition handleKeyDown (event : KeyboardEvent) (st : State) : Rand State :=
  let* st1 :=
    if (ctrlKey event || metaKey event) && bool_decide (key event = "Enter")
    then if negb (inputSectionHidden (page st)) then handleStartClick st else ret st
    else ret st in
  if bool_decide (key event = "Escape") && negb (resultSectionHidden (page st1))
  then ret (handleReset st1)
  else ret st1.

(** The toggle of [handleResultItemClick] and [handleCanvasClick]. *)
Definition toggleHighlight (index : Z) (st : State) : State :=
  if decide (highlightIndex st = index)
  then setHighlightIndex (-1) st
  else setHighlightIndex index st.

(** [handleResultItemClick(index, event)] *)
Definition handleResultItemClick (index : Z) (st : State) : State :=
  toggleHighlight index st.

(** [handleCanvasClick(event)] *)
Definition handleCanvasClick (click : Renderer.Click) (st : State) : State :=
  match ladderData (page st) with
  | None => st
  | Some data =>
      let index := Renderer.getParticipantIndexFromClick data click in
      if decide (0 ≤ index) then toggleHighlight index st
      else if decide (0 ≤ highlightIndex st) then setHighlightIndex (-1) st
      else st
  end.

(** [handleDocumentClick(event)]: the two flags say whether the target of
    the click lies in the result summary and in the canvas. *)
Definition handleDocumentClick (insideResultSummary insideCanvas : bool) (st : State)
  : State :=
  if resultSectionHidden (page st) || bool_decide (highlightIndex st < 0) then st
  else if negb insideResultSummary && negb insideCanvas then setHighlightIndex (-1) st
  else st.

(** *** The listeners of [bindEvents]

    What can happen to the page, and the handlers that run then. A click
    bubbles from its target to the document unless a handler stops it:
    [handleResultItemClick] does, and [handleCanvasClick] does once a
    ladder is stored. The click that [handleShare] makes on its download
    link, and the one a CSV button passes on to its file input, reach the
    document as well. Rendering and scrolling change nothing of the
    state. *)
Inductive Event :=
| TypeParticipants (value : string)
| TypeResults (value : string)
| ChooseCsvFile (target : Target) (content : option string)
| ClickStart
| ClickShare
| ClickCsvButton
| ClickReset
| ClickResultItem (index : Z)
| ClickCanvas (click : Renderer.Click)
| ClickElsewhere (insideResultSummary : bool)
| PressKey (event : KeyboardEvent).

Definition dispatch (e : Event) (st : State) : Rand State :=
  match e with
  | TypeParticipants value =>
      ret (handleParticipantsInput (onPage (setParticipantsValue value) st))
  | TypeResults value =>
      ret (handleResultsInput (onPage (setResultsValue value) st))
  | ChooseCsvFile target content => ret (handleCsvImport content target st)
  | ClickStart =>
      let* st1 := handleStartClick st in ret (handleDocumentClick false false st1)
  | ClickShare | ClickCsvButton =>
      ret (handleDocumentClick false false (handleDocumentClick false false st))
  | ClickReset => ret (handleDocumentClick false false (handleReset st))
  | ClickResultItem index => ret (handleResultItemClick index st)
  | ClickCanvas click =>
      match ladderData (page st) with
      | Some _ => ret (handleCanvasClick click st)
      | None => ret (handleDocumentClick false true (handleCanvasClick click st))
      end
  | ClickElsewhere insideResultSummary =>
      ret (handleDocumentClick insideResultSummary false st)
  | PressKey event => handleKeyDown event st
  end.

End Main.

(** ** js/share.js

    Strings are sequences of bytes holding UTF-8 text. The built-ins of
    the platform that the two functions call are written out ([JSON.stringify]
    on the object that is built, [encodeURIComponent], [btoa], [atob], the
    query parsing of [URL.searchParams]) or taken as parameters (whether
    [new URL] accepts a string, [decodeURIComponent], [JSON.parse]). A
    thrown exception is [None]. *)

Module Share.

Definition byteOf (c : ascii) : N := N_of_ascii c.
Definition charOf (n : N) : ascii := ascii_of_N n.

Fixpoint bytesOf (s : string) : list N :=
  match s with
  | EmptyString => []
  | String c rest => byteOf c :: bytesOf rest
  end.

Fixpoint stringOf (bytes : list N) : string :=
  match bytes with
  | [] => EmptyString
  | b :: rest => String (charOf b) (stringOf rest)
  end.

Definition digitAt (alphabet : string) (n : N) : ascii :=
  default "?"%char (String.get (N.to_nat n) alphabet).

Definition hexUpper : string := "0123456789ABCDEF".
Definition hexLower : string := "0123456789abcdef".

(** *** JSON.stringify({ p: participants, r: results }) *)

Definition quoteJSONChar (c : ascii) : string :=
  let b := byteOf c in
  if decide (b = 8)%N then "\b"
  else if decide (b = 9)%N then "\t"
  else if decide (b = 10)%N then "\n"
  else if decide (b = 12)%N then "\f"
  else if decide (b = 13)%N then "\r"
  else if decide (b = 34)%N then String "\"%char (String (charOf 34) "")
  else if decide (b = 92)%N then "\\"
  else if decide (b < 32)%N then
    "\u00" +:+ String (digitAt hexLower (b / 16)) (String (digitAt hexLower (b mod 16)) "")
  else String c "".

Fixpoint quoteJSONBody (s : string) : string :=
  match s with
  | EmptyString => EmptyString
  | String c rest => quoteJSONChar c +:+ quoteJSONBody rest
  end.

Definition quote : string := String (charOf 34) "".

Definition quoteJSONString (s : string) : string := quote +:+ quoteJSONBody s +:+ quote.

Fixpoint joinWith (sep : string) (items : list string) : string :=
  match items with
  | [] => ""
  | [x] => x
  | x :: rest => x +:+ sep +:+ joinWith sep rest
  end.

Definition stringifyArray (items : list string) : string :=
  "[" +:+ joinWith "," (quoteJSONString <$> items) +:+ "]".

Definition JSON_stringify (p r : list string) : string :=
  "{" +:+ quote +:+ "p" +:+ quote +:+ ":" +:+ stringifyArray p +:+ ","
      +:+ quote +:+ "r" +:+ quote +:+ ":" +:+ stringifyArray r +:+ "}".

(** *** encodeURIComponent *)

Definition isAlphaNum (b : N) : bool :=
  bool_decide (48 ≤ b ≤ 57 ∨ 65 ≤ b ≤ 90 ∨ 97 ≤ b ≤ 122)%N.

(** The characters left alone: letters, digits and [- _ . ! ~ * ' ( )]. *)
Definition isUnreserved (b : N) : bool :=
  isAlphaNum b || bool_decide (b ∈ [45; 95; 46; 33; 126; 42; 39; 40; 41]%N).

Definition percentEncodeByte (b : N) : string :=
  String "%"%char (String (digitAt hexUpper (b / 16)) (String (digitAt hexUpper (b mod 16)) "")).

Fixpoint encodeURIComponent (s : string) : string :=
  match s with
  | EmptyString => EmptyString
  | String c rest =>
      (if isUnreserved (byteOf c) then String c "" else percentEncodeByte (byteOf c))
      +:+ encodeURIComponent rest
  end.

(** *** btoa and atob *)

Definition base64Alphabet : string :=
  "ABCDEFGHIJKLMNOPQRSTUVWXYZabcdefghijklmnopqrstuvwxyz0123456789+/".

Definition sextet (n : N) : ascii := digitAt base64Alphabet n.

(** The code units of a binary string (each below 256); [None] when the
    text has a character above U+00FF, where [btoa] throws. *)
Fixpoint latin1Bytes (bytes : list N) : option (list N) :=
  match bytes with
  | [] => Some []
  | b :: rest =>
      if decide (b < 128)%N then cons b <$> latin1Bytes rest
      else match rest with
           | b2 :: rest' =>
               if decide ((b = 194 ∨ b = 195) ∧ 128 ≤ b2 < 192)%N
               then cons ((b - 194) * 64 + b2)%N <$> latin1Bytes rest'
               else None
           | [] => None
           end
  end.

Fixpoint base64Encode (bytes : list N) : string :=
  match bytes with
  | [] => ""
  | [a] =>
      String (sextet (a / 4)) (String (sextet (a mod 4 * 16)) "==")
  | [a; b] =>
      String (sextet (a / 4)) (String (sextet (a mod 4 * 16 + b / 16))
        (String (sextet (b mod 16 * 4)) "="))
  | a :: b :: c :: rest =>
      String (sextet (a / 4)) (String (sextet (a mod 4 * 16 + b / 16))
        (String (sextet (b mod 16 * 4 + c / 64)) (String (sextet (c mod 64))
          (base64Encode rest))))
  end%N.

Definition btoa (s : string) : option string :=
  base64Encode <$> latin1Bytes (bytesOf s).

Definition isAsciiWhitespace (b : N) : bool :=
  bool_decide (b ∈ [9; 10; 12; 13; 32]%N).

Definition sextetValue (b : N) : option N :=
  if decide (65 ≤ b ≤ 90)%N then Some (b - 65)%N
  else if decide (97 ≤ b ≤ 122)%N then Some (b - 97 + 26)%N
  else if decide (48 ≤ b ≤ 57)%N then Some (b - 48 + 52)%N
  else if decide (b = 43)%N then Some 62%N
  else if decide (b = 47)%N then Some 63%N
  else None.

(** Up to two trailing [=], when the length is a multiple of four. *)
Definition stripPadding (data : list N) : list N :=
  if decide (length data mod 4 = 0)%nat then
    match reverse data with
    | 61%N :: 61%N :: rest => reverse rest
    | 61%N :: rest => reverse rest
    | _ => data
    end
  else data.

Fixpoint base64DecodeGroups (values : list N) : list N :=
  match values with
  | a :: b :: c :: d :: rest =>
      (a * 4 + b / 16) :: (b mod 16 * 16 + c / 4) :: (c mod 4 * 64 + d)
        :: base64DecodeGroups rest
  | [a; b; c] => [a * 4 + b / 16; b mod 16 * 16 + c / 4]
  | [a; b] => [a * 4 + b / 16]
  | _ => []
  end%N.

(** The binary string back as text. *)
Fixpoint latin1Text (bytes : list N) : list N :=
  match bytes with
  | [] => []
  | b :: rest =>
      if decide (b < 128)%N then b :: latin1Text rest
      else (194 + b / 64 - 2)%N :: (128 + b mod 64)%N :: latin1Text rest
  end.

(** [atob(data)]: the forgiving base64 decoding of the HTML standard. *)
Definition atob (data : string) : option string :=
  let data := filter (λ b, isAsciiWhitespace b = false) (bytesOf data) in
  let data := stripPadding data in
  if decide (length data mod 4 = 1)%nat then None
  else
    values ← mapM sextetValue data;
    Some (stringOf (latin1Text (base64DecodeGroups values))).

(** *** new URL(urlString).searchParams.get(name)

    The URL parser drops the C0 controls and spaces at both ends of its
    input and every tab and line break in it. It fails on an input without
    a scheme or with a host or port it cannot read, and [new URL] then
    throws. A URL is held as the input that the parser read, and
    [searchParams_get] reads its query. *)

Definition isC0ControlOrSpace (c : ascii) : bool := bool_decide (byteOf c ≤ 32)%N.

Definition isTabOrNewline (c : ascii) : bool := bool_decide (byteOf c ∈ [9; 10; 13]%N).

Fixpoint dropLeadingControls (s : string) : string :=
  match s with
  | EmptyString => EmptyString
  | String c rest => if isC0ControlOrSpace c then dropLeadingControls rest else s
  end.

Fixpoint dropTrailingControls (s : string) : string :=
  match s with
  | EmptyString => EmptyString
  | String c rest =>
      match dropTrailingControls rest with
      | EmptyString => if isC0ControlOrSpace c then EmptyString else String c EmptyString
      | kept => String c kept
      end
  end.

Fixpoint removeTabsAndNewlines (s : string) : string :=
  match s with
  | EmptyString => EmptyString
  | String c rest =>
      if isTabOrNewline c then removeTabsAndNewlines rest
      else String c (removeTabsAndNewlines rest)
  end.

(** The input as the URL parser reads it. *)
Definition urlInput (urlString : string) : string :=
  removeTabsAndNewlines (dropTrailingControls (dropLeadingControls urlString)).

(** The text before the first occurrence of [sep], and the text after
    it when there is one. *)
Fixpoint splitAtFirst (sep : ascii) (s : string) : string * option string :=
  match s with
  | EmptyString => (EmptyString, None)
  | String c rest =>
      if decide (c = sep) then (EmptyString, Some rest)
      else let '(before, after) := splitAtFirst sep rest in (String c before, after)
  end.

Fixpoint splitOn (sep : ascii) (s : string) : list string :=
  match s with
  | EmptyString => [EmptyString]
  | String c rest =>
      if decide (c = sep) then EmptyString :: splitOn sep rest
      else match splitOn sep rest with
           | piece :: more => String c piece :: more
           | [] => [String c EmptyString]
           end
  end.

Definition hexValue (c : ascii) : option N :=
  let b := byteOf c in
  if decide (48 ≤ b ≤ 57)%N then Some (b - 48)%N
  else if decide (65 ≤ b ≤ 70)%N then Some (b - 55)%N
  else if decide (97 ≤ b ≤ 102)%N then Some (b - 87)%N
  else None.

(** Percent-decoding of form data: [+] is a space, [%XX] is a byte. *)
Fixpoint formDecode (s : string) : string :=
  match s with
  | EmptyString => EmptyString
  | String c rest =>
      if decide (c = "+"%char) then String " "%char (formDecode rest)
      else if decide (c = "%"%char) then
        match rest with
        | String h (String l rest') =>
            match hexValue h, hexValue l with
            | Some hv, Some lv => String (charOf (hv * 16 + lv)) (formDecode rest')
            | _, _ => String c (formDecode rest)
            end
        | _ => String c (formDecode rest)
        end
      else String c (formDecode rest)
  end.

Definition formPair (piece : string) : string * string :=
  let '(name, value) := splitAtFirst "="%char piece in
  (formDecode name, formDecode (default "" value)).

(** The query of the URL: what follows the first [?], up to a [#]. *)
Definition queryOf (urlString : string) : string :=
  let '(beforeFragment, _) := splitAtFirst "#"%char urlString in
  default "" (snd (splitAtFirst "?"%char beforeFragment)).

Definition searchParams_get (urlString name : string) : option string :=
  let pieces := filter (λ piece, piece ≠ "") (splitOn "&"%char (queryOf urlString)) in
  snd <$> head (filter (λ pair, fst pair = name) (formPair <$> pieces)).

(** *** Values read back by JSON.parse *)

#[warnings="-register-all"]
Inductive JsValue :=
| JsUndefined
| JsNull
| JsBoolean (b : bool)
| JsNumber (x : Q)
| JsString (s : string)
| JsArray (items : list JsValue)
| JsObject (fields : list (string * JsValue)).

(** [value.name]: a [TypeError] on [null] and [undefined]; [undefined]
    on a value without that property. *)
Definition getProperty (value : JsValue) (name : string) : option JsValue :=
  match value with
  | JsUndefined | JsNull => None
  | JsObject fields =>
      Some (default JsUndefined (snd <$> head (filter (λ field, fst field = name) fields)))
  | _ => Some JsUndefined
  end.

Record Parsed := { parsedParticipants : JsValue; parsedResults : JsValue }.

Section WithPlatform.

(** [window.location.origin] and [window.location.pathname] *)
Variables origin pathname : string.

(** Whether the URL parser accepts a string. *)
Variable URL_canParse : string → bool.

(** [decodeURIComponent] and [JSON.parse]; [None] when they throw. *)
Variable decodeURIComponent : string → option string.
Variable JSON_parse : string → option JsValue.

(** [generateShareableURL(ladderData)] *)
Definition generateShareableURL (ladderData : Ladder.LadderData) : option string :=
  let data := JSON_stringify (Ladder.participants ladderData) (Ladder.results ladderData) in
  encoded ← btoa (encodeURIComponent data);
  let url := origin +:+ pathname +:+ "?data=" +:+ encoded in
  if decide (2000 < String.length url)%nat then None else Some url.

(** [new URL(urlString)]: the URL, or [None] for the [TypeError] that is
    thrown when the parser fails. *)
Definition newURL (urlString : string) : option string :=
  if URL_canParse urlString then Some (urlInput urlString) else None.

(** [parseShareableURL(urlString)] *)
Definition parseShareableURL (urlString : string) : option Parsed :=
  url ← newURL urlString;
  match searchParams_get url "data" with
  | None => None
  | Some encoded =>
      if decide (encoded = "") then None
      else
        binary ← atob encoded;
        text ← decodeURIComponent binary;
        decoded ← JSON_parse text;
        p ← getProperty decoded "p";
        r ← getProperty decoded "r";
        Some {| parsedParticipants := p; parsedResults := r |}
  end.

End WithPlatform.

(** *** The name of the downloaded file *)

(** [text.replace(/[:.]/g, '-')] *)
Fixpoint replaceColonsAndDots (text : string) : string :=
  match text with
  | EmptyString => EmptyString
  | String c rest =>
      String (if decide (c = ":"%char ∨ c = "."%char) then "-"%char else c)
             (replaceColonsAndDots rest)
  end.

(** [generateFilename()], where [iso] is the text that [now.toISOString()]
    returns. *)
Definition generateFilename (iso : string) : string :=
  "ladder-result-" +:+ String.substring 0 19 (replaceColonsAndDots iso) +:+ ".png".

End Share.

(** * Vocabulary of the specification *)

Import Ladder.

(** The two columns a rung touches. *)
Definition touched (line : Rung) : gset Z := {[fromColumn line; fromColumn line + 1]}.

(** Row non-overlap: two rungs at different places of the list that share
    a row touch disjoint sets of columns. *)
Definition nonOverlapping (ls : list Rung) : Prop :=
  ∀ i j a b, i ≠ j → ls !! i = Some a → ls !! j = Some b →
             row a = row b → touched a ## touched b.

(** The rungs of one row, in the order of the list. *)
Definition rowLines (r : Z) (ls : list Rung) : list Rung :=
  filter (λ line, row line = r) ls.

(** The walk of the path tracer through the rows [rs], in that order. *)
Definition traceRows (ls : list Rung) (rs : list Z) (startCol : Z) : Z :=
  foldl (λ currentCol r, followRow (rowLines r ls) currentCol) startCol rs.

(** The adjacent swap of the columns [c] and [c + 1]. *)
Definition swapCol (c x : Z) : Z :=
  if decide (x = c) then c + 1 else if decide (x = c + 1) then c else x.

Definition applySwaps (ts : list Z) (x : Z) : Z := foldl (λ x c, swapCol c x) x ts.

(** A transposition applied to a start-to-end mapping, as a rung below
    the ladder does: whoever ended in column [c] now ends in [c + 1], and
    conversely. *)
Definition applyTransposition (c : Z) (m : gmap Z Z) : gmap Z Z := swapCol c <$> m.

Definition applyTranspositions (ts : list Z) (m : gmap Z Z) : gmap Z Z :=
  foldl (λ m c, applyTransposition c m) m ts.

(** A mapping that is a permutation of [{0..n-1}]: defined exactly on
    these keys, with values among them, none repeated and none missing. *)
Definition isPermutationOf (n : Z) (m : gmap Z Z) : Prop :=
  (∀ p, is_Some (m !! p) ↔ 0 ≤ p < n) ∧
  (∀ p k, m !! p = Some k → 0 ≤ k < n) ∧
  (∀ p q k, m !! p = Some k → m !! q = Some k → p = q) ∧
  (∀ k, 0 ≤ k < n → ∃ p, m !! p = Some k).

(** The set [u] holds exactly the columns that the rungs of row [r] touch. *)
Definition tracks (u : gset Z) (r : Z) (ls : list Rung) : Prop :=
  ∀ c, c ∈ u ↔ ∃ line, line ∈ ls ∧ row line = r ∧ c ∈ touched line.

(** A canceling pair: the same rung in the rows [r] and [r + 1]. *)
Definition cancelingPair (col r : Z) : list Rung :=
  [{| fromColumn := col; row := r |}; {| fromColumn := col; row := r + 1 |}].

(** How the adjustment rungs get placed: [placement startRow ts placed k]
    says that the transpositions [ts], in their order, became the rungs
    [placed] in the [k] rows from [startRow] on. Each transposition goes
    into the last row opened so far, where its two columns are free, or
    opens a new row. *)
Inductive placement (startRow : Z) : list Z → list Rung → nat → Prop :=
| placement_nil : placement startRow [] [] 0
| placement_same ts placed k col :
    placement startRow ts placed (S k) →
    (∀ line, line ∈ placed → row line = startRow + Z.of_nat k →
             ¬ (col ∈ touched line ∨ col + 1 ∈ touched line)) →
    placement startRow (ts ++ [col])
      (placed ++ [{| fromColumn := col; row := startRow + Z.of_nat k |}]) (S k)
| placement_new ts placed k col :
    placement startRow ts placed k →
    placement startRow (ts ++ [col])
      (placed ++ [{| fromColumn := col; row := startRow + Z.of_nat k |}]) (S k).

(** The state of the loop of [addAdjustmentLines] after the
    transpositions [ts]. *)
Definition adjustmentState (startRow : Z) (lines0 : list Rung) (ts : list Z)
    (st : list Rung * list (gset Z) * nat) : Prop :=
  ∃ placed,
    st.1.1 = lines0 ++ placed ∧
    placement startRow ts placed (length st.1.2) ∧
    (st.1.2 = [] ∧ st.2 = 0%nat ∨ S st.2 = length st.1.2) ∧
    (∀ i u, st.1.2 !! i = Some u → tracks u (startRow + Z.of_nat i) placed).

(** The state of the inner loop of the filler at the row pair [r], [r + 1],
    for a property [P] of the rungs collected so far: the two sets hold
    the columns used in the two rows, and the other rows are as they were
    in [result0]. *)
Definition fillInner (P : list Rung → Prop) (r : Z) (result0 : list Rung)
    (st : list Rung * gset Z * gset Z) : Prop :=
  P st.1.1 ∧ tracks st.1.2 r st.1.1 ∧ tracks st.2 (r + 1) st.1.1 ∧
  (∀ r' u, r' ≠ r → r' ≠ r + 1 → tracks u r' result0 → tracks u r' st.1.1).

(** The state of its outer loop: the usage map is exact for every row. *)
Definition fillOuter (P : list Rung → Prop) (st : list Rung * gmap Z (gset Z)) : Prop :=
  P st.1 ∧ ∀ r, tracks (default ∅ (st.2 !! r)) r st.1.

(** Row non-overlap, by recursion on the list. *)
Fixpoint pairwiseApart (ls : list Rung) : Prop :=
  match ls with
  | [] => True
  | l :: rest =>
      Forall (λ b, row l = row b → touched l ## touched b) rest ∧ pairwiseApart rest
  end.

(** The rungs of a list touch pairwise disjoint columns, whatever their rows. *)
Fixpoint apart (ls : list Rung) : Prop :=
  match ls with
  | [] => True
  | l :: rest => Forall (λ b, touched l ## touched b) rest ∧ apart rest
  end.

(** Every rung joins two of the columns [0..n-1]. *)
Definition columnsWithin (n : Z) (ls : list Rung) : Prop :=
  Forall (λ line, 0 ≤ fromColumn line ∧ fromColumn line + 1 < n) ls.

(** ** Arrangements

    The adjustment computer works on arrangements: the list that gives,
    for each end column, the participant who ends there. *)

(** [w] is the arrangement of the mapping [m] over [n] columns. *)
Definition represents (n : Z) (m : gmap Z Z) (w : list Z) : Prop :=
  length w = Z.to_nat n ∧
  ∀ p k, m !! p = Some k ↔ 0 ≤ k ∧ w !! Z.to_nat k = Some p.

(** The adjacent swap of the entries [c] and [c + 1] of an arrangement. *)
Definition swapAdjacent (c : Z) (w : list Z) : list Z :=
  match w !! Z.to_nat c, w !! Z.to_nat (c + 1) with
  | Some a, Some b =>
      if decide (0 ≤ c) then <[Z.to_nat (c + 1) := a]> (<[Z.to_nat c := b]> w) else w
  | _, _ => w
  end.

Definition swapsAdjacent (ts : list Z) (w : list Z) : list Z :=
  foldl (λ w c, swapAdjacent c w) w ts.

(** The number of pairs of an arrangement that stand in the wrong order
    for the ranking [rank]. *)
Fixpoint inversions (rank : Z → Z) (w : list Z) : nat :=
  match w with
  | [] => 0
  | x :: rest => length (filter (λ y, rank y < rank x) rest) + inversions rank rest
  end.

(** A transposition of two adjacent ones of the columns [0..n-1]. *)
Definition adjacentIn (n : Z) (c : Z) : Prop := 0 ≤ c ∧ c + 1 < n.

(** ** The shuffle and its random choices *)

(** The exchange of the entries [i] and [j] of a full array. *)
Definition swapEntries (a : list Z) (i j : nat) : list Z :=
  match a !! i, a !! j with
  | Some x, Some y => <[j := x]> (<[i := y]> a)
  | _, _ => a
  end.

(** The Fisher-Yates loop for [i] from [k] down to 1, when the indices
    chosen are [js], in the order in which they are chosen. *)
Fixpoint fisherYates (k : nat) (js : list Z) (a : list Z) : list Z :=
  match k, js with
  | S k', j :: js' => fisherYates k' js' (swapEntries a (S k') (Z.to_nat j))
  | _, _ => a
  end.

(** The indices that this loop draws from a random source. *)
Fixpoint drawnIndices (k : nat) (s : RandomSource) : list Z :=
  match k with
  | O => []
  | S k' =>
      (randomIndex (Z.of_nat (S k') + 1) s).1
        :: drawnIndices k' (randomIndex (Z.of_nat (S k') + 1) s).2
  end.

(** All the ways to choose the indices: [j] in [0..i] for each [i] from
    [k] down to 1. *)
Fixpoint choiceVectors (k : nat) : list (list Z) :=
  match k with
  | O => [[]]
  | S k' => seqZ 0 (Z.of_nat (S k') + 1) ≫= λ j, cons j <$> choiceVectors k'
  end.

(** The smallest multiple of [2^-53] that is at least [j / k]. *)
Definition drawFor (j k : Z) : Q := (j * 2 ^ 53 + (k - 1)) / k # 9007199254740992.

(** A random source that makes the loop choose the indices [js]: the draw
    for the index [j] in [0..i] is the first double of 53 bits from
    [j / (i + 1)] on. *)
Definition sourceOfChoices (k : nat) (js : list Z) : RandomSource :=
  {| draws := λ t, match js !! t with
                   | Some j => drawFor j (Z.of_nat (k - t) + 1)
                   | None => 0%Q
                   end;
     cursor := 0 |}.

(** The sample space of [generateRandomMapping n]: the index vectors, each
    index uniform on its range and all independent, so each vector is as
    likely as any other. *)
Definition sampleSpace (n : Z) : list (list Z) := choiceVectors (Z.to_nat (n - 1)).

(** The mapping that [generateRandomMapping n] builds when its loop
    chooses the indices [js]: the inverse table of the shuffled array. *)
Definition outcome (n : Z) (js : list Z) : gmap Z Z :=
  foldl (invertInto (Some <$> fisherYates (Z.to_nat (n - 1)) js (seqZ 0 n))) ∅
        (seqZ 0 n).

(** The probability that [generateRandomMapping n] returns [m] when the
    index vectors are equally likely: the share of the sample space whose
    outcome is [m]. *)
Definition probability (n : Z) (m : gmap Z Z) : Q :=
  Z.of_nat (length (filter (λ js, outcome n js = m) (sampleSpace n)))
  # Pos.of_nat (length (sampleSpace n)).

(** ** Re-tracing a ladder, in the words of the specification

    At each row, move right when a rung of that row starts at the current
    column, left when one starts at the column to its left, and stay
    otherwise; a column is traced from row 0 to the last row. *)
Definition walkRow (ls : list Rung) (r c : Z) : Z :=
  if decide (Exists (λ line, row line = r ∧ fromColumn line = c) ls) then c + 1
  else if decide (Exists (λ line, row line = r ∧ fromColumn line = c - 1) ls) then c - 1
  else c.

Definition walk (ls : list Rung) (numRows c : Z) : Z :=
  foldl (λ c r, walkRow ls r c) c (seqZ 0 numRows).

(** ** Inputs the specification calls invalid *)
Definition invalidInput (participants0 results0 : list string) : Prop :=
  (length participants0 < 2)%nat ∨ (length results0 < 2)%nat ∨
  length participants0 ≠ length results0 ∨ (100 < length participants0)%nat ∨
  ¬ NoDup participants0.

(** ** Sample data *)

(** A random source that alternates between 1/4 and 3/4. *)
Definition quarterSource : RandomSource :=
  {| draws := λ k, if Nat.even k then 1 # 4 else 3 # 4; cursor := 0 |}.

(** A ladder of two columns whose single rung exchanges them. *)
Definition crossedLadder : LadderData :=
  {| participants := ["A"; "B"];
     results := ["X"; "Y"];
     verticalLines := 2;
     rows := 1;
     horizontalLines := [{| fromColumn := 0; row := 0 |}];
     mapping := calculateMapping 2 1 [{| fromColumn := 0; row := 0 |}] |}.

(** A ladder for two participants, the first of them named [A~]. *)
Definition tildeLadder : LadderData :=
  {| participants := ["A~"; "B"];
     results := ["X"; "Y"];
     verticalLines := 2;
     rows := 1;
     horizontalLines := [];
     mapping := calculateMapping 2 1 [] |}.

(** The address of the published page. *)
Definition pageOrigin : string := "https://homura-rtzr.github.io".
Definition pagePathname : string := "/ladder-draw/".

(** * Further vocabulary *)

(** One step of a traced path: straight down to the next row in the same
    column, or across a rung of the ladder within a row, from the position
    marked [beforeMove] to the one marked [afterMove]. *)
Definition pathStep (ls : list Rung) (a b : Path.Position) : Prop :=
  (Path.col b = Path.col a ∧ Path.row b = Path.row a + 1 ∧
   Path.beforeMove a = false ∧ Path.afterMove b = false) ∨
  (Path.row b = Path.row a ∧ Path.beforeMove a = true ∧ Path.afterMove b = true ∧
   ∃ line, line ∈ ls ∧ row line = Path.row a ∧
           ((fromColumn line = Path.col a ∧ Path.col b = Path.col a + 1) ∨
            (fromColumn line + 1 = Path.col a ∧ Path.col b = Path.col a - 1))).

(** Every two consecutive entries of a list are related. *)
Definition linked {A} (R : A → A → Prop) (l : list A) : Prop :=
  ∀ i a b, l !! i = Some a → l !! S i = Some b → R a b.

(** [a] comes before [b] in the reading order of the ladder, row by row
    and from left to right, and two rungs of one row leave a column free
    between their starts. *)
Definition rungBefore (a b : Rung) : Prop :=
  row a < row b ∨ (row a = row b ∧ fromColumn a + 2 ≤ fromColumn b).

(** A text without leading or trailing white space, as [trim] leaves it. *)
Definition trimmed (s : string) : Prop :=
  ∀ w, w ∈ Main.whiteSpace →
       ¬ w `prefix_of` String.list_ascii_of_string s ∧ ¬ w `suffix_of` String.list_ascii_of_string s.

(** The characters of a text. *)
Definition hasChar (c : ascii) (s : string) : Prop := c ∈ String.list_ascii_of_string s.

(** An item as the parsers return it: not empty, trimmed, on one line. *)
Definition cleanItem (s : string) : Prop :=
  s ≠ "" ∧ trimmed s ∧ ¬ hasChar "010"%char s.

(** ** The page and its ladder *)

(** A ladder as the page may hold one: between 2 and 100 participants with
    different names, as many results, a mapping that is a permutation of
    the columns, and rungs that realise it. *)
Definition wellFormed (ld : LadderData) : Prop :=
  let n := Z.of_nat (length (participants ld)) in
  2 ≤ n ≤ 100 ∧ NoDup (participants ld) ∧
  length (results ld) = length (participants ld) ∧
  verticalLines ld = n ∧
  isPermutationOf n (mapping ld) ∧
  nonOverlapping (horizontalLines ld) ∧
  columnsWithin n (horizontalLines ld) ∧
  Forall (λ line, 1 ≤ row line < rows ld) (horizontalLines ld) ∧
  calculateMapping n (rows ld) (horizontalLines ld) = mapping ld.

(** The page as the script finds it: no ladder and no highlight (the
    initial [state]), the input section shown and the result section
    hidden. *)
Definition initialState (st : Main.State) : Prop :=
  Main.ladderData (Main.page st) = None ∧ Main.highlightIndex st = -1 ∧
  Main.inputSectionHidden (Main.page st) = false ∧
  Main.resultSectionHidden (Main.page st) = true.

(** What the visible page lets the user do: the start button belongs to
    the input section, and the items of the result summary are those of
    the ladder that is shown. *)
Definition enabled (st : Main.State) (e : Main.Event) : Prop :=
  match e with
  | Main.ClickStart => Main.inputSectionHidden (Main.page st) = false
  | Main.ClickResultItem index =>
      Main.resultSectionHidden (Main.page st) = false ∧
      ∃ ld, Main.ladderData (Main.page st) = Some ld ∧
            0 ≤ index < Z.of_nat (length (getAllResults ld))
  | _ => True
  end.

(** The states of the page that can be reached, with the random source
    as it is then. *)
Inductive reachable : Main.State → RandomSource → Prop :=
| reachable_init st s :
    initialState st → valid_source s → reachable (Main.init st) s
| reachable_step st s e :
    reachable st s → enabled st e →
    reachable (Main.dispatch e st s).1 (Main.dispatch e st s).2.

(** The page is consistent: the counters show the numbers of entries of
    the two text areas; without a ladder the input section is shown and
    nothing is highlighted; with a ladder the result section is shown, the
    ladder is well formed and the highlight, if any, is one of its
    participants. *)
Definition consistent (st : Main.State) : Prop :=
  Main.participantCount st =
    pretty (length (Main.parseTextareaLines Main.trim
                      (Main.participantsTextarea (Main.page st)))) ∧
  Main.resultCount st =
    pretty (length (Main.parseTextareaLines Main.trim
                      (Main.resultsTextarea (Main.page st)))) ∧
  match Main.ladderData (Main.page st) with
  | None =>
      Main.highlightIndex st = -1 ∧
      Main.inputSectionHidden (Main.page st) = false ∧
      Main.resultSectionHidden (Main.page st) = true
  | Some ld =>
      Main.inputSectionHidden (Main.page st) = true ∧
      Main.resultSectionHidden (Main.page st) = false ∧
      wellFormed ld ∧
      -1 ≤ Main.highlightIndex st < Z.of_nat (length (participants ld))
  end.

(** ** Base64 *)

(** The six-bit values that [btoa] writes for a list of bytes, without
    the padding. *)
Fixpoint sextets (bytes : list N) : list N :=
  match bytes with
  | [] => []
  | [a] => [a / 4; a mod 4 * 16]
  | [a; b] => [a / 4; a mod 4 * 16 + b / 16; b mod 16 * 4]
  | a :: b :: c :: rest =>
      a / 4 :: a mod 4 * 16 + b / 16 :: b mod 16 * 4 + c / 64 :: c mod 64 :: sextets rest
  end%N.

(** The padding that follows them. *)
Definition padding (bytes : list N) : list N :=
  match (length bytes mod 3)%nat with
  | 1%nat => [61; 61]
  | 2%nat => [61]
  | _ => []
  end%N.

(** A byte of a text that [btoa] turns into letters, digits and [/] only:
    an ASCII character other than [>] and [~]. *)
Definition plainByte (b : N) : Prop := (b < 128 ∧ b ≠ 62 ∧ b ≠ 126)%N.

(** ** More sample data *)

(** Three rungs that reverse three columns. *)
Definition zigzagRungs : list Rung :=
  [{| fromColumn := 0; row := 0 |}; {| fromColumn := 1; row := 1 |};
   {| fromColumn := 0; row := 2 |}].

(** The page before anything is typed, with an empty storage. *)
Definition blankPage : Main.Page :=
  {| Main.participantsTextarea := "";
     Main.resultsTextarea := "";
     Main.errorMessage := "";
     Main.errorMessageHidden := true;
     Main.inputSectionHidden := false;
     Main.resultSectionHidden := true;
     Main.ladderData := None |}.

Definition blankState : Main.State :=
  {| Main.page := blankPage;
     Main.highlightIndex := -1;
     Main.participantCount := "";
     Main.resultCount := "";
     Main.localStorage := Some ∅ |}.

(** The page loaded again, with the storage another state left. *)
Definition reloadedState (st : Main.State) : Main.State :=
  {| Main.page := blankPage;
     Main.highlightIndex := -1;
     Main.participantCount := "";
     Main.resultCount := "";
     Main.localStorage := Main.localStorage st |}.

(** Two names and two prizes, one per line. *)
Definition namesText : string := Main.joinLines ["A"; "B"].
Definition prizesText : string := Main.joinLines ["X"; "Y"].

(** A stand-in for the check of [new URL] in the examples: the texts that
    start with the origin of the sample page, which [new URL] accepts. *)
Definition sampleURLCanParse (url : string) : bool :=
  String.prefix "https://homura-rtzr.github.io/" url.

(** [decodeURIComponent] and [JSON.parse] on the data of the link of
    [crossedLadder], and nowhere else. *)
Definition sampleDecodeURIComponent (text : string) : option string :=
  if decide (text = Share.encodeURIComponent (Share.JSON_stringify ["A"; "B"] ["X"; "Y"]))
  then Some (Share.JSON_stringify ["A"; "B"] ["X"; "Y"])
  else None.

Definition sampleJSONParse (text : string) : option Share.JsValue :=
  if decide (text = Share.JSON_stringify ["A"; "B"] ["X"; "Y"])
  then Some (Share.JsObject
               [("p", Share.JsArray [Share.JsString "A"; Share.JsString "B"]);
                ("r", Share.JsArray [Share.JsString "X"; Share.JsString "Y"])])
  else None.

(** ** Which draws a computation reads *)

(** Two sources at the same position whose draws agree before [c]. *)
Definition agreeBefore (c : nat) (s s' : RandomSource) : Prop :=
  cursor s' = cursor s ∧ ∀ t, (t < c)%nat → draws s' t = draws s t.

(** A computation that only moves the cursor forward, and whose result and
    final position are settled by the draws it has passed. *)
Definition readsForward {A} (m : Rand A) : Prop :=
  ∀ s, (cursor s ≤ cursor (m s).2)%nat ∧ draws (m s).2 = draws s ∧
       ∀ s', agreeBefore (cursor (m s).2) s s' →
             (m s').1 = (m s).1 ∧ cursor (m s').2 = cursor (m s).2.

(** The source [s] with the draws from position [c] on replaced by the
    doubles that make the shuffle choose the indices [js]. *)
Definition spliceChoices (s : RandomSource) (c k : nat) (js : list Z) : RandomSource :=
  {| draws := λ t, if decide (t < c)%nat then draws s t
                   else draws (sourceOfChoices k js) (t - c)%nat;
     cursor := cursor s |}.

(** * Properties *)

(** ** Loops in the random monad *)

Section ForEach.
Context {A S : Type}.
Implicit Types (xs : list A) (body : A → S → Rand S).

Lemma forEachM_nil body acc s : forEachM [] body acc s = (acc, s).
Proof. reflexivity. Qed.

Lemma forEachM_cons x xs body acc s :
  forEachM (x :: xs) body acc s =
  forEachM xs body (body x acc s).1 (body x acc s).2.
Proof. simpl. unfold bind. by destruct (body x acc s). Qed.

Lemma forEachM_app xs ys body acc s :
  forEachM (xs ++ ys) body acc s =
  forEachM ys body (forEachM xs body acc s).1 (forEachM xs body acc s).2.
Proof.
  revert acc s. induction xs as [|x xs IH]; intros acc s; [done|].
  rewrite <- app_comm_cons, !forEachM_cons. apply IH.
Qed.

(** An invariant of the accumulator and the source is kept by the loop. *)
Lemma forEachM_invariant (P : S → RandomSource → Prop) xs body acc s :
  P acc s →
  (∀ x acc s, x ∈ xs → P acc s → P (body x acc s).1 (body x acc s).2) →
  P (forEachM xs body acc s).1 (forEachM xs body acc s).2.
Proof.
  revert acc s. induction xs as [|x xs IH]; intros acc s H0 Hstep; [done|].
  rewrite forEachM_cons. apply IH.
  - apply Hstep; [left|done].
  - intros y acc' s' Hy. apply Hstep. by right.
Qed.
End ForEach.

Lemma Math_random_draws s : draws (Math_random s).2 = draws s.
Proof. reflexivity. Qed.

(** ** Natural rungs: rows *)

Lemma scanColumn_lines r col st s :
  (scanColumn r col st s).1.1 = st.1 ∨
  (scanColumn r col st s).1.1 = st.1 ++ [{| fromColumn := col; row := r |}].
Proof.
  destruct st as [ls used]. unfold scanColumn. case_decide; [by left|].
  unfold bind. simpl. destruct (Qlt_bool _ _); [by right|by left].
Qed.

Lemma scanRow_rows (P : Rung → Prop) numColumns r ls s :
  (∀ col, P {| fromColumn := col; row := r |}) →
  Forall P ls → Forall P (scanRow numColumns r ls s).1.
Proof.
  intros HP Hls. unfold scanRow, bind.
  pose proof (forEachM_invariant (λ st _, Forall P st.1)
    (seqZ 0 (numColumns - 1)) (scanColumn r) (ls, ∅) s) as Hinv.
  destruct (forEachM _ _ _ s) as [st s']. simpl. apply Hinv; [done|].
  intros col st0 s0 _ H0.
  destruct (scanColumn_lines r col st0 s0) as [-> | ->]; [done|].
  apply Forall_app; split; [done|]. by apply Forall_singleton.
Qed.

Lemma generateRandomLines_row_range numColumns numRows s :
  Forall (λ line, 1 ≤ row line ≤ numRows - 1)
         (generateRandomLines numColumns numRows s).1.
Proof.
  unfold generateRandomLines.
  apply (forEachM_invariant
    (λ ls _, Forall (λ line, 1 ≤ row line ≤ numRows - 1) ls)); [done|].
  intros r ls s' Hr Hls. apply elem_of_seqZ in Hr.
  apply scanRow_rows; [|done]. intros col. simpl. lia.
Qed.

(** C9. Every natural rung lies in a row from 1 to [numRows - 1]: row 0
    never receives a natural rung. This holds for every number of columns
    and of rows, and every random source. *)
Theorem generateRandomLines_rows numColumns numRows s :
  Forall (λ line, 1 ≤ row line ≤ numRows - 1 ∧ row line ≠ 0)
         (generateRandomLines numColumns numRows s).1.
Proof.
  eapply Forall_impl; [apply generateRandomLines_row_range|].
  simpl. intros line. lia.
Qed.

(** ** Following the rungs of a row *)

Lemma elem_of_touched c line :
  c ∈ touched line ↔ fromColumn line = c ∨ fromColumn line = c - 1.
Proof. unfold touched. rewrite elem_of_union, !elem_of_singleton. lia. Qed.

Lemma touched_disjoint a b :
  touched a ## touched b ↔
  fromColumn a + 1 < fromColumn b ∨ fromColumn b + 1 < fromColumn a.
Proof.
  split.
  - intros Hd.
    assert (fromColumn a ∉ touched b) as H1
      by (intros ?; apply (Hd (fromColumn a)); [apply elem_of_touched; lia|done]).
    assert (fromColumn a + 1 ∉ touched b) as H2
      by (intros ?; apply (Hd (fromColumn a + 1)); [apply elem_of_touched; lia|done]).
    rewrite elem_of_touched in H1, H2. lia.
  - intros Hlt c Ha Hb. rewrite elem_of_touched in Ha, Hb. lia.
Qed.

Lemma followRow_no_match ls c :
  (∀ line, line ∈ ls → c ∉ touched line) → followRow ls c = c.
Proof.
  induction ls as [|l ls IH]; intros H; [done|]. simpl.
  assert (c ∉ touched l) as Hl by (apply H; left).
  rewrite elem_of_touched in Hl.
  repeat case_decide; try lia. apply IH. intros line Hin. apply H. by right.
Qed.

Lemma followRow_app_no_match ls ls' c :
  (∀ line, line ∈ ls → c ∉ touched line) → followRow (ls ++ ls') c = followRow ls' c.
Proof.
  induction ls as [|l ls IH]; intros H; [done|]. simpl.
  assert (c ∉ touched l) as Hl by (apply H; left).
  rewrite elem_of_touched in Hl.
  repeat case_decide; try lia. apply IH. intros line Hin. apply H. by right.
Qed.

Lemma followRow_app_match ls ls' c :
  (∃ line, line ∈ ls ∧ c ∈ touched line) → followRow (ls ++ ls') c = followRow ls c.
Proof.
  induction ls as [|l ls IH]; intros (line & Hin & Hc).
  - by apply elem_of_nil in Hin.
  - simpl. repeat case_decide; try done.
    apply IH. apply elem_of_cons in Hin as [-> | Hin]; [|eauto].
    apply elem_of_touched in Hc. lia.
Qed.

(** A path that moves in a row moves along a rung that touches both its
    old and its new column. *)
Lemma followRow_moved ls c :
  followRow ls c ≠ c →
  ∃ line, line ∈ ls ∧ c ∈ touched line ∧ followRow ls c ∈ touched line.
Proof.
  induction ls as [|l ls IH]; simpl; [done|].
  repeat case_decide; intros Hne.
  - exists l. rewrite !elem_of_touched. split; [left|lia].
  - exists l. rewrite !elem_of_touched. split; [left|lia].
  - destruct (IH Hne) as (line & ? & ? & ?). exists line. split; [by right|done].
Qed.

Lemma followRow_singleton f r c :
  followRow [{| fromColumn := f; row := r |}] c = swapCol f c.
Proof. unfold swapCol. simpl. repeat case_decide; lia. Qed.

Lemma swapCol_involutive c x : swapCol c (swapCol c x) = x.
Proof. unfold swapCol. repeat case_decide; lia. Qed.

(** Appending a rung whose two columns no rung of the row touches. *)
Lemma followRow_snoc_free ls f r c :
  (∀ line, line ∈ ls → ¬ (f ∈ touched line ∨ f + 1 ∈ touched line)) →
  followRow (ls ++ [{| fromColumn := f; row := r |}]) c =
  if decide (c = f ∨ c = f + 1) then swapCol f c else followRow ls c.
Proof.
  intros Hfree. case_decide as Hc.
  - rewrite followRow_app_no_match; [apply followRow_singleton|].
    intros line Hin. specialize (Hfree line Hin). destruct Hc; subst; tauto.
  - destruct (decide (Exists (λ line, c ∈ touched line) ls)) as [Hm|Hm].
    + apply followRow_app_match. by apply Exists_exists.
    + assert (∀ line, line ∈ ls → c ∉ touched line) as Hno.
      { intros line Hin Ht. apply Hm, Exists_exists. eauto. }
      rewrite followRow_app_no_match, followRow_singleton, followRow_no_match by done.
      unfold swapCol. repeat case_decide; lia.
Qed.

Lemma followRow_avoids_free ls f c :
  (∀ line, line ∈ ls → ¬ (f ∈ touched line ∨ f + 1 ∈ touched line)) →
  ¬ (c = f ∨ c = f + 1) →
  ¬ (followRow ls c = f ∨ followRow ls c = f + 1).
Proof.
  intros Hfree Hc. destruct (decide (followRow ls c = c)) as [->|Hne]; [done|].
  destruct (followRow_moved ls c Hne) as (line & Hin & _ & Hd).
  specialize (Hfree line Hin). intros [Heq|Heq]; rewrite Heq in Hd; tauto.
Qed.

Lemma followRow_snoc_swap ls f r c :
  (∀ line, line ∈ ls → ¬ (f ∈ touched line ∨ f + 1 ∈ touched line)) →
  followRow (ls ++ [{| fromColumn := f; row := r |}]) c = swapCol f (followRow ls c).
Proof.
  intros Hfree. rewrite followRow_snoc_free by done. case_decide as Hc.
  - rewrite followRow_no_match; [done|].
    intros line Hin. specialize (Hfree line Hin). destruct Hc; subst; tauto.
  - pose proof (followRow_avoids_free ls f c Hfree Hc).
    unfold swapCol. repeat case_decide; lia.
Qed.

(** ** The path tracer *)

Lemma foldl_ext_in {A B} (f g : A → B → A) (l : list B) (a : A) :
  (∀ a x, x ∈ l → f a x = g a x) → foldl f a l = foldl g a l.
Proof.
  revert a. induction l as [|x l IH]; intros a H; [done|]. simpl.
  rewrite H by left. apply IH. intros a' y Hy. apply H. by right.
Qed.

Lemma foldl_insert_lookup {V} (f : Z → V) (ks : list Z) (m0 : gmap Z V) (k : Z) :
  foldl (λ m k, <[k := f k]> m) m0 ks !! k =
  if decide (k ∈ ks) then Some (f k) else m0 !! k.
Proof.
  revert m0. induction ks as [|k' ks IH]; intros m0.
  - rewrite decide_False; [done|]. apply not_elem_of_nil.
  - simpl foldl.
    rewrite IH. destruct (decide (k ∈ ks)) as [Hin|Hin].
    + rewrite decide_True; [done|by right].
    + destruct (decide (k = k')) as [->|Hne].
      * rewrite decide_True by left. apply lookup_insert_eq.
      * rewrite decide_False; [by apply lookup_insert_ne|].
        intros [?|?]%elem_of_cons; done.
Qed.

Lemma rowLines_app r ls ls' : rowLines r (ls ++ ls') = rowLines r ls ++ rowLines r ls'.
Proof. apply filter_app. Qed.

Lemma rowLines_cons r l ls :
  rowLines r (l :: ls) = if decide (row l = r) then l :: rowLines r ls else rowLines r ls.
Proof. unfold rowLines. rewrite filter_cons. by case_decide. Qed.

Lemma elem_of_rowLines r ls line : line ∈ rowLines r ls ↔ row line = r ∧ line ∈ ls.
Proof. unfold rowLines. by rewrite list_elem_of_filter. Qed.

Lemma foldl_addToRow_lookup ls (m : gmap Z (list Rung)) r :
  foldl addToRow m ls !! r = (λ old, old ++ rowLines r ls) <$> (m !! r).
Proof.
  revert m. induction ls as [|l ls IH]; intros m; simpl.
  - destruct (m !! r); simpl; [by rewrite app_nil_r|done].
  - rewrite IH, rowLines_cons. unfold addToRow.
    destruct (decide (row l = r)) as [->|Hne].
    + destruct (m !! r) as [old|] eqn:Hm; simpl.
      * rewrite lookup_insert_eq. simpl. by rewrite <- app_assoc.
      * by rewrite Hm.
    + destruct (m !! row l) eqn:Hm; [|done]. by rewrite lookup_insert_ne.
Qed.

Lemma linesByRow_lookup numRows ls r :
  linesByRow numRows ls !! r =
  if decide (0 ≤ r < numRows) then Some (rowLines r ls) else None.
Proof.
  unfold linesByRow. rewrite foldl_addToRow_lookup.
  rewrite (foldl_insert_lookup (λ _, [])), lookup_empty.
  destruct (decide (0 ≤ r < numRows)) as [Hr|Hr].
  - rewrite decide_True; [done|]. apply elem_of_seqZ. lia.
  - rewrite decide_False; [done|]. rewrite elem_of_seqZ. lia.
Qed.

Lemma traceColumn_traceRows numRows ls c :
  traceColumn (linesByRow numRows ls) numRows c = traceRows ls (seqZ 0 numRows) c.
Proof.
  unfold traceColumn, traceRows. apply foldl_ext_in.
  intros a r Hr%elem_of_seqZ. rewrite linesByRow_lookup, decide_True by lia. done.
Qed.

Lemma calculateMapping_lookup numColumns numRows ls c :
  calculateMapping numColumns numRows ls !! c =
  if decide (0 ≤ c < numColumns) then Some (traceRows ls (seqZ 0 numRows) c) else None.
Proof.
  unfold calculateMapping.
  rewrite (foldl_insert_lookup (traceColumn (linesByRow numRows ls) numRows)).
  rewrite lookup_empty, traceColumn_traceRows.
  destruct (decide (0 ≤ c < numColumns)) as [Hc|Hc].
  - rewrite decide_True; [done|]. apply elem_of_seqZ. lia.
  - rewrite decide_False; [done|]. rewrite elem_of_seqZ. lia.
Qed.

(** Two rung lists that the tracer walks alike have the same mapping. *)
Lemma calculateMapping_ext numColumns numRows ls ls' :
  (∀ c, traceRows ls (seqZ 0 numRows) c = traceRows ls' (seqZ 0 numRows) c) →
  calculateMapping numColumns numRows ls = calculateMapping numColumns numRows ls'.
Proof.
  intros H. apply map_eq. intros c. rewrite !calculateMapping_lookup.
  case_decide; [by rewrite H|done].
Qed.

Lemma traceRows_app ls rs rs' c :
  traceRows ls (rs ++ rs') c = traceRows ls rs' (traceRows ls rs c).
Proof. unfold traceRows. apply foldl_app. Qed.

Lemma traceRows_ext ls ls' rs c :
  (∀ r, r ∈ rs → rowLines r ls = rowLines r ls') →
  traceRows ls rs c = traceRows ls' rs c.
Proof.
  intros H. unfold traceRows. apply foldl_ext_in. intros a r Hr. by rewrite H.
Qed.

(** ** Decorative filling *)

Lemma tracks_app_other u r ls ls' :
  tracks u r ls → (∀ line, line ∈ ls' → row line ≠ r) → tracks u r (ls ++ ls').
Proof.
  intros Ht Hother c. rewrite (Ht c). split.
  - intros (line & Hin & ?). exists line. rewrite elem_of_app. eauto.
  - intros (line & [Hin|Hin]%elem_of_app & Hr & ?); [eauto|].
    by destruct (Hother line Hin).
Qed.

Lemma tracks_snoc u r ls col :
  tracks u r ls →
  tracks (u ∪ {[col]} ∪ {[col + 1]}) r (ls ++ [{| fromColumn := col; row := r |}]).
Proof.
  intros Ht c. rewrite !elem_of_union, !elem_of_singleton, (Ht c). split.
  - intros [[(line & Hin & ?)| ->]| ->].
    + exists line. rewrite elem_of_app. eauto.
    + eexists. rewrite elem_of_app, list_elem_of_singleton, elem_of_touched.
      split; [by right|]. simpl. split; [done|lia].
    + eexists. rewrite elem_of_app, list_elem_of_singleton, elem_of_touched.
      split; [by right|]. simpl. split; [done|lia].
  - intros (line & [Hin| ->%list_elem_of_singleton]%elem_of_app & Hr & Hc).
    + left. left. eauto.
    + apply elem_of_touched in Hc. simpl in Hc.
      destruct Hc; [left; right|right]; lia.
Qed.

Lemma foldl_markUsed_tracks ls (m0 : gmap Z (gset Z)) r c :
  c ∈ default ∅ (foldl markUsed m0 ls !! r) ↔
  c ∈ default ∅ (m0 !! r) ∨ ∃ line, line ∈ ls ∧ row line = r ∧ c ∈ touched line.
Proof.
  revert m0. induction ls as [|l ls IH]; intros m0; simpl.
  - split; [by left|]. intros [?|(line & Hin & _)]; [done|].
    by apply elem_of_nil in Hin.
  - rewrite IH. unfold markUsed at 1.
    destruct (decide (row l = r)) as [Heq|Hne].
    + rewrite Heq, lookup_insert_eq. simpl.
      rewrite !elem_of_union, !elem_of_singleton. split.
      * intros [[[?| ->]| ->]|(line & Hin & ?)]; [by left|..].
        -- right. exists l. rewrite elem_of_touched. split; [left|]. split; [done|lia].
        -- right. exists l. rewrite elem_of_touched. split; [left|]. split; [done|lia].
        -- right. exists line. split; [by right|done].
      * intros [?|(line & [->|Hin]%elem_of_cons & Hr & Hc)].
        -- by left; left; left.
        -- apply elem_of_touched in Hc. left.
           destruct Hc; [left; right|right]; lia.
        -- right. eauto.
    + rewrite lookup_insert_ne by done. split.
      * intros [?|(line & Hin & ?)]; [by left|]. right. exists line. split; [by right|done].
      * intros [?|(line & [->|Hin]%elem_of_cons & Hr & Hc)]; [by left|done|].
        right. eauto.
Qed.

Lemma elem_of_everySecond fuel from to r :
  r ∈ everySecond fuel from to → from ≤ r < to.
Proof.
  revert from. induction fuel as [|fuel IH]; intros from; simpl.
  - by intros ?%elem_of_nil.
  - case_decide; [|by intros ?%elem_of_nil].
    intros [->|Hin]%elem_of_cons; [lia|]. apply IH in Hin. lia.
Qed.

Section FillInduction.
Variable P : list Rung → Prop.
Variables numRows numColumns : Z.

(** What one successful placement does: a canceling pair goes to a place
    where neither row has a rung touching its two columns. *)
Hypothesis P_pair : ∀ result r col,
  P result → 1 ≤ r → r + 1 < numRows → 0 ≤ col < numColumns - 1 →
  (∀ line, line ∈ result → row line = r ∨ row line = r + 1 →
           ¬ (col ∈ touched line ∨ col + 1 ∈ touched line)) →
  P (result ++ cancelingPair col r).

Lemma fillColumn_inner r result0 col st s :
  1 ≤ r → r + 1 < numRows → 0 ≤ col < numColumns - 1 →
  fillInner P r result0 st → fillInner P r result0 (fillColumn r col st s).1.
Proof.
  intros Hr1 Hr2 Hcol (HP & Hthis & Hnext & Hother).
  destruct st as [[result uThis] uNext]. simpl in *.
  unfold fillColumn. case_decide as H1; [done|]. case_decide as H2; [done|].
  unfold bind. simpl. destruct (Qlt_bool _ _); [|done].
  unfold fillInner. simpl. split_and!.
  - apply P_pair; try done. intros line Hin [Hrow|Hrow] Ht.
    + apply H1. destruct Ht; [left|right]; apply Hthis; eauto.
    + apply H2. destruct Ht; [left|right]; apply Hnext; eauto.
  - replace (result ++ _) with
      ((result ++ [{| fromColumn := col; row := r |}])
         ++ [{| fromColumn := col; row := r + 1 |}]) by by rewrite <- app_assoc.
    apply tracks_app_other; [by apply tracks_snoc|].
    intros line ->%list_elem_of_singleton. simpl. lia.
  - replace (result ++ _) with
      ((result ++ [{| fromColumn := col; row := r |}])
         ++ [{| fromColumn := col; row := r + 1 |}]) by by rewrite <- app_assoc.
    apply tracks_snoc. apply tracks_app_other; [done|].
    intros line ->%list_elem_of_singleton. simpl. lia.
  - intros r' u Hr' Hr'' Hu. apply tracks_app_other; [by apply Hother|].
    intros line Hin. unfold cancelingPair in Hin.
    apply elem_of_cons in Hin as [->|Hin]; [done|].
    apply list_elem_of_singleton in Hin as ->. done.
Qed.

Lemma fillRowPair_outer r st s :
  1 ≤ r → r + 1 < numRows → fillOuter P st → fillOuter P (fillRowPair numColumns r st s).1.
Proof.
  intros Hr1 Hr2 [HP Hused]. destruct st as [result usedByRow]. simpl in *.
  unfold fillRowPair, bind.
  assert (fillInner P r result
    (result, default ∅ (usedByRow !! r), default ∅ (usedByRow !! (r + 1)))) as H0.
  { unfold fillInner. simpl. split_and!; try done. }
  assert (∀ col st0 s0, col ∈ seqZ 0 (numColumns - 1) →
            fillInner P r result st0 → fillInner P r result (fillColumn r col st0 s0).1) as Hstep.
  { intros col st0 s0 Hcol%elem_of_seqZ Hst0.
    apply fillColumn_inner; [done|done|lia|done]. }
  pose proof (forEachM_invariant (λ st _, fillInner P r result st) _ _ _ s H0 Hstep) as Hinv.
  clear H0 Hstep.
  destruct (forEachM _ _ _ s) as [[[result' uThis'] uNext'] s']. simpl in *.
  destruct Hinv as (HP' & Hthis & Hnext & Hother).
  simpl in *. split; [done|]. intros r'. simpl.
  destruct (decide (r' = r + 1)) as [->|Hne1].
  { by rewrite lookup_insert_eq. }
  rewrite lookup_insert_ne by done.
  destruct (decide (r' = r)) as [->|Hne2].
  { by rewrite lookup_insert_eq. }
  rewrite lookup_insert_ne by done. by apply Hother.
Qed.

(** The filler only ever appends canceling pairs at free places. *)
Lemma fillWithDecorativePairs_ind lines0 s :
  P lines0 → P (fillWithDecorativePairs lines0 numRows numColumns s).1.
Proof.
  intros HP0. unfold fillWithDecorativePairs, bind.
  pose proof (forEachM_invariant (λ st _, fillOuter P st)
    (everySecond (Z.to_nat (numRows - 2)) 1 (numRows - 1))
    (fillRowPair numColumns) (lines0, foldl markUsed ∅ lines0) s) as Hinv.
  destruct (forEachM _ _ _ s) as [st s']. simpl in *. apply Hinv.
  - split; [done|]. intros r c. simpl.
    rewrite foldl_markUsed_tracks, lookup_empty. simpl.
    rewrite elem_of_empty. tauto.
  - intros r st0 s0 Hr%elem_of_everySecond Hst0.
    apply fillRowPair_outer; [lia|lia|done].
Qed.
End FillInduction.

Lemma rowLines_cancelingPair r' col r :
  rowLines r' (cancelingPair col r) =
  if decide (r' = r) then [{| fromColumn := col; row := r |}]
  else if decide (r' = r + 1) then [{| fromColumn := col; row := r + 1 |}]
  else [].
Proof.
  unfold cancelingPair. rewrite !rowLines_cons. simpl.
  repeat case_decide; try lia; done.
Qed.

Lemma seqZ_split_pair r numRows :
  0 ≤ r → r + 1 < numRows →
  seqZ 0 numRows = seqZ 0 r ++ [r; r + 1] ++ seqZ (r + 2) (numRows - r - 2).
Proof.
  intros H0 H1.
  replace numRows with (r + (2 + (numRows - r - 2))) at 1 by lia.
  rewrite seqZ_app by lia. f_equal. rewrite seqZ_app by lia.
  replace (0 + r + 2) with (r + 2) by lia. f_equal.
  rewrite (seqZ_cons (0 + r) 2) by lia.
  rewrite (seqZ_cons (Z.succ (0 + r))) by lia.
  rewrite seqZ_nil by lia. do 2 f_equal; lia.
Qed.

(** A canceling pair placed where neither of its rows has a rung touching
    its two columns leaves every traced path where it was. *)
Lemma cancelingPair_neutral result r col numRows c :
  0 ≤ r → r + 1 < numRows →
  (∀ line, line ∈ result → row line = r ∨ row line = r + 1 →
           ¬ (col ∈ touched line ∨ col + 1 ∈ touched line)) →
  traceRows (result ++ cancelingPair col r) (seqZ 0 numRows) c =
  traceRows result (seqZ 0 numRows) c.
Proof.
  intros H0 H1 Hfree. rewrite (seqZ_split_pair r) by done. rewrite !traceRows_app.
  assert (traceRows (result ++ cancelingPair col r) (seqZ 0 r) c
          = traceRows result (seqZ 0 r) c) as ->.
  { apply traceRows_ext. intros r' Hr'%elem_of_seqZ.
    rewrite rowLines_app, rowLines_cancelingPair.
    rewrite !decide_False by lia. apply app_nil_r. }
  generalize (traceRows result (seqZ 0 r) c). intros x.
  assert (traceRows (result ++ cancelingPair col r) [r; r + 1] x
          = traceRows result [r; r + 1] x) as ->.
  { unfold traceRows. simpl. rewrite !rowLines_app, !rowLines_cancelingPair.
    rewrite (decide_True (P := r = r)) by done.
    rewrite (decide_False (P := r + 1 = r)) by lia.
    rewrite (decide_True (P := r + 1 = r + 1)) by done.
    assert (∀ line, line ∈ rowLines r result →
              ¬ (col ∈ touched line ∨ col + 1 ∈ touched line)) as HA.
    { intros line [Hr Hin]%elem_of_rowLines. apply Hfree; auto. }
    assert (∀ line, line ∈ rowLines (r + 1) result →
              ¬ (col ∈ touched line ∨ col + 1 ∈ touched line)) as HB.
    { intros line [Hr Hin]%elem_of_rowLines. apply Hfree; auto. }
    rewrite (followRow_snoc_swap (rowLines r result)) by done.
    rewrite (followRow_snoc_free (rowLines (r + 1) result)) by done.
    destruct (decide (x = col ∨ x = col + 1)) as [Hx|Hx].
    - assert (followRow (rowLines r result) x = x) as Hstay.
      { apply followRow_no_match. intros line Hin. specialize (HA line Hin).
        destruct Hx; subst; tauto. }
      rewrite Hstay. rewrite decide_True.
      + rewrite swapCol_involutive. symmetry. apply followRow_no_match.
        intros line Hin. specialize (HB line Hin). destruct Hx; subst; tauto.
      + unfold swapCol. repeat case_decide; lia.
    - pose proof (followRow_avoids_free _ col x HA Hx) as Hd.
      assert (swapCol col (followRow (rowLines r result) x)
              = followRow (rowLines r result) x) as ->.
      { unfold swapCol. repeat case_decide; lia. }
      by rewrite decide_False. }
  apply traceRows_ext. intros r' Hr'%elem_of_seqZ.
  rewrite rowLines_app, rowLines_cancelingPair.
  rewrite !decide_False by lia. apply app_nil_r.
Qed.

Lemma fillWithDecorativePairs_trace lines0 numRows numColumns s c :
  traceRows (fillWithDecorativePairs lines0 numRows numColumns s).1 (seqZ 0 numRows) c
  = traceRows lines0 (seqZ 0 numRows) c.
Proof.
  revert c. apply (fillWithDecorativePairs_ind
    (λ result, ∀ c, traceRows result (seqZ 0 numRows) c
                    = traceRows lines0 (seqZ 0 numRows) c)); [|done].
  intros result r col IH Hr1 Hr2 _ Hfree c.
  rewrite cancelingPair_neutral by (done || lia). apply IH.
Qed.

(** C4. Decorative-fill neutrality: for every rung list, every number of
    rows and of columns and every random source, the mapping traced after
    [fillWithDecorativePairs] is the mapping traced before it. *)
Theorem fillWithDecorativePairs_neutral lines0 numRows numColumns s :
  calculateMapping numColumns numRows
    (fillWithDecorativePairs lines0 numRows numColumns s).1
  = calculateMapping numColumns numRows lines0.
Proof. apply calculateMapping_ext. intros c. apply fillWithDecorativePairs_trace. Qed.

(** ** Placing the adjustment rungs *)

Lemma placement_rows startRow ts placed k :
  placement startRow ts placed k →
  Forall (λ line, startRow ≤ row line < startRow + Z.of_nat k) placed.
Proof.
  induction 1 as [|ts placed k col _ IH Hfree|ts placed k col _ IH]; [done|..].
  - apply Forall_app. split; [done|]. apply Forall_singleton. simpl. lia.
  - apply Forall_app. split.
    + eapply Forall_impl; [exact IH|]. simpl. intros; lia.
    + apply Forall_singleton. simpl. lia.
Qed.

Lemma placement_columns startRow ts placed k :
  placement startRow ts placed k → fromColumn <$> placed = ts.
Proof.
  induction 1 as [|ts placed k col _ IH Hfree|ts placed k col _ IH]; [done|..];
    by rewrite fmap_app, IH.
Qed.

Lemma drop_to_last {A} (l : list A) m :
  S m = length l → ∃ x, l !! m = Some x ∧ drop m l = [x].
Proof.
  intros Hm. destruct (lookup_lt_is_Some_2 l m) as [x Hx]; [lia|].
  exists x. split; [done|]. rewrite (drop_S _ x) by done.
  by rewrite drop_ge by lia.
Qed.

Lemma placeTransposition_state startRow lines0 ts st col :
  adjustmentState startRow lines0 ts st →
  adjustmentState startRow lines0 (ts ++ [col]) (placeTransposition startRow st col).
Proof.
  destruct st as [[result rows] m]. intros (placed & Hres & Hpl & Hm & Htr).
  simpl in *. subst result. unfold placeTransposition.
  assert (∀ line, line ∈ placed → row line < startRow + Z.of_nat (length rows)) as Hbound.
  { intros line Hin. pose proof (placement_rows _ _ _ _ Hpl) as Hrows.
    rewrite Forall_forall in Hrows. apply Hrows in Hin. lia. }
  assert (adjustmentState startRow lines0 (ts ++ [col])
            ((lines0 ++ placed) ++ [{| fromColumn := col;
                row := startRow + Z.of_nat (length (rows ++ [{[col; col + 1]}])) - 1 |}],
             rows ++ [{[col; col + 1]}],
             Nat.sub (length (rows ++ [{[col; col + 1]}])) 1)) as Hnew.
  { rewrite length_app. simpl.
    replace (startRow + Z.of_nat (length rows + 1) - 1)
      with (startRow + Z.of_nat (length rows)) by lia.
    exists (placed ++ [{| fromColumn := col; row := startRow + Z.of_nat (length rows) |}]).
    simpl. split_and!.
    - by rewrite app_assoc.
    - rewrite length_app. simpl. replace (length rows + 1)%nat with (S (length rows)) by lia.
      by apply placement_new.
    - right. rewrite length_app. simpl. lia.
    - intros i u Hi. apply lookup_snoc_Some in Hi as [[Hlt Hi]|[-> <-]].
      + apply tracks_app_other; [by apply Htr|].
        intros line ->%list_elem_of_singleton. simpl.
        apply lookup_lt_Some in Hi. lia.
      + intros c. rewrite elem_of_union, !elem_of_singleton. split.
        * intros Hc. eexists. rewrite elem_of_app, list_elem_of_singleton.
          split; [by right|]. simpl. split; [done|]. rewrite elem_of_touched. simpl. lia.
        * intros (line & [Hin| ->%list_elem_of_singleton]%elem_of_app & Hr & Hc).
          -- apply Hbound in Hin. lia.
          -- apply elem_of_touched in Hc. simpl in Hc. lia. }
  destruct Hm as [[-> ->]|Hm].
  { simpl. by apply Hnew. }
  destruct (drop_to_last rows m Hm) as (u & Hu & ->). simpl.
  case_decide as Hfree; [|by apply Hnew].
  exists (placed ++ [{| fromColumn := col; row := startRow + Z.of_nat m |}]).
  simpl. rewrite length_alter. split_and!.
  - by rewrite app_assoc.
  - rewrite <- Hm. apply placement_same; [by rewrite Hm|].
    intros line Hin Hr Ht. destruct Hfree as [Hf1 Hf2].
    destruct Ht as [Ht|Ht]; [apply Hf1|apply Hf2]; apply (Htr m u Hu); eauto.
  - by right.
  - intros i u' Hi. destruct (decide (i = m)) as [->|Hne].
    + rewrite list_lookup_alter_eq, Hu in Hi. simpl in Hi. injection Hi as <-.
      apply tracks_snoc. by apply Htr.
    + rewrite list_lookup_alter_ne in Hi by done.
      apply tracks_app_other; [by apply Htr|].
      intros line ->%list_elem_of_singleton. simpl. lia.
Qed.

Lemma addAdjustmentLines_state startRow lines0 ts :
  adjustmentState startRow lines0 ts
    (foldl (placeTransposition startRow) (lines0, [], O) ts).
Proof.
  induction ts as [|col ts IH] using rev_ind.
  - exists []. simpl. split_and!; [by rewrite app_nil_r|constructor|by left|].
    intros i u Hi. by rewrite lookup_nil in Hi.
  - rewrite foldl_snoc. by apply placeTransposition_state.
Qed.

(** [addAdjustmentLines] keeps the given lines and appends a placement of
    the transpositions. *)
Lemma addAdjustmentLines_placement lines0 ts startRow numColumns :
  ∃ placed k,
    lines (addAdjustmentLines lines0 ts startRow numColumns) = lines0 ++ placed ∧
    numRows (addAdjustmentLines lines0 ts startRow numColumns)
      = startRow + Z.max 1 (Z.of_nat k) ∧
    placement startRow ts placed k.
Proof.
  unfold addAdjustmentLines.
  pose proof (addAdjustmentLines_state startRow lines0 ts) as (placed & H1 & H2 & _).
  destruct (foldl _ _ ts) as [[result rows] m]. simpl in *.
  exists placed, (length rows). done.
Qed.

Lemma placement_sorted startRow ts placed k :
  placement startRow ts placed k → StronglySorted Z.le (row <$> placed).
Proof.
  induction 1 as [|ts placed k col Hpl IH Hfree|ts placed k col Hpl IH];
    [constructor|..].
  - rewrite fmap_app. apply StronglySorted_app_2; [|done|repeat constructor].
    intros r1 r2 Hr1 ->%list_elem_of_singleton.
    apply list_elem_of_fmap in Hr1 as (line & -> & Hin).
    pose proof (placement_rows _ _ _ _ Hpl) as Hrows.
    rewrite Forall_forall in Hrows. apply Hrows in Hin. simpl. lia.
  - rewrite fmap_app. apply StronglySorted_app_2; [|done|repeat constructor].
    intros r1 r2 Hr1 ->%list_elem_of_singleton.
    apply list_elem_of_fmap in Hr1 as (line & -> & Hin).
    pose proof (placement_rows _ _ _ _ Hpl) as Hrows.
    rewrite Forall_forall in Hrows. apply Hrows in Hin. simpl. lia.
Qed.

(** C6. [addAdjustmentLines] keeps the given lines and appends one rung
    per transposition, in the order of the list, and the rows of these
    rungs never decrease along the list: a later transposition is never
    placed in an earlier row than an earlier one. *)
Theorem addAdjustmentLines_row_order lines0 ts startRow numColumns :
  ∃ placed,
    lines (addAdjustmentLines lines0 ts startRow numColumns) = lines0 ++ placed ∧
    fromColumn <$> placed = ts ∧
    StronglySorted Z.le (row <$> placed).
Proof.
  destruct (addAdjustmentLines_placement lines0 ts startRow numColumns)
    as (placed & k & Hl & _ & Hpl).
  exists placed. split_and!; [done|..].
  - by eapply placement_columns.
  - by eapply placement_sorted.
Qed.

(** ** Row non-overlap *)

Lemma nonOverlapping_pairwiseApart ls : nonOverlapping ls ↔ pairwiseApart ls.
Proof.
  induction ls as [|l ls IH]; simpl.
  - split; [done|]. intros _ i j a b _ Hi. by rewrite lookup_nil in Hi.
  - split.
    + intros H. split.
      * apply Forall_forall. intros b Hb Hrow.
        apply list_elem_of_lookup in Hb as [j Hj].
        by apply (H 0%nat (S j) l b).
      * apply IH. intros i j a b Hij Ha Hb.
        apply (H (S i) (S j)); [lia|done|done].
    + intros [Hl Hls]. rewrite Forall_forall in Hl.
      apply IH in Hls. intros [|i] [|j] a b Hij Ha Hb Hrow; simpl in *.
      * done.
      * injection Ha as <-. apply Hl; [|done]. by eapply list_elem_of_lookup_2.
      * injection Hb as <-. symmetry. apply Hl; [|done]. by eapply list_elem_of_lookup_2.
      * apply (Hls i j); [lia|done..].
Qed.

Lemma pairwiseApart_app ls ls' :
  pairwiseApart (ls ++ ls') ↔
  pairwiseApart ls ∧ pairwiseApart ls' ∧
  ∀ a b, a ∈ ls → b ∈ ls' → row a = row b → touched a ## touched b.
Proof.
  induction ls as [|l ls IH]; simpl.
  - split; [|tauto]. intros H. split_and!; [done..|]. intros a b Ha. by apply elem_of_nil in Ha.
  - rewrite IH, Forall_app, !Forall_forall. split.
    + intros [[H1 H2] (H3 & H4 & H5)]. split_and!; try done.
      intros a b [->|Ha]%elem_of_cons Hb; [by apply H2|by apply H5].
    + intros ([H1 H2] & H3 & H4). split_and!; try done.
      * intros b Hb. apply H4; [left|done].
      * intros a b Ha Hb. apply H4; [by right|done].
Qed.

Lemma pairwiseApart_Permutation ls ls' :
  ls ≡ₚ ls' → pairwiseApart ls → pairwiseApart ls'.
Proof.
  induction 1 as [|x l l' Hperm IH|x y l|l l' l'' _ IH1 _ IH2]; simpl; [done|..].
  - intros [H1 H2]. split; [by rewrite <- Hperm|auto].
  - intros [[Hxy Hy]%Forall_cons [Hx Hl]]. split_and!; try done.
    apply Forall_cons. split; [|done]. intros Hrow. symmetry. by apply Hxy.
  - auto.
Qed.

Lemma pairwiseApart_rowLines r ls : pairwiseApart ls → apart (rowLines r ls).
Proof.
  induction ls as [|l ls IH]; [done|]. intros [Hl Hls]. rewrite rowLines_cons.
  case_decide as Hr; [|auto]. simpl. split; [|auto].
  apply Forall_forall. intros b [Hb Hin]%elem_of_rowLines.
  rewrite Forall_forall in Hl. apply Hl; [done|congruence].
Qed.

Lemma free_disjoint col r line :
  ¬ (col ∈ touched line ∨ col + 1 ∈ touched line) →
  touched line ## touched {| fromColumn := col; row := r |}.
Proof.
  intros Hfree. apply touched_disjoint. simpl.
  rewrite !elem_of_touched in Hfree. lia.
Qed.

Lemma placement_apart startRow ts placed k :
  placement startRow ts placed k → pairwiseApart placed.
Proof.
  induction 1 as [|ts placed k col Hpl IH Hfree|ts placed k col Hpl IH]; [done|..].
  - apply pairwiseApart_app. split_and!; [done|by repeat constructor|].
    intros a b Ha ->%list_elem_of_singleton Hrow. simpl in Hrow.
    apply free_disjoint. by apply Hfree.
  - apply pairwiseApart_app. split_and!; [done|by repeat constructor|].
    intros a b Ha ->%list_elem_of_singleton Hrow. simpl in Hrow.
    pose proof (placement_rows _ _ _ _ Hpl) as Hrows.
    rewrite Forall_forall in Hrows. apply Hrows in Ha. lia.
Qed.

Lemma placement_columns_within startRow ts placed k n :
  placement startRow ts placed k →
  Forall (λ c, 0 ≤ c ∧ c + 1 < n) ts → columnsWithin n placed.
Proof.
  intros Hpl Hts. unfold columnsWithin.
  rewrite <- (placement_columns _ _ _ _ Hpl) in Hts.
  by apply Forall_fmap in Hts.
Qed.

(** The filler keeps the rows apart. *)
Lemma fillWithDecorativePairs_apart lines0 numRows numColumns s :
  pairwiseApart lines0 →
  pairwiseApart (fillWithDecorativePairs lines0 numRows numColumns s).1.
Proof.
  apply fillWithDecorativePairs_ind.
  intros result r col IH _ _ _ Hfree.
  apply pairwiseApart_app. split_and!; [done|..].
  - simpl. split_and!; try done. apply Forall_singleton. simpl. lia.
  - intros a b Ha Hb Hrow. unfold cancelingPair in Hb.
    apply elem_of_cons in Hb as [->|Hb].
    + apply free_disjoint. apply Hfree; auto.
    + apply list_elem_of_singleton in Hb as ->. apply free_disjoint. apply Hfree; auto.
Qed.

Lemma fillWithDecorativePairs_columns lines0 numRows numColumns s :
  columnsWithin numColumns lines0 →
  columnsWithin numColumns (fillWithDecorativePairs lines0 numRows numColumns s).1.
Proof.
  apply (fillWithDecorativePairs_ind (columnsWithin numColumns)).
  intros result r col IH _ _ Hcol _.
  apply Forall_app. split; [done|]. repeat constructor; simpl; lia.
Qed.

(** A loop invariant that may mention the items already visited. *)
Lemma forEachM_prefix_invariant {A S} (P : list A → S → Prop)
    (xs : list A) (body : A → S → Rand S) acc s :
  P [] acc →
  (∀ pre x post acc s, xs = pre ++ x :: post → P pre acc →
                       P (pre ++ [x]) (body x acc s).1) →
  P xs (forEachM xs body acc s).1.
Proof.
  intros H0 Hstep.
  assert (∀ todo pre acc s, xs = pre ++ todo → P pre acc →
            P (pre ++ todo) (forEachM todo body acc s).1) as Hgen.
  { induction todo as [|x todo IH]; intros pre acc' s' Hxs Hpre.
    - by rewrite app_nil_r.
    - rewrite forEachM_cons.
      replace (pre ++ x :: todo) with ((pre ++ [x]) ++ todo) by by rewrite <- app_assoc.
      apply IH; [by rewrite <- app_assoc|]. by eapply Hstep. }
  by apply (Hgen xs []).
Qed.

(** ** Natural rungs: non-overlap and columns *)

Lemma scanColumn_invariant numColumns (visited : list Z) r col st s :
  0 ≤ col < numColumns - 1 →
  pairwiseApart st.1 ∧ columnsWithin numColumns st.1 ∧ tracks st.2 r st.1 ∧
    Forall (λ line, row line ∈ visited ++ [r]) st.1 →
  let st' := (scanColumn r col st s).1 in
  pairwiseApart st'.1 ∧ columnsWithin numColumns st'.1 ∧ tracks st'.2 r st'.1 ∧
    Forall (λ line, row line ∈ visited ++ [r]) st'.1.
Proof.
  intros Hcol (Hap & Hcw & Htr & Hrows). destruct st as [ls used]. simpl in *.
  unfold scanColumn. case_decide as Hused; [done|].
  unfold bind. simpl. destruct (Qlt_bool _ _); [|done]. simpl. split_and!.
  - apply pairwiseApart_app. split_and!; [done|by repeat constructor|].
    intros a b Ha ->%list_elem_of_singleton Hrow. simpl in Hrow.
    apply free_disjoint. intros Ht. apply Hused.
    destruct Ht; [left|right]; apply Htr; eauto.
  - apply Forall_app. split; [done|]. apply Forall_singleton. simpl. lia.
  - by apply tracks_snoc.
  - apply Forall_app. split; [done|]. apply Forall_singleton. simpl.
    apply elem_of_app. right. by left.
Qed.

Lemma scanRow_invariant numColumns (visited : list Z) r ls s :
  r ∉ visited →
  pairwiseApart ls ∧ columnsWithin numColumns ls ∧
    Forall (λ line, row line ∈ visited) ls →
  let ls' := (scanRow numColumns r ls s).1 in
  pairwiseApart ls' ∧ columnsWithin numColumns ls' ∧
    Forall (λ line, row line ∈ visited ++ [r]) ls'.
Proof.
  intros Hr (Hap & Hcw & Hrows). unfold scanRow, bind.
  pose proof (forEachM_invariant
    (λ st _, pairwiseApart st.1 ∧ columnsWithin numColumns st.1 ∧ tracks st.2 r st.1 ∧
             Forall (λ line, row line ∈ visited ++ [r]) st.1)
    (seqZ 0 (numColumns - 1)) (scanColumn r) (ls, ∅) s) as Hinv.
  destruct (forEachM _ _ _ s) as [st s']. simpl in *.
  destruct Hinv as (? & ? & ? & ?); [| |done].
  - split_and!; try done.
    + intros c. rewrite elem_of_empty. split; [done|].
      intros (line & Hin & Hrow & _). rewrite Forall_forall in Hrows.
      apply Hrows in Hin. congruence.
    + eapply Forall_impl; [exact Hrows|]. simpl. intros line Hin.
      apply elem_of_app. by left.
  - intros col st0 s0 Hcol%elem_of_seqZ Hst0.
    apply scanColumn_invariant; [lia|done].
Qed.

Lemma generateRandomLines_invariant numColumns numRows s :
  pairwiseApart (generateRandomLines numColumns numRows s).1 ∧
  columnsWithin numColumns (generateRandomLines numColumns numRows s).1.
Proof.
  unfold generateRandomLines.
  pose proof (forEachM_prefix_invariant
    (λ visited ls, pairwiseApart ls ∧ columnsWithin numColumns ls ∧
                   Forall (λ line, row line ∈ visited) ls)
    (seqZ 1 (numRows - 1)) (scanRow numColumns) [] s) as Hinv.
  destruct Hinv as (? & ? & _); [| |done].
  - split_and!; by try constructor.
  - intros pre r post ls s' Hxs Hpre. apply scanRow_invariant; [|done].
    pose proof (NoDup_seqZ 1 (numRows - 1)) as Hnd. rewrite Hxs in Hnd.
    apply NoDup_app in Hnd as (_ & Hnd & _). intros Hin.
    apply (Hnd r Hin). left.
Qed.

(** ** A row of rungs that are apart is an involution of the columns *)

(** The rung that touches a column decides where the path goes: to the
    other end of that rung. *)
Lemma followRow_along ls line c :
  apart ls → line ∈ ls → c ∈ touched line →
  followRow ls c = 2 * fromColumn line + 1 - c.
Proof.
  induction ls as [|l ls IH]; intros Hap Hin Hc.
  - by apply elem_of_nil in Hin.
  - destruct Hap as [Hl Hls]. simpl.
    apply elem_of_cons in Hin as [->|Hin].
    + apply elem_of_touched in Hc. repeat case_decide; lia.
    + rewrite Forall_forall in Hl. specialize (Hl line Hin).
      assert (c ∉ touched l) as Hn by (intros ?; by apply (Hl c)).
      rewrite elem_of_touched in Hn. repeat case_decide; try lia. by apply IH.
Qed.

Lemma followRow_cases ls c :
  (followRow ls c = c ∧ ∀ line, line ∈ ls → c ∉ touched line) ∨
  (∃ line, line ∈ ls ∧ c ∈ touched line ∧ followRow ls c ∈ touched line
           ∧ followRow ls c ≠ c).
Proof.
  destruct (decide (followRow ls c = c)) as [Heq|Hne].
  - destruct (decide (Exists (λ line, c ∈ touched line) ls)) as [Hex|Hex].
    + right. apply Exists_exists in Hex as (line & Hin & Hc).
      exfalso. revert Heq. clear -Hin Hc. induction ls as [|l ls IH]; simpl.
      * by apply elem_of_nil in Hin.
      * repeat case_decide; try lia. apply elem_of_cons in Hin as [->|Hin]; [|auto].
        apply elem_of_touched in Hc. lia.
    + left. split; [done|]. intros line Hin Hc. apply Hex, Exists_exists. eauto.
  - right. destruct (followRow_moved ls c Hne) as (line & ? & ? & ?). eauto.
Qed.

Lemma followRow_involutive ls c :
  apart ls → followRow ls (followRow ls c) = c.
Proof.
  intros Hap. destruct (followRow_cases ls c) as [[Heq _]|(line & Hin & Hc & Hd & _)].
  - by rewrite !Heq.
  - rewrite (followRow_along ls line c) in * by done.
    rewrite (followRow_along ls line) by done. lia.
Qed.

Lemma followRow_Permutation ls ls' c :
  ls ≡ₚ ls' → apart ls → apart ls' → followRow ls c = followRow ls' c.
Proof.
  intros Hperm Hap Hap'.
  destruct (followRow_cases ls c) as [[Heq Hno]|(line & Hin & Hc & _)].
  - rewrite Heq. symmetry. apply followRow_no_match.
    intros line Hin. apply Hno. by rewrite Hperm.
  - rewrite (followRow_along ls line c) by done.
    rewrite (followRow_along ls' line c); [done|done| |done]. by rewrite <- Hperm.
Qed.

Lemma followRow_within n ls c :
  columnsWithin n ls → 0 ≤ c < n → 0 ≤ followRow ls c < n.
Proof.
  intros Hcw Hc. destruct (followRow_cases ls c) as [[-> _]|(line & Hin & _ & Hd & _)];
    [done|].
  unfold columnsWithin in Hcw. rewrite Forall_forall in Hcw.
  specialize (Hcw line Hin). apply elem_of_touched in Hd. lia.
Qed.

Lemma columnsWithin_rowLines n r ls : columnsWithin n ls → columnsWithin n (rowLines r ls).
Proof.
  unfold columnsWithin. rewrite !Forall_forall.
  intros H line [_ Hin]%elem_of_rowLines. auto.
Qed.

Lemma traceRows_within n ls rs c :
  columnsWithin n ls → 0 ≤ c < n → 0 ≤ traceRows ls rs c < n.
Proof.
  intros Hcw. revert c. unfold traceRows.
  induction rs as [|r rs IH]; intros c Hc; simpl; [done|].
  apply IH. apply followRow_within; [by apply columnsWithin_rowLines|done].
Qed.

Lemma traceRows_snoc ls rs r c :
  traceRows ls (rs ++ [r]) c = followRow (rowLines r ls) (traceRows ls rs c).
Proof. unfold traceRows. by rewrite foldl_snoc. Qed.

(** Walking the rows backwards undoes the walk. *)
Lemma traceRows_reverse ls rs c :
  pairwiseApart ls → traceRows ls (reverse rs) (traceRows ls rs c) = c.
Proof.
  intros Hap. revert c. induction rs as [|r rs IH]; intros c; [done|].
  rewrite reverse_cons, traceRows_snoc. simpl.
  change (foldl _ ?x rs) with (traceRows ls rs x).
  rewrite IH. apply followRow_involutive. by apply pairwiseApart_rowLines.
Qed.

Lemma traceRows_inj ls rs c c' :
  pairwiseApart ls → traceRows ls rs c = traceRows ls rs c' → c = c'.
Proof.
  intros Hap Heq. rewrite <- (traceRows_reverse ls rs c), Heq by done.
  by apply traceRows_reverse.
Qed.

(** The mapping traced through rows that are apart, by rungs between the
    columns [0..n-1], is a permutation of these columns. *)
Lemma calculateMapping_permutation n numRows ls :
  pairwiseApart ls → columnsWithin n ls →
  isPermutationOf n (calculateMapping n numRows ls).
Proof.
  intros Hap Hcw. unfold isPermutationOf. split_and!.
  - intros p. rewrite calculateMapping_lookup. case_decide; [|by split; [intros []|]].
    split; [done|eauto].
  - intros p k. rewrite calculateMapping_lookup. case_decide; [|done].
    intros [= <-]. by apply traceRows_within.
  - intros p q k. rewrite !calculateMapping_lookup. repeat case_decide; try done.
    intros [= <-] [= Heq]. symmetry. by eapply traceRows_inj.
  - intros k Hk. exists (traceRows ls (reverse (seqZ 0 numRows)) k).
    rewrite calculateMapping_lookup. rewrite decide_True by by apply traceRows_within.
    f_equal. rewrite <- (reverse_involutive (seqZ 0 numRows)) at 1.
    by apply traceRows_reverse.
Qed.

(** Rung lists with the same rungs, rows apart, are traced alike. *)
Lemma traceRows_Permutation ls ls' rs c :
  ls ≡ₚ ls' → pairwiseApart ls → traceRows ls rs c = traceRows ls' rs c.
Proof.
  intros Hperm Hap. unfold traceRows. apply foldl_ext_in. intros a r _.
  apply followRow_Permutation.
  - unfold rowLines. by rewrite Hperm.
  - by apply pairwiseApart_rowLines.
  - apply pairwiseApart_rowLines. by eapply pairwiseApart_Permutation.
Qed.

(** ** Arrangements and adjacent swaps *)

Lemma swapAdjacent_middle c a x y b :
  0 ≤ c → length a = Z.to_nat c →
  swapAdjacent c (a ++ x :: y :: b) = a ++ y :: x :: b.
Proof.
  intros Hc Hlen. unfold swapAdjacent.
  replace (Z.to_nat (c + 1)) with (S (length a)) by lia. rewrite <- Hlen.
  rewrite list_lookup_middle by done.
  replace (a ++ x :: y :: b) with ((a ++ [x]) ++ y :: b) at 1 by by rewrite <- app_assoc.
  rewrite list_lookup_middle by (rewrite length_app; simpl; lia).
  rewrite decide_True by done.
  rewrite insert_app_r_alt by lia. rewrite Nat.sub_diag. simpl.
  rewrite insert_app_r_alt by lia.
  replace (S (length a) - length a)%nat with 1%nat by lia. done.
Qed.

Lemma swapAdjacent_length c w : length (swapAdjacent c w) = length w.
Proof.
  unfold swapAdjacent. destruct (w !! Z.to_nat c), (w !! Z.to_nat (c + 1)); try done.
  case_decide; [|done]. by rewrite !length_insert.
Qed.

Lemma split_adjacent {A} (w : list A) (i : nat) :
  (i + 1 < length w)%nat →
  ∃ a x y b, w = a ++ x :: y :: b ∧ length a = i.
Proof.
  intros Hi. destruct (lookup_lt_is_Some_2 w i) as [x Hx]; [lia|].
  destruct (lookup_lt_is_Some_2 w (S i)) as [y Hy]; [lia|].
  exists (take i w), x, y, (drop (S (S i)) w). split.
  - rewrite <- (take_drop i w) at 1. f_equal.
    rewrite (drop_S _ x) by done. f_equal. by rewrite (drop_S _ y).
  - rewrite length_take. lia.
Qed.

Lemma swapAdjacent_Permutation c w : swapAdjacent c w ≡ₚ w.
Proof.
  unfold swapAdjacent.
  destruct (w !! Z.to_nat c) as [x|] eqn:Hx; [|done].
  destruct (w !! Z.to_nat (c + 1)) as [y|] eqn:Hy; [|done].
  case_decide as Hc; [|done].
  destruct (split_adjacent w (Z.to_nat c)) as (a & x' & y' & b & -> & Hlen).
  { apply lookup_lt_Some in Hy. lia. }
  pose proof (swapAdjacent_middle c a x' y' b Hc Hlen) as Hsw.
  unfold swapAdjacent in Hsw. rewrite Hx, Hy, decide_True in Hsw by done.
  rewrite Hsw. apply Permutation_app_head. apply perm_swap.
Qed.

(** An adjacent swap changes the number of inversions by one pair. *)
Lemma inversions_swap rank a x y b :
  (inversions rank (a ++ x :: y :: b) + (if decide (rank x < rank y)%Z then 1 else 0)
   = inversions rank (a ++ y :: x :: b) + (if decide (rank y < rank x)%Z then 1 else 0))%nat.
Proof.
  induction a as [|z a IH]; simpl.
  - rewrite !filter_cons. repeat case_decide; simpl; lia.
  - assert (length (filter (λ y0, rank y0 < rank z) (a ++ x :: y :: b))
            = length (filter (λ y0, rank y0 < rank z) (a ++ y :: x :: b))) as ->.
    { apply Permutation_length. apply filter_Permutation.
      apply Permutation_app_head. apply perm_swap. }
    lia.
Qed.

Lemma inversions_swapAdjacent rank c w :
  (inversions rank w ≤ inversions rank (swapAdjacent c w) + 1)%nat.
Proof.
  unfold swapAdjacent.
  destruct (w !! Z.to_nat c) as [x|] eqn:Hx; [|lia].
  destruct (w !! Z.to_nat (c + 1)) as [y|] eqn:Hy; [|lia].
  case_decide as Hc; [|lia].
  destruct (split_adjacent w (Z.to_nat c)) as (a & x' & y' & b & -> & Hlen).
  { apply lookup_lt_Some in Hy. lia. }
  pose proof (swapAdjacent_middle c a x' y' b Hc Hlen) as Hsw.
  unfold swapAdjacent in Hsw. rewrite Hx, Hy, decide_True in Hsw by done.
  rewrite Hsw. pose proof (inversions_swap rank a x' y' b).
  repeat case_decide; lia.
Qed.

Lemma inversions_swapsAdjacent rank ts w :
  (inversions rank w ≤ inversions rank (swapsAdjacent ts w) + length ts)%nat.
Proof.
  revert w. induction ts as [|c ts IH]; intros w; simpl; [lia|].
  pose proof (IH (swapAdjacent c w)). pose proof (inversions_swapAdjacent rank c w).
  unfold swapsAdjacent in *. lia.
Qed.

Lemma inversions_bound rank w : (2 * inversions rank w ≤ length w * (length w - 1))%nat.
Proof.
  induction w as [|x w IH]; simpl; [lia|].
  pose proof (length_filter (λ y, rank y < rank x) w). nia.
Qed.

Lemma inversions_sorted rank w :
  StronglySorted (λ x y, rank x < rank y) w → inversions rank w = 0%nat.
Proof.
  induction 1 as [|x w Hw IH Hx]; [done|]. simpl. rewrite IH.
  assert (filter (λ y, rank y < rank x) w = []) as ->; [|done].
  clear -Hx. induction Hx as [|y w Hy _ IH]; [done|].
  rewrite filter_cons_False by lia. done.
Qed.

(** ** JavaScript arrays that are full *)

Lemma JsArray_get_full (w : list Z) i :
  0 ≤ i → JsArray.get (Some <$> w) i = w !! Z.to_nat i.
Proof.
  intros Hi. unfold JsArray.get. rewrite decide_True by done.
  rewrite list_lookup_fmap. by destruct (w !! Z.to_nat i).
Qed.

Lemma JsArray_set_inside (arr : list (option Z)) i v :
  0 ≤ i → (Z.to_nat i < length arr)%nat →
  JsArray.set arr i v = <[Z.to_nat i := v]> arr.
Proof.
  intros H0 H1. unfold JsArray.set.
  rewrite decide_False by lia. by rewrite decide_True.
Qed.

Lemma JsArray_swap_adjacent (a b : list Z) x y i :
  i = Z.of_nat (length a) →
  JsArray.swap (Some <$> (a ++ y :: x :: b)) i (i + 1) = Some <$> (a ++ x :: y :: b).
Proof.
  intros ->. unfold JsArray.swap. rewrite !JsArray_get_full by lia.
  replace (Z.to_nat (Z.of_nat (length a) + 1)) with (S (length a)) by lia.
  rewrite Nat2Z.id.
  rewrite (list_lookup_middle a (x :: b) y (length a)) by done.
  assert ((a ++ y :: x :: b) !! S (length a) = Some x) as ->.
  { replace (a ++ y :: x :: b) with ((a ++ [y]) ++ x :: b) by by rewrite <- app_assoc.
    apply list_lookup_middle. rewrite length_app. simpl. lia. }
  rewrite (JsArray_set_inside (Some <$> a ++ y :: x :: b));
    [|lia|rewrite length_fmap, length_app; simpl; lia].
  rewrite JsArray_set_inside;
    [|lia|rewrite length_insert, length_fmap, length_app; simpl; lia].
  replace (Z.to_nat (Z.of_nat (length a) + 1)) with (S (length a)) by lia.
  rewrite Nat2Z.id. rewrite !fmap_app. simpl.
  rewrite insert_app_r_alt by (rewrite length_fmap; lia).
  rewrite length_fmap, Nat.sub_diag. simpl.
  rewrite insert_app_r_alt by (rewrite length_fmap; lia).
  rewrite length_fmap. replace (S (length a) - length a)%nat with 1%nat by lia. done.
Qed.

Lemma JsArray_indexOf_from_first (pre post : list Z) x i :
  x ∉ pre →
  JsArray.indexOf_from (Some <$> (pre ++ x :: post)) (Some x) i = i + Z.of_nat (length pre).
Proof.
  revert i. induction pre as [|y pre IH]; intros i Hx; simpl.
  - rewrite decide_True by done. lia.
  - apply not_elem_of_cons in Hx as [Hne Hx].
    rewrite decide_False by congruence. rewrite IH by done. lia.
Qed.

(** ** The adjustment computer *)

Lemma bubbleLeft_moves (mid pre : list Z) x post ts :
  bubbleLeft (length mid) (Z.of_nat (length pre + length mid))
    (Some <$> (pre ++ mid ++ x :: post), ts)
  = (Some <$> (pre ++ x :: mid ++ post),
     ts ++ reverse (seqZ (Z.of_nat (length pre)) (Z.of_nat (length mid)))).
Proof.
  revert post ts. induction mid as [|y mid IH] using rev_ind; intros post ts.
  - simpl. rewrite seqZ_nil by lia. by rewrite app_nil_r.
  - rewrite length_app. simpl length.
    replace (length mid + 1)%nat with (S (length mid)) by lia. simpl bubbleLeft.
    replace (pre ++ (mid ++ [y]) ++ x :: post) with ((pre ++ mid) ++ y :: x :: post)
      by by rewrite <- !app_assoc.
    replace (Z.of_nat (length pre + S (length mid)))
      with (Z.of_nat (length (pre ++ mid)) + 1) by (rewrite length_app; lia).
    replace (Z.of_nat (length (pre ++ mid)) + 1 - 1)
      with (Z.of_nat (length (pre ++ mid))) by lia.
    rewrite JsArray_swap_adjacent by done.
    replace ((pre ++ mid) ++ x :: y :: post) with (pre ++ mid ++ x :: (y :: post))
      by by rewrite <- !app_assoc.
    rewrite length_app, IH. f_equal.
    + by rewrite <- !app_assoc.
    + rewrite seqZ_S, reverse_snoc, <- app_assoc. simpl. do 3 f_equal. lia.
Qed.

Lemma swapsAdjacent_app ts ts' w :
  swapsAdjacent (ts ++ ts') w = swapsAdjacent ts' (swapsAdjacent ts w).
Proof. unfold swapsAdjacent. apply foldl_app. Qed.

Lemma swapsAdjacent_moves (mid pre : list Z) x post :
  swapsAdjacent (reverse (seqZ (Z.of_nat (length pre)) (Z.of_nat (length mid))))
    (pre ++ mid ++ x :: post)
  = pre ++ x :: mid ++ post.
Proof.
  revert post. induction mid as [|y mid IH] using rev_ind; intros post.
  - rewrite seqZ_nil by (simpl; lia). done.
  - rewrite length_app. simpl length.
    replace (length mid + 1)%nat with (S (length mid)) by lia.
    rewrite seqZ_S, reverse_snoc. unfold swapsAdjacent. simpl.
    replace (pre ++ (mid ++ [y]) ++ x :: post) with ((pre ++ mid) ++ y :: x :: post)
      by by rewrite <- !app_assoc.
    rewrite swapAdjacent_middle by (rewrite ?length_app; lia).
    replace ((pre ++ mid) ++ x :: y :: post) with (pre ++ mid ++ x :: (y :: post))
      by by rewrite <- !app_assoc.
    fold (swapsAdjacent (reverse (seqZ (Z.of_nat (length pre)) (Z.of_nat (length mid))))
            (pre ++ mid ++ x :: y :: post)).
    rewrite IH. by rewrite <- !app_assoc.
Qed.

Lemma inversions_moves rank (mid pre : list Z) x post :
  Forall (λ y, rank x < rank y) mid →
  inversions rank (pre ++ mid ++ x :: post)
  = (inversions rank (pre ++ x :: mid ++ post) + length mid)%nat.
Proof.
  revert post. induction mid as [|y mid IH] using rev_ind; intros post Hmid.
  - simpl. lia.
  - apply Forall_app in Hmid as [Hmid Hy]. rewrite Forall_singleton in Hy.
    replace (pre ++ (mid ++ [y]) ++ x :: post) with ((pre ++ mid) ++ y :: x :: post)
      by by rewrite <- !app_assoc.
    pose proof (inversions_swap rank (pre ++ mid) y x post) as Hsw.
    rewrite decide_False, decide_True in Hsw by lia.
    replace ((pre ++ mid) ++ x :: y :: post) with (pre ++ mid ++ x :: (y :: post)) in Hsw
      by by rewrite <- !app_assoc.
    rewrite IH in Hsw by done.
    replace (pre ++ x :: (mid ++ [y]) ++ post) with (pre ++ x :: mid ++ y :: post)
      by by rewrite <- !app_assoc.
    rewrite length_app. simpl. lia.
Qed.

(** The table built by [positionTable] from a permutation is its arrangement. *)
Lemma positionTable_fold n (m : gmap Z Z) (ps : list Z) :
  (∀ p q k, m !! p = Some k → m !! q = Some k → p = q) →
  Forall (λ p, ∃ k, m !! p = Some k ∧ 0 ≤ k < n) ps →
  let arr := foldl (λ perm p, JsArray.set_at perm (m !! p) (Some p)) (JsArray.make n) ps in
  length arr = Z.to_nat n ∧
  (∀ i p, arr !! i = Some (Some p) → p ∈ ps ∧ m !! p = Some (Z.of_nat i)) ∧
  (∀ p k, p ∈ ps → m !! p = Some k → arr !! Z.to_nat k = Some (Some p)).
Proof.
  intros Hinj. induction ps as [|p ps IH] using rev_ind; intros Hps; simpl.
  - unfold JsArray.make. rewrite length_replicate. split_and!; [done|..].
    + intros i p Hi. apply lookup_replicate in Hi as [? _]. done.
    + intros p k Hp. by apply elem_of_nil in Hp.
  - apply Forall_app in Hps as [Hps Hp]. rewrite Forall_singleton in Hp.
    destruct Hp as (k & Hk & Hrange). destruct (IH Hps) as (Hlen & H2 & H3).
    rewrite foldl_snoc, Hk. simpl.
    rewrite JsArray_set_inside by lia. rewrite length_insert. split_and!; [done|..].
    + intros i q Hi. destruct (decide (i = Z.to_nat k)) as [->|Hne].
      * rewrite list_lookup_insert_eq in Hi by lia. injection Hi as <-.
        rewrite Z2Nat.id by lia. split; [|done]. apply elem_of_app. right. by left.
      * rewrite list_lookup_insert_ne in Hi by done.
        destruct (H2 i q Hi). split; [|done]. apply elem_of_app. by left.
    + intros q k' Hq Hk'. destruct (decide (q = p)) as [->|Hne].
      * assert (k' = k) as -> by congruence. apply list_lookup_insert_eq. lia.
      * apply elem_of_app in Hq as [Hq|Hq%list_elem_of_singleton]; [|done].
        rewrite list_lookup_insert_ne; [by apply H3|].
        intros Heq. apply Hne. apply (Hinj q p k'); [done|].
        pose proof (H3 q k' Hq Hk') as Hlook. apply lookup_lt_Some in Hlook.
        assert (0 ≤ k').
        { destruct (decide (0 ≤ k')); [done|].
          rewrite Forall_forall in Hps. destruct (Hps q Hq) as (k'' & ? & ?).
          assert (k'' = k') by congruence. lia. }
        assert (k = k') by lia. by subst.
Qed.

Lemma positionTable_represents n m :
  isPermutationOf n m →
  ∃ w, positionTable m n = Some <$> w ∧ represents n m w.
Proof.
  intros (Hdom & Hran & Hinj & Hsur).
  assert (Forall (λ p, ∃ k, m !! p = Some k ∧ 0 ≤ k < n) (seqZ 0 n)) as Hps.
  { apply Forall_forall. intros p Hp%elem_of_seqZ.
    destruct (proj2 (Hdom p)) as [k Hk]; [lia|]. exists k. split; [done|]. eauto. }
  destruct (positionTable_fold n m (seqZ 0 n) Hinj Hps) as (Hlen & H2 & H3).
  fold (positionTable m n) in Hlen, H2, H3.
  assert (∀ i, (i < Z.to_nat n)%nat → ∃ p, positionTable m n !! i = Some (Some p)) as Hfull.
  { intros i Hi. destruct (Hsur (Z.of_nat i)) as [p Hp]; [lia|]. exists p.
    rewrite <- (Nat2Z.id i). apply H3; [|done].
    apply elem_of_seqZ. assert (is_Some (m !! p)) as Hs by eauto.
    apply Hdom in Hs. lia. }
  exists (default 0 <$> positionTable m n).
  assert (positionTable m n = Some <$> (default 0 <$> positionTable m n)) as Heq.
  { apply list_eq. intros i. rewrite !list_lookup_fmap.
    destruct (decide (i < Z.to_nat n)%nat) as [Hi|Hi].
    - destruct (Hfull i Hi) as [p ->]. done.
    - by rewrite lookup_ge_None_2 by lia. }
  split; [done|]. split; [by rewrite length_fmap|].
  intros p k. split.
  - intros Hk. pose proof (Hran p k Hk). split; [lia|].
    rewrite list_lookup_fmap, (H3 p k); [done| |done].
    apply elem_of_seqZ. assert (is_Some (m !! p)) as Hs by eauto.
    apply Hdom in Hs. lia.
  - intros [Hk0 Hk]. rewrite list_lookup_fmap in Hk.
    destruct (positionTable m n !! Z.to_nat k) as [o|] eqn:Ho; [|done].
    simpl in Hk. injection Hk as <-.
    destruct (Hfull (Z.to_nat k)) as [p Hp].
    { apply lookup_lt_Some in Ho. lia. }
    rewrite Hp in Ho. injection Ho as <-. simpl.
    destruct (H2 _ _ Hp) as [_ Hm]. by rewrite Z2Nat.id in Hm.
Qed.

Lemma swapAdjacent_lookup c w k :
  0 ≤ c → (Z.to_nat c + 1 < length w)%nat → 0 ≤ k →
  swapAdjacent c w !! Z.to_nat k = w !! Z.to_nat (swapCol c k).
Proof.
  intros Hc Hlen Hk. unfold swapAdjacent.
  destruct (lookup_lt_is_Some_2 w (Z.to_nat c)) as [a Ha]; [lia|].
  destruct (lookup_lt_is_Some_2 w (Z.to_nat (c + 1))) as [b Hb]; [lia|].
  rewrite Ha, Hb, decide_True by done. unfold swapCol.
  destruct (decide (k = c)) as [->|Hne1].
  - rewrite list_lookup_insert_ne by lia.
    rewrite list_lookup_insert_eq by lia. done.
  - destruct (decide (k = c + 1)) as [->|Hne2].
    + rewrite list_lookup_insert_eq by (rewrite length_insert; lia). done.
    + rewrite !list_lookup_insert_ne by lia. done.
Qed.

Lemma swapCol_nonneg c k : 0 ≤ c → 0 ≤ swapCol c k ↔ 0 ≤ k.
Proof. unfold swapCol. repeat case_decide; lia. Qed.

Lemma represents_swap n m w c :
  represents n m w → adjacentIn n c →
  represents n (applyTransposition c m) (swapAdjacent c w).
Proof.
  intros [Hlen Hrep] [Hc0 Hc1]. split; [by rewrite swapAdjacent_length|].
  intros p k. unfold applyTransposition. rewrite lookup_fmap. split.
  - destruct (m !! p) as [k0|] eqn:Hk0; [|done]. simpl. intros [= <-].
    apply Hrep in Hk0 as [H0 Hw]. split; [by apply swapCol_nonneg|].
    rewrite swapAdjacent_lookup; [|done|lia|by apply swapCol_nonneg].
    by rewrite swapCol_involutive.
  - intros [Hk Hw]. rewrite swapAdjacent_lookup in Hw by (done || lia).
    assert (m !! p = Some (swapCol c k)) as ->.
    { apply Hrep. split; [by apply swapCol_nonneg|done]. }
    simpl. by rewrite swapCol_involutive.
Qed.

Lemma represents_swaps n m w ts :
  represents n m w → Forall (adjacentIn n) ts →
  represents n (applyTranspositions ts m) (swapsAdjacent ts w).
Proof.
  revert m w. induction ts as [|c ts IH]; intros m w Hrep Hts; [done|].
  apply Forall_cons in Hts as [Hc Hts]. simpl. apply IH; [|done].
  by apply represents_swap.
Qed.

Lemma represents_mapping_unique n m m' w :
  represents n m w → represents n m' w → m = m'.
Proof.
  intros [_ H] [_ H']. apply map_eq. intros p. apply option_eq. intros k.
  by rewrite H, H'.
Qed.

Lemma represents_arrangement_unique n m w w' :
  represents n m w → represents n m w' → w = w'.
Proof.
  intros [Hlen H] [Hlen' H']. apply list_eq. intros i. apply option_eq. intros p.
  specialize (H p (Z.of_nat i)). specialize (H' p (Z.of_nat i)).
  rewrite Nat2Z.id in H, H'. split; intros Hi.
  - apply H'. apply H. split; [lia|done].
  - apply H. apply H'. split; [lia|done].
Qed.

Lemma represents_NoDup n m w : represents n m w → NoDup w.
Proof.
  intros [_ H]. apply NoDup_alt. intros i j p Hi Hj.
  assert (m !! p = Some (Z.of_nat i)) as Hmi
    by (apply H; rewrite Nat2Z.id; split; [lia|done]).
  assert (m !! p = Some (Z.of_nat j)) as Hmj
    by (apply H; rewrite Nat2Z.id; split; [lia|done]).
  rewrite Hmi in Hmj. injection Hmj. lia.
Qed.

Lemma represents_elem_of n m w p :
  isPermutationOf n m → represents n m w → p ∈ w ↔ 0 ≤ p < n.
Proof.
  intros (Hdom & _) [_ H]. rewrite <- Hdom. split.
  - intros [i Hi]%list_elem_of_lookup. exists (Z.of_nat i).
    apply H. rewrite Nat2Z.id. split; [lia|done].
  - intros [k Hk]. apply H in Hk as [_ Hk]. by eapply list_elem_of_lookup_2.
Qed.

Lemma represents_Permutation n m m' w w' :
  isPermutationOf n m → isPermutationOf n m' →
  represents n m w → represents n m' w' → w ≡ₚ w'.
Proof.
  intros Hm Hm' Hw Hw'. apply NoDup_Permutation.
  - by eapply represents_NoDup.
  - by eapply represents_NoDup.
  - intros p. by rewrite (represents_elem_of n m w), (represents_elem_of n m' w').
Qed.

(** An arrangement lists the participants by increasing end column of
    its own mapping, so it has no inversion for that ranking. *)
Lemma sorted_by_index (rank : Z → Z) (t : list Z) (off : Z) :
  (∀ i x, t !! i = Some x → rank x = off + Z.of_nat i) →
  StronglySorted (λ x y, rank x < rank y) t.
Proof.
  revert off. induction t as [|x t IH]; intros off H; constructor.
  - apply (IH (off + 1)). intros i y Hi. rewrite (H (S i) y Hi). lia.
  - apply Forall_forall. intros y [i Hi]%list_elem_of_lookup.
    rewrite (H 0%nat x), (H (S i) y) by done. lia.
Qed.

Lemma represents_rank n m w i x :
  represents n m w → w !! i = Some x → default 0 (m !! x) = Z.of_nat i.
Proof.
  intros [_ H] Hi. assert (m !! x = Some (Z.of_nat i)) as ->; [|done].
  apply H. rewrite Nat2Z.id. split; [lia|done].
Qed.

Lemma represents_no_inversions n m w :
  represents n m w → inversions (λ p, default 0 (m !! p)) w = 0%nat.
Proof.
  intros Hrep. apply inversions_sorted. apply (sorted_by_index _ _ 0).
  intros i x Hi. rewrite (represents_rank n m w i x) by done. lia.
Qed.

(** The state of the outer loop of the adjustment computer after the
    positions [0..k-1]: these positions are settled, the swaps recorded so
    far lead from the initial arrangement to the working one, and each of
    them removed one inversion. *)
Lemma settle_loop (rank : Z → Z) (t w0 : list Z) (k : nat) :
  NoDup t → w0 ≡ₚ t → (∀ i x, t !! i = Some x → rank x = Z.of_nat i) →
  (k ≤ length t)%nat →
  ∃ w ts,
    foldl (settle (Some <$> t)) (Some <$> w0, []) (seqZ 0 (Z.of_nat k)) = (Some <$> w, ts) ∧
    take k w = take k t ∧ w ≡ₚ t ∧ swapsAdjacent ts w0 = w ∧
    (inversions rank w + length ts = inversions rank w0)%nat ∧
    Forall (adjacentIn (Z.of_nat (length t))) ts.
Proof.
  intros Hnd Hperm Hrank. induction k as [|k IH]; intros Hk.
  - exists w0, []. split_and!; done.
  - destruct IH as (w & ts & Hfold & Htake & Hw & Hsw & Hinv & Hts); [lia|].
    rewrite seqZ_S, foldl_snoc, Hfold. unfold settle. simpl fst.
    destruct (lookup_lt_is_Some_2 t k) as [x Hx]; [lia|].
    rewrite JsArray_get_full by lia.
    replace (Z.to_nat (0 + Z.of_nat k)) with k by lia. rewrite Hx.
    assert (x ∉ take k t) as Hxpre.
    { pose proof Hnd as Hnd'. rewrite <- (take_drop k t), (drop_S _ x) in Hnd' by done.
      apply NoDup_app in Hnd' as (_ & Hdisj & _). intros Hin.
      apply (Hdisj x Hin). left. }
    assert (x ∈ drop k w) as Hxin.
    { assert (x ∈ w) as Hxw.
      { rewrite Hw. by eapply list_elem_of_lookup_2. }
      rewrite <- (take_drop k w), Htake in Hxw.
      apply elem_of_app in Hxw as [?|?]; done. }
    apply list_elem_of_split_l in Hxin as (mid & post & Hdrop & Hxmid).
    assert (w = take k t ++ mid ++ x :: post) as Hweq.
    { by rewrite <- (take_drop k w), Htake, Hdrop. }
    assert (length (take k t) = k) as Hlenpre by (rewrite length_take; lia).
    assert (JsArray.indexOf (Some <$> w) (Some x) = Z.of_nat (k + length mid)) as ->.
    { unfold JsArray.indexOf. rewrite Hweq, app_assoc.
      rewrite JsArray_indexOf_from_first.
      - rewrite length_app, Hlenpre. lia.
      - intros [?|?]%elem_of_app; done. }
    replace (Z.to_nat (Z.of_nat (k + length mid) - (0 + Z.of_nat k)))
      with (length mid) by lia.
    pose proof (bubbleLeft_moves mid (take k t) x post ts) as Hbubble.
    pose proof (swapsAdjacent_moves mid (take k t) x post) as Hmoves.
    rewrite Hlenpre in Hbubble, Hmoves.
    exists (take k t ++ x :: mid ++ post),
           (ts ++ reverse (seqZ (Z.of_nat k) (Z.of_nat (length mid)))).
    assert (NoDup w) as Hndw by by rewrite Hw.
    assert (length w = length t) as Hlenw by by rewrite Hw.
    split_and!.
    + by rewrite Hweq.
    + rewrite (take_S_r t k x) by done.
      rewrite cons_middle, app_assoc. apply take_app_length'.
      rewrite length_app, Hlenpre. simpl. lia.
    + etrans; [|exact Hw]. rewrite Hweq. apply Permutation_app_head.
      by rewrite Permutation_middle.
    + by rewrite swapsAdjacent_app, Hsw, Hweq.
    + rewrite length_app, length_reverse, length_seqZ, Nat2Z.id.
      rewrite Hweq in Hinv. rewrite inversions_moves in Hinv; [lia|].
      apply Forall_forall. intros y Hy.
      assert (y ∈ t) as [j Hj]%list_elem_of_lookup.
      { apply (elem_of_Permutation_proper _ _ _ Hw). rewrite Hweq.
        rewrite !elem_of_app. right. by left. }
      rewrite (Hrank k x Hx), (Hrank j y Hj).
      destruct (decide (j = k)) as [->|Hne].
      { assert (y = x) by congruence. by subst. }
      destruct (decide (j < k)%nat) as [Hlt|Hge]; [|lia].
      exfalso. rewrite Hweq in Hndw. apply NoDup_app in Hndw as (_ & Hdisj & _).
      apply (Hdisj y).
      * apply list_elem_of_lookup. exists j. by rewrite lookup_take_lt.
      * apply elem_of_app. by left.
    + apply Forall_app. split; [done|]. apply Forall_forall.
      intros c Hc%elem_of_reverse%elem_of_seqZ.
      rewrite Hweq in Hlenw. rewrite !length_app, Hlenpre in Hlenw. simpl in Hlenw.
      unfold adjacentIn. lia.
Qed.

Lemma seqZ_to_nat m n : seqZ m (Z.of_nat (Z.to_nat n)) = seqZ m n.
Proof. unfold seqZ. by rewrite Nat2Z.id. Qed.

(** What the adjustment computer returns, in terms of arrangements. *)
Lemma calculateAdjustmentTranspositions_arrangement n actual target w0 t :
  isPermutationOf n actual → isPermutationOf n target →
  represents n actual w0 → represents n target t →
  let ts := calculateAdjustmentTranspositions actual target n in
  swapsAdjacent ts w0 = t ∧
  Forall (adjacentIn n) ts ∧
  length ts = inversions (λ p, default 0 (target !! p)) w0.
Proof.
  intros Hactual Htarget Hw0 Ht.
  destruct (positionTable_represents n actual Hactual) as (w0' & Hpos0 & Hw0').
  destruct (positionTable_represents n target Htarget) as (t' & Hpost & Ht').
  assert (w0' = w0) as -> by by eapply represents_arrangement_unique.
  assert (t' = t) as -> by by eapply represents_arrangement_unique.
  unfold calculateAdjustmentTranspositions. rewrite Hpos0, Hpost.
  destruct (settle_loop (λ p, default 0 (target !! p)) t w0 (length t))
    as (w & ts & Hfold & Htake & Hw & Hsw & Hinv & Hts).
  - by eapply represents_NoDup.
  - by apply (represents_Permutation n actual target).
  - intros i x Hi. by eapply represents_rank.
  - done.
  - destruct Ht as [Hlen Ht]. rewrite Hlen, seqZ_to_nat in Hfold.
    rewrite Hfold. simpl.
    assert (w = t) as ->.
    { rewrite <- (take_ge w (Z.to_nat n)), <- (take_ge t (Z.to_nat n)) by
        (rewrite ?Hlen; rewrite ?(Permutation_length Hw); lia).
      by rewrite <- Hlen. }
    split_and!; [done| |].
    + eapply Forall_impl; [exact Hts|]. unfold adjacentIn. intros c. lia.
    + rewrite (represents_no_inversions n target t) in Hinv by done. lia.
Qed.

(** C3. For permutations [actual] and [target] of the [n] columns, the
    transpositions returned by [calculateAdjustmentTranspositions] are
    swaps of adjacent columns that, applied to [actual] in the order of
    the list, give exactly [target]; no list of adjacent swaps that does
    so is shorter, and the length is at most [n (n - 1) / 2]. *)
Theorem calculateAdjustmentTranspositions_minimal n actual target :
  isPermutationOf n actual → isPermutationOf n target →
  let ts := calculateAdjustmentTranspositions actual target n in
  applyTranspositions ts actual = target ∧
  Forall (adjacentIn n) ts ∧
  (∀ ts', Forall (adjacentIn n) ts' → applyTranspositions ts' actual = target →
          (length ts ≤ length ts')%nat) ∧
  2 * Z.of_nat (length ts) ≤ n * (n - 1).
Proof.
  intros Hactual Htarget.
  destruct (positionTable_represents n actual Hactual) as (w0 & _ & Hw0).
  destruct (positionTable_represents n target Htarget) as (t & _ & Ht).
  destruct (calculateAdjustmentTranspositions_arrangement n actual target w0 t)
    as (Hsw & Hts & Hlen); try done.
  simpl. split_and!.
  - apply (represents_mapping_unique n _ _ t); [|done].
    rewrite <- Hsw. by apply represents_swaps.
  - done.
  - intros ts' Hts' Happly. rewrite Hlen.
    assert (swapsAdjacent ts' w0 = t) as Hsw'.
    { apply (represents_arrangement_unique n target); [|done].
      rewrite <- Happly. by apply represents_swaps. }
    pose proof (inversions_swapsAdjacent (λ p, default 0 (target !! p)) ts' w0) as Hle.
    rewrite Hsw', (represents_no_inversions n target t) in Hle by done. lia.
  - rewrite Hlen.
    pose proof (inversions_bound (λ p, default 0 (target !! p)) w0) as Hb.
    destruct Hw0 as [Hl _]. rewrite Hl in Hb. nia.
Qed.

(** ** The uniform permutation sampler *)

(** *** Rounding to a double *)

Lemma pow2_pos e : (0 < 2 ^ e)%Q.
Proof. by apply Qpower_0_lt. Qed.

Lemma pow2_Z (n : Z) : 0 ≤ n → (2 ^ n == inject_Z (2 ^ n))%Q.
Proof. intros Hn. change 2%Q with (inject_Z 2). by rewrite Zpower_Qpower. Qed.

Lemma binade_le x : (0 < x)%Q → (2 ^ binade x <= x)%Q.
Proof.
  intros Hx. unfold binade.
  destruct (Qle_bool _ x) eqn:Hle; [by apply Qle_bool_iff|]. clear Hle.
  destruct x as [a b]. cbn [Qnum Qden].
  assert (0 < a) as Ha. { unfold Qlt in Hx. simpl in Hx. lia. }
  pose proof (Z.log2_spec a Ha) as [Ha1 Ha2].
  pose proof (Z.log2_spec (Z.pos b) (Pos2Z.is_pos b)) as [Hb1 Hb2].
  pose proof (Z.log2_nonneg a) as Hla.
  pose proof (Z.log2_nonneg (Z.pos b)) as Hlb.
  set (la := Z.log2 a) in *. set (lb := Z.log2 (Z.pos b)) in *.
  replace (la - lb - 1) with (la - (lb + 1)) by lia.
  rewrite Qpower_minus by done.
  rewrite !pow2_Z by lia.
  apply Qle_shift_div_r.
  { change 0%Q with (inject_Z 0). rewrite <- Zlt_Qlt. lia. }
  unfold Qle. cbn [Qnum Qden inject_Z Qmult]. 
  replace (Z.succ lb) with (lb + 1) in Hb2 by lia.
  nia.
Qed.

Lemma roundPositive_cases x :
  let q := Z.max (binade x - 52) (-1074) in
  let n := Qfloor (x / 2 ^ q) in
  roundPositive x = (inject_Z n * 2 ^ q)%Q ∨
  (roundPositive x = (inject_Z (n + 1) * 2 ^ q)%Q ∧ (1 # 2 <= x / 2 ^ q - inject_Z n)%Q).
Proof.
  intros q n. unfold roundPositive. fold q. fold n.
  destruct (x / 2 ^ q - inject_Z n ?= 1 # 2)%Q eqn:Hc.
  - destruct (Z.even n); [by left|right]. split; [done|].
    apply Qeq_alt in Hc. rewrite Hc. apply Qle_refl.
  - by left.
  - right. split; [done|]. apply Qgt_alt in Hc. by apply Qlt_le_weak.
Qed.

Lemma roundDouble_positive x : (0 < x)%Q → roundDouble x = roundPositive x.
Proof. intros Hx. unfold roundDouble. apply Qgt_alt in Hx. by rewrite Hx. Qed.

Lemma scaled_floor x q :
  (inject_Z (Qfloor (x / 2 ^ q)) * 2 ^ q <= x)%Q.
Proof.
  pose proof (pow2_pos q) as Hq.
  pose proof (Qfloor_le (x / 2 ^ q)) as Hfl.
  apply (Qmult_le_compat_r _ _ (2 ^ q)) in Hfl; [|by apply Qlt_le_weak].
  eapply Qle_trans; [exact Hfl|].
  unfold Qdiv. rewrite <- Qmult_assoc, (Qmult_comm (/ _)), Qmult_inv_r, Qmult_1_r.
  - apply Qle_refl.
  - intros H0. rewrite H0 in Hq. by apply Qlt_irrefl in Hq.
Qed.

Lemma roundDouble_nonneg x : (0 <= x)%Q → (0 <= roundDouble x)%Q.
Proof.
  intros Hx. apply Qle_lteq in Hx as [Hx|Hx].
  - rewrite roundDouble_positive by done.
    pose proof (pow2_pos (Z.max (binade x - 52) (-1074))) as Hq.
    assert (0 ≤ Qfloor (x / 2 ^ Z.max (binade x - 52) (-1074))) as Hn.
    { change 0 with (Qfloor (inject_Z 0)). apply Qfloor_resp_le.
      apply Qle_shift_div_l; [done|]. rewrite Qmult_0_l. by apply Qlt_le_weak. }
    destruct (roundPositive_cases x) as [->|[-> _]];
      (apply Qmult_le_0_compat; [|by apply Qlt_le_weak]);
      change 0%Q with (inject_Z 0); rewrite <- Zle_Qle; lia.
  - unfold roundDouble. symmetry in Hx. apply Qeq_alt in Hx. rewrite Hx. apply Qle_refl.
Qed.

(** The rounded value exceeds the exact one by at most half a unit in the
    last place. *)
Lemma roundDouble_upper x :
  (0 <= x)%Q →
  (roundDouble x <= x + x * (1 # 9007199254740992) + 2 ^ (-1075))%Q.
Proof.
  intros Hx0.
  pose proof (pow2_pos (-1075)) as Htiny.
  apply Qle_lteq in Hx0 as [Hx|Hx].
  2:{ unfold roundDouble. symmetry in Hx. pose proof Hx as Hx'. apply Qeq_alt in Hx. rewrite Hx.
      rewrite Hx'. lra. }
  rewrite roundDouble_positive by done.
  set (q := Z.max (binade x - 52) (-1074)).
  pose proof (scaled_floor x q) as Hfl.
  pose proof (pow2_pos q) as Hq.
  destruct (roundPositive_cases x) as [->|[-> Hhalf]]; cbv zeta in *; fold q.
  - lra.
  - fold q in Hhalf.
    assert (2 ^ q * (1 # 2) <= x * (1 # 9007199254740992) + 2 ^ (-1075))%Q as Hulp.
    { unfold q. destruct (Z.max_spec (binade x - 52) (-1074)) as [[_ ->]|[_ ->]].
      - change (-1074) with (-1075 + 1). rewrite Qpower_plus by done.
        change (2 ^ 1)%Q with 2%Q. lra.
      - pose proof (binade_le x Hx) as Hb.
        replace (binade x - 52) with (binade x + -52) by lia.
        rewrite Qpower_plus by done.
        change (2 ^ (-52))%Q with (1 # 4503599627370496)%Q. lra. }
    assert (x == x / 2 ^ q * 2 ^ q)%Q as Hxq.
    { unfold Qdiv. rewrite <- Qmult_assoc, (Qmult_comm (/ _)), Qmult_inv_r; [ring|].
      intros H0. rewrite H0 in Hq. by apply Qlt_irrefl in Hq. }
    set (m := (x / 2 ^ q)%Q) in *. set (n := Qfloor m) in *.
    rewrite inject_Z_plus. change (inject_Z 1) with 1%Q.
    assert ((inject_Z n + 1) * 2 ^ q <= m * 2 ^ q + 2 ^ q * (1 # 2))%Q as Hup.
    { assert (inject_Z n + 1 <= m + (1 # 2))%Q as Hnm by lra.
      apply (Qmult_le_compat_r _ _ (2 ^ q)) in Hnm; [|by apply Qlt_le_weak].
      eapply Qle_trans; [exact Hnm|]. ring_simplify. apply Qle_refl. }
    rewrite <- Hxq in Hup. lra.
Qed.

(** An integer below [2^53] that is at most [x] is at most the rounded [x]. *)
Lemma roundDouble_lower (j : Z) x :
  0 ≤ j → (inject_Z j <= x)%Q → (x < inject_Z (2 ^ 53))%Q →
  (inject_Z j <= roundDouble x)%Q.
Proof.
  intros Hj Hjx Hx53.
  destruct (decide (j = 0)) as [->|Hj0].
  { apply roundDouble_nonneg. exact Hjx. }
  assert (0 < x)%Q as Hx.
  { eapply Qlt_le_trans; [|exact Hjx]. change 0%Q with (inject_Z 0).
    rewrite <- Zlt_Qlt. lia. }
  rewrite roundDouble_positive by done.
  set (q := Z.max (binade x - 52) (-1074)).
  pose proof (pow2_pos q) as Hq.
  assert (q ≤ 0) as Hq0.
  { pose proof (binade_le x Hx) as Hb.
    assert (binade x < 53); [|unfold q; lia].
    apply (Qpower_lt_compat_l_inv 2); [|done].
    eapply Qle_lt_trans; [exact Hb|]. by rewrite pow2_Z. }
  assert (inject_Z j == inject_Z (j * 2 ^ (- q)) * 2 ^ q)%Q as Hjq.
  { rewrite inject_Z_mult, <- pow2_Z by lia.
    rewrite <- Qmult_assoc, <- Qpower_plus by done.
    replace (- q + q) with 0 by lia. change (2 ^ 0)%Q with 1%Q. ring. }
  assert (j * 2 ^ (- q) ≤ Qfloor (x / 2 ^ q)) as Hfloor.
  { rewrite <- (Qfloor_Z (j * 2 ^ (- q))). apply Qfloor_resp_le.
    apply Qle_shift_div_l; [done|]. by rewrite <- Hjq. }
  assert (inject_Z j <= inject_Z (Qfloor (x / 2 ^ q)) * 2 ^ q)%Q as Hlow.
  { rewrite Hjq. apply Qmult_le_compat_r; [|by apply Qlt_le_weak].
    by rewrite <- Zle_Qle. }
  destruct (roundPositive_cases x) as [->|[-> _]]; cbv zeta; fold q; [done|].
  eapply Qle_trans; [exact Hlow|].
  apply Qmult_le_compat_r; [|by apply Qlt_le_weak]. rewrite <- Zle_Qle. lia.
Qed.

Lemma binade_lt x : (0 < x)%Q → (x < 2 ^ (binade x + 1))%Q.
Proof.
  intros Hx. unfold binade.
  destruct (Qle_bool _ x) eqn:Hle.
  - clear Hle. destruct x as [a b]. cbn [Qnum Qden].
    assert (0 < a) as Ha. { unfold Qlt in Hx. simpl in Hx. lia. }
    pose proof (Z.log2_spec a Ha) as [Ha1 Ha2].
    pose proof (Z.log2_spec (Z.pos b) (Pos2Z.is_pos b)) as [Hb1 Hb2].
    pose proof (Z.log2_nonneg a) as Hla.
    pose proof (Z.log2_nonneg (Z.pos b)) as Hlb.
    set (la := Z.log2 a) in *. set (lb := Z.log2 (Z.pos b)) in *.
    replace (la - lb + 1) with (la + 1 - lb) by lia.
    rewrite Qpower_minus by done.
    rewrite !pow2_Z by lia.
    apply Qlt_shift_div_l.
    { change 0%Q with (inject_Z 0). rewrite <- Zlt_Qlt. lia. }
    unfold Qlt. cbn [Qnum Qden inject_Z Qmult].
    replace (Z.succ la) with (la + 1) in Ha2 by lia.
    nia.
  - replace (_ - 1 + 1) with (Z.log2 (Qnum x) - Z.log2 (Z.pos (Qden x))) by lia.
    apply Qnot_le_lt. intros H. apply Qle_bool_iff in H. congruence.
Qed.

Lemma pow2_split (a b : Z) : (2 ^ (a + b) == 2 ^ a * 2 ^ b)%Q.
Proof. by apply Qpower_plus. Qed.

Lemma scaled_unscale x q : (x / 2 ^ q * 2 ^ q == x)%Q.
Proof.
  pose proof (pow2_pos q) as Hq. unfold Qdiv.
  rewrite <- Qmult_assoc, (Qmult_comm (/ _)), Qmult_inv_r; [ring|].
  intros H0. rewrite H0 in Hq. by apply Qlt_irrefl in Hq.
Qed.

(** A double is rounded to itself. *)
Lemma roundDouble_exact x : isDouble x → (roundDouble x == x)%Q.
Proof.
  assert (∀ y, isDouble y → (0 < y)%Q → (roundPositive y == y)%Q) as Hpos.
  { clear x. intros x (m & e & Hm & He & Hx) Hx0.
    set (q := Z.max (binade x - 52) (-1074)).
    pose proof (pow2_pos q) as Hq. pose proof (pow2_pos e) as Hpe.
    assert (0 < m) as Hm0.
    { apply Z.lt_nge. intros Hle. rewrite Zle_Qle in Hle. change (inject_Z 0) with 0%Q in Hle.
      rewrite Hx in Hx0. 
      assert (inject_Z m * 2 ^ e <= 0 * 2 ^ e)%Q as H.
      { apply Qmult_le_compat_r; [done|by apply Qlt_le_weak]. }
      lra. }
    assert (q ≤ e) as Hqe.
    { assert (binade x < e + 53); [|unfold q; lia].
      apply (Qpower_lt_compat_l_inv 2); [|done].
      eapply Qle_lt_trans; [by apply binade_le|].
      rewrite Hx, pow2_split. rewrite (Qmult_comm (2 ^ e)).
      apply Qmult_lt_compat_r; [done|]. rewrite pow2_Z by lia. rewrite <- Zlt_Qlt. lia. }
    assert (x / 2 ^ q == inject_Z (m * 2 ^ (e - q)))%Q as Hint.
    { rewrite inject_Z_mult, <- pow2_Z by lia. rewrite Hx.
      replace e with (e - q + q) at 1 by lia. rewrite pow2_split.
      field. intros H0. rewrite H0 in Hq. by apply Qlt_irrefl in Hq. }
    unfold roundPositive. fold q.
    assert (Qfloor (x / 2 ^ q) = m * 2 ^ (e - q)) as Hfl.
    { rewrite Hint. apply Qfloor_Z. }
    rewrite Hfl.
    assert ((x / 2 ^ q - inject_Z (m * 2 ^ (e - q)) ?= 1 # 2)%Q = Lt) as ->.
    { rewrite <- Qlt_alt. rewrite Hint. lra. }
    rewrite <- Hint. apply scaled_unscale. }
  intros Hd. unfold roundDouble.
  destruct (x ?= 0)%Q eqn:Hc.
  - rewrite <- Qeq_alt in Hc. by rewrite Hc.
  - rewrite <- Qlt_alt in Hc.
    rewrite Hpos; [ring| |lra].
    destruct Hd as (m & e & Hm & He & Hx). exists (- m), e.
    split_and!; [lia|lia|lia|]. rewrite Hx, inject_Z_opp. ring.
  - rewrite <- Qgt_alt in Hc. by apply Hpos.
Qed.

(** The two multiples of the unit in the last place around [x], and the
    one that is chosen. *)
Lemma roundPositive_neighbours x :
  (0 < x)%Q →
  let u := (2 ^ Z.max (binade x - 52) (-1074))%Q in
  let n := Qfloor (x / u) in
  (inject_Z n * u <= x)%Q ∧ (x < inject_Z (n + 1) * u)%Q ∧
  ((roundPositive x = (inject_Z n * u)%Q ∧
    (x - inject_Z n * u <= inject_Z (n + 1) * u - x)%Q) ∨
   (roundPositive x = (inject_Z (n + 1) * u)%Q ∧
    (inject_Z (n + 1) * u - x <= x - inject_Z n * u)%Q)).
Proof.
  intros Hx u n.
  pose proof (pow2_pos (Z.max (binade x - 52) (-1074))) as Hu. fold u in Hu.
  pose proof (scaled_unscale x (Z.max (binade x - 52) (-1074))) as Hxu. fold u in Hxu.
  pose proof (Qfloor_le (x / u)) as Hlo. pose proof (Qlt_floor (x / u)) as Hhi.
  fold n in Hlo, Hhi.
  set (m := (x / u)%Q) in *.
  assert (inject_Z n * u <= m * u)%Q as H1.
  { apply Qmult_le_compat_r; [done|by apply Qlt_le_weak]. }
  assert (m * u < inject_Z (n + 1) * u)%Q as H2.
  { by apply Qmult_lt_compat_r. }
  rewrite Hxu in H1, H2. split_and!; [done|done|].
  assert (∀ a b : Q, (a <= b)%Q → (a * u <= b * u)%Q) as Hmul.
  { intros a b Hab. apply Qmult_le_compat_r; [done|by apply Qlt_le_weak]. }
  rewrite inject_Z_plus in *. change (inject_Z 1) with 1%Q in *.
  unfold roundPositive. fold u. fold m. fold n.
  destruct (m - inject_Z n ?= 1 # 2)%Q eqn:Hc.
  - rewrite <- Qeq_alt in Hc.
    assert ((m - inject_Z n) * u == (1 # 2) * u)%Q as Hhalf by by rewrite Hc.
    destruct (Z.even n).
    + left. split; [done|].
      lra.
    + right. rewrite inject_Z_plus. change (inject_Z 1) with 1%Q. split; [done|].
      lra.
  - rewrite <- Qlt_alt in Hc. left. split; [done|].
    pose proof (Hmul _ _ (Qlt_le_weak _ _ Hc)) as Hhalf.
    lra.
  - rewrite <- Qgt_alt in Hc. right. rewrite inject_Z_plus. change (inject_Z 1) with 1%Q.
    split; [done|].
    pose proof (Hmul _ _ (Qlt_le_weak _ _ Hc)) as Hhalf.
    lra.
Qed.

(** No double lies strictly between these two multiples. *)
Lemma no_double_between x d :
  (0 < x)%Q → isDouble d →
  let u := (2 ^ Z.max (binade x - 52) (-1074))%Q in
  let n := Qfloor (x / u) in
  (d <= inject_Z n * u)%Q ∨ (inject_Z (n + 1) * u <= d)%Q.
Proof.
  intros Hx (M & E & HM & HE & Hd) u n.
  set (q := Z.max (binade x - 52) (-1074)) in *.
  pose proof (pow2_pos q) as Hu. fold u in Hu.
  pose proof (pow2_pos E) as HpE.
  destruct (Qlt_le_dec (inject_Z n * u) d) as [Hlt|Hle]; [right|by left].
  assert (0 ≤ n) as Hn0.
  { change 0 with (Qfloor (inject_Z 0)). apply Qfloor_resp_le.
    apply Qle_shift_div_l; [done|]. rewrite Qmult_0_l. by apply Qlt_le_weak. }
  assert (0 <= inject_Z n * u)%Q as Hnu.
  { apply Qmult_le_0_compat; [|by apply Qlt_le_weak].
    change 0%Q with (inject_Z 0). by rewrite <- Zle_Qle. }
  destruct (decide (q ≤ E)) as [HqE|HqE].
  - assert (d == inject_Z (M * 2 ^ (E - q)) * u)%Q as HD.
    { rewrite inject_Z_mult, <- pow2_Z by lia. rewrite Hd. unfold u.
      rewrite <- Qmult_assoc, <- pow2_split. by replace (E - q + q) with E by lia. }
    rewrite HD in Hlt |- *.
    apply Qmult_lt_r in Hlt; [|done]. rewrite <- Zlt_Qlt in Hlt.
    apply Qmult_le_compat_r; [|by apply Qlt_le_weak]. rewrite <- Zle_Qle. lia.
  - exfalso.
    assert (q = binade x - 52) as Hq by (unfold q in *; lia).
    assert (d < 2 ^ binade x)%Q as Hsmall.
    { rewrite Hd. apply (Qlt_le_trans _ (inject_Z (2 ^ 53) * 2 ^ E)).
      - apply Qmult_lt_compat_r; [done|]. rewrite <- Zlt_Qlt. lia.
      - rewrite <- pow2_Z, <- pow2_split by lia.
        apply Qpower_le_compat_l; [lia|done]. }
    assert (2 ^ binade x == inject_Z (2 ^ 52) * u)%Q as Hbin.
    { rewrite <- pow2_Z by lia. unfold u. rewrite <- pow2_split, Hq.
      by replace (52 + (binade x - 52)) with (binade x) by lia. }
    assert (2 ^ 52 ≤ n) as Hn52.
    { rewrite <- (Qfloor_Z (2 ^ 52)). apply Qfloor_resp_le.
      apply Qle_shift_div_l; [done|]. rewrite <- Hbin. by apply binade_le. }
    assert (inject_Z (2 ^ 52) * u <= inject_Z n * u)%Q as Hge.
    { apply Qmult_le_compat_r; [|by apply Qlt_le_weak]. by rewrite <- Zle_Qle. }
    rewrite <- Hbin in Hge. lra.
Qed.

(** [roundDouble] gives a double that is nearest: no double is closer to
    the exact value. *)
Lemma roundDouble_nearest x d :
  (0 <= x)%Q → isDouble d → (Qabs (roundDouble x - x) <= Qabs (d - x))%Q.
Proof.
  intros Hx0 Hd.
  apply Qle_lteq in Hx0 as [Hx|Hx].
  2:{ unfold roundDouble. symmetry in Hx. pose proof Hx as Hx'. apply Qeq_alt in Hx.
      rewrite Hx. rewrite Hx'. apply (Qle_trans _ 0); [done|apply Qabs_nonneg]. }
  rewrite roundDouble_positive by done.
  pose proof (Qle_Qabs (d - x)) as Ha1.
  pose proof (Qle_Qabs (- (d - x))) as Ha2. rewrite Qabs_opp in Ha2.
  apply Qabs_Qle_condition.
  destruct (roundPositive_neighbours x Hx) as (Hlo & Hhi & Hcase).
  destruct (no_double_between x d Hx Hd) as [Hdl|Hdu]; cbv zeta in *;
    destruct Hcase as [[-> Hhalf]|[-> Hhalf]]; split; lra.
Qed.

(** The rounded value is a double, below the range where the code would
    meet [Infinity]. *)
Lemma roundDouble_isDouble x :
  (0 <= x)%Q → (x < 2 ^ 1023)%Q → isDouble (roundDouble x).
Proof.
  intros Hx0 Hbound.
  apply Qle_lteq in Hx0 as [Hx|Hx].
  2:{ unfold roundDouble. symmetry in Hx. apply Qeq_alt in Hx. rewrite Hx.
      exists 0, 0. split_and!; [lia|lia|lia|reflexivity]. }
  rewrite roundDouble_positive by done.
  set (q := Z.max (binade x - 52) (-1074)).
  pose proof (pow2_pos q) as Hu.
  assert (binade x < 1023) as He.
  { apply (Qpower_lt_compat_l_inv 2); [|done].
    eapply Qle_lt_trans; [by apply binade_le|done]. }
  assert (0 ≤ Qfloor (x / 2 ^ q) < 2 ^ 53) as Hn.
  { split.
    - change 0 with (Qfloor (inject_Z 0)). apply Qfloor_resp_le.
      apply Qle_shift_div_l; [done|]. rewrite Qmult_0_l. by apply Qlt_le_weak.
    - rewrite Zlt_Qlt. eapply Qle_lt_trans; [apply Qfloor_le|].
      apply Qlt_shift_div_r; [done|].
      eapply Qlt_le_trans; [by apply binade_lt|].
      rewrite <- pow2_Z, <- pow2_split by lia.
      apply Qpower_le_compat_l; [unfold q; lia|done]. }
  destruct (roundPositive_cases x) as [->|[-> _]]; cbv zeta; fold q.
  - exists (Qfloor (x / 2 ^ q)), q. split_and!; [lia|unfold q; lia|unfold q; lia|done].
  - destruct (decide (Qfloor (x / 2 ^ q) + 1 < 2 ^ 53)) as [Hlt|Hcarry].
    + exists (Qfloor (x / 2 ^ q) + 1), q.
      split_and!; [lia|unfold q; lia|unfold q; lia|done].
    + exists (2 ^ 52), (q + 1). split_and!; [lia|unfold q; lia|unfold q; lia|].
      replace (Qfloor (x / 2 ^ q) + 1) with (2 ^ 52 * 2) by lia.
      rewrite inject_Z_mult, pow2_split. change (2 ^ 1)%Q with (inject_Z 2). ring.
Qed.

(** The largest double below 1 is [1 - 2^-53]. *)
Lemma isDouble_below_one r :
  isDouble r → (r < 1)%Q → (r <= 1 - (1 # 9007199254740992))%Q.
Proof.
  intros (m & e & Hm & He & Hr) H1. rewrite Hr in H1 |- *.
  pose proof (pow2_pos e) as Hpe.
  destruct (decide (-53 ≤ e)) as [Hbig|Hsmall].
  - assert (2 ^ e == inject_Z (2 ^ (e + 53)) * (1 # 9007199254740992))%Q as He53.
    { rewrite <- pow2_Z by lia. rewrite Qpower_plus by done.
      change (2 ^ 53)%Q with (9007199254740992 # 1)%Q. field. }
    rewrite He53 in H1 |- *. rewrite Qmult_assoc, <- inject_Z_mult in H1 |- *.
    set (M := m * 2 ^ (e + 53)) in *.
    assert (M < 2 ^ 53) as HM.
    { apply Z.lt_nge. intros Hge. rewrite Zle_Qle in Hge.
      change (inject_Z (2 ^ 53)) with (9007199254740992 # 1)%Q in Hge. lra. }
    assert (inject_Z M <= inject_Z (2 ^ 53 - 1))%Q as HM'.
    { rewrite <- Zle_Qle. lia. }
    change (inject_Z (2 ^ 53 - 1)) with (9007199254740991 # 1)%Q in HM'. lra.
  - assert (2 ^ e <= 2 ^ (-54))%Q as Hle.
    { apply Qpower_le_compat_l; [lia|done]. }
    change (2 ^ (-54))%Q with (1 # 18014398509481984)%Q in Hle.
    assert (inject_Z m <= inject_Z (2 ^ 53))%Q as Hm'.
    { rewrite <- Zle_Qle. lia. }
    change (inject_Z (2 ^ 53)) with (9007199254740992 # 1)%Q in Hm'.
    assert (inject_Z m * 2 ^ e <= (9007199254740992 # 1) * 2 ^ e)%Q as Hprod.
    { apply Qmult_le_compat_r; [done|by apply Qlt_le_weak]. }
    lra.
Qed.

(** [Math.floor(r * k)] for a double [r] in [0,1) and an integer [k]: the
    rounded product stays below [k]. *)
Lemma Qfloor_randomIndex (r : Q) (k : Z) :
  isDouble r → (0 <= r)%Q → (r < 1)%Q → 0 < k →
  0 ≤ Qfloor (roundDouble (r * inject_Z k)) < k.
Proof.
  intros Hd H0 H1 Hk.
  pose proof (isDouble_below_one r Hd H1) as Hr.
  assert (1 <= inject_Z k)%Q as Hk1.
  { change 1%Q with (inject_Z 1). rewrite <- Zle_Qle. lia. }
  assert (0 <= r * inject_Z k)%Q as Hlo.
  { apply Qmult_le_0_compat; [done|]. lra. }
  assert (r * inject_Z k <= (1 - (1 # 9007199254740992)) * inject_Z k)%Q as Hhi.
  { apply Qmult_le_compat_r; [done|lra]. }
  pose proof (roundDouble_nonneg _ Hlo) as Hnn.
  pose proof (roundDouble_upper _ Hlo) as Hup.
  assert (2 ^ (-1075) < 1 # 81129638414606681695789005144064)%Q as Htiny.
  { reflexivity. }
  split.
  - change 0 with (Qfloor (inject_Z 0)). by apply Qfloor_resp_le.
  - apply Z.lt_nge. intros Hge. rewrite Zle_Qle in Hge.
    pose proof (Qfloor_le (roundDouble (r * inject_Z k))) as Hfl.
    set (x := (r * inject_Z k)%Q) in *. set (K := inject_Z k) in *.
    set (y := roundDouble x) in *. set (f := inject_Z (Qfloor y)) in *.
    lra.
Qed.

(** The rounding is seen at the double 0.5714285714285714: its product
    with 7 lies half a unit in the last place below 4 and is rounded to 4,
    so the index is 4, where the exact product would give 3. *)
Lemma randomIndex_rounded :
  let r := (2573485501354569 # 4503599627370496)%Q in
  isDouble r ∧ (0 <= r)%Q ∧ (r < 1)%Q ∧
  Qfloor (r * inject_Z 7) = 3 ∧ Qfloor (roundDouble (r * inject_Z 7)) = 4.
Proof.
  split_and!; [|done|done|by vm_compute|by vm_compute].
  exists 2573485501354569, (-52). split_and!; [lia|lia|lia|reflexivity].
Qed.

Lemma Qfloor_unique (y : Q) (j : Z) :
  (inject_Z j <= y)%Q → (y < inject_Z j + 1)%Q → Qfloor y = j.
Proof.
  intros Hlo Hhi.
  assert (j ≤ Qfloor y) as H1.
  { rewrite <- (Qfloor_Z j). by apply Qfloor_resp_le. }
  assert (Qfloor y < j + 1) as H2.
  { rewrite Zlt_Qlt, inject_Z_plus. change (inject_Z 1) with 1%Q.
    eapply Qle_lt_trans; [apply Qfloor_le|done]. }
  lia.
Qed.

Lemma drawFor_spec (j k : Z) :
  0 ≤ j < k → k ≤ 2 ^ 32 →
  isDouble (drawFor j k) ∧ (0 <= drawFor j k)%Q ∧ (drawFor j k < 1)%Q ∧
  Qfloor (roundDouble (drawFor j k * inject_Z k)) = j.
Proof.
  intros Hj Hk. unfold drawFor.
  set (m := (j * 2 ^ 53 + (k - 1)) / k).
  assert (j * 2 ^ 53 ≤ m * k < j * 2 ^ 53 + k) as Hm.
  { pose proof (Z.mul_div_le (j * 2 ^ 53 + (k - 1)) k) as H1.
    pose proof (Z.mul_succ_div_gt (j * 2 ^ 53 + (k - 1)) k) as H2.
    fold m in H1, H2. lia. }
  assert (0 ≤ m < 2 ^ 53) as Hm53 by nia.
  assert ((m # 9007199254740992) == inject_Z m * (1 # 9007199254740992))%Q as Hr.
  { unfold Qeq. simpl. lia. }
  split_and!.
  - exists m, (-53). split_and!; [lia|lia|lia|]. exact Hr.
  - unfold Qle. simpl. lia.
  - unfold Qlt. simpl. lia.
  - set (x := ((m # 9007199254740992) * inject_Z k)%Q).
    assert (x == inject_Z (m * k) * (1 # 9007199254740992))%Q as Hx.
    { unfold x. rewrite Hr, inject_Z_mult. ring. }
    assert (inject_Z j * (9007199254740992 # 1) <= inject_Z (m * k))%Q as Hlo.
    { change (9007199254740992 # 1)%Q with (inject_Z (2 ^ 53)).
      rewrite <- inject_Z_mult, <- Zle_Qle. lia. }
    assert (inject_Z (m * k) <= inject_Z j * (9007199254740992 # 1) + inject_Z k)%Q
      as Hhi.
    { change (9007199254740992 # 1)%Q with (inject_Z (2 ^ 53)).
      rewrite <- inject_Z_mult, <- inject_Z_plus, <- Zle_Qle. lia. }
    assert (inject_Z k <= 4294967296 # 1)%Q as HK.
    { change (4294967296 # 1)%Q with (inject_Z (2 ^ 32)). rewrite <- Zle_Qle. lia. }
    assert (0 <= inject_Z j)%Q as Hj0.
    { change 0%Q with (inject_Z 0). rewrite <- Zle_Qle. lia. }
    assert (inject_Z j <= 4294967296 # 1)%Q as HJ.
    { change (4294967296 # 1)%Q with (inject_Z (2 ^ 32)). rewrite <- Zle_Qle. lia. }
    assert (2 ^ (-1075) < 1 # 81129638414606681695789005144064)%Q as Htiny.
    { reflexivity. }
    assert (0 <= x)%Q as Hx0 by lra.
    pose proof (roundDouble_upper x Hx0) as Hup.
    assert (inject_Z j <= roundDouble x)%Q as Hlow.
    { apply roundDouble_lower; [lia|lra|].
      change (inject_Z (2 ^ 53)) with (9007199254740992 # 1)%Q. lra. }
    apply Qfloor_unique; [done|]. lra.
Qed.

Lemma valid_source_advance s :
  valid_source s → valid_source (Math_random s).2.
Proof. intros H k. apply H. Qed.

Lemma randomIndex_range s k :
  valid_source s → 0 < k →
  0 ≤ (randomIndex k s).1 < k ∧ valid_source (randomIndex k s).2.
Proof.
  intros Hs Hk. unfold randomIndex, bind, ret, Math_random. cbn [fst snd]. split; [|done].
  destruct (Hs (cursor s)) as (Hd & H0 & H1). by apply Qfloor_randomIndex.
Qed.

Lemma JsArray_swap_full (a : list Z) (i j : Z) :
  0 ≤ i → 0 ≤ j → (Z.to_nat i < length a)%nat → (Z.to_nat j < length a)%nat →
  JsArray.swap (Some <$> a) i j = Some <$> swapEntries a (Z.to_nat i) (Z.to_nat j).
Proof.
  intros Hi Hj Hia Hja. unfold JsArray.swap, swapEntries.
  rewrite !JsArray_get_full by done.
  destruct (lookup_lt_is_Some_2 a (Z.to_nat i) Hia) as [x Hx].
  destruct (lookup_lt_is_Some_2 a (Z.to_nat j) Hja) as [y Hy].
  rewrite Hx, Hy.
  rewrite (JsArray_set_inside (Some <$> a)) by (rewrite ?length_fmap; done).
  rewrite JsArray_set_inside by (rewrite ?length_insert, ?length_fmap; done).
  by rewrite !list_fmap_insert.
Qed.

Lemma swapEntries_length a i j : length (swapEntries a i j) = length a.
Proof.
  unfold swapEntries. destruct (a !! i), (a !! j); try done.
  by rewrite !length_insert.
Qed.

(** The loop of [generateRandomMapping] is [fisherYates] on the indices
    it draws, and each index lies in its range. *)
Lemma shuffle_loop (k : nat) (a : list Z) s :
  valid_source s → (k < length a)%nat →
  let res := forEachM (reverse (seqZ 1 (Z.of_nat k))) shuffleStep (Some <$> a) s in
  res.1 = Some <$> fisherYates k (drawnIndices k s) a ∧
  drawnIndices k s ∈ choiceVectors k.
Proof.
  revert a s. induction k as [|k IH]; intros a s Hs Hlen.
  - simpl. split; [done|]. by left.
  - rewrite seqZ_S, reverse_snoc. cbv zeta. rewrite forEachM_cons.
    replace (1 + Z.of_nat k) with (Z.of_nat (S k)) by lia.
    unfold shuffleStep at 2 3. unfold bind. unfold ret.
    destruct (randomIndex_range s (Z.of_nat (S k) + 1) Hs) as [Hj Hs']; [lia|].
    change (drawnIndices (S k) s) with
      ((randomIndex (Z.of_nat (S k) + 1) s).1
         :: drawnIndices k (randomIndex (Z.of_nat (S k) + 1) s).2).
    destruct (randomIndex (Z.of_nat (S k) + 1) s) as [j s']. simpl fst in *. simpl snd in *.
    rewrite JsArray_swap_full by lia. rewrite Nat2Z.id.
    destruct (IH (swapEntries a (S k) (Z.to_nat j)) s' Hs') as [IH1 IH2].
    { rewrite swapEntries_length. lia. }
    split; [done|].
    change (choiceVectors (S k)) with
      (seqZ 0 (Z.of_nat (S k) + 1) ≫= λ j, cons j <$> choiceVectors k).
    apply list_elem_of_bind. exists j. split.
    + apply list_elem_of_fmap. eauto.
    + apply elem_of_seqZ. lia.
Qed.

Lemma swapEntries_lookup a i j k :
  (i < length a)%nat → (j < length a)%nat →
  swapEntries a i j !! k =
  a !! (if decide (k = i) then j else if decide (k = j) then i else k).
Proof.
  intros Hi Hj. unfold swapEntries.
  destruct (lookup_lt_is_Some_2 a i Hi) as [x Hx].
  destruct (lookup_lt_is_Some_2 a j Hj) as [y Hy].
  rewrite Hx, Hy. destruct (decide (k = j)) as [->|Hkj].
  - rewrite list_lookup_insert_eq by (rewrite length_insert; lia).
    case_decide; by subst.
  - rewrite list_lookup_insert_ne by done.
    destruct (decide (k = i)) as [->|Hki].
    + by rewrite list_lookup_insert_eq by lia.
    + by rewrite list_lookup_insert_ne by done.
Qed.

Lemma swapEntries_Permutation a i j :
  (i < length a)%nat → (j < length a)%nat → swapEntries a i j ≡ₚ a.
Proof.
  intros Hi Hj. apply Permutation_inj. split; [apply swapEntries_length|].
  exists (λ k, if decide (k = i) then j else if decide (k = j) then i else k). split.
  - intros k k' Heq. repeat case_decide; congruence.
  - intros k. by apply swapEntries_lookup.
Qed.

(** After the step for the last index [i], the last entry is the entry
    that was chosen, and it stays. *)
Lemma swapEntries_last a i j :
  S i = length a → (j ≤ i)%nat →
  ∃ b y, swapEntries a i j = b ++ [y] ∧ a !! j = Some y ∧ length b = i.
Proof.
  intros Hi Hj.
  destruct (lookup_lt_is_Some_2 a j) as [y Hy]; [lia|].
  exists (take i (swapEntries a i j)), y. split_and!; [|done|].
  - rewrite <- (take_drop i (swapEntries a i j)) at 1. f_equal.
    assert (swapEntries a i j !! i = Some y) as Hlast.
    { rewrite swapEntries_lookup by lia. by rewrite decide_True. }
    rewrite (drop_S _ y) by done. rewrite drop_ge; [done|].
    rewrite swapEntries_length. lia.
  - rewrite length_take, swapEntries_length. lia.
Qed.

Lemma swapEntries_app a suffix i j :
  (i < length a)%nat → (j < length a)%nat →
  swapEntries (a ++ suffix) i j = swapEntries a i j ++ suffix.
Proof.
  intros Hi Hj. unfold swapEntries. rewrite !lookup_app_l by done.
  destruct (a !! i), (a !! j); try done.
  rewrite insert_app_l by done. by rewrite insert_app_l by (rewrite length_insert; lia).
Qed.

Lemma choiceVectors_succ k js :
  js ∈ choiceVectors (S k) ↔
  ∃ j js', js = j :: js' ∧ 0 ≤ j ≤ Z.of_nat (S k) ∧ js' ∈ choiceVectors k.
Proof.
  change (choiceVectors (S k)) with
    (seqZ 0 (Z.of_nat (S k) + 1) ≫= λ j, cons j <$> choiceVectors k).
  rewrite list_elem_of_bind. split.
  - intros (j & (js' & -> & Hjs')%list_elem_of_fmap & Hj%elem_of_seqZ).
    exists j, js'. split_and!; [done|lia|lia|done].
  - intros (j & js' & -> & Hj & Hjs'). exists j. split.
    + apply list_elem_of_fmap. eauto.
    + apply elem_of_seqZ. lia.
Qed.

(** The steps for the smaller indices leave the end of the array alone. *)
Lemma fisherYates_frozen k js a suffix :
  js ∈ choiceVectors k → (k < length a)%nat →
  fisherYates k js (a ++ suffix) = fisherYates k js a ++ suffix.
Proof.
  revert js a. induction k as [|k IH]; intros js a Hjs Hlen.
  - by destruct js.
  - apply choiceVectors_succ in Hjs as (j & js' & -> & Hj & Hjs'). simpl.
    rewrite swapEntries_app by lia. apply IH; [done|].
    rewrite swapEntries_length. lia.
Qed.

Lemma fisherYates_Permutation k js a :
  js ∈ choiceVectors k → (k < length a)%nat → fisherYates k js a ≡ₚ a.
Proof.
  revert js a. induction k as [|k IH]; intros js a Hjs Hlen.
  - by destruct js.
  - apply choiceVectors_succ in Hjs as (j & js' & -> & Hj & Hjs'). simpl.
    rewrite IH by (rewrite ?swapEntries_length; done || lia).
    apply swapEntries_Permutation; lia.
Qed.

Lemma list_split_last {A} (a : list A) n :
  length a = S n → ∃ a' x, a = a' ++ [x] ∧ length a' = n.
Proof.
  intros Hlen. destruct a as [|x a] using rev_ind; [done|].
  rewrite length_app in Hlen. simpl in Hlen. exists a, x. split; [done|lia].
Qed.

(** One step of the loop, seen from the end of the array. *)
Lemma fisherYates_step k j js a :
  length a = S (S k) → 0 ≤ j ≤ Z.of_nat (S k) → js ∈ choiceVectors k →
  ∃ b y, swapEntries a (S k) (Z.to_nat j) = b ++ [y] ∧ a !! Z.to_nat j = Some y ∧
         length b = S k ∧ b ++ [y] ≡ₚ a ∧
         fisherYates (S k) (j :: js) a = fisherYates k js b ++ [y].
Proof.
  intros Hlen Hj Hjs.
  destruct (swapEntries_last a (S k) (Z.to_nat j)) as (b & y & Hsw & Hy & Hb); [lia..|].
  exists b, y. split_and!; try done.
  - rewrite <- Hsw. apply swapEntries_Permutation; lia.
  - simpl. rewrite Hsw. apply fisherYates_frozen; [done|lia].
Qed.

(** Fisher-Yates is a bijection from the index vectors to the orderings
    of the array. *)
Lemma fisherYates_bijective k a b :
  length a = S k → NoDup a → b ≡ₚ a →
  ∃ js, js ∈ choiceVectors k ∧ fisherYates k js a = b ∧
        ∀ js', js' ∈ choiceVectors k → fisherYates k js' a = b → js' = js.
Proof.
  revert a b. induction k as [|k IH]; intros a b Hlen Hnd Hperm.
  - destruct a as [|x [|??]]; try done. apply Permutation_singleton_r in Hperm as ->.
    exists []. split_and!; [by left|done|].
    intros js' Hjs' _. by apply list_elem_of_singleton in Hjs'.
  - assert (length b = S (S k)) as Hlenb by by rewrite Hperm.
    destruct (list_split_last b (S k) Hlenb) as (b' & y & -> & Hlenb').
    assert (y ∈ a) as [j Hj]%list_elem_of_lookup.
    { rewrite <- Hperm. apply elem_of_app. right. by left. }
    assert (j < S (S k))%nat as Hjlt by (apply lookup_lt_Some in Hj; lia).
    destruct (swapEntries_last a (S k) j) as (b0 & y0 & Hsw & Hy0 & Hlenb0); [lia..|].
    assert (y0 = y) as -> by congruence.
    assert (b0 ++ [y] ≡ₚ a) as Hperm0.
    { rewrite <- Hsw. apply swapEntries_Permutation; lia. }
    assert (b' ≡ₚ b0) as Hperm'.
    { apply (Permutation_app_inv_r [y]). by rewrite Hperm, Hperm0. }
    assert (NoDup b0) as Hnd0.
    { rewrite <- Hperm0 in Hnd. by apply NoDup_app in Hnd as (? & _). }
    destruct (IH b0 b' Hlenb0 Hnd0 Hperm') as (js0 & Hjs0 & Hfy & Huniq).
    exists (Z.of_nat j :: js0). split_and!.
    + apply choiceVectors_succ. exists (Z.of_nat j), js0. split_and!; [done|lia|lia|done].
    + simpl. rewrite Nat2Z.id, Hsw. rewrite fisherYates_frozen by (done || lia).
      by rewrite Hfy.
    + intros js' (j' & js0' & -> & Hj' & Hjs0')%choiceVectors_succ Hfy'.
      destruct (fisherYates_step k j' js0' a) as (b1 & y1 & Hsw1 & Hy1 & Hlenb1 & _ & Hstep);
        [done..|].
      rewrite Hstep in Hfy'. apply app_inj_tail in Hfy' as [Hfy' ->].
      assert (Z.to_nat j' = j) as Hjj by by apply (NoDup_lookup a _ _ y).
      rewrite Hjj, Hsw in Hsw1. apply app_inj_tail in Hsw1 as [-> _].
      f_equal; [lia|]. by apply Huniq.
Qed.

(** The mapping stored by the second loop of [generateRandomMapping] has
    the shuffled array as its arrangement. *)
Lemma invertInto_fold (b : list Z) (k : nat) :
  NoDup b → (k ≤ length b)%nat →
  ∀ p i, foldl (invertInto (Some <$> b)) ∅ (seqZ 0 (Z.of_nat k)) !! p = Some i ↔
         0 ≤ i < Z.of_nat k ∧ b !! Z.to_nat i = Some p.
Proof.
  intros Hnd. induction k as [|k IH]; intros Hk p i.
  - simpl. rewrite lookup_empty. split; [done|lia].
  - rewrite seqZ_S, foldl_snoc. unfold invertInto at 1.
    rewrite JsArray_get_full by lia.
    replace (Z.to_nat (0 + Z.of_nat k)) with k by lia.
    destruct (lookup_lt_is_Some_2 b k) as [q Hq]; [lia|]. rewrite Hq.
    destruct (decide (p = q)) as [->|Hne].
    + rewrite lookup_insert_eq. split.
      * intros [= <-]. split; [lia|]. by replace (Z.to_nat (0 + Z.of_nat k)) with k by lia.
      * intros [Hi Hb]. f_equal.
        assert (Z.to_nat i = k) by by apply (NoDup_lookup b _ _ q). lia.
    + rewrite lookup_insert_ne by done. rewrite IH by lia. split.
      * intros [? ?]. split; [lia|done].
      * intros [Hi Hb]. split; [|done].
        destruct (decide (i = Z.of_nat k)) as [->|]; [|lia].
        rewrite Nat2Z.id in Hb. congruence.
Qed.

Lemma invertInto_represents n (b : list Z) :
  NoDup b → length b = Z.to_nat n →
  represents n (foldl (invertInto (Some <$> b)) ∅ (seqZ 0 n)) b.
Proof.
  intros Hnd Hlen. split; [done|]. intros p i.
  rewrite <- (seqZ_to_nat 0 n), <- Hlen. rewrite invertInto_fold by done. split.
  - intros [? ?]. split; [lia|done].
  - intros [? Hb]. split; [|done]. apply lookup_lt_Some in Hb. lia.
Qed.

Lemma represents_isPermutationOf n m b :
  represents n m b → b ≡ₚ seqZ 0 n → isPermutationOf n m.
Proof.
  intros [Hlen Hrep] Hperm.
  assert (∀ p, p ∈ b ↔ 0 ≤ p < n) as Hin.
  { intros p. rewrite Hperm, elem_of_seqZ. lia. }
  unfold isPermutationOf. split_and!.
  - intros p. rewrite <- Hin. split.
    + intros [k [_ Hk]%Hrep]. by eapply list_elem_of_lookup_2.
    + intros [i Hi]%list_elem_of_lookup. exists (Z.of_nat i).
      apply Hrep. rewrite Nat2Z.id. split; [lia|done].
  - intros p k [Hk Hb]%Hrep. apply lookup_lt_Some in Hb. lia.
  - intros p q k [_ Hp]%Hrep [_ Hq]%Hrep. congruence.
  - intros k Hk. destruct (lookup_lt_is_Some_2 b (Z.to_nat k)) as [p Hp]; [lia|].
    exists p. apply Hrep. split; [lia|done].
Qed.

Lemma isPermutationOf_arrangement n m t :
  isPermutationOf n m → represents n m t → t ≡ₚ seqZ 0 n.
Proof.
  intros Hm Ht. apply NoDup_Permutation.
  - by eapply represents_NoDup.
  - apply NoDup_seqZ.
  - intros p. rewrite (represents_elem_of n m t), elem_of_seqZ by done. lia.
Qed.

(** What [generateRandomMapping] returns, in terms of arrangements: the
    arrangement of its mapping is the Fisher-Yates shuffle of [0..n-1]
    for the indices drawn. *)
Lemma generateRandomMapping_arrangement n s :
  1 ≤ n → valid_source s →
  let k := Z.to_nat (n - 1) in
  drawnIndices k s ∈ choiceVectors k ∧
  represents n (generateRandomMapping n s).1
    (fisherYates k (drawnIndices k s) (seqZ 0 n)).
Proof.
  intros Hn Hs k. unfold generateRandomMapping, bind, ret.
  destruct (shuffle_loop k (seqZ 0 n) s Hs) as [Hloop Hjs].
  { rewrite length_seqZ. lia. }
  replace (Z.of_nat k) with (n - 1) in Hloop by lia.
  destruct (forEachM _ shuffleStep _ s) as [shuffled s']. simpl in *. subst shuffled.
  split; [done|].
  assert (fisherYates k (drawnIndices k s) (seqZ 0 n) ≡ₚ seqZ 0 n) as Hperm.
  { apply fisherYates_Permutation; [done|]. rewrite length_seqZ. lia. }
  apply invertInto_represents.
  - rewrite Hperm. apply NoDup_seqZ.
  - rewrite Hperm, length_seqZ. done.
Qed.

(** [sourceOfChoices] makes the loop draw the given indices. *)
Lemma choiceVectors_range k js :
  js ∈ choiceVectors k →
  length js = k ∧ ∀ t j, js !! t = Some j → 0 ≤ j ≤ Z.of_nat (k - t).
Proof.
  revert js. induction k as [|k IH]; intros js Hjs.
  - apply list_elem_of_singleton in Hjs as ->. split; [done|]. intros t j Ht.
    by rewrite lookup_nil in Ht.
  - apply choiceVectors_succ in Hjs as (j0 & js' & -> & Hj0 & Hjs').
    destruct (IH js' Hjs') as [Hlen Hran]. split; [simpl; lia|].
    intros [|t] j Ht; simpl in Ht.
    + injection Ht as <-. lia.
    + apply Hran in Ht. replace (S k - S t)%nat with (k - t)%nat by lia. done.
Qed.

Lemma sourceOfChoices_valid k js :
  Z.of_nat k < 2 ^ 32 → js ∈ choiceVectors k → valid_source (sourceOfChoices k js).
Proof.
  intros Hk Hjs t. destruct (choiceVectors_range k js Hjs) as [_ Hran]. cbn [sourceOfChoices draws].
  destruct (js !! t) as [j|] eqn:Ht.
  - apply Hran in Ht.
    destruct (drawFor_spec j (Z.of_nat (k - t) + 1)) as (Hd & H0 & H1 & _); [lia|lia|done].
  - split_and!; [|done|done]. exists 0, 0. split_and!; [lia|lia|lia|reflexivity].
Qed.

Lemma drawnIndices_sourceOfChoices K js k t :
  Z.of_nat K < 2 ^ 32 → js ∈ choiceVectors K → (k + t = K)%nat →
  drawnIndices k {| draws := draws (sourceOfChoices K js); cursor := t |} = drop t js.
Proof.
  intros HK Hjs. destruct (choiceVectors_range K js Hjs) as [Hlen Hran].
  revert t. induction k as [|k IH]; intros t Hkt.
  - simpl. rewrite drop_ge by lia. done.
  - destruct (lookup_lt_is_Some_2 js t) as [j Hj]; [lia|].
    rewrite (drop_S _ j) by done.
    cbn [drawnIndices]. unfold randomIndex, bind, ret, Math_random.
    cbn [fst snd draws cursor sourceOfChoices]. f_equal.
    + rewrite Hj. specialize (Hran t j Hj).
      replace (K - t)%nat with (S k) in * by lia.
      by destruct (drawFor_spec j (Z.of_nat (S k) + 1)) as (_ & _ & _ & ->); [lia|lia|].
    + apply IH. lia.
Qed.

Lemma drawnIndices_of_choices k js :
  Z.of_nat k < 2 ^ 32 → js ∈ choiceVectors k →
  drawnIndices k (sourceOfChoices k js) = js.
Proof.
  intros Hk Hjs. apply (drawnIndices_sourceOfChoices k js k 0); [done|done|lia].
Qed.

(** The sample space: its size and the probability of an outcome. *)
Lemma length_bind_const {A B} (f : A → list B) (l : list A) c :
  (∀ x, length (f x) = c) → length (l ≫= f) = (length l * c)%nat.
Proof.
  intros Hf. induction l as [|x l IH]; [done|].
  rewrite bind_cons, length_app, Hf, IH. simpl. lia.
Qed.

Lemma length_choiceVectors k : length (choiceVectors k) = fact (S k).
Proof.
  induction k as [|k IH]; [done|].
  change (choiceVectors (S k)) with
    (seqZ 0 (Z.of_nat (S k) + 1) ≫= λ j, cons j <$> choiceVectors k).
  rewrite (length_bind_const _ _ (fact (S k))).
  - rewrite length_seqZ. replace (Z.to_nat (Z.of_nat (S k) + 1)) with (S (S k)) by lia.
    change (fact (S (S k))) with (S (S k) * fact (S k))%nat. done.
  - intros j. by rewrite length_fmap.
Qed.

Lemma NoDup_choiceVectors k : NoDup (choiceVectors k).
Proof.
  induction k as [|k IH]; [apply NoDup_singleton|].
  change (choiceVectors (S k)) with
    (seqZ 0 (Z.of_nat (S k) + 1) ≫= λ j, cons j <$> choiceVectors k).
  apply NoDup_bind.
  - intros j1 j2 js _ _ (? & -> & _)%list_elem_of_fmap (? & [= -> _] & _)%list_elem_of_fmap.
    done.
  - intros j _. apply NoDup_fmap_2; [|done]. intros ?? [=]. done.
  - apply NoDup_seqZ.
Qed.

Lemma length_filter_unique {A} (P : A → Prop) `{∀ x, Decision (P x)} (l : list A) x :
  NoDup l → x ∈ l → P x → (∀ y, y ∈ l → P y → y = x) → length (filter P l) = 1%nat.
Proof.
  intros Hnd Hx HPx Huniq.
  assert (filter P l ≡ₚ [x]) as ->; [|done].
  apply NoDup_Permutation.
  - by apply NoDup_filter.
  - apply NoDup_singleton.
  - intros y. rewrite list_elem_of_filter, list_elem_of_singleton. split.
    + intros [? ?]. by apply Huniq.
    + intros ->. done.
Qed.

Lemma outcome_represents n js :
  1 ≤ n → js ∈ sampleSpace n →
  represents n (outcome n js) (fisherYates (Z.to_nat (n - 1)) js (seqZ 0 n)).
Proof.
  intros Hn Hjs. unfold outcome.
  assert (fisherYates (Z.to_nat (n - 1)) js (seqZ 0 n) ≡ₚ seqZ 0 n) as Hperm.
  { apply fisherYates_Permutation; [done|]. rewrite length_seqZ. lia. }
  apply invertInto_represents.
  - rewrite Hperm. apply NoDup_seqZ.
  - rewrite Hperm, length_seqZ. done.
Qed.

(** C2. For [n ≥ 1] (in particular [n ≥ 2]), [generateRandomMapping n]
    always returns a permutation of [{0..n-1}]: the indices [j] that the
    loop computes from the doubles it draws, with the product rounded as
    the code rounds it, lie in [0..i] for each [i] from [n-1] down to 1,
    and the mapping returned is the one that the Fisher-Yates loop
    produces from these indices. For the lengths an array can have, every
    such vector of indices is drawn by some source of doubles in [0,1).
    There are [n!] vectors, and exactly one of them produces any given
    permutation. So, when each index is uniform on its range, every
    permutation has probability [1/n!]. *)
Theorem generateRandomMapping_uniform n :
  1 ≤ n →
  (∀ s, valid_source s →
     isPermutationOf n (generateRandomMapping n s).1 ∧
     drawnIndices (Z.to_nat (n - 1)) s ∈ sampleSpace n ∧
     (generateRandomMapping n s).1 = outcome n (drawnIndices (Z.to_nat (n - 1)) s)) ∧
  (n < 2 ^ 32 → ∀ js, js ∈ sampleSpace n →
     valid_source (sourceOfChoices (Z.to_nat (n - 1)) js) ∧
     drawnIndices (Z.to_nat (n - 1)) (sourceOfChoices (Z.to_nat (n - 1)) js) = js) ∧
  length (sampleSpace n) = fact (Z.to_nat n) ∧
  (∀ m, isPermutationOf n m → probability n m = 1 # Pos.of_nat (fact (Z.to_nat n))).
Proof.
  intros Hn.
  assert (length (sampleSpace n) = fact (Z.to_nat n)) as Hsize.
  { unfold sampleSpace. rewrite length_choiceVectors. f_equal. lia. }
  split_and!.
  - intros s Hs.
    destruct (generateRandomMapping_arrangement n s Hn Hs) as [Hjs Hrep].
    split_and!; [|done|].
    + eapply represents_isPermutationOf; [exact Hrep|].
      apply fisherYates_Permutation; [done|]. rewrite length_seqZ. lia.
    + eapply represents_mapping_unique; [exact Hrep|]. by apply outcome_represents.
  - intros Hbound js Hjs.
    split; [apply sourceOfChoices_valid|apply drawnIndices_of_choices]; done || lia.
  - done.
  - intros m Hm. unfold probability. rewrite Hsize. f_equal.
    destruct (positionTable_represents n m Hm) as (t & _ & Ht).
    destruct (fisherYates_bijective (Z.to_nat (n - 1)) (seqZ 0 n) t)
      as (js & Hjs & Hfy & Huniq).
    { rewrite length_seqZ. lia. }
    { apply NoDup_seqZ. }
    { by eapply isPermutationOf_arrangement. }
    rewrite (length_filter_unique _ _ js); [done|apply NoDup_choiceVectors|done|..].
    + eapply represents_mapping_unique; [|exact Ht].
      rewrite <- Hfy. by apply outcome_represents.
    + intros js' Hjs' Hout. apply Huniq; [done|].
      eapply represents_arrangement_unique; [|exact Ht].
      rewrite <- Hout. by apply outcome_represents.
Qed.

(** ** The orchestration *)

Lemma valid_source_draws s s' : draws s' = draws s → valid_source s → valid_source s'.
Proof. intros Heq Hs k. rewrite Heq. apply Hs. Qed.

Lemma scanColumn_draws r col st s : draws (scanColumn r col st s).2 = draws s.
Proof.
  destruct st as [ls used]. unfold scanColumn. case_decide; [done|].
  unfold bind. simpl. by destruct (Qlt_bool _ _).
Qed.

Lemma generateRandomLines_draws numColumns numRows s :
  draws (generateRandomLines numColumns numRows s).2 = draws s.
Proof.
  unfold generateRandomLines.
  apply (forEachM_invariant (λ _ s', draws s' = draws s)); [done|].
  intros r ls s' _ Hs'. unfold scanRow, bind.
  pose proof (forEachM_invariant (λ _ s'', draws s'' = draws s)
    (seqZ 0 (numColumns - 1)) (scanColumn r) (ls, ∅) s') as Hinv.
  destruct (forEachM _ _ _ s') as [st s'']. simpl in *. apply Hinv; [done|].
  intros col st0 s0 _ Hs0. by rewrite scanColumn_draws.
Qed.

Lemma traceRows_empty_rows ls rs c :
  (∀ r, r ∈ rs → rowLines r ls = []) → traceRows ls rs c = c.
Proof.
  intros H. induction rs as [|r rs IH]; [done|].
  unfold traceRows. simpl. rewrite H by left. simpl.
  apply IH. intros r' Hr'. apply H. by right.
Qed.

Lemma rowLines_none r ls : (∀ line, line ∈ ls → row line ≠ r) → rowLines r ls = [].
Proof.
  intros H. induction ls as [|l ls IH]; [done|]. rewrite rowLines_cons.
  rewrite decide_False by (apply H; left). apply IH. intros line Hin. apply H. by right.
Qed.

Lemma applySwaps_snoc ts c x : applySwaps (ts ++ [c]) x = swapCol c (applySwaps ts x).
Proof. unfold applySwaps. by rewrite foldl_snoc. Qed.

(** Tracing through the adjustment rows applies the transpositions in
    the order in which they were emitted. *)
Lemma placement_trace startRow ts placed k x :
  placement startRow ts placed k →
  traceRows placed (seqZ startRow (Z.of_nat k)) x = applySwaps ts x.
Proof.
  intros Hpl. revert x.
  induction Hpl as [|ts placed k col Hpl IH Hfree|ts placed k col Hpl IH]; intros x.
  - done.
  - pose proof (placement_rows _ _ _ _ Hpl) as Hrows. rewrite Forall_forall in Hrows.
    rewrite seqZ_S, traceRows_snoc, applySwaps_snoc.
    rewrite rowLines_app, rowLines_cons, decide_True by done.
    change (rowLines _ []) with (@nil Rung).
    rewrite followRow_snoc_swap.
    2:{ intros line [Hr Hin]%elem_of_rowLines. by apply Hfree. }
    f_equal. rewrite <- IH, seqZ_S, traceRows_snoc. f_equal.
    apply traceRows_ext. intros r Hr%elem_of_seqZ.
    rewrite rowLines_app, rowLines_cons, decide_False by (simpl; lia).
    apply app_nil_r.
  - pose proof (placement_rows _ _ _ _ Hpl) as Hrows. rewrite Forall_forall in Hrows.
    rewrite seqZ_S, traceRows_snoc, applySwaps_snoc.
    rewrite rowLines_app, rowLines_cons, decide_True by done.
    change (rowLines _ []) with (@nil Rung).
    rewrite (rowLines_none _ placed).
    2:{ intros line Hin. apply Hrows in Hin. lia. }
    simpl app. rewrite followRow_singleton. f_equal. rewrite <- IH.
    apply traceRows_ext. intros r Hr%elem_of_seqZ.
    rewrite rowLines_app, rowLines_cons, decide_False by (simpl; lia).
    apply app_nil_r.
Qed.

Lemma applyTranspositions_lookup ts m p :
  applyTranspositions ts m !! p = applySwaps ts <$> (m !! p).
Proof.
  revert m. induction ts as [|c ts IH]; intros m; simpl.
  - by destruct (m !! p).
  - rewrite IH. unfold applyTransposition. rewrite lookup_fmap.
    by destruct (m !! p).
Qed.

(** On rows that are apart, the tracer of the code and the re-tracing of
    the specification walk alike. *)
Lemma followRow_walkRow ls r c :
  pairwiseApart ls → followRow (rowLines r ls) c = walkRow ls r c.
Proof.
  intros Hap%(pairwiseApart_rowLines r). unfold walkRow.
  destruct (decide (Exists _ ls)) as [Hex|Hnex].
  - apply Exists_exists in Hex as (line & Hin & Hr & Hf).
    rewrite (followRow_along _ line); [lia|done| |].
    + by apply elem_of_rowLines.
    + apply elem_of_touched. lia.
  - destruct (decide (Exists _ ls)) as [Hex'|Hnex'].
    + apply Exists_exists in Hex' as (line & Hin & Hr & Hf).
      rewrite (followRow_along _ line); [lia|done| |].
      * by apply elem_of_rowLines.
      * apply elem_of_touched. lia.
    + apply followRow_no_match. intros line [Hr Hin]%elem_of_rowLines Ht.
      apply elem_of_touched in Ht as [Ht|Ht].
      * apply Hnex, Exists_exists. eauto.
      * apply Hnex', Exists_exists. eauto.
Qed.

Lemma traceRows_walk ls numRows c :
  pairwiseApart ls → traceRows ls (seqZ 0 numRows) c = walk ls numRows c.
Proof.
  intros Hap. unfold traceRows, walk. apply foldl_ext_in.
  intros a r _. by apply followRow_walkRow.
Qed.

(** The stages of [generate], one after the other. *)
Lemma generate_stages participants0 results0 s :
  let n := Z.of_nat (length participants0) in
  ∃ baseRows natural s1 target s2 ts placed k filled,
    MIN_ROWS ≤ baseRows ∧
    natural = (generateRandomLines n baseRows s).1 ∧
    draws s1 = draws s ∧
    target = (generateRandomMapping n s1).1 ∧
    ts = calculateAdjustmentTranspositions
           (calculateMapping n baseRows natural) target n ∧
    placement baseRows ts placed k ∧
    filled = (fillWithDecorativePairs (natural ++ placed)
                (baseRows + Z.max 1 (Z.of_nat k) + 1) n s2).1 ∧
    (generate participants0 results0 s).1 =
      {| participants := participants0;
         results := results0;
         verticalLines := n;
         rows := baseRows + Z.max 1 (Z.of_nat k) + 1;
         horizontalLines := merge_sort rungLe filled;
         mapping := target |}.
Proof.
  intros n. unfold generate. fold n.
  set (baseRows := Z.max MIN_ROWS
         (Z.min MAX_ROWS (Math_round (inject_Z n * ROWS_PER_PARTICIPANT)))).
  unfold bind, ret.
  pose proof (generateRandomLines_draws n baseRows s) as Hdraws.
  destruct (generateRandomLines n baseRows s) as [natural s1] eqn:Hnat. simpl in Hdraws.
  destruct (generateRandomMapping n s1) as [target s2] eqn:Htarget.
  set (ts := calculateAdjustmentTranspositions
               (calculateMapping n baseRows natural) target n).
  destruct (addAdjustmentLines_placement natural ts baseRows n)
    as (placed & k & Hlines & Hrows & Hpl).
  rewrite Hlines, Hrows.
  destruct (fillWithDecorativePairs _ _ n s2) as [filled s3] eqn:Hfill.
  exists baseRows, natural, s1, target, s2, ts, placed, k, filled.
  split_and!; try done.
  - unfold baseRows. lia.
  - by rewrite Hnat.
  - by rewrite Htarget.
  - by rewrite Hfill.
Qed.

Lemma natural_and_placed_apart n baseRows s ts placed k :
  placement baseRows ts placed k →
  pairwiseApart ((generateRandomLines n baseRows s).1 ++ placed).
Proof.
  intros Hpl. apply pairwiseApart_app. split_and!.
  - apply generateRandomLines_invariant.
  - by eapply placement_apart.
  - intros a b Ha Hb Hrow.
    pose proof (generateRandomLines_row_range n baseRows s) as Hnat.
    pose proof (placement_rows _ _ _ _ Hpl) as Hrows.
    rewrite Forall_forall in Hnat, Hrows.
    apply Hnat in Ha. apply Hrows in Hb. lia.
Qed.

(** The rungs of a generated ladder: rows apart. *)
Lemma generate_apart participants0 results0 s :
  pairwiseApart (horizontalLines (generate participants0 results0 s).1).
Proof.
  destruct (generate_stages participants0 results0 s)
    as (baseRows & natural & s1 & target & s2 & ts & placed & k & filled &
        _ & -> & _ & _ & _ & Hpl & -> & ->).
  simpl. eapply pairwiseApart_Permutation.
  - symmetry. apply merge_sort_Permutation.
  - apply fillWithDecorativePairs_apart. by eapply natural_and_placed_apart.
Qed.

(** The traced paths of a generated ladder end where the target mapping
    says. *)
Lemma generate_traced participants0 results0 s :
  valid_source s →
  let ld := (generate participants0 results0 s).1 in
  isPermutationOf (verticalLines ld) (mapping ld) ∧
  ∀ c, 0 ≤ c < verticalLines ld →
       mapping ld !! c = Some (traceRows (horizontalLines ld) (seqZ 0 (rows ld)) c).
Proof.
  intros Hs.
  destruct (generate_stages participants0 results0 s)
    as (baseRows & natural & s1 & target & s2 & ts & placed & k & filled &
        HB & Hnat & Hdraws & Htarget & Hts & Hpl & Hfilled & ->).
  simpl. set (n := Z.of_nat (length participants0)) in *.
  unfold MIN_ROWS in HB.
  destruct (decide (n = 0)) as [Hn0|Hn0].
  { assert (target = ∅) as ->.
    { rewrite Htarget, Hn0. reflexivity. }
    rewrite Hn0. split; [|intros c; lia].
    unfold isPermutationOf. split_and!; try (intros; lia); try done.
    intros p. rewrite lookup_empty. split; [by intros []|lia]. }
  assert (1 ≤ n) as Hn by lia.
  assert (valid_source s1) as Hs1 by by eapply valid_source_draws.
  assert (isPermutationOf n target) as Hperm.
  { destruct (generateRandomMapping_arrangement n s1 Hn Hs1) as [Hjs Hrep].
    rewrite Htarget. eapply represents_isPermutationOf; [exact Hrep|].
    apply fisherYates_Permutation; [done|]. rewrite length_seqZ. lia. }
  split; [done|]. intros c Hc.
  pose proof (generateRandomLines_invariant n baseRows s) as [Hap Hcw].
  pose proof (generateRandomLines_row_range n baseRows s) as Hrange.
  rewrite <- Hnat in Hap, Hcw, Hrange.
  assert (isPermutationOf n (calculateMapping n baseRows natural)) as Hactual
    by by apply calculateMapping_permutation.
  destruct (positionTable_represents n _ Hactual) as (w0 & _ & Hw0).
  destruct (positionTable_represents n _ Hperm) as (t & _ & Ht).
  destruct (calculateAdjustmentTranspositions_arrangement n
              (calculateMapping n baseRows natural) target w0 t)
    as (Hsw & Hadj & _); try done.
  rewrite <- Hts in Hsw, Hadj.
  assert (applyTranspositions ts (calculateMapping n baseRows natural) = target) as Happly.
  { apply (represents_mapping_unique n _ _ t); [|done].
    rewrite <- Hsw. by apply represents_swaps. }
  assert (pairwiseApart (natural ++ placed)) as Hap1.
  { rewrite Hnat. by eapply natural_and_placed_apart. }
  assert (pairwiseApart filled) as Hapf.
  { rewrite Hfilled. by apply fillWithDecorativePairs_apart. }
  rewrite (traceRows_Permutation _ filled);
    [|apply merge_sort_Permutation|].
  2:{ eapply pairwiseApart_Permutation; [|exact Hapf].
      symmetry. apply merge_sort_Permutation. }
  rewrite Hfilled, fillWithDecorativePairs_trace.
  rewrite <- Happly, applyTranspositions_lookup, calculateMapping_lookup.
  rewrite decide_True by done. simpl. f_equal.
  pose proof (placement_rows _ _ _ _ Hpl) as Hrows.
  rewrite Forall_forall in Hrange, Hrows.
  replace (baseRows + Z.max 1 (Z.of_nat k) + 1)
    with (baseRows + (Z.of_nat k + (Z.max 1 (Z.of_nat k) + 1 - Z.of_nat k))) by lia.
  rewrite seqZ_app, (seqZ_app (0 + baseRows)) by lia. rewrite !traceRows_app.
  rewrite (traceRows_empty_rows _ (seqZ (0 + baseRows + Z.of_nat k) _)).
  2:{ intros r Hr%elem_of_seqZ. apply rowLines_none.
      intros line [Hin|Hin]%elem_of_app; [apply Hrange in Hin|apply Hrows in Hin]; lia. }
  rewrite (traceRows_ext (natural ++ placed) placed (seqZ (0 + baseRows) _)).
  2:{ intros r Hr%elem_of_seqZ. rewrite rowLines_app, (rowLines_none r natural); [done|].
      intros line Hin. apply Hrange in Hin. lia. }
  rewrite (traceRows_ext (natural ++ placed) natural (seqZ 0 baseRows)).
  2:{ intros r Hr%elem_of_seqZ. rewrite rowLines_app, (rowLines_none r placed).
      - apply app_nil_r.
      - intros line Hin. apply Hrows in Hin. lia. }
  replace (0 + baseRows) with baseRows by lia.
  symmetry. by apply placement_trace.
Qed.

Lemma generate_columns participants0 results0 s :
  verticalLines (generate participants0 results0 s).1 = Z.of_nat (length participants0).
Proof.
  destruct (generate_stages participants0 results0 s)
    as (? & ? & ? & ? & ? & ? & ? & ? & ? & _ & _ & _ & _ & _ & _ & _ & ->).
  done.
Qed.

(** C1. Path-trace consistency. Whatever the participants and results
    (so in particular for two lists of one length between 2 and 100) and
    whatever the values drawn by [Math.random], in the structure returned
    by [generate] the path of every start column [c], re-traced row by row
    from row 0 to the last row through the returned [horizontalLines],
    ends at [mapping[c]]; and re-tracing every column with the path tracer
    of the code gives back the stored mapping exactly. *)
Theorem generate_path_trace_consistent participants0 results0 s :
  valid_source s →
  let ld := (generate participants0 results0 s).1 in
  Forall (λ c, mapping ld !! c = Some (walk (horizontalLines ld) (rows ld) c))
         (seqZ 0 (Z.of_nat (length participants0))) ∧
  calculateMapping (verticalLines ld) (rows ld) (horizontalLines ld) = mapping ld.
Proof.
  intros Hs ld.
  destruct (generate_traced participants0 results0 s Hs) as [Hperm Htrace].
  fold ld in Hperm, Htrace.
  pose proof (generate_apart participants0 results0 s) as Hap. fold ld in Hap.
  pose proof (generate_columns participants0 results0 s) as Hcols. fold ld in Hcols.
  split.
  - apply Forall_forall. intros c Hc%elem_of_seqZ.
    rewrite Htrace by lia. by rewrite traceRows_walk.
  - apply map_eq. intros c. rewrite calculateMapping_lookup. case_decide as Hc.
    + by rewrite Htrace.
    + destruct Hperm as [Hdom _]. symmetry. apply eq_None_not_Some.
      by rewrite Hdom.
Qed.

Lemma quarterSource_valid : valid_source quarterSource.
Proof.
  intros k. simpl. destruct (Nat.even k).
  - split_and!; [|done|done]. exists 1, (-2). split_and!; [lia|lia|lia|reflexivity].
  - split_and!; [|done|done]. exists 3, (-2). split_and!; [lia|lia|lia|reflexivity].
Qed.

Lemma generate_path_trace_consistent_witness :
  let ld := (generate ["A"; "B"; "C"] ["X"; "Y"; "Z"] quarterSource).1 in
  Forall (λ c, mapping ld !! c = Some (walk (horizontalLines ld) (rows ld) c))
         (seqZ 0 (Z.of_nat (length ["A"; "B"; "C"]))) ∧
  calculateMapping (verticalLines ld) (rows ld) (horizontalLines ld) = mapping ld.
Proof.
  apply (generate_path_trace_consistent ["A"; "B"; "C"] ["X"; "Y"; "Z"] quarterSource).
  apply quarterSource_valid.
Defined.

(** C5. Row non-overlap. In the rungs returned by [generate] (natural,
    adjustment and decorative rungs together), two rungs at different
    places of the list that share a row touch disjoint sets of columns.
    This holds for every input and every random source. *)
Theorem generate_rows_non_overlapping participants0 results0 s :
  nonOverlapping (horizontalLines (generate participants0 results0 s).1).
Proof. apply nonOverlapping_pairwiseApart. apply generate_apart. Qed.

(** ** Reading a result *)

(** C10. For a ladder whose participants and results have the same
    length [N] and whose mapping is a permutation of [{0..N-1}],
    [getResultForParticipant] returns [results[mapping[i]]] for an index
    [i] in [{0..N-1}], and the empty string for any other index. *)
Theorem getResultForParticipant_total ld i :
  length (participants ld) = length (results ld) →
  isPermutationOf (Z.of_nat (length (results ld))) (mapping ld) →
  if decide (0 ≤ i < Z.of_nat (length (results ld)))
  then ∃ k, mapping ld !! i = Some k ∧
            results ld !! Z.to_nat k = Some (getResultForParticipant ld i)
  else getResultForParticipant ld i = "".
Proof.
  intros _ (Hdom & Hran & _). unfold getResultForParticipant. case_decide as Hi.
  - destruct (proj2 (Hdom i) Hi) as [k Hk]. exists k. split; [done|].
    rewrite Hk. simpl. pose proof (Hran i k Hk) as Hkr.
    rewrite decide_True by lia.
    destruct (lookup_lt_is_Some_2 (results ld) (Z.to_nat k)) as [r Hr]; [lia|].
    rewrite Hr. simpl. by case_decide; subst.
  - assert (mapping ld !! i = None) as ->; [|done].
    apply eq_None_not_Some. by rewrite Hdom.
Qed.

Lemma crossedLadder_permutation : isPermutationOf 2 (mapping crossedLadder).
Proof.
  apply calculateMapping_permutation.
  - simpl. split; [constructor|done].
  - apply Forall_singleton. simpl. lia.
Qed.

Lemma getResultForParticipant_total_witness :
  (∃ k, mapping crossedLadder !! 0 = Some k ∧
        results crossedLadder !! Z.to_nat k = Some (getResultForParticipant crossedLadder 0))
  ∧ getResultForParticipant crossedLadder 7 = "".
Proof.
  split.
  - apply (getResultForParticipant_total crossedLadder 0);
      [reflexivity|apply crossedLadder_permutation].
  - apply (getResultForParticipant_total crossedLadder 7);
      [reflexivity|apply crossedLadder_permutation].
Defined.

(** ** Validation *)

Lemma size_list_to_set_le (l : list string) :
  (size (list_to_set l : gset string) ≤ length l)%nat.
Proof.
  induction l as [|y l IH].
  - change (list_to_set []) with (∅ : gset string). by rewrite size_empty.
  - change (list_to_set (y :: l)) with ({[y]} ∪ list_to_set l : gset string).
    pose proof (size_union_alt ({[y]} : gset string) (list_to_set l)) as Hu.
    rewrite size_singleton in Hu.
    assert (size (list_to_set l ∖ {[y]} : gset string)
            ≤ size (list_to_set l : gset string))%nat as Hd.
    { apply subseteq_size. apply subseteq_difference_l. reflexivity. }
    simpl length. lia.
Qed.

Lemma size_list_to_set_NoDup (l : list string) :
  size (list_to_set l : gset string) = length l ↔ NoDup l.
Proof.
  split; [|apply size_list_to_set].
  induction l as [|x l IH]; [constructor|].
  change (list_to_set (x :: l)) with ({[x]} ∪ list_to_set l : gset string).
  simpl length. intros Hsize.
  pose proof (size_list_to_set_le l) as Hle.
  destruct (decide (x ∈ l)) as [Hin|Hnin].
  - exfalso.
    assert (({[x]} : gset string) ∪ list_to_set l = list_to_set l) as Heq.
    { apply subseteq_union_1_L. apply singleton_subseteq_l.
      by apply elem_of_list_to_set. }
    rewrite Heq in Hsize. lia.
  - constructor; [done|]. apply IH.
    rewrite size_union in Hsize.
    + rewrite size_singleton in Hsize. lia.
    + apply disjoint_singleton_l. by rewrite elem_of_list_to_set.
Qed.

Lemma validateInputs_Some_iff participants0 results0 :
  is_Some (Main.validateInputs participants0 results0) ↔
  invalidInput participants0 results0.
Proof.
  unfold Main.validateInputs, invalidInput. rewrite <- size_list_to_set_NoDup.
  repeat case_decide; (split; [intros Hsome|intros Hinvalid]);
    try (by eauto); try tauto; try (by destruct Hsome).
Qed.

Lemma validateInputs_message participants0 results0 msg :
  Main.validateInputs participants0 results0 = Some msg → msg ≠ "".
Proof.
  unfold Main.validateInputs. repeat case_decide; intros [= <-]; done.
Qed.

Lemma handleStart_gate trim page s :
  let p := Main.parseTextareaLines trim (Main.participantsTextarea page) in
  let r := Main.parseTextareaLines trim (Main.resultsTextarea page) in
  match Main.validateInputs p r with
  | Some msg => Main.handleStart trim page s = (Main.showError msg page, s)
  | None =>
      Main.handleStart trim page s =
      (Main.showResultSection (Main.setLadderData (generate p r s).1 page),
       (generate p r s).2)
  end.
Proof.
  intros p r. unfold Main.handleStart. fold p r.
  destruct (Main.validateInputs p r) as [msg|] eqn:Hv; simpl.
  - apply validateInputs_message in Hv. by rewrite bool_decide_true.
  - unfold bind, ret. by destruct (generate p r s).
Qed.

(** C7. [validateInputs] returns an error message exactly for the invalid
    inputs: fewer than 2 participants, fewer than 2 results, different
    lengths, more than 100 participants, or a duplicate participant name.
    [handleStart] calls [Ladder.generate] only when [validateInputs]
    returned [null]: on an error it shows the message and draws nothing
    from the random source. The participants [["A"]] are rejected, and a
    page whose participants read [["A"]] is rejected before any rung is
    generated. *)
Theorem validateInputs_gate participants0 results0 trim page s :
  (is_Some (Main.validateInputs participants0 results0) ↔
   invalidInput participants0 results0) ∧
  (let p := Main.parseTextareaLines trim (Main.participantsTextarea page) in
   let r := Main.parseTextareaLines trim (Main.resultsTextarea page) in
   match Main.validateInputs p r with
   | Some msg => Main.handleStart trim page s = (Main.showError msg page, s)
   | None =>
       Main.handleStart trim page s =
       (Main.showResultSection (Main.setLadderData (generate p r s).1 page),
       (generate p r s).2)
   end) ∧
  is_Some (Main.validateInputs ["A"] results0) ∧
  (Main.parseTextareaLines trim (Main.participantsTextarea page) = ["A"] →
   ∃ msg, Main.handleStart trim page s = (Main.showError msg page, s)).
Proof.
  split_and!.
  - apply validateInputs_Some_iff.
  - apply handleStart_gate.
  - apply validateInputs_Some_iff. left. simpl. lia.
  - intros Hp. pose proof (handleStart_gate trim page s) as Hgate. simpl in Hgate.
    rewrite Hp in Hgate.
    destruct (Main.validateInputs ["A"] _) as [msg|] eqn:Hv; [eauto|].
    assert (is_Some (Main.validateInputs ["A"]
              (Main.parseTextareaLines trim (Main.resultsTextarea page)))) as [? Hs].
    { apply validateInputs_Some_iff. left. simpl. lia. }
    congruence.
Qed.

(** ** The shareable link *)

(** For the example of the specification the link carries the encoded
    data unharmed: what [atob] gives back is what [btoa] was given. *)
Lemma shareable_url_example :
  ∃ url encoded,
    Share.generateShareableURL pageOrigin pagePathname
      {| participants := ["A"; "B"; "C"]; results := ["X"; "Y"; "Z"];
         verticalLines := 3; rows := 1; horizontalLines := []; mapping := ∅ |}
      = Some url ∧
    Share.searchParams_get url "data" = Some encoded ∧
    Share.atob encoded =
      Some (Share.encodeURIComponent
              (Share.JSON_stringify ["A"; "B"; "C"] ["X"; "Y"; "Z"])).
Proof. eexists _, _. split_and!; vm_compute; reflexivity. Qed.

(** C8, at the input where it fails. For the participants [["A~"; "B"]]
    the base64 text of the link contains a [+]; [URL.searchParams] reads
    it as a space, [atob] drops the space and then meets the padding [=]
    in a text whose length is no longer a multiple of four, and throws.
    So [generateShareableURL] returns a link and [parseShareableURL]
    returns [null] on it, whatever [decodeURIComponent] and [JSON.parse]
    do, and whether or not [new URL] accepts the link. *)
Theorem shareable_url_tilde_lost
    (URL_canParse : string → bool)
    (decodeURIComponent : string → option string)
    (JSON_parse : string → option Share.JsValue) :
  Share.generateShareableURL pageOrigin pagePathname tildeLadder =
    Some ("https://homura-rtzr.github.io/ladder-draw/?data=" +:+
          "JTdCJTIycCUyMiUzQSU1QiUyMkF+JTIyJTJDJTIyQiUyMiU1RCUyQyUyMnIlMjIlM0ElNUIl" +:+
          "MjJYJTIyJTJDJTIyWSUyMiU1RCU3RA==") ∧
  (∀ url, Share.generateShareableURL pageOrigin pagePathname tildeLadder = Some url →
          Share.parseShareableURL URL_canParse decodeURIComponent JSON_parse url = None).
Proof.
  assert (Share.generateShareableURL pageOrigin pagePathname tildeLadder =
    Some ("https://homura-rtzr.github.io/ladder-draw/?data=" +:+
          "JTdCJTIycCUyMiUzQSU1QiUyMkF+JTIyJTJDJTIyQiUyMiU1RCUyQyUyMnIlMjIlM0ElNUIl" +:+
          "MjJYJTIyJTJDJTIyWSUyMiU1RCU3RA==")) as Hurl by (vm_compute; reflexivity).
  split; [exact Hurl|]. intros url Hgen. rewrite Hurl in Hgen. injection Hgen as <-.
  unfold Share.parseShareableURL, Share.newURL. destruct (URL_canParse _); [|done].
  assert (Share.urlInput
    ("https://homura-rtzr.github.io/ladder-draw/?data=" +:+
     "JTdCJTIycCUyMiUzQSU1QiUyMkF+JTIyJTJDJTIyQiUyMiU1RCUyQyUyMnIlMjIlM0ElNUIl" +:+
     "MjJYJTIyJTJDJTIyWSUyMiU1RCU3RA==") =
     "https://homura-rtzr.github.io/ladder-draw/?data=" +:+
     "JTdCJTIycCUyMiUzQSU1QiUyMkF+JTIyJTJDJTIyQiUyMiU1RCUyQyUyMnIlMjIlM0ElNUIl" +:+
     "MjJYJTIyJTJDJTIyWSUyMiU1RCU3RA==") as -> by (vm_compute; reflexivity).
  cbn [mbind option_bind].
  assert (Share.searchParams_get
    ("https://homura-rtzr.github.io/ladder-draw/?data=" +:+
     "JTdCJTIycCUyMiUzQSU1QiUyMkF+JTIyJTJDJTIyQiUyMiU1RCUyQyUyMnIlMjIlM0ElNUIl" +:+
     "MjJYJTIyJTJDJTIyWSUyMiU1RCU3RA==") "data"
    = Some ("JTdCJTIycCUyMiUzQSU1QiUyMkF JTIyJTJDJTIyQiUyMiU1RCUyQyUyMnIlMjIlM0ElNUIl" +:+
            "MjJYJTIyJTJDJTIyWSUyMiU1RCU3RA==")) as -> by (vm_compute; reflexivity).
  rewrite decide_False by (vm_compute; discriminate).
  assert (Share.atob
    ("JTdCJTIycCUyMiUzQSU1QiUyMkF JTIyJTJDJTIyQiUyMiU1RCUyQyUyMnIlMjIlM0ElNUIl" +:+
     "MjJYJTIyJTJDJTIyWSUyMiU1RCU3RA==") = None) as -> by (vm_compute; reflexivity).
  reflexivity.
Qed.

(** ** Witnesses and examples *)

Lemma generateRandomMapping_uniform_witness :
  (∀ s, valid_source s →
     isPermutationOf 3 (generateRandomMapping 3 s).1 ∧
     drawnIndices (Z.to_nat (3 - 1)) s ∈ sampleSpace 3 ∧
     (generateRandomMapping 3 s).1 = outcome 3 (drawnIndices (Z.to_nat (3 - 1)) s)) ∧
  (3 < 2 ^ 32 → ∀ js, js ∈ sampleSpace 3 →
     valid_source (sourceOfChoices (Z.to_nat (3 - 1)) js) ∧
     drawnIndices (Z.to_nat (3 - 1)) (sourceOfChoices (Z.to_nat (3 - 1)) js) = js) ∧
  length (sampleSpace 3) = fact (Z.to_nat 3) ∧
  (∀ m, isPermutationOf 3 m → probability 3 m = 1 # Pos.of_nat (fact (Z.to_nat 3))).
Proof. apply (generateRandomMapping_uniform 3). lia. Defined.

Lemma straight_permutation : isPermutationOf 3 (calculateMapping 3 3 []).
Proof. apply calculateMapping_permutation; [done|constructor]. Qed.

Lemma reversed_permutation :
  isPermutationOf 3
    (calculateMapping 3 3
       [{| fromColumn := 0; row := 0 |}; {| fromColumn := 1; row := 1 |};
        {| fromColumn := 0; row := 2 |}]).
Proof.
  apply calculateMapping_permutation.
  - simpl. repeat split; repeat constructor; simpl; lia.
  - repeat constructor; simpl; lia.
Qed.

Lemma calculateAdjustmentTranspositions_minimal_witness :
  let actual := calculateMapping 3 3 [] in
  let target :=
    calculateMapping 3 3
      [{| fromColumn := 0; row := 0 |}; {| fromColumn := 1; row := 1 |};
       {| fromColumn := 0; row := 2 |}] in
  let ts := calculateAdjustmentTranspositions actual target 3 in
  applyTranspositions ts actual = target ∧
  Forall (adjacentIn 3) ts ∧
  (∀ ts', Forall (adjacentIn 3) ts' → applyTranspositions ts' actual = target →
          (length ts ≤ length ts')%nat) ∧
  2 * Z.of_nat (length ts) ≤ 3 * (3 - 1).
Proof.
  apply (calculateAdjustmentTranspositions_minimal 3).
  - apply straight_permutation.
  - apply reversed_permutation.
Defined.

(** Reversing three columns takes the three swaps [1; 0; 1]. *)
Example calculateAdjustmentTranspositions_reverse :
  calculateAdjustmentTranspositions (calculateMapping 3 3 [])
    (calculateMapping 3 3
       [{| fromColumn := 0; row := 0 |}; {| fromColumn := 1; row := 1 |};
        {| fromColumn := 0; row := 2 |}]) 3
  = [1; 0; 1].
Proof. vm_compute. reflexivity. Qed.

(** A ladder generated for three participants. *)
Example generate_three :
  let ld := (generate ["A"; "B"; "C"] ["X"; "Y"; "Z"] quarterSource).1 in
  rows ld = 11 ∧
  horizontalLines ld =
    [{| fromColumn := 0; row := 1 |}; {| fromColumn := 1; row := 2 |};
     {| fromColumn := 1; row := 3 |}; {| fromColumn := 1; row := 4 |};
     {| fromColumn := 1; row := 5 |}; {| fromColumn := 1; row := 6 |};
     {| fromColumn := 1; row := 7 |}; {| fromColumn := 1; row := 8 |};
     {| fromColumn := 1; row := 9 |}] ∧
  map_to_list (mapping ld) = [(2, 2); (1, 0); (0, 1)] ∧
  getResultForParticipant ld 0 = "Y".
Proof. vm_compute. repeat split; reflexivity. Qed.

(** The six index vectors for three columns give the six permutations. *)
Example sampleSpace_three :
  sampleSpace 3 = [[0; 0]; [0; 1]; [1; 0]; [1; 1]; [2; 0]; [2; 1]] ∧
  (λ js, map_to_list (outcome 3 js)) <$> sampleSpace 3 =
    [[(2, 1); (1, 0); (0, 2)]; [(2, 0); (1, 1); (0, 2)];
     [(2, 0); (1, 2); (0, 1)]; [(2, 1); (1, 2); (0, 0)];
     [(2, 2); (1, 0); (0, 1)]; [(2, 2); (1, 1); (0, 0)]].
Proof. vm_compute. split; reflexivity. Qed.

(** The loop [for (r = from; r < to; r += 2)] is modelled with enough
    fuel: every value the loop variable takes is visited. *)
Lemma everySecond_complete fuel from to k :
  0 ≤ k → from + 2 * k < to → to - from ≤ Z.of_nat fuel →
  from + 2 * k ∈ everySecond fuel from to.
Proof.
  revert from k. induction fuel as [|fuel IH]; intros from k Hk Hlt Hfuel; [lia|].
  simpl. rewrite decide_True by lia.
  destruct (decide (k = 0)) as [->|Hne].
  - replace (from + 2 * 0) with from by lia. left.
  - right. replace (from + 2 * k) with (from + 2 + 2 * (k - 1)) by lia.
    apply IH; lia.
Qed.

(** ** Further properties of the generated structure *)

Lemma rungLe_total : Total rungLe.
Proof.
  intros a b. unfold rungLe, compareRungs. repeat case_decide; lia.
Qed.

Lemma rungLe_transitive : Transitive rungLe.
Proof.
  intros a b c. unfold rungLe, compareRungs. repeat case_decide; lia.
Qed.

(** Bijectivity: the mapping of a generated ladder is a permutation of
    its columns, for every input and every random source with values in
    [0,1). *)
Theorem generate_mapping_bijective participants0 results0 s :
  valid_source s →
  isPermutationOf (Z.of_nat (length participants0))
    (mapping (generate participants0 results0 s).1).
Proof.
  intros Hs. rewrite <- (generate_columns participants0 results0 s).
  by apply generate_traced.
Qed.

Lemma generate_mapping_bijective_witness :
  isPermutationOf (Z.of_nat (length ["A"; "B"; "C"]))
    (mapping (generate ["A"; "B"; "C"] ["X"; "Y"; "Z"] quarterSource).1).
Proof.
  apply (generate_mapping_bijective ["A"; "B"; "C"] ["X"; "Y"; "Z"] quarterSource).
  apply quarterSource_valid.
Defined.

(** The rungs of a generated ladder are sorted by row, and by column
    within a row. *)
Theorem generate_lines_sorted participants0 results0 s :
  StronglySorted rungLe (horizontalLines (generate participants0 results0 s).1).
Proof.
  destruct (generate_stages participants0 results0 s)
    as (? & ? & ? & ? & ? & ? & ? & ? & filled & _ & _ & _ & _ & _ & _ & _ & ->).
  simpl. apply (@StronglySorted_merge_sort _ rungLe _ rungLe_transitive rungLe_total).
Qed.

Lemma fillWithDecorativePairs_rows lines0 numRows numColumns s :
  Forall (λ line, 1 ≤ row line < numRows) lines0 →
  Forall (λ line, 1 ≤ row line < numRows)
         (fillWithDecorativePairs lines0 numRows numColumns s).1.
Proof.
  apply (fillWithDecorativePairs_ind (Forall (λ line, 1 ≤ row line < numRows))).
  intros result r col IH Hr1 Hr2 _ _.
  apply Forall_app. split; [done|]. repeat constructor; simpl; lia.
Qed.

(** A generated ladder has at least [MIN_ROWS] rows, and all its rungs
    lie in the rows from 1 on: row 0 carries no rung. *)
Theorem generate_rows_bound participants0 results0 s :
  let ld := (generate participants0 results0 s).1 in
  MIN_ROWS ≤ rows ld ∧
  Forall (λ line, 1 ≤ row line < rows ld) (horizontalLines ld).
Proof.
  destruct (generate_stages participants0 results0 s)
    as (baseRows & natural & s1 & target & s2 & ts & placed & k & filled &
        HB & Hnat & _ & _ & _ & Hpl & Hfilled & ->).
  simpl. split; [lia|].
  rewrite (merge_sort_Permutation rungLe filled). rewrite Hfilled.
  pose proof (generateRandomLines_row_range
                (Z.of_nat (length participants0)) baseRows s) as Hrange.
  rewrite <- Hnat in Hrange.
  pose proof (placement_rows _ _ _ _ Hpl) as Hrows.
  unfold MIN_ROWS in HB.
  apply fillWithDecorativePairs_rows.
  apply Forall_app. split.
  - eapply Forall_impl; [exact Hrange|]. simpl. intros line. lia.
  - eapply Forall_impl; [exact Hrows|]. simpl. intros line. lia.
Qed.

(** * Further properties of the code *)

Lemma orEmpty_Some x : orEmpty (Some x) = x.
Proof. unfold orEmpty. by case_decide. Qed.

Lemma arrangement_results n m t (rs : list string) :
  represents n m t → length rs = Z.to_nat n →
  (λ p, orEmpty (elementAt rs (m !! p))) <$> t = rs.
Proof.
  intros [Hlen Hrep] Hrs. apply list_eq. intros k. rewrite list_lookup_fmap.
  destruct (t !! k) as [p|] eqn:Hp; simpl.
  - assert (m !! p = Some (Z.of_nat k)) as ->.
    { apply Hrep. split; [lia|]. by rewrite Nat2Z.id. }
    simpl. rewrite decide_True by lia. rewrite Nat2Z.id.
    destruct (rs !! k) as [x|] eqn:Hx.
    + by rewrite orEmpty_Some.
    + apply lookup_ge_None in Hx. apply lookup_lt_Some in Hp. lia.
  - symmetry. apply lookup_ge_None. apply lookup_ge_None in Hp. lia.
Qed.

Lemma getAllResults_results ld :
  result <$> getAllResults ld =
  (λ p, orEmpty (elementAt (results ld) (mapping ld !! p)))
    <$> seqZ 0 (Z.of_nat (length (participants ld))).
Proof.
  unfold getAllResults. rewrite fmap_imap. unfold compose. simpl.
  rewrite (imap_seq_0 (participants ld)
             (λ j, orEmpty (elementAt (results ld) (mapping ld !! Z.of_nat j)))).
  unfold seqZ. rewrite Nat2Z.id, <- list_fmap_compose.
  apply list_fmap_ext. intros i x _. simpl. by rewrite Z.add_0_r.
Qed.

Lemma getAllResults_permutation ld :
  length (participants ld) = length (results ld) →
  isPermutationOf (Z.of_nat (length (participants ld))) (mapping ld) →
  result <$> getAllResults ld ≡ₚ results ld.
Proof.
  intros Hlen Hperm. rewrite getAllResults_results.
  destruct (positionTable_represents _ _ Hperm) as (t & _ & Ht).
  pose proof (isPermutationOf_arrangement _ _ _ Hperm Ht) as Hpt.
  rewrite <- Hpt. rewrite (arrangement_results _ _ _ _ Ht); [done|].
  rewrite Nat2Z.id. done.
Qed.

(** X3. For two lists of one length and every random source with values
    in [0,1), [getAllResults] on the generated ladder lists the
    participants in their order, each with the result
    [getResultForParticipant] gives it, and the results it hands out are
    the given results in another order: every result goes to exactly one
    participant. *)
Theorem getAllResults_assignment participants0 results0 s :
  valid_source s → length participants0 = length results0 →
  let ld := (generate participants0 results0 s).1 in
  participant <$> getAllResults ld = participants0 ∧
  result <$> getAllResults ld ≡ₚ results0 ∧
  ∀ i a, getAllResults ld !! i = Some a →
    participantIndex a = Z.of_nat i ∧
    participants0 !! i = Some (participant a) ∧
    result a = getResultForParticipant ld (Z.of_nat i) ∧
    ∃ k, resultIndex a = Some k ∧ mapping ld !! Z.of_nat i = Some k ∧
         results0 !! Z.to_nat k = Some (result a).
Proof.
  intros Hs Hlen ld.
  destruct (generate_traced participants0 results0 s Hs) as [Hperm _].
  rewrite generate_columns in Hperm. fold ld in Hperm.
  assert (participants ld = participants0 ∧ results ld = results0) as [Hp Hr].
  { unfold ld.
    destruct (generate_stages participants0 results0 s)
      as (? & ? & ? & ? & ? & ? & ? & ? & ? & _ & _ & _ & _ & _ & _ & _ & ->).
    done. }
  split_and!.
  - unfold getAllResults. rewrite fmap_imap. unfold compose. simpl.
    rewrite Hp. apply list_eq. intros i. rewrite list_lookup_imap.
    by destruct (participants0 !! i).
  - rewrite <- Hr. apply getAllResults_permutation; rewrite Hp, ?Hr; done.
  - intros i a Ha. unfold getAllResults in Ha.
    apply list_lookup_imap_Some in Ha as (x & Hx & ->). simpl.
    rewrite Hp in Hx. split_and!; [done|done|done|].
    destruct Hperm as (Hdom & Hran & _).
    destruct (Hdom (Z.of_nat i)) as [_ [k Hk]].
    { apply lookup_lt_Some in Hx. lia. }
    exists k. split_and!; [done|done|]. rewrite Hk. simpl.
    specialize (Hran _ _ Hk). rewrite decide_True by lia. rewrite Hr.
    destruct (results0 !! Z.to_nat k) as [y|] eqn:Hy.
    + by rewrite orEmpty_Some.
    + apply lookup_ge_None in Hy. lia.
Qed.

Lemma getAllResults_assignment_witness :
  let ld := (generate ["A"; "B"; "C"] ["X"; "Y"; "Z"] quarterSource).1 in
  participant <$> getAllResults ld = ["A"; "B"; "C"] ∧
  result <$> getAllResults ld ≡ₚ ["X"; "Y"; "Z"] ∧
  ∀ i a, getAllResults ld !! i = Some a →
    participantIndex a = Z.of_nat i ∧
    ["A"; "B"; "C"] !! i = Some (participant a) ∧
    result a = getResultForParticipant ld (Z.of_nat i) ∧
    ∃ k, resultIndex a = Some k ∧ mapping ld !! Z.of_nat i = Some k ∧
         ["X"; "Y"; "Z"] !! Z.to_nat k = Some (result a).
Proof.
  apply (getAllResults_assignment ["A"; "B"; "C"] ["X"; "Y"; "Z"] quarterSource).
  - apply quarterSource_valid.
  - reflexivity.
Defined.

(** ** The traced path *)

Lemma linked_singleton {A} (R : A → A → Prop) x : linked R [x].
Proof. intros i a b Ha Hb. by destruct i. Qed.

Lemma linked_snoc {A} (R : A → A → Prop) l y x :
  linked R l → last l = Some y → R y x → linked R (l ++ [x]).
Proof.
  intros Hl Hy HR i a b Ha Hb.
  assert (S i < length (l ++ [x]))%nat as Hlt by by eapply lookup_lt_Some.
  rewrite length_app in Hlt. simpl in Hlt.
  destruct (decide (S i < length l)%nat) as [Hin|Hout].
  - rewrite lookup_app_l in Ha, Hb by lia. by eapply Hl.
  - assert (S i = length l) as Hi by lia.
    rewrite lookup_app_l in Ha by lia.
    rewrite lookup_app_r, Hi, Nat.sub_diag in Hb by lia. simplify_eq/=.
    rewrite last_lookup in Hy. rewrite <- Hi in Hy. simpl in Hy.
    by simplify_eq.
Qed.

Lemma crossRow_spec ls r c :
  match crossRow ls r c with
  | Some (crossing, c') =>
      c' = followRow ls c ∧
      crossing = [Path.before c r; Path.after c' r] ∧
      ∃ line, line ∈ ls ∧
              ((fromColumn line = c ∧ c' = c + 1) ∨ (fromColumn line + 1 = c ∧ c' = c - 1))
  | None => followRow ls c = c
  end.
Proof.
  induction ls as [|line ls IH]; simpl; [done|].
  repeat case_decide.
  - split_and!; [done|done|]. exists line. split; [left|]. left. done.
  - split_and!; [done|done|]. exists line. split; [left|]. right. lia.
  - destruct (crossRow ls r c) as [[crossing c']|]; [|done].
    destruct IH as (? & ? & line' & ? & ?). split_and!; [done|done|].
    exists line'. split; [by right|done].
Qed.

Lemma seqZ_snoc (k : nat) : seqZ 0 (Z.of_nat (S k)) = seqZ 0 (Z.of_nat k) ++ [Z.of_nat k].
Proof.
  replace (Z.of_nat (S k)) with (Z.of_nat k + 1) by lia.
  rewrite seqZ_app by lia. f_equal.
Qed.

(** The state of the loop of [tracePath] after the rows [0..k-1]. *)
Lemma tracePath_loop ls numRows c0 (k : nat) :
  Z.of_nat k ≤ numRows →
  let st := foldl (tracePathRow (linesByRow numRows ls)) ([Path.plain c0 (-1)], c0)
                  (seqZ 0 (Z.of_nat k)) in
  st.2 = traceRows ls (seqZ 0 (Z.of_nat k)) c0 ∧
  head st.1 = Some (Path.plain c0 (-1)) ∧
  linked (pathStep ls) st.1 ∧
  ∃ p, last st.1 = Some p ∧ Path.col p = st.2 ∧ Path.row p = Z.of_nat k - 1 ∧
       Path.beforeMove p = false.
Proof.
  induction k as [|k IH]; intros Hk.
  - simpl. split_and!; [done|done|apply linked_singleton|].
    exists (Path.plain c0 (-1)). done.
  - rewrite seqZ_snoc. intros st. unfold st. rewrite foldl_app. simpl.
    destruct IH as (Hcol & Hhead & Hlinked & p & Hlast & Hpc & Hpr & Hpb); [lia|].
    unfold traceRows. rewrite foldl_app. simpl. fold (traceRows ls (seqZ 0 (Z.of_nat k)) c0).
    destruct (foldl _ _ (seqZ 0 (Z.of_nat k))) as [path col0]. simpl in *.
    rewrite linesByRow_lookup, decide_True by lia. simpl.
    pose proof (crossRow_spec (rowLines (Z.of_nat k) ls) (Z.of_nat k) col0) as Hcross.
    destruct (crossRow _ _ _) as [[crossing c']|]; simpl.
    + destruct Hcross as (-> & -> & line & [Hrow Hin]%elem_of_rowLines & Hline).
      rewrite <- Hcol. split_and!; [done| |..].
      * destruct path; [done|]. done.
      * replace (path ++ [Path.before col0 (Z.of_nat k);
                          Path.after (followRow (rowLines (Z.of_nat k) ls) col0) (Z.of_nat k)])
          with ((path ++ [Path.before col0 (Z.of_nat k)]) ++
                [Path.after (followRow (rowLines (Z.of_nat k) ls) col0) (Z.of_nat k)])
          by by rewrite <- app_assoc.
        eapply linked_snoc.
        -- eapply linked_snoc; [done|done|]. left. simpl. split_and!; [done|lia|done|done].
        -- by rewrite last_snoc.
        -- right. simpl. split_and!; [done|done|done|]. exists line.
           split_and!; [done|done|]. done.
      * eexists. replace (path ++ [Path.before col0 (Z.of_nat k);
                          Path.after (followRow (rowLines (Z.of_nat k) ls) col0) (Z.of_nat k)])
          with ((path ++ [Path.before col0 (Z.of_nat k)]) ++
                [Path.after (followRow (rowLines (Z.of_nat k) ls) col0) (Z.of_nat k)])
          by by rewrite <- app_assoc.
        rewrite last_snoc. split_and!; [done|done|simpl; lia|done].
    + rewrite <- Hcol, Hcross. split_and!; [done| |..].
      * destruct path; [done|]. done.
      * eapply linked_snoc; [done|done|]. left. simpl. split_and!; [done|lia|done|done].
      * eexists. rewrite last_snoc. split_and!; [done|done|simpl; lia|done].
Qed.

Lemma tracePath_spec ld c0 :
  0 ≤ rows ld →
  head (tracePath ld c0) = Some (Path.plain c0 (-1)) ∧
  last (tracePath ld c0) =
    Some (Path.plain (traceRows (horizontalLines ld) (seqZ 0 (rows ld)) c0) (rows ld)) ∧
  linked (pathStep (horizontalLines ld)) (tracePath ld c0).
Proof.
  intros Hrows. unfold tracePath.
  pose proof (tracePath_loop (horizontalLines ld) (rows ld) c0 (Z.to_nat (rows ld))) as Hloop.
  rewrite Z2Nat.id in Hloop by done. specialize (Hloop ltac:(lia)). simpl in Hloop.
  destruct Hloop as (Hcol & Hhead & Hlinked & p & Hlast & Hpc & Hpr & Hpb).
  destruct (foldl _ _ _) as [path col0]. simpl in *.
  split_and!.
  - destruct path; [done|]. done.
  - rewrite last_snoc. by rewrite Hcol.
  - eapply linked_snoc; [done|done|]. left. simpl. split_and!; [done|lia|done|done].
Qed.

(** X4. For every ladder with a row count that is not negative and every
    start column, the path of [tracePath] starts at [(startColumn, -1)],
    ends in the row [rows] at the column the path tracer of
    [calculateMapping] computes, and is continuous: each step either goes
    straight down by one row, or crosses a rung of the ladder within a
    row, from the position marked [beforeMove] to the neighbouring column
    marked [afterMove]. *)
Theorem tracePath_follows_rungs ld c0 :
  0 ≤ rows ld →
  head (tracePath ld c0) = Some (Path.plain c0 (-1)) ∧
  linked (pathStep (horizontalLines ld)) (tracePath ld c0) ∧
  ∃ c, last (tracePath ld c0) = Some (Path.plain c (rows ld)) ∧
       (0 ≤ c0 < verticalLines ld →
        calculateMapping (verticalLines ld) (rows ld) (horizontalLines ld) !! c0 = Some c).
Proof.
  intros Hrows. destruct (tracePath_spec ld c0 Hrows) as (Hhead & Hlast & Hlinked).
  split_and!; [done|done|].
  eexists. split; [done|]. intros Hc0. rewrite calculateMapping_lookup.
  by rewrite decide_True.
Qed.

Lemma tracePath_follows_rungs_witness :
  head (tracePath crossedLadder 0) = Some (Path.plain 0 (-1)) ∧
  linked (pathStep (horizontalLines crossedLadder)) (tracePath crossedLadder 0) ∧
  ∃ c, last (tracePath crossedLadder 0) = Some (Path.plain c (rows crossedLadder)) ∧
       (0 ≤ 0 < verticalLines crossedLadder →
        calculateMapping (verticalLines crossedLadder) (rows crossedLadder)
          (horizontalLines crossedLadder) !! 0 = Some c).
Proof. apply (tracePath_follows_rungs crossedLadder 0). simpl. lia. Defined.

(** X5. In a generated ladder the path that [tracePath] draws for a
    participant ends, below the last row, at the column [mapping] gives
    that participant. *)
Theorem generate_tracePath_end participants0 results0 s c :
  valid_source s → 0 ≤ c < Z.of_nat (length participants0) →
  let ld := (generate participants0 results0 s).1 in
  ∃ k, mapping ld !! c = Some k ∧
       last (tracePath ld c) = Some (Path.plain k (rows ld)).
Proof.
  intros Hs Hc ld.
  destruct (generate_traced participants0 results0 s Hs) as [_ Htrace].
  rewrite generate_columns in Htrace. fold ld in Htrace.
  assert (0 ≤ rows ld) as Hrows.
  { unfold ld.
    destruct (generate_stages participants0 results0 s)
      as (? & ? & ? & ? & ? & ? & ? & k & ? & HB & _ & _ & _ & _ & _ & _ & ->).
    simpl. unfold MIN_ROWS in HB. lia. }
  destruct (tracePath_spec ld c Hrows) as (_ & Hlast & _).
  eexists. split; [by apply Htrace|done].
Qed.

Lemma generate_tracePath_end_witness :
  let ld := (generate ["A"; "B"; "C"] ["X"; "Y"; "Z"] quarterSource).1 in
  ∃ k, mapping ld !! 1 = Some k ∧
       last (tracePath ld 1) = Some (Path.plain k (rows ld)).
Proof.
  apply (generate_tracePath_end ["A"; "B"; "C"] ["X"; "Y"; "Z"] quarterSource 1).
  - apply quarterSource_valid.
  - simpl. lia.
Defined.

(** ** The path tracer on arbitrary rungs *)

Lemma rowLines_filter_rows numRows r ls :
  0 ≤ r < numRows →
  rowLines r (filter (λ line, 0 ≤ row line < numRows) ls) = rowLines r ls.
Proof.
  intros Hr. unfold rowLines. induction ls as [|l ls IH]; [done|].
  rewrite !filter_cons. repeat case_decide; rewrite ?filter_cons; repeat case_decide;
    try lia; try done; by f_equal.
Qed.

(** X6. [calculateMapping] is defined on the columns [0..numColumns-1] and
    on no other key; rungs whose row is not one of [0..numRows-1] are
    ignored; and when no rung lies in these rows every column maps to
    itself. *)
Theorem calculateMapping_rows_outside numColumns numRows ls :
  let inside := filter (λ line, 0 ≤ row line < numRows) ls in
  calculateMapping numColumns numRows ls = calculateMapping numColumns numRows inside ∧
  (∀ c, is_Some (calculateMapping numColumns numRows ls !! c) ↔ 0 ≤ c < numColumns) ∧
  (inside = [] → ∀ c, 0 ≤ c < numColumns →
                      calculateMapping numColumns numRows ls !! c = Some c).
Proof.
  intros inside.
  assert (∀ c, traceRows ls (seqZ 0 numRows) c = traceRows inside (seqZ 0 numRows) c) as Hsame.
  { intros c. apply traceRows_ext. intros r Hr%elem_of_seqZ.
    symmetry. apply rowLines_filter_rows. lia. }
  split_and!.
  - by apply calculateMapping_ext.
  - intros c. rewrite calculateMapping_lookup. case_decide; split; done.
  - intros Hnone c Hc. rewrite calculateMapping_lookup, decide_True by done.
    f_equal. rewrite Hsame, Hnone. by apply traceRows_empty_rows.
Qed.

Lemma zigzagRungs_nonOverlapping : nonOverlapping zigzagRungs.
Proof.
  apply nonOverlapping_pairwiseApart. simpl.
  repeat split; repeat constructor; simpl; lia.
Qed.

(** X7. For any rungs that join columns of [0..n-1] and do not overlap in
    a row (generated or not), the mapping that [calculateMapping] traces is
    a permutation of [{0..n-1}]. *)
Theorem calculateMapping_bijective n numRows ls :
  nonOverlapping ls → columnsWithin n ls →
  isPermutationOf n (calculateMapping n numRows ls).
Proof.
  intros Hno%nonOverlapping_pairwiseApart Hcw. by apply calculateMapping_permutation.
Qed.

Lemma calculateMapping_bijective_witness :
  isPermutationOf 3 (calculateMapping 3 3 zigzagRungs).
Proof.
  apply (calculateMapping_bijective 3 3 zigzagRungs).
  - apply zigzagRungs_nonOverlapping.
  - repeat constructor; simpl; lia.
Defined.

(** X8. The traced mapping does not depend on the order in which the
    rungs are listed, as long as no two rungs overlap in a row: sorting the
    rungs, as [generate] does before it returns, changes nothing. *)
Theorem calculateMapping_rung_order numColumns numRows ls ls' :
  nonOverlapping ls → ls ≡ₚ ls' →
  calculateMapping numColumns numRows ls' = calculateMapping numColumns numRows ls.
Proof.
  intros Hno%nonOverlapping_pairwiseApart Hperm. apply calculateMapping_ext.
  intros c. symmetry. by apply traceRows_Permutation.
Qed.

Lemma calculateMapping_rung_order_witness :
  calculateMapping 3 3 (reverse zigzagRungs) = calculateMapping 3 3 zigzagRungs.
Proof.
  apply (calculateMapping_rung_order 3 3 zigzagRungs (reverse zigzagRungs)).
  - apply zigzagRungs_nonOverlapping.
  - symmetry. apply reverse_Permutation.
Defined.

(** ** The natural rungs *)

Lemma StronglySorted_snoc_2 {A} (R : A → A → Prop) l x :
  StronglySorted R l → Forall (λ y, R y x) l → StronglySorted R (l ++ [x]).
Proof.
  intros Hl Hx. apply StronglySorted_app_2; [|done|repeat constructor].
  intros a b Ha ->%list_elem_of_singleton. rewrite Forall_forall in Hx. by apply Hx.
Qed.

Lemma seqZ_middle m len (pre post : list Z) x :
  seqZ m len = pre ++ x :: post → x = m + Z.of_nat (length pre).
Proof.
  intros Heq.
  assert (seqZ m len !! length pre = Some x) as Hx.
  { rewrite Heq. by apply list_lookup_middle. }
  apply lookup_seqZ in Hx. lia.
Qed.

Lemma scanColumn_ordered r (pre : list Z) col st s :
  col = Z.of_nat (length pre) →
  StronglySorted rungBefore st.1 ∧ tracks st.2 r st.1 ∧
    Forall (λ line, row line < r ∨ (row line = r ∧ fromColumn line < col)) st.1 →
  let st' := (scanColumn r col st s).1 in
  StronglySorted rungBefore st'.1 ∧ tracks st'.2 r st'.1 ∧
    Forall (λ line, row line < r ∨ (row line = r ∧ fromColumn line < col + 1)) st'.1.
Proof.
  intros Hcol (Hs & Htr & Hrows). destruct st as [ls used]. simpl in *.
  assert (Forall (λ line, row line < r ∨ (row line = r ∧ fromColumn line < col + 1)) ls)
    as Hrows'.
  { eapply Forall_impl; [exact Hrows|]. simpl. intros line. lia. }
  unfold scanColumn. case_decide as Hused; [done|].
  unfold bind. simpl. destruct (Qlt_bool _ _); [|done]. simpl. split_and!.
  - apply StronglySorted_snoc_2; [done|].
    rewrite Forall_forall in Hrows |- *. intros line Hin.
    destruct (Hrows _ Hin) as [Hlt|[Heq Hlt]]; [by left|]. right. simpl.
    split; [done|].
    assert (fromColumn line + 1 ∈ used) as Hin'.
    { apply Htr. exists line. split_and!; [done|done|]. apply elem_of_touched. lia. }
    destruct (decide (fromColumn line + 1 = col)) as [Heq'|]; [|lia].
    destruct Hused. left. by rewrite <- Heq'.
  - by apply tracks_snoc.
  - apply Forall_app. split; [done|]. apply Forall_singleton. simpl. lia.
Qed.

Lemma scanRow_ordered numColumns r ls s :
  StronglySorted rungBefore ls ∧ Forall (λ line, row line < r) ls →
  let ls' := (scanRow numColumns r ls s).1 in
  StronglySorted rungBefore ls' ∧ Forall (λ line, row line < r + 1) ls'.
Proof.
  intros [Hs Hrows]. unfold scanRow, bind.
  pose proof (forEachM_prefix_invariant
    (λ pre st, StronglySorted rungBefore st.1 ∧ tracks st.2 r st.1 ∧
               Forall (λ line, row line < r ∨
                          (row line = r ∧ fromColumn line < Z.of_nat (length pre))) st.1)
    (seqZ 0 (numColumns - 1)) (scanColumn r) (ls, ∅) s) as Hinv.
  destruct (forEachM _ _ _ s) as [st s']. simpl in *.
  destruct Hinv as (? & ? & Hrows').
  - split_and!; [done| |].
    + intros c. rewrite elem_of_empty. split; [done|].
      intros (line & Hin & Hrow & _). rewrite Forall_forall in Hrows.
      apply Hrows in Hin. lia.
    + eapply Forall_impl; [exact Hrows|]. simpl. intros line. lia.
  - intros pre col post st0 s0 Hxs Hst0.
    apply seqZ_middle in Hxs. simpl in Hxs. subst col.
    pose proof (scanColumn_ordered r pre _ st0 s0 eq_refl Hst0) as (? & ? & Hr).
    split_and!; [done|done|].
    eapply Forall_impl; [exact Hr|]. simpl. intros line. rewrite length_app. simpl. lia.
  - split; [done|]. eapply Forall_impl; [exact Hrows'|]. simpl. intros line. lia.
Qed.

Lemma generateRandomLines_ordered numColumns numRows s :
  StronglySorted rungBefore (generateRandomLines numColumns numRows s).1.
Proof.
  unfold generateRandomLines.
  pose proof (forEachM_prefix_invariant
    (λ pre ls, StronglySorted rungBefore ls ∧
               Forall (λ line, row line < 1 + Z.of_nat (length pre)) ls)
    (seqZ 1 (numRows - 1)) (scanRow numColumns) [] s) as Hinv.
  destruct Hinv as [? _]; [| |done].
  - split; constructor.
  - intros pre r post ls s0 Hxs Hls. apply seqZ_middle in Hxs.
    rewrite length_app. simpl.
    replace (1 + Z.of_nat (length pre + 1)) with (r + 1) by lia.
    apply scanRow_ordered. by rewrite Hxs.
Qed.

(** Starts with a free column in between, within a range: at most half as
    many as there are columns. *)
Lemma spaced_count (cs : list Z) lo hi :
  StronglySorted (λ a b, a + 2 ≤ b) cs → Forall (λ c, lo ≤ c ≤ hi) cs →
  2 * Z.of_nat (length cs) ≤ Z.max 0 (hi - lo + 2).
Proof.
  revert lo. induction cs as [|c cs IH]; intros lo Hs Hr; simpl; [lia|].
  apply StronglySorted_inv in Hs as [Hs Hc]. apply Forall_cons in Hr as [Hc0 Hr].
  specialize (IH (c + 2) Hs).
  assert (Forall (λ c0, c + 2 ≤ c0 ≤ hi) cs) as Hr'.
  { rewrite Forall_forall in Hc, Hr |- *. intros x Hx.
    specialize (Hc _ Hx). specialize (Hr _ Hx). lia. }
  specialize (IH Hr'). lia.
Qed.

Lemma StronglySorted_rowLines r ls :
  StronglySorted rungBefore ls →
  StronglySorted (λ a b, a + 2 ≤ b) (fromColumn <$> rowLines r ls).
Proof.
  induction 1 as [|l ls Hs IH Hl]; [constructor|].
  rewrite rowLines_cons. case_decide as Hrow; [|done].
  rewrite fmap_cons. constructor; [done|].
  rewrite Forall_fmap. rewrite Forall_forall in Hl |- *.
  intros b [Hb Hin]%elem_of_rowLines. simpl.
  destruct (Hl _ Hin) as [?|[_ ?]]; [lia|done].
Qed.

(** X9. [generateRandomLines] returns its rungs in reading order, row
    after row and from left to right within a row; two rungs of one row
    start at least two columns apart; every rung joins two of the columns
    [0..numColumns-1]; and no row holds more than [numColumns / 2] rungs. *)
Theorem generateRandomLines_reading_order numColumns numRows s :
  let natural := (generateRandomLines numColumns numRows s).1 in
  StronglySorted rungBefore natural ∧
  columnsWithin numColumns natural ∧
  ∀ r, 2 * Z.of_nat (length (rowLines r natural)) ≤ Z.max 0 numColumns.
Proof.
  intros natural.
  pose proof (generateRandomLines_ordered numColumns numRows s) as Hs.
  pose proof (generateRandomLines_invariant numColumns numRows s) as [_ Hcw].
  fold natural in Hs, Hcw. split_and!; [done|done|].
  intros r. rewrite <- (length_fmap fromColumn).
  etrans; [apply (spaced_count _ 0 (numColumns - 2))|lia];
    [by apply StronglySorted_rowLines|].
  rewrite Forall_fmap. apply Forall_forall. intros line [_ Hin]%elem_of_rowLines.
  unfold columnsWithin in Hcw. rewrite Forall_forall in Hcw.
  specialize (Hcw _ Hin). simpl. lia.
Qed.

(** ** The adjustment rungs *)

Lemma placement_count startRow ts placed k :
  placement startRow ts placed k →
  (k ≤ length ts)%nat ∧ (ts = [] → k = 0%nat) ∧
  ∀ i, (i < k)%nat → ∃ line, line ∈ placed ∧ row line = startRow + Z.of_nat i.
Proof.
  induction 1 as [|ts placed k col Hpl (IHk & IH0 & IHr) Hfree
                  |ts placed k col Hpl (IHk & IH0 & IHr)].
  - split_and!; [done|done|]. intros i. lia.
  - rewrite length_app. simpl. split_and!; [lia|by intros ?%app_nil_r_inv|].
    intros i Hi. destruct (IHr i Hi) as (line & Hin & Hrow).
    exists line. split; [|done]. apply elem_of_app. by left.
  - rewrite length_app. simpl. split_and!; [lia|by intros ?%app_nil_r_inv|].
    intros i Hi. destruct (decide (i = k)) as [->|Hne].
    + eexists. split; [apply elem_of_app; right; by left|done].
    + destruct (IHr i ltac:(lia)) as (line & Hin & Hrow).
      exists line. split; [|done]. apply elem_of_app. by left.
Qed.

(** X10. [addAdjustmentLines] keeps the given lines and puts the new
    rungs, which do not overlap, into the rows from [startRow] up to the
    returned [numRows] (excluded); [numRows] is at least [startRow + 1] and
    at most [startRow] plus the number of transpositions. Without a
    transposition the lines come back unchanged with one empty row; with
    transpositions none of the rows from [startRow] on stays empty. *)
Theorem addAdjustmentLines_rows lines0 ts startRow numColumns :
  let adj := addAdjustmentLines lines0 ts startRow numColumns in
  ∃ placed,
    lines adj = lines0 ++ placed ∧
    nonOverlapping placed ∧
    Forall (λ line, startRow ≤ row line < numRows adj) placed ∧
    startRow + 1 ≤ numRows adj ≤ startRow + Z.max 1 (Z.of_nat (length ts)) ∧
    (ts = [] → lines adj = lines0 ∧ numRows adj = startRow + 1) ∧
    (ts ≠ [] → ∀ r, startRow ≤ r < numRows adj → ∃ line, line ∈ placed ∧ row line = r).
Proof.
  intros adj.
  destruct (addAdjustmentLines_placement lines0 ts startRow numColumns)
    as (placed & k & Hl & Hn & Hpl).
  fold adj in Hl, Hn. exists placed.
  destruct (placement_count _ _ _ _ Hpl) as (Hk & Hk0 & Hfull).
  pose proof (placement_rows _ _ _ _ Hpl) as Hrows.
  split_and!; [done| | |lia|lia| |].
  - apply nonOverlapping_pairwiseApart. by eapply placement_apart.
  - eapply Forall_impl; [exact Hrows|]. simpl. intros line. lia.
  - intros ->. split; reflexivity.
  - intros Hne r Hr.
    assert (k ≠ 0)%nat as Hk1.
    { intros ->. by inversion Hpl. }
    destruct (Hfull (Z.to_nat (r - startRow)) ltac:(lia)) as (line & Hin & Hrow).
    exists line. split; [done|]. lia.
Qed.

Lemma adjusted_trace lines0 ts placed k startRow c :
  0 ≤ startRow → Forall (λ line, row line < startRow) lines0 →
  placement startRow ts placed k →
  traceRows (lines0 ++ placed) (seqZ 0 (startRow + Z.max 1 (Z.of_nat k))) c =
  applySwaps ts (traceRows lines0 (seqZ 0 startRow) c).
Proof.
  intros Hstart Hrange Hpl.
  pose proof (placement_rows _ _ _ _ Hpl) as Hrows.
  rewrite Forall_forall in Hrange, Hrows.
  replace (startRow + Z.max 1 (Z.of_nat k))
    with (startRow + (Z.of_nat k + (Z.max 1 (Z.of_nat k) - Z.of_nat k))) by lia.
  rewrite seqZ_app, (seqZ_app (0 + startRow)) by lia. rewrite !traceRows_app.
  rewrite (traceRows_empty_rows _ (seqZ (0 + startRow + Z.of_nat k) _)).
  2:{ intros r Hr%elem_of_seqZ. apply rowLines_none.
      intros line [Hin|Hin]%elem_of_app; [apply Hrange in Hin|apply Hrows in Hin]; lia. }
  rewrite (traceRows_ext (lines0 ++ placed) placed (seqZ (0 + startRow) _)).
  2:{ intros r Hr%elem_of_seqZ. rewrite rowLines_app, (rowLines_none r lines0); [done|].
      intros line Hin. apply Hrange in Hin. lia. }
  rewrite (traceRows_ext (lines0 ++ placed) lines0 (seqZ 0 startRow)).
  2:{ intros r Hr%elem_of_seqZ. rewrite rowLines_app, (rowLines_none r placed).
      - apply app_nil_r.
      - intros line Hin. apply Hrows in Hin. lia. }
  replace (0 + startRow) with startRow by lia.
  by apply placement_trace.
Qed.

(** X11. When the given lines lie above [startRow], the ladder returned by
    [addAdjustmentLines] traces to the mapping of the given lines followed
    by the transpositions, applied in the order of the list. *)
Theorem addAdjustmentLines_mapping lines0 ts startRow numColumns :
  0 ≤ startRow → Forall (λ line, row line < startRow) lines0 →
  let adj := addAdjustmentLines lines0 ts startRow numColumns in
  calculateMapping numColumns (numRows adj) (lines adj) =
  applyTranspositions ts (calculateMapping numColumns startRow lines0).
Proof.
  intros Hstart Hrange adj.
  destruct (addAdjustmentLines_placement lines0 ts startRow numColumns)
    as (placed & k & Hl & Hn & Hpl).
  fold adj in Hl, Hn. rewrite Hl, Hn. apply map_eq. intros c.
  rewrite applyTranspositions_lookup, !calculateMapping_lookup.
  case_decide; [|done]. simpl. f_equal. by apply adjusted_trace.
Qed.

Lemma addAdjustmentLines_mapping_witness :
  let adj := addAdjustmentLines zigzagRungs [1; 0] 3 3 in
  calculateMapping 3 (numRows adj) (lines adj) =
  applyTranspositions [1; 0] (calculateMapping 3 3 zigzagRungs).
Proof.
  apply (addAdjustmentLines_mapping zigzagRungs [1; 0] 3 3).
  - lia.
  - repeat constructor; simpl; lia.
Defined.

(** ** The number of adjustment rungs *)

(** X12. For two permutations, the number of transpositions that
    [calculateAdjustmentTranspositions] returns is the number of inversions
    of the actual arrangement with respect to the target (the pairs of
    participants that end in the opposite order), and the list is empty
    exactly when the two mappings are equal. *)
Theorem calculateAdjustmentTranspositions_count n actual target :
  isPermutationOf n actual → isPermutationOf n target →
  let ts := calculateAdjustmentTranspositions actual target n in
  ∃ w, represents n actual w ∧
       length ts = inversions (λ p, default 0 (target !! p)) w ∧
       (ts = [] ↔ actual = target).
Proof.
  intros Hactual Htarget ts.
  destruct (positionTable_represents n _ Hactual) as (w & _ & Hw).
  destruct (positionTable_represents n _ Htarget) as (t & _ & Ht).
  destruct (calculateAdjustmentTranspositions_arrangement n actual target w t)
    as (Hsw & Hadj & Hlen); try done.
  fold ts in Hsw, Hadj, Hlen. exists w. split_and!; [done|done|]. split.
  - intros Hnil. rewrite Hnil in Hsw. simpl in Hsw. subst t.
    by eapply represents_mapping_unique.
  - intros <-. apply length_zero_iff_nil. rewrite Hlen.
    by eapply represents_no_inversions.
Qed.

Lemma calculateAdjustmentTranspositions_count_witness :
  let actual := calculateMapping 3 3 [] in
  let target := calculateMapping 3 3 zigzagRungs in
  let ts := calculateAdjustmentTranspositions actual target 3 in
  ∃ w, represents 3 actual w ∧
       length ts = inversions (λ p, default 0 (target !! p)) w ∧
       (ts = [] ↔ actual = target).
Proof.
  apply (calculateAdjustmentTranspositions_count 3).
  - apply straight_permutation.
  - apply reversed_permutation.
Defined.

(** ** The generated structure *)

Lemma Math_round_rows (n : Z) : Math_round (inject_Z n * ROWS_PER_PARTICIPANT) = 3 * n.
Proof.
  unfold Math_round, ROWS_PER_PARTICIPANT.
  assert (inject_Z n * 3 + (1 # 2) == (6 * n + 1) # 2)%Q as ->.
  { unfold Qeq, Qplus, Qmult, inject_Z. simpl. lia. }
  unfold Qfloor. simpl. symmetry. apply (Z.div_unique _ _ _ 1); lia.
Qed.

Lemma calculateAdjustmentTranspositions_bound n actual target :
  isPermutationOf n actual → isPermutationOf n target →
  let ts := calculateAdjustmentTranspositions actual target n in
  Forall (adjacentIn n) ts ∧ 2 * Z.of_nat (length ts) ≤ n * (n - 1).
Proof.
  intros Hactual Htarget ts.
  destruct (positionTable_represents n _ Hactual) as (w & _ & Hw).
  destruct (positionTable_represents n _ Htarget) as (t & _ & Ht).
  destruct (calculateAdjustmentTranspositions_arrangement n actual target w t)
    as (_ & Hadj & Hlen); try done.
  fold ts in Hadj, Hlen. split; [done|]. rewrite Hlen.
  pose proof (inversions_bound (λ p, default 0 (target !! p)) w) as Hb.
  destruct Hw as [Hlw _]. rewrite Hlw in Hb.
  destruct (decide (0 ≤ n)); [|rewrite Z2Nat.nonpos in Hb by lia; nia].
  nia.
Qed.

Lemma generate_baseRows participants0 results0 s :
  let n := Z.of_nat (length participants0) in
  let baseRows := Z.max 6 (Z.min 200 (3 * n)) in
  ∃ s1 s2 placed k,
    let natural := (generateRandomLines n baseRows s).1 in
    let target := (generateRandomMapping n s1).1 in
    let ts := calculateAdjustmentTranspositions
                (calculateMapping n baseRows natural) target n in
    draws s1 = draws s ∧
    placement baseRows ts placed k ∧
    (generate participants0 results0 s).1 =
      {| participants := participants0;
         results := results0;
         verticalLines := n;
         rows := baseRows + Z.max 1 (Z.of_nat k) + 1;
         horizontalLines :=
           merge_sort rungLe
             (fillWithDecorativePairs (natural ++ placed)
                (baseRows + Z.max 1 (Z.of_nat k) + 1) n s2).1;
         mapping := target |}.
Proof.
  intros n baseRows. unfold generate. fold n. rewrite Math_round_rows.
  unfold MIN_ROWS, MAX_ROWS. fold baseRows. unfold bind, ret.
  pose proof (generateRandomLines_draws n baseRows s) as Hdraws.
  destruct (generateRandomLines n baseRows s) as [natural s1] eqn:Hnat. simpl in Hdraws.
  destruct (generateRandomMapping n s1) as [target s2] eqn:Htarget.
  set (ts := calculateAdjustmentTranspositions
               (calculateMapping n baseRows natural) target n).
  destruct (addAdjustmentLines_placement natural ts baseRows n)
    as (placed & k & Hlines & Hrows & Hpl).
  rewrite Hlines, Hrows.
  destruct (fillWithDecorativePairs _ _ n s2) as [filled s3] eqn:Hfill.
  exists s1, s2, placed, k. simpl. rewrite Htarget. simpl. fold ts.
  split_and!; [done|done|]. by rewrite Hfill.
Qed.

Lemma generate_adjustments n baseRows s s1 :
  valid_source s → draws s1 = draws s →
  let natural := (generateRandomLines n baseRows s).1 in
  let target := (generateRandomMapping n s1).1 in
  let ts := calculateAdjustmentTranspositions
              (calculateMapping n baseRows natural) target n in
  Forall (adjacentIn n) ts ∧ 2 * Z.of_nat (length ts) ≤ Z.max 0 (n * (n - 1)).
Proof.
  intros Hs Hdraws natural target ts.
  destruct (decide (1 ≤ n)) as [Hn|Hn].
  - assert (valid_source s1) as Hs1 by by eapply valid_source_draws.
    assert (isPermutationOf n target) as Hperm.
    { destruct (generateRandomMapping_arrangement n s1 Hn Hs1) as [Hjs Hrep].
      eapply represents_isPermutationOf; [exact Hrep|].
      apply fisherYates_Permutation; [done|]. rewrite length_seqZ. lia. }
    pose proof (generateRandomLines_invariant n baseRows s) as [Hap Hcw].
    assert (isPermutationOf n (calculateMapping n baseRows natural)) as Hactual
      by by apply calculateMapping_permutation.
    destruct (calculateAdjustmentTranspositions_bound n _ _ Hactual Hperm) as [H1 H2].
    cbv zeta in H1, H2. fold natural target ts in H1, H2. split; [done|]. lia.
  - assert (ts = []) as ->; [|split; [constructor|simpl; lia]].
    unfold ts, calculateAdjustmentTranspositions.
    rewrite (seqZ_nil 0 n) by lia. done.
Qed.

Lemma generate_structure participants0 results0 s :
  valid_source s →
  let n := Z.of_nat (length participants0) in
  let ld := (generate participants0 results0 s).1 in
  participants ld = participants0 ∧ results ld = results0 ∧ verticalLines ld = n ∧
  columnsWithin n (horizontalLines ld) ∧
  8 ≤ rows ld ≤ Z.max 6 (Z.min 200 (3 * n)) + Z.max 1 (n * (n - 1) / 2) + 1.
Proof.
  intros Hs n ld. unfold ld.
  destruct (generate_baseRows participants0 results0 s)
    as (s1 & s2 & placed & k & Hdraws & Hpl & ->).
  fold n in Hdraws, Hpl |- *. simpl.
  destruct (generate_adjustments n (Z.max 6 (Z.min 200 (3 * n))) s s1 Hs Hdraws)
    as [Hadj Hlen].
  destruct (placement_count _ _ _ _ Hpl) as (Hk & _ & _).
  split_and!; [done|done|done| |lia|].
  - unfold columnsWithin.
    rewrite (merge_sort_Permutation rungLe). apply fillWithDecorativePairs_columns.
    apply Forall_app. split.
    + apply generateRandomLines_invariant.
    + by eapply placement_columns_within.
  - assert (Z.of_nat k ≤ n * (n - 1) / 2 ∨ k = 0%nat) as [?|?]; [|lia|lia].
    destruct (decide (k = 0%nat)); [by right|left].
    apply Z.div_le_lower_bound; lia.
Qed.

(** X13. [generate] returns the participants and results it was given and
    as many vertical lines as participants; every rung joins two existing
    columns; and the number of rows is at least 8 and at most
    [max(6, min(200, 3 N)) + max(1, N (N - 1) / 2) + 1]. *)
Theorem generate_shape participants0 results0 s :
  valid_source s →
  let n := Z.of_nat (length participants0) in
  let ld := (generate participants0 results0 s).1 in
  participants ld = participants0 ∧ results ld = results0 ∧ verticalLines ld = n ∧
  columnsWithin n (horizontalLines ld) ∧
  8 ≤ rows ld ≤ Z.max 6 (Z.min 200 (3 * n)) + Z.max 1 (n * (n - 1) / 2) + 1.
Proof. apply generate_structure. Qed.

Lemma generate_shape_witness :
  let n := Z.of_nat (length ["A"; "B"; "C"]) in
  let ld := (generate ["A"; "B"; "C"] ["X"; "Y"; "Z"] quarterSource).1 in
  participants ld = ["A"; "B"; "C"] ∧ results ld = ["X"; "Y"; "Z"] ∧
  verticalLines ld = n ∧
  columnsWithin n (horizontalLines ld) ∧
  8 ≤ rows ld ≤ Z.max 6 (Z.min 200 (3 * n)) + Z.max 1 (n * (n - 1) / 2) + 1.
Proof.
  apply (generate_shape ["A"; "B"; "C"] ["X"; "Y"; "Z"] quarterSource).
  apply quarterSource_valid.
Defined.

Lemma generate_rung_rows participants0 results0 s :
  let ld := (generate participants0 results0 s).1 in
  Forall (λ line, 1 ≤ row line < rows ld) (horizontalLines ld).
Proof.
  destruct (generate_stages participants0 results0 s)
    as (baseRows & natural & s1 & target & s2 & ts & placed & k & filled &
        HB & Hnat & _ & _ & _ & Hpl & Hfilled & ->).
  simpl.
  rewrite (merge_sort_Permutation rungLe filled). rewrite Hfilled.
  pose proof (generateRandomLines_row_range
                (Z.of_nat (length participants0)) baseRows s) as Hrange.
  rewrite <- Hnat in Hrange.
  pose proof (placement_rows _ _ _ _ Hpl) as Hrows.
  unfold MIN_ROWS in HB.
  apply fillWithDecorativePairs_rows.
  apply Forall_app. split.
  - eapply Forall_impl; [exact Hrange|]. simpl. intros line. lia.
  - eapply Forall_impl; [exact Hrows|]. simpl. intros line. lia.
Qed.

(** X14. With fewer than two participants, which [validateInputs] never
    lets through, [generate] draws no random number and returns a ladder
    of 8 rows without rungs whose mapping is the identity. *)
Theorem generate_degenerate participants0 results0 s :
  (length participants0 < 2)%nat →
  generate participants0 results0 s =
    ({| participants := participants0;
        results := results0;
        verticalLines := Z.of_nat (length participants0);
        rows := 8;
        horizontalLines := [];
        mapping := list_to_map ((λ c, (c, c)) <$> seqZ 0 (Z.of_nat (length participants0))) |},
     s).
Proof.
  intros Hlen. destruct participants0 as [|x [|y rest]]; [| |simpl in Hlen; lia].
  - vm_compute. reflexivity.
  - vm_compute. reflexivity.
Qed.

Lemma generate_degenerate_witness :
  generate ["A"] ["X"] quarterSource =
    ({| participants := ["A"];
        results := ["X"];
        verticalLines := Z.of_nat (length ["A"]);
        rows := 8;
        horizontalLines := [];
        mapping := list_to_map ((λ c, (c, c)) <$> seqZ 0 (Z.of_nat (length ["A"]))) |},
     quarterSource).
Proof. apply (generate_degenerate ["A"] ["X"] quarterSource). simpl. lia. Defined.
(** ** Trimming *)

Lemma leading_None ws text :
  Main.leading ws text = None ↔ ∀ w, w ∈ ws → ¬ w `prefix_of` text.
Proof.
  unfold Main.leading. induction ws as [|w0 ws IH]; simpl.
  - split; [|done]. intros _ w Hw. by apply elem_of_nil in Hw.
  - case_bool_decide as Hp.
    + split; [done|]. intros H. destruct (H w0); [by left|done].
    + rewrite IH. split.
      * intros H w [->|Hw]%elem_of_cons; [done|by apply H].
      * intros H w Hw. apply H. by right.
Qed.

Lemma leading_Some ws text w :
  Main.leading ws text = Some w → w ∈ ws ∧ w `prefix_of` text.
Proof.
  unfold Main.leading. intros [Hin Hp]%List.find_some.
  split; [by apply list_elem_of_In|]. by apply bool_decide_eq_true in Hp.
Qed.

Lemma dropLeading_suffix fuel ws text : Main.dropLeading fuel ws text `suffix_of` text.
Proof.
  revert text. induction fuel as [|fuel IH]; intros text; simpl; [done|].
  destruct (Main.leading ws text) as [w|]; [|done].
  etrans; [apply IH|]. apply suffix_drop.
Qed.

Lemma dropLeading_clean fuel ws text :
  [] ∉ ws → (length text ≤ fuel)%nat →
  Main.leading ws (Main.dropLeading fuel ws text) = None.
Proof.
  intros Hne. revert text. induction fuel as [|fuel IH]; intros text Hlen; simpl.
  - destruct text; [|simpl in Hlen; lia]. apply leading_None.
    intros w Hw Hp. apply prefix_nil_inv in Hp. by subst.
  - destruct (Main.leading ws text) as [w|] eqn:Hw; [|done].
    apply leading_Some in Hw as [Hin Hp]. apply IH.
    rewrite length_drop. destruct w as [|c w]; [done|].
    simpl. lia.
Qed.

Lemma dropLeading_id fuel ws text :
  Main.leading ws text = None → Main.dropLeading fuel ws text = text.
Proof. intros H. destruct fuel; simpl; [done|]. by rewrite H. Qed.

Lemma whiteSpace_nonempty : [] ∉ Main.whiteSpace.
Proof. apply (bool_decide_unpack _). by vm_compute. Qed.

Lemma reverse_whiteSpace_nonempty : [] ∉ reverse <$> Main.whiteSpace.
Proof. apply (bool_decide_unpack _). by vm_compute. Qed.

Lemma trimStart_spec text :
  Main.trimStart text `suffix_of` text ∧
  ∀ w, w ∈ Main.whiteSpace → ¬ w `prefix_of` Main.trimStart text.
Proof.
  split; [apply dropLeading_suffix|]. apply leading_None.
  apply dropLeading_clean; [apply whiteSpace_nonempty|done].
Qed.

Lemma trimEnd_spec text :
  Main.trimEnd text `prefix_of` text ∧
  ∀ w, w ∈ Main.whiteSpace → ¬ w `suffix_of` Main.trimEnd text.
Proof.
  unfold Main.trimEnd. split.
  - apply prefix_suffix_reverse. rewrite reverse_involutive.
    apply dropLeading_suffix.
  - intros w Hw Hs. apply suffix_prefix_reverse in Hs.
    rewrite reverse_involutive in Hs. revert Hs.
    pose proof (dropLeading_clean (length text) (reverse <$> Main.whiteSpace) (reverse text)
                  reverse_whiteSpace_nonempty) as Hclean.
    rewrite length_reverse in Hclean. specialize (Hclean ltac:(done)).
    rewrite leading_None in Hclean. apply Hclean.
    apply list_elem_of_fmap. by exists w.
Qed.

Lemma trimStart_id text :
  (∀ w, w ∈ Main.whiteSpace → ¬ w `prefix_of` text) → Main.trimStart text = text.
Proof. intros H. apply dropLeading_id. by apply leading_None. Qed.

Lemma trimEnd_id text :
  (∀ w, w ∈ Main.whiteSpace → ¬ w `suffix_of` text) → Main.trimEnd text = text.
Proof.
  intros H. unfold Main.trimEnd. rewrite dropLeading_id; [apply reverse_involutive|].
  apply leading_None. intros w' (w & -> & Hw)%list_elem_of_fmap Hp.
  apply (H w Hw). apply suffix_prefix_reverse. done.
Qed.

Lemma trim_trimmed s : trimmed (Main.trim s).
Proof.
  intros w Hw. unfold Main.trim. rewrite String.list_ascii_of_string_of_list_ascii.
  destruct (trimStart_spec (String.list_ascii_of_string s)) as [_ Hstart].
  destruct (trimEnd_spec (Main.trimStart (String.list_ascii_of_string s))) as [Hpre Hend].
  split; [|by apply Hend].
  intros Hp. apply (Hstart w Hw). by etrans.
Qed.

Lemma trimmed_trim s : trimmed s → Main.trim s = s.
Proof.
  intros H. unfold Main.trim. rewrite trimStart_id, trimEnd_id.
  - apply String.string_of_list_ascii_of_string.
  - intros w Hw. by apply H.
  - intros w Hw. by apply H.
Qed.

Lemma trim_hasChar c s : hasChar c (Main.trim s) → hasChar c s.
Proof.
  unfold hasChar, Main.trim. rewrite String.list_ascii_of_string_of_list_ascii.
  intros Hin.
  destruct (trimStart_spec (String.list_ascii_of_string s)) as [[k1 Hsuf] _].
  destruct (trimEnd_spec (Main.trimStart (String.list_ascii_of_string s))) as [[k2 Hpre] _].
  rewrite Hsuf, Hpre. apply elem_of_app. right. apply elem_of_app. by left.
Qed.

(** ** Lines *)

Lemma hasChar_cons c c' s : hasChar c (String c' s) ↔ c = c' ∨ hasChar c s.
Proof. unfold hasChar. simpl. apply elem_of_cons. Qed.

Lemma hasChar_empty c : ¬ hasChar c "".
Proof. unfold hasChar. simpl. apply not_elem_of_nil. Qed.

Lemma splitLines_nonempty text : Main.splitLines text ≠ [].
Proof.
  destruct text as [|c rest]; simpl; [done|].
  case_decide; [done|]. by destruct (Main.splitLines rest).
Qed.

Lemma splitLines_app a b :
  Main.splitLines (a +:+ String "010"%char b) = Main.splitLines a ++ Main.splitLines b.
Proof.
  induction a as [|c a IH]; simpl; [done|].
  case_decide; [by rewrite IH|].
  rewrite IH. pose proof (splitLines_nonempty a).
  by destruct (Main.splitLines a).
Qed.

Lemma splitLines_chars text line c :
  line ∈ Main.splitLines text → hasChar c line → hasChar c text ∧ c ≠ "010"%char.
Proof.
  revert line. induction text as [|c0 rest IH]; intros line; simpl.
  - intros ->%list_elem_of_singleton Hc. by apply hasChar_empty in Hc.
  - case_decide as Hc0.
    + intros [->|Hin]%elem_of_cons Hc; [by apply hasChar_empty in Hc|].
      destruct (IH _ Hin Hc). split; [|done]. apply hasChar_cons. by right.
    + pose proof (splitLines_nonempty rest) as Hne.
      destruct (Main.splitLines rest) as [|l0 more]; [done|].
      intros [->|Hin]%elem_of_cons Hc.
      * apply hasChar_cons in Hc as [->|Hc];
          [split; [|done]; apply hasChar_cons; by left|].
        destruct (IH l0 ltac:(by left) Hc). split; [|done]. apply hasChar_cons. by right.
      * destruct (IH line ltac:(by right) Hc). split; [|done]. apply hasChar_cons. by right.
Qed.

Lemma splitLines_single a : ¬ hasChar "010"%char a → Main.splitLines a = [a].
Proof.
  induction a as [|c a IH]; intros Hno; simpl; [done|].
  rewrite hasChar_cons in Hno. rewrite decide_False by (intros ->; tauto).
  rewrite IH by tauto. done.
Qed.

Lemma joinLines_cons x y items :
  Main.joinLines (x :: y :: items) = x +:+ String "010"%char (Main.joinLines (y :: items)).
Proof. reflexivity. Qed.

Lemma splitLines_joinLines items :
  items ≠ [] → Forall (λ item, ¬ hasChar "010"%char item) items →
  Main.splitLines (Main.joinLines items) = items.
Proof.
  induction items as [|x items IH]; intros Hne Hno; [done|].
  apply Forall_cons in Hno as [Hx Hno].
  destruct items as [|y items].
  - by apply splitLines_single.
  - rewrite joinLines_cons, splitLines_app, IH by done.
    by rewrite splitLines_single.
Qed.

Lemma length_pos_nonempty (s : string) : (0 < String.length s)%nat ↔ s ≠ "".
Proof. destruct s; simpl; split; try done; lia. Qed.

Lemma parse_clean (lines0 : list string) :
  Forall (λ line, ¬ hasChar "010"%char line) lines0 →
  Forall cleanItem (filter (λ item, (0 < String.length item)%nat) (Main.trim <$> lines0)).
Proof.
  intros Hno. apply Forall_forall. intros x [Hlen Hin]%list_elem_of_filter.
  apply list_elem_of_fmap in Hin as (line & -> & Hin).
  rewrite Forall_forall in Hno. split_and!.
  - by apply length_pos_nonempty.
  - apply trim_trimmed.
  - intros H%trim_hasChar. by apply (Hno line).
Qed.

Lemma splitLines_no_newline text :
  Forall (λ line, ¬ hasChar "010"%char line) (Main.splitLines text).
Proof.
  apply Forall_forall. intros line Hin H.
  by destruct (splitLines_chars _ _ _ Hin H).
Qed.

Lemma parseTextareaLines_clean text :
  Forall cleanItem (Main.parseTextareaLines Main.trim text).
Proof. apply parse_clean, splitLines_no_newline. Qed.

Lemma parseTextareaLines_joinLines items :
  Forall cleanItem items → Main.parseTextareaLines Main.trim (Main.joinLines items) = items.
Proof.
  intros Hclean. unfold Main.parseTextareaLines.
  destruct (decide (items = [])) as [->|Hne]; [by vm_compute|].
  rewrite splitLines_joinLines; [|done|].
  2:{ eapply Forall_impl; [exact Hclean|]. by intros x (_ & _ & ?). }
  clear Hne. induction Hclean as [|x items (Hx & Htr & _) _ IH]; [done|].
  rewrite fmap_cons, trimmed_trim by done.
  rewrite filter_cons_True by by apply length_pos_nonempty.
  by rewrite IH.
Qed.

(** X15. With [String.prototype.trim] for [trim], every entry that
    [parseTextareaLines] returns is not empty, has no white space at either
    end and no line break; joining the entries with line breaks and parsing
    again gives the same entries; and the entries of two texts joined by a
    line break are the entries of the first followed by those of the
    second. *)
Theorem parseTextareaLines_items text :
  let items := Main.parseTextareaLines Main.trim text in
  Forall cleanItem items ∧
  Main.parseTextareaLines Main.trim (Main.joinLines items) = items ∧
  ∀ a b, Main.parseTextareaLines Main.trim (a +:+ String "010"%char b) =
         Main.parseTextareaLines Main.trim a ++ Main.parseTextareaLines Main.trim b.
Proof.
  intros items. pose proof (parseTextareaLines_clean text) as Hclean.
  split_and!; [done|by apply parseTextareaLines_joinLines|].
  intros a b. unfold Main.parseTextareaLines.
  by rewrite splitLines_app, fmap_app, filter_app.
Qed.

(** ** Line breaks of a text area *)

Lemma normalizeNewlines_id text :
  ¬ hasChar "013"%char text → Main.normalizeNewlines text = text.
Proof.
  induction text as [|c rest IH]; [done|]. intros Hno. simpl.
  rewrite hasChar_cons in Hno.
  rewrite decide_False by (intros ->; tauto). rewrite IH by tauto. done.
Qed.

Lemma normalizeNewlines_chars text :
  ¬ hasChar "013"%char (Main.normalizeNewlines text).
Proof.
  assert (∀ n text, (String.length text < n)%nat →
                    ¬ hasChar "013"%char (Main.normalizeNewlines text)) as Hall.
  { clear text. induction n as [|n IH]; intros text Hlen; [lia|].
    destruct text as [|c rest]; [apply hasChar_empty|].
    simpl in Hlen. simpl. case_decide as Hc.
    - destruct rest as [|c' rest']; [|case_decide as Hc'].
      + rewrite hasChar_cons. intros [?|Hin]; [done|by apply hasChar_empty in Hin].
      + rewrite hasChar_cons. intros [?|Hin]; [done|].
        apply (IH rest'); [simpl in Hlen; lia|done].
      + rewrite hasChar_cons. intros [?|Hin]; [done|].
        apply (IH (String c' rest')); [lia|done].
    - rewrite hasChar_cons. intros [?|Hin]; [congruence|]. apply (IH rest); [lia|done]. }
  apply (Hall (S (String.length text))). lia.
Qed.

Lemma normalizeNewlines_idempotent text :
  Main.normalizeNewlines (Main.normalizeNewlines text) = Main.normalizeNewlines text.
Proof. apply normalizeNewlines_id, normalizeNewlines_chars. Qed.

Lemma hasChar_joinLines c items :
  c ≠ "010"%char →
  hasChar c (Main.joinLines items) → ∃ item, item ∈ items ∧ hasChar c item.
Proof.
  intros Hc. induction items as [|x items IH].
  - intros H. by apply hasChar_empty in H.
  - destruct items as [|y items].
    + simpl. intros H. exists x. split; [left|done].
    + rewrite joinLines_cons. intros H.
      assert (hasChar c x ∨ hasChar c (Main.joinLines (y :: items))) as [Hx|Hrest].
      { clear IH. induction x as [|c0 x IHx]; simpl in H.
        - apply hasChar_cons in H as [?|?]; [done|by right].
        - apply hasChar_cons in H as [->|H]; [left; apply hasChar_cons; by left|].
          destruct (IHx H) as [?|?]; [left; apply hasChar_cons; by right|by right]. }
      * exists x. split; [left|done].
      * destruct (IH Hrest) as (item & Hin & Hitem). exists item. split; [by right|done].
Qed.

(** ** Imported lists *)

Lemma replaceCommas_app a b :
  Main.replaceCommas (a +:+ b) = Main.replaceCommas a +:+ Main.replaceCommas b.
Proof. induction a as [|c a IH]; simpl; [done|]. by rewrite IH. Qed.

Lemma replaceCommas_chars c text :
  hasChar c (Main.replaceCommas text) → c ≠ ","%char.
Proof.
  induction text as [|c0 rest IH]; simpl.
  - intros H. by apply hasChar_empty in H.
  - intros [->|H]%hasChar_cons; [|by apply IH]. by case_decide.
Qed.

(** X16. The items that [parseCsvContent] returns are not empty, trimmed
    and free of line feeds and commas. [handleCsvImport] stores
    [items.join('\n')] in the text area, which reads it back with every
    CR LF and every other CR turned into a line feed, and sets the counter
    to the number of entries of that text. When no item contains a CR, the
    text area reads [items.join('\n')], its entries are exactly the items
    and the counter shows their number. *)
Theorem handleCsvImport_items content target st :
  let items := Main.parseCsvContent content in
  let st' := Main.handleCsvImport (Some content) target st in
  let text := match target with
              | Main.ParticipantsTextarea => Main.participantsTextarea (Main.page st')
              | Main.ResultsTextarea => Main.resultsTextarea (Main.page st')
              end in
  let count := match target with
               | Main.ParticipantsTextarea => Main.participantCount st'
               | Main.ResultsTextarea => Main.resultCount st'
               end in
  Forall (λ item, cleanItem item ∧ ¬ hasChar ","%char item) items ∧
  text = Main.normalizeNewlines (Main.joinLines items) ∧
  count = pretty (length (Main.parseTextareaLines Main.trim text)) ∧
  (Forall (λ item, ¬ hasChar "013"%char item) items →
   text = Main.joinLines items ∧
   Main.parseTextareaLines Main.trim text = items ∧
   count = pretty (length items)).
Proof.
  intros items st' text count.
  assert (Forall cleanItem items) as Hclean by apply parse_clean, splitLines_no_newline.
  assert (text = Main.normalizeNewlines (Main.joinLines items)) as Htext.
  { unfold text, st'. by destruct target. }
  assert (count = pretty (length (Main.parseTextareaLines Main.trim text))) as Hcount.
  { unfold count, text, st'. by destruct target. }
  split_and!; [|done|done|].
  - apply Forall_forall. intros x Hx. split.
    + rewrite Forall_forall in Hclean. by apply Hclean.
    + intros Hcomma. apply list_elem_of_filter in Hx as [_ Hx].
      apply list_elem_of_fmap in Hx as (line & -> & Hin).
      apply trim_hasChar in Hcomma.
      destruct (splitLines_chars _ _ _ Hin Hcomma) as [Hc _].
      by apply replaceCommas_chars in Hc.
  - intros Hcr.
    assert (text = Main.joinLines items) as Hjoin.
    { rewrite Htext. apply normalizeNewlines_id. intros Hin.
      apply hasChar_joinLines in Hin as (item & Hitem & Hin); [|done].
      rewrite Forall_forall in Hcr. by apply (Hcr item). }
    assert (Main.parseTextareaLines Main.trim text = items) as Hparse.
    { rewrite Hjoin. by apply parseTextareaLines_joinLines. }
    split_and!; [done|done|]. by rewrite Hcount, Hparse.
Qed.

(** A file with a CR inside a line: one item is imported, and the text
    area shows two entries. *)
Lemma handleCsvImport_lone_CR :
  let content := String "a"%char (String "013"%char (String "b"%char EmptyString)) in
  let st' := Main.handleCsvImport (Some content) Main.ParticipantsTextarea blankState in
  length (Main.parseCsvContent content) = 1%nat ∧
  Main.participantsTextarea (Main.page st') =
    String "a"%char (String "010"%char (String "b"%char EmptyString)) ∧
  Main.participantCount st' = "2".
Proof. by vm_compute. Qed.

(** X17. [parseCsvContent] treats a comma and a line break alike, each
    separating the items before it from the items after it, and on a text
    without commas it agrees with [parseTextareaLines]. *)
Theorem parseCsvContent_separators a b :
  Main.parseCsvContent (a +:+ String ","%char b) =
    Main.parseCsvContent a ++ Main.parseCsvContent b ∧
  Main.parseCsvContent (a +:+ String "010"%char b) =
    Main.parseCsvContent a ++ Main.parseCsvContent b ∧
  (¬ hasChar ","%char a →
   Main.parseCsvContent a = Main.parseTextareaLines Main.trim a).
Proof.
  unfold Main.parseCsvContent. split_and!.
  - rewrite replaceCommas_app. simpl.
    by rewrite splitLines_app, fmap_app, filter_app.
  - rewrite replaceCommas_app. simpl.
    by rewrite splitLines_app, fmap_app, filter_app.
  - intros Hno. unfold Main.parseTextareaLines.
    assert (Main.replaceCommas a = a) as ->; [|done].
    induction a as [|c a IH]; simpl; [done|].
    rewrite hasChar_cons in Hno. rewrite decide_False by (intros ->; tauto).
    rewrite IH by tauto. done.
Qed.
(** ** Colours *)

Lemma PARTICIPANT_COLORS_NoDup : NoDup Renderer.PARTICIPANT_COLORS.
Proof. apply (bool_decide_unpack _). by vm_compute. Qed.

Lemma getParticipantColor_nonneg i :
  0 ≤ i →
  Renderer.getParticipantColor i = Renderer.PARTICIPANT_COLORS !! Z.to_nat (i `mod` 15) ∧
  (Z.to_nat (i `mod` 15) < length Renderer.PARTICIPANT_COLORS)%nat.
Proof.
  intros Hi. unfold Renderer.getParticipantColor.
  change (Z.of_nat (length Renderer.PARTICIPANT_COLORS)) with 15.
  rewrite Z.rem_mod_nonneg by lia.
  pose proof (Z.mod_pos_bound i 15 ltac:(lia)).
  rewrite decide_True by lia. split; [done|].
  change (length Renderer.PARTICIPANT_COLORS) with 15%nat. lia.
Qed.

(** X18. For an index that is not negative [getParticipantColor] returns a
    colour of the palette, and two such indices get the same colour exactly
    when they are equal modulo 15: the colours of up to 15 participants
    are all different. *)
Theorem getParticipantColor_palette i j :
  0 ≤ i → 0 ≤ j →
  (∃ color, Renderer.getParticipantColor i = Some color ∧
            color ∈ Renderer.PARTICIPANT_COLORS) ∧
  (Renderer.getParticipantColor i = Renderer.getParticipantColor j ↔
   i `mod` 15 = j `mod` 15).
Proof.
  intros Hi Hj.
  destruct (getParticipantColor_nonneg i Hi) as [Hci Hli].
  destruct (getParticipantColor_nonneg j Hj) as [Hcj Hlj].
  destruct (lookup_lt_is_Some_2 _ _ Hli) as [ci Hi'].
  destruct (lookup_lt_is_Some_2 _ _ Hlj) as [cj Hj'].
  split.
  - exists ci. split; [by rewrite Hci|]. by eapply list_elem_of_lookup_2.
  - rewrite Hci, Hcj. split.
    + intros Heq. rewrite Hi', Hj' in Heq. simplify_eq.
      pose proof (NoDup_lookup _ _ _ _ PARTICIPANT_COLORS_NoDup Hi' Hj') as Hk.
      pose proof (Z.mod_pos_bound i 15 ltac:(lia)).
      pose proof (Z.mod_pos_bound j 15 ltac:(lia)). lia.
    + by intros ->.
Qed.

Lemma getParticipantColor_palette_witness :
  (∃ color, Renderer.getParticipantColor 3 = Some color ∧
            color ∈ Renderer.PARTICIPANT_COLORS) ∧
  (Renderer.getParticipantColor 3 = Renderer.getParticipantColor 18 ↔
   3 `mod` 15 = 18 `mod` 15).
Proof. apply (getParticipantColor_palette 3 18); lia. Defined.

(** ** The highlighted path *)

Lemma pushToRow_guarded (m : gmap Z (list Rung)) ls numRows :
  (∀ r, 0 ≤ r < numRows → is_Some (m !! r)) →
  Forall (λ line, 0 ≤ row line < numRows) ls →
  foldl Renderer.pushToRow (Some m) ls = Some (foldl addToRow m ls).
Proof.
  revert m. induction ls as [|line ls IH]; intros m Hdom Hrows; [done|].
  apply Forall_cons in Hrows as [Hrow Hrows]. simpl.
  destruct (Hdom _ Hrow) as [linesAtRow Hl].
  unfold addToRow at 2. rewrite Hl. simpl.
  apply IH; [|done]. intros r Hr.
  destruct (decide (r = row line)) as [->|Hne].
  - rewrite lookup_insert_eq. by eexists.
  - rewrite lookup_insert_ne by done. by apply Hdom.
Qed.

Lemma linesByRowOrThrow_Some numRows ls :
  Forall (λ line, 0 ≤ row line < numRows) ls →
  Renderer.linesByRowOrThrow numRows ls = Some (linesByRow numRows ls).
Proof.
  intros Hrows. unfold Renderer.linesByRowOrThrow, linesByRow.
  apply (pushToRow_guarded _ _ numRows); [|done].
  intros r Hr. pose proof (linesByRow_lookup numRows [] r) as Hl.
  unfold linesByRow in Hl. simpl in Hl. rewrite Hl, decide_True by done. by eexists.
Qed.

Lemma highlightRung_spec ls r c :
  match Renderer.highlightRung ls r c with
  | Some (horzKey, c') =>
      c' = followRow ls c ∧
      ∃ line, line ∈ ls ∧ horzKey = Renderer.segmentKey r (fromColumn line)
  | None => followRow ls c = c
  end.
Proof.
  induction ls as [|line ls IH]; simpl; [done|].
  repeat case_decide.
  - split; [done|]. exists line. split; [by left|done].
  - split; [done|]. exists line. split; [by left|done].
  - destruct (Renderer.highlightRung ls r c) as [[horzKey c']|]; [|done].
    destruct IH as (? & line' & ? & ?). split; [done|].
    exists line'. split; [by right|done].
Qed.

Lemma highlight_loop ls numRows c0 (k : nat) :
  Z.of_nat k ≤ numRows →
  let st := foldl (Renderer.highlightRow (linesByRow numRows ls)) (∅, ∅, c0)
                  (seqZ 0 (Z.of_nat k)) in
  st.2 = traceRows ls (seqZ 0 (Z.of_nat k)) c0 ∧
  ((0 < k)%nat → Renderer.segmentKey c0 0 ∈ st.1.1) ∧
  ∀ horzKey, horzKey ∈ st.1.2 →
    ∃ line, line ∈ ls ∧ horzKey = Renderer.segmentKey (row line) (fromColumn line).
Proof.
  induction k as [|k IH]; intros Hk.
  - simpl. split_and!; [done|lia|]. intros horzKey. by rewrite elem_of_empty.
  - rewrite seqZ_snoc. intros st. unfold st. rewrite foldl_app. simpl.
    destruct IH as (Hcol & Hfirst & Hhorz); [lia|].
    unfold traceRows. rewrite foldl_app. simpl.
    fold (traceRows ls (seqZ 0 (Z.of_nat k)) c0).
    destruct (foldl _ _ (seqZ 0 (Z.of_nat k))) as [[vertical0 horizontal0] col0].
    simpl in *. rewrite linesByRow_lookup, decide_True by lia. simpl.
    assert (Renderer.segmentKey c0 0 ∈ vertical0 ∪ {[Renderer.segmentKey col0 (Z.of_nat k)]})
      as Hin.
    { destruct k as [|k'].
      - simpl in Hcol. subst col0. apply elem_of_union. right.
        by apply elem_of_singleton.
      - apply elem_of_union. left. apply Hfirst. lia. }
    pose proof (highlightRung_spec (rowLines (Z.of_nat k) ls) (Z.of_nat k) col0) as Hrung.
    destruct (Renderer.highlightRung _ _ _) as [[horzKey c']|]; simpl.
    + destruct Hrung as (-> & line & [Hrow Hline]%elem_of_rowLines & ->).
      rewrite <- Hcol. split_and!; [done|done|].
      intros key [Hkey|Hkey%elem_of_singleton]%elem_of_union; [by apply Hhorz|].
      exists line. split; [done|]. by rewrite Hrow.
    + rewrite <- Hcol, Hrung. done.
Qed.

Lemma computeHighlightPath_spec ld c0 :
  0 < rows ld →
  Forall (λ line, 0 ≤ row line < rows ld) (horizontalLines ld) →
  ∃ path, Renderer.computeHighlightPath ld c0 = Some path ∧
    Renderer.endCol path = traceRows (horizontalLines ld) (seqZ 0 (rows ld)) c0 ∧
    Renderer.segmentKey c0 0 ∈ Renderer.vertical path ∧
    Renderer.segmentKey (Renderer.endCol path) (rows ld) ∈ Renderer.vertical path ∧
    ∀ horzKey, horzKey ∈ Renderer.horizontal path →
      ∃ line, line ∈ horizontalLines ld ∧
              horzKey = Renderer.segmentKey (row line) (fromColumn line).
Proof.
  intros Hpos Hrows. unfold Renderer.computeHighlightPath.
  rewrite linesByRowOrThrow_Some by done. simpl.
  pose proof (highlight_loop (horizontalLines ld) (rows ld) c0 (Z.to_nat (rows ld))) as Hloop.
  rewrite Z2Nat.id in Hloop by lia. specialize (Hloop ltac:(lia)). simpl in Hloop.
  destruct Hloop as (Hcol & Hfirst & Hhorz).
  destruct (foldl _ _ _) as [[vertical0 horizontal0] col0]. simpl in *.
  eexists. split; [done|]. simpl. split_and!; [done| | |done].
  - apply elem_of_union. left. apply Hfirst. lia.
  - apply elem_of_union. right. by apply elem_of_singleton.
Qed.

(** X19. On a generated ladder [computeHighlightPath] throws no
    [TypeError]; the path of a participant ends at the column [mapping]
    gives, its vertical segments include the first segment of the start
    column and the last segment of that end column, and every highlighted
    horizontal segment is a rung of the ladder. *)
Theorem computeHighlightPath_generated participants0 results0 s c :
  valid_source s → 0 ≤ c < Z.of_nat (length participants0) →
  let ld := (generate participants0 results0 s).1 in
  ∃ path k,
    Renderer.computeHighlightPath ld c = Some path ∧
    mapping ld !! c = Some k ∧ Renderer.endCol path = k ∧
    Renderer.segmentKey c 0 ∈ Renderer.vertical path ∧
    Renderer.segmentKey k (rows ld) ∈ Renderer.vertical path ∧
    ∀ horzKey, horzKey ∈ Renderer.horizontal path →
      ∃ line, line ∈ horizontalLines ld ∧
              horzKey = Renderer.segmentKey (row line) (fromColumn line).
Proof.
  intros Hs Hc ld.
  destruct (generate_traced participants0 results0 s Hs) as [_ Htrace].
  rewrite generate_columns in Htrace. fold ld in Htrace.
  destruct (generate_structure participants0 results0 s Hs) as (_ & _ & _ & _ & Hrows).
  fold ld in Hrows.
  pose proof (generate_rung_rows participants0 results0 s) as Hrung. fold ld in Hrung.
  destruct (computeHighlightPath_spec ld c) as (path & Hpath & Hend & Hfirst & Hlast & Hhorz).
  - lia.
  - eapply Forall_impl; [exact Hrung|]. simpl. intros line. lia.
  - exists path, (Renderer.endCol path). split_and!; try done.
    rewrite Hend. by apply Htrace.
Qed.

Lemma computeHighlightPath_generated_witness :
  let ld := (generate ["A"; "B"; "C"] ["X"; "Y"; "Z"] quarterSource).1 in
  ∃ path k,
    Renderer.computeHighlightPath ld 1 = Some path ∧
    mapping ld !! 1 = Some k ∧ Renderer.endCol path = k ∧
    Renderer.segmentKey 1 0 ∈ Renderer.vertical path ∧
    Renderer.segmentKey k (rows ld) ∈ Renderer.vertical path ∧
    ∀ horzKey, horzKey ∈ Renderer.horizontal path →
      ∃ line, line ∈ horizontalLines ld ∧
              horzKey = Renderer.segmentKey (row line) (fromColumn line).
Proof.
  apply (computeHighlightPath_generated ["A"; "B"; "C"] ["X"; "Y"; "Z"] quarterSource 1).
  - apply quarterSource_valid.
  - simpl. lia.
Defined.

(** ** The colours of the results *)

Lemma reverseMapping_fold (m : gmap Z Z) (ps : list Z) k p :
  (∀ p q k, m !! p = Some k → m !! q = Some k → p = q) →
  foldl (λ (reverse : gmap Z Z) participantIdx,
           match m !! participantIdx with
           | Some resultCol => <[resultCol := participantIdx]> reverse
           | None => reverse
           end) ∅ ps !! k = Some p ↔ p ∈ ps ∧ m !! p = Some k.
Proof.
  intros Hinj. induction ps as [|q ps IH] using rev_ind.
  - simpl. rewrite lookup_empty. split; [done|]. intros [H%elem_of_nil _]. done.
  - rewrite foldl_app. simpl. destruct (m !! q) as [kq|] eqn:Hq.
    + destruct (decide (kq = k)) as [->|Hne].
      * rewrite lookup_insert_eq. split.
        -- intros [= ->]. split; [|done]. apply elem_of_app. right. by left.
        -- intros [_ Hp]. f_equal. by eapply Hinj.
      * rewrite lookup_insert_ne by done. rewrite IH. split.
        -- intros [Hin Hp]. split; [|done]. apply elem_of_app. by left.
        -- intros [[Hin|Hin%list_elem_of_singleton]%elem_of_app Hp]; [done|].
           subst. congruence.
    + rewrite IH. split.
      * intros [Hin Hp]. split; [|done]. apply elem_of_app. by left.
      * intros [[Hin|Hin%list_elem_of_singleton]%elem_of_app Hp]; [done|].
        subst. congruence.
Qed.

(** X20. When the mapping is a permutation of the participants' columns,
    the reverse mapping of [drawResults] sends each result column back to
    the participant who ends there, so the result is drawn in the colour of
    that participant, and this colour is defined. *)
Theorem resultColor_participant ld p k :
  isPermutationOf (Z.of_nat (length (participants ld))) (mapping ld) →
  mapping ld !! p = Some k →
  Renderer.reverseMapping ld !! k = Some p ∧
  Renderer.resultColor ld k = Renderer.getParticipantColor p ∧
  is_Some (Renderer.resultColor ld k).
Proof.
  intros (Hdom & _ & Hinj & _) Hp.
  assert (0 ≤ p < Z.of_nat (length (participants ld))) as Hrange.
  { apply Hdom. by eexists. }
  assert (Renderer.reverseMapping ld !! k = Some p) as Hrev.
  { unfold Renderer.reverseMapping. apply reverseMapping_fold; [done|].
    split; [|done]. apply elem_of_seqZ. lia. }
  unfold Renderer.resultColor. rewrite Hrev. simpl. split_and!; [done|done|].
  destruct (getParticipantColor_nonneg p ltac:(lia)) as [-> Hlt].
  by apply lookup_lt_is_Some_2.
Qed.

Lemma resultColor_participant_witness :
  Renderer.reverseMapping crossedLadder !! 1 = Some 0 ∧
  Renderer.resultColor crossedLadder 1 = Renderer.getParticipantColor 0 ∧
  is_Some (Renderer.resultColor crossedLadder 1).
Proof.
  apply (resultColor_participant crossedLadder 0 1).
  - apply crossedLadder_permutation.
  - reflexivity.
Defined.
(** ** The page *)

Lemma randomIndex_draws k s : draws (randomIndex k s).2 = draws s.
Proof. reflexivity. Qed.

Lemma generateRandomMapping_draws n s : draws (generateRandomMapping n s).2 = draws s.
Proof.
  unfold generateRandomMapping, bind.
  pose proof (forEachM_invariant (λ _ s', draws s' = draws s)
    (reverse (seqZ 1 (n - 1))) shuffleStep (Some <$> seqZ 0 n) s) as Hinv.
  destruct (forEachM _ _ _ s) as [shuffled s']. simpl in *. apply Hinv; [done|].
  intros i acc s0 _ Hs0. unfold shuffleStep, bind. simpl. done.
Qed.

Lemma fillColumn_draws r col st s : draws (fillColumn r col st s).2 = draws s.
Proof.
  destruct st as [[result uThis] uNext]. unfold fillColumn.
  repeat case_decide; try done. unfold bind. simpl. by destruct (Qlt_bool _ _).
Qed.

Lemma fillRowPair_draws numColumns r st s :
  draws (fillRowPair numColumns r st s).2 = draws s.
Proof.
  destruct st as [result usedByRow]. unfold fillRowPair, bind.
  pose proof (forEachM_invariant (λ _ s', draws s' = draws s)
    (seqZ 0 (numColumns - 1)) (fillColumn r)
    (result, default ∅ (usedByRow !! r), default ∅ (usedByRow !! (r + 1))) s) as Hinv.
  destruct (forEachM _ _ _ s) as [[[result' uThis'] uNext'] s']. simpl in *.
  apply Hinv; [done|]. intros col acc s0 _ Hs0. by rewrite fillColumn_draws.
Qed.

Lemma fillWithDecorativePairs_draws lines0 numRows numColumns s :
  draws (fillWithDecorativePairs lines0 numRows numColumns s).2 = draws s.
Proof.
  unfold fillWithDecorativePairs, bind.
  pose proof (forEachM_invariant (λ _ s', draws s' = draws s)
    (everySecond (Z.to_nat (numRows - 2)) 1 (numRows - 1))
    (fillRowPair numColumns) (lines0, foldl markUsed ∅ lines0) s) as Hinv.
  destruct (forEachM _ _ _ s) as [st s']. simpl in *.
  apply Hinv; [done|]. intros r acc s0 _ Hs0. by rewrite fillRowPair_draws.
Qed.

Lemma generate_draws participants0 results0 s :
  draws (generate participants0 results0 s).2 = draws s.
Proof.
  unfold generate, bind, ret.
  pose proof (generateRandomLines_draws (Z.of_nat (length participants0))
    (Z.max MIN_ROWS (Z.min MAX_ROWS
       (Math_round (inject_Z (Z.of_nat (length participants0)) * ROWS_PER_PARTICIPANT)))) s)
    as H1.
  destruct (generateRandomLines _ _ s) as [natural s1]. simpl in H1.
  pose proof (generateRandomMapping_draws (Z.of_nat (length participants0)) s1) as H2.
  destruct (generateRandomMapping _ s1) as [target s2]. simpl in H2.
  match goal with |- context [fillWithDecorativePairs ?l ?r ?c s2] =>
    pose proof (fillWithDecorativePairs_draws l r c s2) as H3;
    destruct (fillWithDecorativePairs l r c s2) as [filled s3] end.
  simpl in *. congruence.
Qed.

Lemma generate_wellFormed participants0 results0 s :
  valid_source s → Main.validateInputs participants0 results0 = None →
  wellFormed (generate participants0 results0 s).1.
Proof.
  intros Hs Hvalid.
  assert (¬ invalidInput participants0 results0) as Hok.
  { rewrite <- validateInputs_Some_iff, Hvalid. by intros []. }
  unfold invalidInput in Hok.
  destruct (generate_structure participants0 results0 s Hs) as (Hp & Hr & Hv & Hcw & Hrows).
  destruct (generate_traced participants0 results0 s Hs) as [Hperm Htrace].
  pose proof (generate_apart participants0 results0 s) as Hap.
  pose proof (generate_rung_rows participants0 results0 s) as Hrung.
  cbv zeta in *. rewrite Hv in Hperm, Htrace.
  unfold wellFormed. rewrite Hp, Hr. split_and!; try done.
  - lia.
  - lia.
  - destruct (decide (NoDup participants0)); [done|tauto].
  - lia.
  - by apply nonOverlapping_pairwiseApart.
  - apply map_eq. intros c. rewrite calculateMapping_lookup. case_decide as Hc.
    + by rewrite Htrace.
    + destruct Hperm as [Hdom _]. symmetry. apply eq_None_not_Some. by rewrite Hdom.
Qed.

Lemma firstHit_range hits n :
  Renderer.firstHit hits (seqZ 0 n) = -1 ∨ 0 ≤ Renderer.firstHit hits (seqZ 0 n) < n.
Proof.
  assert (∀ cs, Forall (λ c, 0 ≤ c < n) cs →
            Renderer.firstHit hits cs = -1 ∨ 0 ≤ Renderer.firstHit hits cs < n) as H.
  { induction cs as [|c cs IH]; intros Hcs; simpl; [by left|].
    apply Forall_cons in Hcs as [Hc Hcs]. destruct (hits c); [by right|by apply IH]. }
  apply H. apply Forall_forall. intros c Hc%elem_of_seqZ. lia.
Qed.

Lemma getParticipantIndexFromClick_range ld click :
  Renderer.getParticipantIndexFromClick ld click = -1 ∨
  0 ≤ Renderer.getParticipantIndexFromClick ld click < verticalLines ld.
Proof.
  unfold Renderer.getParticipantIndexFromClick.
  destruct (Renderer.inNameArea click); [apply firstHit_range|by left].
Qed.

Lemma consistent_highlight st index :
  consistent st →
  match Main.ladderData (Main.page st) with
  | None => index = -1
  | Some ld => -1 ≤ index < Z.of_nat (length (participants ld))
  end →
  consistent (Main.setHighlightIndex index st).
Proof.
  intros (Hp & Hr & Hl) Hi. unfold consistent. simpl.
  split_and!; [done|done|].
  destruct (Main.ladderData (Main.page st)) as [ld|]; [|by destruct Hl].
  destruct Hl as (? & ? & ? & ?). done.
Qed.

Lemma consistent_unhighlight st :
  consistent st → consistent (Main.setHighlightIndex (-1) st).
Proof.
  intros Hc. apply consistent_highlight; [done|].
  destruct Hc as (_ & _ & Hl).
  destruct (Main.ladderData (Main.page st)) as [ld|]; [|done].
  destruct Hl as (_ & _ & _ & ?). lia.
Qed.

Lemma consistent_toggle st index :
  consistent st →
  (∀ ld, Main.ladderData (Main.page st) = Some ld →
         0 ≤ index < Z.of_nat (length (participants ld))) →
  is_Some (Main.ladderData (Main.page st)) →
  consistent (Main.toggleHighlight index st).
Proof.
  intros Hc Hi [ld Hld]. unfold Main.toggleHighlight.
  case_decide; [by apply consistent_unhighlight|].
  apply consistent_highlight; [done|]. rewrite Hld. specialize (Hi _ Hld). lia.
Qed.

Lemma consistent_handleDocumentClick a b st :
  consistent st → consistent (Main.handleDocumentClick a b st).
Proof.
  intros Hc. unfold Main.handleDocumentClick.
  destruct (_ || _); [done|]. destruct (_ && _); [|done].
  by apply consistent_unhighlight.
Qed.

Lemma consistent_handleReset st : consistent st → consistent (Main.handleReset st).
Proof. intros (Hp & Hr & _). unfold consistent. simpl. done. Qed.

Lemma consistent_input st :
  (match Main.ladderData (Main.page st) with
   | None =>
       Main.highlightIndex st = -1 ∧
       Main.inputSectionHidden (Main.page st) = false ∧
       Main.resultSectionHidden (Main.page st) = true
   | Some ld =>
       Main.inputSectionHidden (Main.page st) = true ∧
       Main.resultSectionHidden (Main.page st) = false ∧
       wellFormed ld ∧
       -1 ≤ Main.highlightIndex st < Z.of_nat (length (participants ld))
   end) →
  consistent (Main.onPage Main.hideError (Main.saveToStorage (Main.updateCounts st))).
Proof. intros Hl. unfold consistent. simpl. done. Qed.

Lemma consistent_handleStartClick st s :
  consistent st → valid_source s → Main.inputSectionHidden (Main.page st) = false →
  consistent (Main.handleStartClick st s).1 ∧ valid_source (Main.handleStartClick st s).2.
Proof.
  intros (Hp & Hr & Hl) Hs Hvisible.
  destruct (Main.ladderData (Main.page st)) as [ld|] eqn:Hld.
  { destruct Hl as (Hhidden & _). congruence. }
  destruct Hl as (Hhi & _ & Hres).
  unfold Main.handleStartClick, bind, ret.
  pose proof (handleStart_gate Main.trim (Main.page st) s) as Hgate. simpl in Hgate.
  destruct (Main.validateInputs _ _) as [msg|] eqn:Hv.
  - rewrite Hgate. simpl. split; [|done]. unfold consistent. simpl.
    rewrite Hld. done.
  - rewrite Hgate. simpl. split.
    + unfold consistent. simpl. split_and!; try done.
      * by apply generate_wellFormed.
      * lia.
      * rewrite Hhi.
        destruct (generate_structure
                    (Main.parseTextareaLines Main.trim
                       (Main.participantsTextarea (Main.page st)))
                    (Main.parseTextareaLines Main.trim
                       (Main.resultsTextarea (Main.page st))) s Hs) as (Hpp & _).
        cbv zeta in Hpp. rewrite Hpp.
        assert (¬ invalidInput
                  (Main.parseTextareaLines Main.trim (Main.participantsTextarea (Main.page st)))
                  (Main.parseTextareaLines Main.trim (Main.resultsTextarea (Main.page st))))
          as Hok.
        { rewrite <- validateInputs_Some_iff, Hv. by intros []. }
        unfold invalidInput in Hok. lia.
    + eapply valid_source_draws; [apply generate_draws|done].
Qed.

Lemma consistent_dispatch st s e :
  consistent st → valid_source s → enabled st e →
  consistent (Main.dispatch e st s).1 ∧ valid_source (Main.dispatch e st s).2.
Proof.
  intros Hc Hs He. destruct e; simpl.
  - split; [|done]. apply consistent_input. simpl. by destruct Hc as (_ & _ & ?).
  - split; [|done]. apply consistent_input. simpl. by destruct Hc as (_ & _ & ?).
  - split; [|done]. unfold Main.handleCsvImport.
    destruct content as [text|]; [|done].
    destruct target; apply consistent_input; simpl; by destruct Hc as (_ & _ & ?).
  - unfold bind, ret.
    destruct (consistent_handleStartClick st s Hc Hs He) as [Hc' Hs'].
    destruct (Main.handleStartClick st s) as [st1 s1]. simpl in *.
    split; [|done]. by apply consistent_handleDocumentClick.
  - split; [|done]. by do 2 apply consistent_handleDocumentClick.
  - split; [|done]. by do 2 apply consistent_handleDocumentClick.
  - split; [|done]. by apply consistent_handleDocumentClick, consistent_handleReset.
  - split; [|done]. destruct He as (_ & ld & Hld & Hindex).
    unfold Main.handleResultItemClick. apply consistent_toggle; [done| |by eexists].
    intros ld' Hld'. rewrite Hld in Hld'. simplify_eq.
    unfold getAllResults in Hindex. by rewrite length_imap in Hindex.
  - destruct (Main.ladderData (Main.page st)) as [ld|] eqn:Hld; simpl.
    + split; [|done]. unfold Main.handleCanvasClick. rewrite Hld.
      pose proof (getParticipantIndexFromClick_range ld click) as Hrange.
      assert (verticalLines ld = Z.of_nat (length (participants ld))) as Hv.
      { destruct Hc as (_ & _ & Hl). rewrite Hld in Hl.
        by destruct Hl as (_ & _ & (_ & _ & _ & ? & _) & _). }
      case_decide.
      * apply consistent_toggle; [done| |by eexists].
        intros ld' Hld'. rewrite Hld in Hld'. simplify_eq. lia.
      * case_decide; [by apply consistent_unhighlight|done].
    + split; [|done]. apply consistent_handleDocumentClick.
      unfold Main.handleCanvasClick. by rewrite Hld.
  - split; [|done]. by apply consistent_handleDocumentClick.
  - unfold Main.handleKeyDown, bind, ret.
    assert (∃ st1 s1,
      (if (Main.ctrlKey event || Main.metaKey event)
          && bool_decide (Main.key event = "Enter")
       then if negb (Main.inputSectionHidden (Main.page st))
            then Main.handleStartClick st else λ s0, (st, s0)
       else λ s0, (st, s0)) s = (st1, s1) ∧ consistent st1 ∧ valid_source s1)
      as (st1 & s1 & -> & Hc1 & Hs1).
    { destruct (_ && _); [|by eauto].
      destruct (Main.inputSectionHidden (Main.page st)) eqn:Hhidden; simpl; [by eauto|].
      destruct (consistent_handleStartClick st s Hc Hs Hhidden) as [Hc' Hs'].
      destruct (Main.handleStartClick st s) as [st1 s1]. eauto. }
    destruct (_ && _); simpl; split; try done.
    by apply consistent_handleReset.
Qed.

Lemma consistent_init st : initialState st → consistent (Main.init st).
Proof.
  intros (Hld & Hhi & Hin & Hres).
  assert (Main.ladderData (Main.page (Main.loadFromStorage st)) = None ∧
          Main.highlightIndex (Main.loadFromStorage st) = -1 ∧
          Main.inputSectionHidden (Main.page (Main.loadFromStorage st)) = false ∧
          Main.resultSectionHidden (Main.page (Main.loadFromStorage st)) = true)
    as (Hld' & Hhi' & Hin' & Hres').
  { unfold Main.loadFromStorage. destruct (Main.localStorage st) as [items|]; [|done].
    destruct (Main.truthy (items !! _)), (Main.truthy (items !! _)); simpl; done. }
  unfold Main.init, consistent. simpl. rewrite Hld'. done.
Qed.

(** X21. In every state that the page reaches from its initial state by
    the events its listeners react to (typing, a CSV import, clicks, keys),
    where the start button can be clicked only while the input section is
    shown and the items of the result summary are those of the ladder
    shown: the two counters show the numbers of entries of the text areas;
    while no ladder is stored the input section is shown and nothing is
    highlighted; once a ladder is stored the result section is shown, the
    ladder has between 2 and 100 participants with different names and as
    many results, its mapping is a permutation that its rungs trace, and
    [state.highlightIndex] is [-1] or the index of one of its
    participants. The random source keeps its contract. *)
Theorem reachable_consistent st s :
  reachable st s → consistent st ∧ valid_source s.
Proof.
  induction 1 as [st s Hinit Hs|st s e Hreach [Hc Hs] He].
  - split; [by apply consistent_init|done].
  - by apply consistent_dispatch.
Qed.

Lemma reachable_consistent_witness :
  let typed :=
    Main.dispatch (Main.TypeParticipants namesText) (Main.init blankState) quarterSource in
  let filled := Main.dispatch (Main.TypeResults prizesText) typed.1 typed.2 in
  let started := Main.dispatch Main.ClickStart filled.1 filled.2 in
  consistent started.1 ∧ valid_source started.2.
Proof.
  apply reachable_consistent.
  apply reachable_step;
    [apply reachable_step; [apply reachable_step; [apply reachable_init|]|]|].
  - repeat split.
  - apply quarterSource_valid.
  - exact I.
  - exact I.
  - reflexivity.
Defined.

(** ** Saved inputs *)

(** X22. When [localStorage] takes the two items that [saveToStorage]
    writes, a page loaded afterwards with empty text areas gets, from
    [init], the two saved texts in its text areas, read with their line
    breaks normalised, and counters that show the numbers of their
    entries. A saved text without CR, as every text read from a text area
    is, comes back as it was saved. *)
Theorem storage_round_trip st fresh :
  is_Some (Main.localStorage st) →
  Main.localStorage fresh = Main.localStorage (Main.saveToStorage st) →
  Main.participantsTextarea (Main.page fresh) = "" →
  Main.resultsTextarea (Main.page fresh) = "" →
  let st' := Main.init fresh in
  Main.participantsTextarea (Main.page st') =
    Main.normalizeNewlines (Main.participantsTextarea (Main.page st)) ∧
  Main.resultsTextarea (Main.page st') =
    Main.normalizeNewlines (Main.resultsTextarea (Main.page st)) ∧
  (¬ hasChar "013"%char (Main.participantsTextarea (Main.page st)) →
   Main.participantsTextarea (Main.page st') = Main.participantsTextarea (Main.page st)) ∧
  (¬ hasChar "013"%char (Main.resultsTextarea (Main.page st)) →
   Main.resultsTextarea (Main.page st') = Main.resultsTextarea (Main.page st)) ∧
  Main.participantCount st' =
    pretty (length (Main.parseTextareaLines Main.trim
                      (Main.participantsTextarea (Main.page st')))) ∧
  Main.resultCount st' =
    pretty (length (Main.parseTextareaLines Main.trim
                      (Main.resultsTextarea (Main.page st')))).
Proof.
  intros [items Hitems] Hsaved Hp Hr st'.
  assert (Main.participantsTextarea (Main.page (Main.loadFromStorage fresh))
            = Main.normalizeNewlines (Main.participantsTextarea (Main.page st)) ∧
          Main.resultsTextarea (Main.page (Main.loadFromStorage fresh))
            = Main.normalizeNewlines (Main.resultsTextarea (Main.page st))) as [Hp' Hr'].
  { unfold Main.loadFromStorage. rewrite Hsaved. simpl. rewrite Hitems. simpl.
    rewrite lookup_insert_eq.
    rewrite lookup_insert_ne by done. rewrite lookup_insert_eq. simpl.
    destruct (decide (Main.participantsTextarea (Main.page st) = "")) as [Hpe|Hpe];
      destruct (decide (Main.resultsTextarea (Main.page st) = "")) as [Hre|Hre];
      repeat case_bool_decide; try done; simpl; rewrite ?Hpe, ?Hre, ?Hp, ?Hr; done. }
  unfold st', Main.init. simpl. rewrite Hp', Hr'.
  split_and!; try done; intros Hno; by apply normalizeNewlines_id.
Qed.

Lemma storage_round_trip_witness :
  let st := Main.onPage (Main.setParticipantsValue namesText) blankState in
  let st' := Main.init (reloadedState (Main.saveToStorage st)) in
  Main.participantsTextarea (Main.page st') =
    Main.normalizeNewlines (Main.participantsTextarea (Main.page st)) ∧
  Main.resultsTextarea (Main.page st') =
    Main.normalizeNewlines (Main.resultsTextarea (Main.page st)) ∧
  (¬ hasChar "013"%char (Main.participantsTextarea (Main.page st)) →
   Main.participantsTextarea (Main.page st') = Main.participantsTextarea (Main.page st)) ∧
  (¬ hasChar "013"%char (Main.resultsTextarea (Main.page st)) →
   Main.resultsTextarea (Main.page st') = Main.resultsTextarea (Main.page st)) ∧
  Main.participantCount st' =
    pretty (length (Main.parseTextareaLines Main.trim
                      (Main.participantsTextarea (Main.page st')))) ∧
  Main.resultCount st' =
    pretty (length (Main.parseTextareaLines Main.trim
                      (Main.resultsTextarea (Main.page st')))).
Proof.
  apply (storage_round_trip
           (Main.onPage (Main.setParticipantsValue namesText) blankState)
           (reloadedState
              (Main.saveToStorage
                 (Main.onPage (Main.setParticipantsValue namesText) blankState)))).
  - by eexists.
  - reflexivity.
  - reflexivity.
  - reflexivity.
Defined.

(** ** Base64 there and back *)

Lemma list_ind3 {A} (P : list A → Prop) :
  P [] → (∀ a, P [a]) → (∀ a b, P [a; b]) →
  (∀ a b c rest, P rest → P (a :: b :: c :: rest)) →
  ∀ l, P l.
Proof.
  intros H0 H1 H2 H3 l.
  assert (P l ∧ (∀ a, P (a :: l)) ∧ (∀ a b, P (a :: b :: l))) as [? _]; [|done].
  induction l as [|x l (IH0 & IH1 & IH2)]; [by eauto|].
  split_and!; [apply IH1|intros; apply IH2|].
  intros a b. by apply H3.
Qed.

Lemma sextet_table :
  Forall (λ n, Share.sextetValue (Share.byteOf (Share.sextet n)) = Some n ∧
               Share.isAsciiWhitespace (Share.byteOf (Share.sextet n)) = false ∧
               Share.byteOf (Share.sextet n) ≠ 61%N ∧
               (Share.byteOf (Share.sextet n) = 43%N → n = 62%N) ∧
               Share.byteOf (Share.sextet n) ≠ 37%N ∧
               Share.byteOf (Share.sextet n) ≠ 38%N ∧
               Share.byteOf (Share.sextet n) ≠ 35%N ∧
               Share.byteOf (Share.sextet n) ≠ 63%N)
         (N.of_nat <$> seq 0 64).
Proof. apply (bool_decide_unpack _). by vm_compute. Qed.

Lemma sextet_spec n :
  (n < 64)%N →
  Share.sextetValue (Share.byteOf (Share.sextet n)) = Some n ∧
  Share.isAsciiWhitespace (Share.byteOf (Share.sextet n)) = false ∧
  Share.byteOf (Share.sextet n) ≠ 61%N ∧
  (Share.byteOf (Share.sextet n) = 43%N → n = 62%N) ∧
  Share.byteOf (Share.sextet n) ≠ 37%N ∧
  Share.byteOf (Share.sextet n) ≠ 38%N ∧
  Share.byteOf (Share.sextet n) ≠ 35%N ∧
  Share.byteOf (Share.sextet n) ≠ 63%N.
Proof.
  intros Hn. pose proof sextet_table as H. rewrite Forall_forall in H.
  apply H. apply list_elem_of_fmap. exists (N.to_nat n).
  split; [by rewrite N2Nat.id|]. apply elem_of_seq. lia.
Qed.

Lemma sextets_range bytes :
  Forall (λ b, b < 256)%N bytes → Forall (λ v, v < 64)%N (sextets bytes).
Proof.
  induction bytes as [|a|a b|a b c rest IH] using list_ind3; intros Hb; simpl.
  - constructor.
  - rewrite Forall_singleton in Hb. simpl in Hb.
    repeat constructor.
    + apply N.Div0.div_lt_upper_bound. lia.
    + pose proof (N.mod_lt a 4). lia.
  - apply Forall_cons in Hb as [Ha Hb]. rewrite Forall_singleton in Hb. simpl in Ha, Hb.
    pose proof (N.mod_lt a 4). pose proof (N.mod_lt b 16).
    assert (a / 4 < 64)%N by (apply N.Div0.div_lt_upper_bound; lia).
    assert (b / 16 < 16)%N by (apply N.Div0.div_lt_upper_bound; lia).
    repeat constructor; lia.
  - apply Forall_cons in Hb as [Ha Hb]. apply Forall_cons in Hb as [Hb Hc].
    apply Forall_cons in Hc as [Hc Hrest]. simpl in Ha, Hb, Hc.
    pose proof (N.mod_lt a 4). pose proof (N.mod_lt b 16). pose proof (N.mod_lt c 64).
    assert (a / 4 < 64)%N by (apply N.Div0.div_lt_upper_bound; lia).
    assert (b / 16 < 16)%N by (apply N.Div0.div_lt_upper_bound; lia).
    assert (c / 64 < 4)%N by (apply N.Div0.div_lt_upper_bound; lia).
    repeat (constructor; [lia|]). by apply IH.
Qed.

Lemma padding_cons3 (a b c : N) rest : padding (a :: b :: c :: rest) = padding rest.
Proof.
  unfold padding. simpl length.
  replace (S (S (S (length rest)))) with (length rest + 1 * 3)%nat by lia.
  by rewrite Nat.Div0.mod_add.
Qed.

Lemma base64Encode_sextets bytes :
  Share.bytesOf (Share.base64Encode bytes) =
  ((λ v, Share.byteOf (Share.sextet v)) <$> sextets bytes) ++ padding bytes.
Proof.
  induction bytes as [|a|a b|a b c rest IH] using list_ind3; try done.
  rewrite padding_cons3.
  change (Share.base64Encode (a :: b :: c :: rest)) with
    (String (Share.sextet (a / 4)) (String (Share.sextet (a mod 4 * 16 + b / 16))
       (String (Share.sextet (b mod 16 * 4 + c / 64)) (String (Share.sextet (c mod 64))
          (Share.base64Encode rest)))))%N.
  simpl Share.bytesOf. by rewrite IH.
Qed.

Lemma base64DecodeGroups_sextets bytes :
  Forall (λ b, b < 256)%N bytes → Share.base64DecodeGroups (sextets bytes) = bytes.
Proof.
  induction bytes as [|a|a b|a b c rest IH] using list_ind3; intros Hb.
  - done.
  - simpl. f_equal.
    pose proof (N.div_mod a 4 ltac:(lia)). pose proof (N.mod_lt a 4 ltac:(lia)).
    replace ((a mod 4 * 16) / 16)%N with (a mod 4)%N by (by rewrite N.div_mul). lia.
  - simpl. 
    pose proof (N.div_mod a 4 ltac:(lia)). pose proof (N.mod_lt a 4 ltac:(lia)).
    pose proof (N.div_mod b 16 ltac:(lia)). pose proof (N.mod_lt b 16 ltac:(lia)).
    apply Forall_cons in Hb as [Ha Hb]. rewrite Forall_singleton in Hb. simpl in Ha, Hb.
    assert (b / 16 < 16)%N by (apply N.Div0.div_lt_upper_bound; lia).
    assert ((a mod 4 * 16 + b / 16) / 16 = a mod 4)%N as ->.
    { symmetry. apply (N.div_unique _ _ _ (b / 16)); lia. }
    assert ((a mod 4 * 16 + b / 16) mod 16 = b / 16)%N as ->.
    { symmetry. apply (N.mod_unique _ _ (a mod 4)); lia. }
    assert ((b mod 16 * 4) / 4 = b mod 16)%N as -> by (by rewrite N.div_mul).
    f_equal; [lia|]. f_equal. lia.
  - apply Forall_cons in Hb as [Ha Hb]. apply Forall_cons in Hb as [Hb Hc].
    apply Forall_cons in Hc as [Hc Hrest]. simpl in Ha, Hb, Hc. simpl. rewrite IH by done.
    pose proof (N.div_mod a 4 ltac:(lia)). pose proof (N.mod_lt a 4 ltac:(lia)).
    pose proof (N.div_mod b 16 ltac:(lia)). pose proof (N.mod_lt b 16 ltac:(lia)).
    pose proof (N.div_mod c 64 ltac:(lia)). pose proof (N.mod_lt c 64 ltac:(lia)).
    assert (b / 16 < 16)%N by (apply N.Div0.div_lt_upper_bound; lia).
    assert (c / 64 < 4)%N by (apply N.Div0.div_lt_upper_bound; lia).
    assert ((a mod 4 * 16 + b / 16) / 16 = a mod 4)%N as ->.
    { symmetry. apply (N.div_unique _ _ _ (b / 16)); lia. }
    assert ((a mod 4 * 16 + b / 16) mod 16 = b / 16)%N as ->.
    { symmetry. apply (N.mod_unique _ _ (a mod 4)); lia. }
    assert ((b mod 16 * 4 + c / 64) / 4 = b mod 16)%N as ->.
    { symmetry. apply (N.div_unique _ _ _ (c / 64)); lia. }
    assert ((b mod 16 * 4 + c / 64) mod 4 = c / 64)%N as ->.
    { symmetry. apply (N.mod_unique _ _ (b mod 16)); lia. }
    f_equal; [lia|]. f_equal; [lia|]. f_equal. lia.
Qed.

Lemma sextets_length bytes :
  (length (sextets bytes) mod 4 ≠ 1)%nat ∧
  ((length (sextets bytes) + length (padding bytes)) mod 4 = 0)%nat.
Proof.
  induction bytes as [|a|a b|a b c rest [IH1 IH2]] using list_ind3; try done.
  rewrite padding_cons3.
  change (length (sextets (a :: b :: c :: rest)))
    with (S (S (S (S (length (sextets rest)))))).
  set (n := length (sextets rest)) in *. set (p := length (padding rest)) in *.
  replace (S (S (S (S n)))) with (n + 1 * 4)%nat by lia.
  replace (n + 1 * 4 + p)%nat with (n + p + 1 * 4)%nat by lia.
  by rewrite !Nat.Div0.mod_add.
Qed.

Lemma stripPadding_chars (chars pad : list N) :
  Forall (λ b, b ≠ 61%N) chars →
  pad = [] ∨ pad = [61%N] ∨ pad = [61%N; 61%N] →
  (length (chars ++ pad) mod 4 = 0)%nat →
  Share.stripPadding (chars ++ pad) = chars.
Proof.
  intros Hchars Hpad Hlen. unfold Share.stripPadding.
  rewrite decide_True by done. rewrite reverse_app.
  assert (match reverse chars with
          | x :: _ => x ≠ 61%N
          | [] => True
          end) as Hlast.
  { destruct (reverse chars) as [|x r] eqn:Hr; [done|].
    rewrite Forall_forall in Hchars. apply Hchars.
    apply elem_of_reverse. rewrite Hr. by left. }
  destruct Hpad as [Hp|[Hp|Hp]]; subst pad; simpl.
  - rewrite app_nil_r. destruct (reverse chars) as [|x r] eqn:Hr; [done|].
    repeat case_match; simplify_eq; done.
  - destruct (reverse chars) as [|x r] eqn:Hr.
    + apply (f_equal reverse) in Hr. rewrite reverse_involutive in Hr. by subst.
    + rewrite <- Hr, reverse_involutive.
      assert (reverse (x :: r) = chars) as Hc by by rewrite <- Hr, reverse_involutive.
      repeat case_match; simplify_eq; try done.
  - by rewrite reverse_involutive.
Qed.

Lemma mapM_sextetValue vs :
  Forall (λ v, v < 64)%N vs →
  mapM Share.sextetValue ((λ v, Share.byteOf (Share.sextet v)) <$> vs) = Some vs.
Proof.
  induction 1 as [|v vs Hv _ IH]; [done|].
  rewrite fmap_cons. simpl.
  destruct (sextet_spec v Hv) as (-> & _). simpl. by rewrite IH.
Qed.

Lemma atob_base64Encode bytes :
  Forall (λ b, b < 256)%N bytes →
  Share.atob (Share.base64Encode bytes) =
  Some (Share.stringOf (Share.latin1Text bytes)).
Proof.
  intros Hb. unfold Share.atob. rewrite base64Encode_sextets.
  pose proof (sextets_range bytes Hb) as Hrange.
  destruct (sextets_length bytes) as [Hmod1 Hmod0].
  set (chars := (λ v, Share.byteOf (Share.sextet v)) <$> sextets bytes) in *.
  assert (Forall (λ b, Share.isAsciiWhitespace b = false ∧ b ≠ 61%N) chars) as Hchars.
  { unfold chars. rewrite Forall_fmap. eapply Forall_impl; [exact Hrange|].
    simpl. intros v Hv. destruct (sextet_spec v Hv) as (_ & ? & ? & _). done. }
  assert (padding bytes = [] ∨ padding bytes = [61%N] ∨ padding bytes = [61%N; 61%N])
    as Hpad.
  { unfold padding. repeat case_match; auto. }
  assert (filter (λ b, Share.isAsciiWhitespace b = false) (chars ++ padding bytes)
          = chars ++ padding bytes) as ->.
  { rewrite filter_app. f_equal.
    - clear -Hchars. induction Hchars as [|x l [Hx _] _ IH]; [done|].
      by rewrite filter_cons_True, IH.
    - destruct Hpad as [Hp|[Hp|Hp]]; rewrite Hp; done. }
  rewrite stripPadding_chars; [|by eapply Forall_impl; [exact Hchars|]; intros ? []|done|].
  2:{ rewrite length_app. unfold chars. by rewrite length_fmap. }
  rewrite decide_False.
  2:{ unfold chars. by rewrite length_fmap. }
  unfold chars. rewrite mapM_sextetValue by done. simpl.
  by rewrite base64DecodeGroups_sextets.
Qed.

(** ** Texts as bytes *)

Lemma append_cons x (a b : string) : String x a +:+ b = String x (a +:+ b).
Proof. reflexivity. Qed.

Lemma append_assoc (a b c : string) : (a +:+ b) +:+ c = a +:+ (b +:+ c).
Proof. induction a as [|x a IH]; [done|]. by rewrite !append_cons, IH. Qed.

Lemma bytesOf_app a b : Share.bytesOf (a +:+ b) = Share.bytesOf a ++ Share.bytesOf b.
Proof. induction a as [|x a IH]; [done|]. rewrite append_cons. simpl. by rewrite IH. Qed.

Lemma stringOf_bytesOf s : Share.stringOf (Share.bytesOf s) = s.
Proof.
  induction s as [|c s IH]; simpl; [done|].
  unfold Share.charOf, Share.byteOf. by rewrite ascii_N_embedding, IH.
Qed.

Lemma bytesOf_range s : Forall (λ b, b < 256)%N (Share.bytesOf s).
Proof.
  induction s as [|c s IH]; simpl; constructor; [|done]. apply N_ascii_bounded.
Qed.

Lemma hasChar_bytesOf c s : hasChar c s ↔ Share.byteOf c ∈ Share.bytesOf s.
Proof.
  unfold hasChar. induction s as [|x s IH]; simpl.
  - by rewrite !elem_of_nil.
  - rewrite !elem_of_cons, IH. split; (intros [Heq|?]; [left|by right]).
    + by subst.
    + unfold Share.byteOf in Heq.
      by rewrite <- (ascii_N_embedding c), Heq, ascii_N_embedding.
Qed.

Lemma hasChar_app c a b : hasChar c (a +:+ b) ↔ hasChar c a ∨ hasChar c b.
Proof. by rewrite !hasChar_bytesOf, bytesOf_app, elem_of_app. Qed.

Lemma latin1_ascii bytes :
  Forall (λ b, b < 128)%N bytes →
  Share.latin1Bytes bytes = Some bytes ∧ Share.latin1Text bytes = bytes.
Proof.
  induction 1 as [|b bytes Hb _ [IH1 IH2]]; [done|]. simpl.
  rewrite !decide_True by done. by rewrite IH1, IH2.
Qed.

(** ** The characters of the link *)

Lemma byte_table (P : N → Prop) `{∀ b, Decision (P b)} :
  Forall P (N.of_nat <$> seq 0 256) → ∀ b, (b < 256)%N → P b.
Proof.
  intros Hall b Hb. rewrite Forall_forall in Hall. apply Hall.
  apply list_elem_of_fmap. exists (N.to_nat b).
  split; [by rewrite N2Nat.id|]. apply elem_of_seq. lia.
Qed.

Lemma isUnreserved_plain b :
  (b < 256)%N → Share.isUnreserved b = true → (b < 128)%N ∧ b ≠ 62%N.
Proof.
  revert b. apply (byte_table (λ b, Share.isUnreserved b = true → (b < 128)%N ∧ b ≠ 62%N)).
  apply (bool_decide_unpack _). by vm_compute.
Qed.

Lemma percentEncodeByte_plain b :
  (b < 256)%N → Forall plainByte (Share.bytesOf (Share.percentEncodeByte b)).
Proof.
  revert b.
  apply (byte_table (λ b, Forall plainByte (Share.bytesOf (Share.percentEncodeByte b)))).
  apply (bool_decide_unpack _). by vm_compute.
Qed.

Lemma encodeURIComponent_plain s :
  ¬ hasChar "~"%char s → Forall plainByte (Share.bytesOf (Share.encodeURIComponent s)).
Proof.
  induction s as [|c s IH]; intros Hno; simpl; [constructor|].
  rewrite bytesOf_app. apply Forall_app. split.
  - destruct (Share.isUnreserved (Share.byteOf c)) eqn:Hun.
    + simpl. apply Forall_singleton.
      destruct (isUnreserved_plain _ (N_ascii_bounded c) Hun) as [? ?].
      split_and!; [done|done|]. intros Hc. apply Hno.
      apply hasChar_cons. left. unfold Share.byteOf in Hc.
      by rewrite <- (ascii_N_embedding c), Hc.
    + apply percentEncodeByte_plain, N_ascii_bounded.
  - apply IH. intros H. apply Hno. apply hasChar_cons. by right.
Qed.

Lemma quoteJSONChar_tilde c :
  hasChar "~"%char (Share.quoteJSONChar c) → c = "~"%char.
Proof.
  rewrite hasChar_bytesOf.
  assert (∀ b, (b < 256)%N →
            Share.byteOf "~"%char ∈ Share.bytesOf (Share.quoteJSONChar (ascii_of_N b)) →
            b = 126%N) as H.
  { apply (byte_table (λ b, Share.byteOf "~"%char
                              ∈ Share.bytesOf (Share.quoteJSONChar (ascii_of_N b)) →
                            b = 126%N)).
    apply (bool_decide_unpack _). by vm_compute. }
  intros Hin. specialize (H (N_of_ascii c) (N_ascii_bounded c)).
  rewrite ascii_N_embedding in H. specialize (H Hin).
  by rewrite <- (ascii_N_embedding c), H.
Qed.

Lemma quote_tilde : ¬ hasChar "~"%char Share.quote.
Proof.
  unfold Share.quote. rewrite hasChar_cons. intros [H|H]; [by vm_compute in H|].
  by apply hasChar_empty in H.
Qed.

Lemma quoteJSONString_tilde s :
  hasChar "~"%char (Share.quoteJSONString s) → hasChar "~"%char s.
Proof.
  unfold Share.quoteJSONString. rewrite !hasChar_app.
  intros [H|[H|H]]; [by apply quote_tilde in H| |by apply quote_tilde in H].
  induction s as [|c s IH]; simpl in *; [done|].
  apply hasChar_app in H as [H|H].
  - apply quoteJSONChar_tilde in H as ->. apply hasChar_cons. by left.
  - apply hasChar_cons. right. by apply IH.
Qed.

Lemma literal_tilde (lit : string) :
  bool_decide (Share.byteOf "~"%char ∉ Share.bytesOf lit) = true → ¬ hasChar "~"%char lit.
Proof. intros H%bool_decide_eq_true. by rewrite hasChar_bytesOf. Qed.

Lemma joinWith_tilde items :
  hasChar "~"%char (Share.joinWith "," items) → ∃ item, item ∈ items ∧ hasChar "~"%char item.
Proof.
  induction items as [|x items IH]; simpl.
  - intros H. by apply hasChar_empty in H.
  - destruct items as [|y items].
    + intros H. exists x. split; [by left|done].
    + rewrite !hasChar_app. intros [H|[H|H]].
      * exists x. split; [by left|done].
      * by apply (literal_tilde ",") in H.
      * destruct (IH H) as (item & Hin & Hitem). exists item. split; [by right|done].
Qed.

Lemma stringifyArray_tilde items :
  hasChar "~"%char (Share.stringifyArray items) →
  ∃ item, item ∈ items ∧ hasChar "~"%char item.
Proof.
  unfold Share.stringifyArray. rewrite !hasChar_app. intros [H|[H|H]].
  - by apply (literal_tilde "[") in H.
  - apply joinWith_tilde in H as (quoted & Hin & Hq).
    apply list_elem_of_fmap in Hin as (item & -> & Hin).
    exists item. split; [done|]. by apply quoteJSONString_tilde.
  - by apply (literal_tilde "]") in H.
Qed.

Lemma JSON_stringify_tilde p r :
  hasChar "~"%char (Share.JSON_stringify p r) →
  ∃ name, name ∈ p ++ r ∧ hasChar "~"%char name.
Proof.
  unfold Share.JSON_stringify. rewrite !hasChar_app.
  intros [H|[H|[H|[H|[H|[H|[H|[H|[H|[H|[H|[H|H]]]]]]]]]]]];
    try (by apply quote_tilde in H);
    try (by exfalso; revert H; apply literal_tilde).
  - apply stringifyArray_tilde in H as (name & Hin & Hname).
    exists name. split; [|done]. apply elem_of_app. by left.
  - apply stringifyArray_tilde in H as (name & Hin & Hname).
    exists name. split; [|done]. apply elem_of_app. by right.
Qed.

Lemma sextets_plain bytes :
  Forall plainByte bytes → Forall (λ v, v < 64 ∧ v ≠ 62)%N (sextets bytes).
Proof.
  unfold plainByte.
  induction bytes as [|a|a b|a b c rest IH] using list_ind3; intros Hb; simpl.
  - constructor.
  - rewrite Forall_singleton in Hb. simpl in Hb.
    pose proof (N.mod_lt a 4 ltac:(lia)).
    assert (a / 4 < 32)%N by (apply N.Div0.div_lt_upper_bound; lia).
    repeat constructor; lia.
  - apply Forall_cons in Hb as [Ha Hb]. rewrite Forall_singleton in Hb. simpl in Ha, Hb.
    pose proof (N.mod_lt a 4 ltac:(lia)). pose proof (N.mod_lt b 16 ltac:(lia)).
    assert (a / 4 < 32)%N by (apply N.Div0.div_lt_upper_bound; lia).
    assert (b / 16 < 8)%N by (apply N.Div0.div_lt_upper_bound; lia).
    repeat constructor; lia.
  - apply Forall_cons in Hb as [Ha Hb]. apply Forall_cons in Hb as [Hb Hc].
    apply Forall_cons in Hc as [Hc Hrest]. simpl in Ha, Hb, Hc.
    pose proof (N.mod_lt a 4 ltac:(lia)). pose proof (N.mod_lt b 16 ltac:(lia)).
    pose proof (N.mod_lt c 64 ltac:(lia)). pose proof (N.div_mod c 64 ltac:(lia)).
    assert (a / 4 < 32)%N by (apply N.Div0.div_lt_upper_bound; lia).
    assert (b / 16 < 8)%N by (apply N.Div0.div_lt_upper_bound; lia).
    assert (c / 64 < 2)%N by (apply N.Div0.div_lt_upper_bound; lia).
    repeat (constructor; [lia|]). by apply IH.
Qed.

(** The characters of the base64 text of plain bytes: neither [+] nor any
    of the characters [%], [&], [#] and [?] that a query treats
    specially. *)
Lemma sextetValue_visible b v : Share.sextetValue b = Some v → (32 < b)%N.
Proof. unfold Share.sextetValue. repeat case_decide; intros ?; simplify_eq; lia. Qed.

Lemma base64Encode_plain bytes :
  Forall plainByte bytes →
  Forall (λ b, 32 < b ∧ b ≠ 43 ∧ b ≠ 37 ∧ b ≠ 38 ∧ b ≠ 35 ∧ b ≠ 63)%N
         (Share.bytesOf (Share.base64Encode bytes)).
Proof.
  intros Hb. rewrite base64Encode_sextets. apply Forall_app. split.
  - rewrite Forall_fmap. eapply Forall_impl; [by apply sextets_plain|].
    simpl. intros v [Hv Hne].
    destruct (sextet_spec v Hv) as (Hval & _ & _ & Hplus & ? & ? & ? & ?).
    split_and!; try done; [by eapply sextetValue_visible|].
    intros H43. by apply Hplus in H43.
  - unfold padding. repeat case_match; repeat constructor; done.
Qed.

(** ** The query of the link *)

Lemma dropLeadingControls_app base tail :
  (∀ c rest, tail = String c rest → Share.isC0ControlOrSpace c = false) →
  Share.dropLeadingControls (base +:+ tail) = Share.dropLeadingControls base +:+ tail.
Proof.
  intros Htail. induction base as [|c base IH].
  - destruct tail as [|c rest]; [done|]. simpl. by rewrite (Htail c rest).
  - rewrite append_cons. simpl. destruct (Share.isC0ControlOrSpace c); [done|].
    by rewrite append_cons.
Qed.

Lemma dropTrailingControls_clean tail :
  Forall (λ b, 32 < b)%N (Share.bytesOf tail) → Share.dropTrailingControls tail = tail.
Proof.
  induction tail as [|c tail IH]; [done|]. simpl. intros [Hc Htail]%Forall_cons.
  rewrite IH by done. destruct tail; [|done].
  unfold Share.isC0ControlOrSpace. by rewrite bool_decide_false by lia.
Qed.

Lemma dropTrailingControls_app base tail :
  tail ≠ "" → Forall (λ b, 32 < b)%N (Share.bytesOf tail) →
  Share.dropTrailingControls (base +:+ tail) = base +:+ tail.
Proof.
  intros Hne Htail. induction base as [|c base IH].
  - by apply dropTrailingControls_clean.
  - rewrite append_cons. simpl. rewrite IH.
    destruct (base +:+ tail) eqn:Happ; [|done].
    destruct base; [by simpl in Happ|by rewrite append_cons in Happ].
Qed.

Lemma removeTabsAndNewlines_app a b :
  Share.removeTabsAndNewlines (a +:+ b) =
  Share.removeTabsAndNewlines a +:+ Share.removeTabsAndNewlines b.
Proof.
  induction a as [|c a IH]; [done|]. rewrite append_cons. simpl.
  destruct (Share.isTabOrNewline c); [done|]. by rewrite append_cons, IH.
Qed.

Lemma removeTabsAndNewlines_clean tail :
  Forall (λ b, 32 < b)%N (Share.bytesOf tail) → Share.removeTabsAndNewlines tail = tail.
Proof.
  induction tail as [|c tail IH]; [done|]. simpl. intros [Hc Htail]%Forall_cons.
  rewrite IH by done. unfold Share.isTabOrNewline.
  rewrite bool_decide_false; [done|]. rewrite !elem_of_cons, elem_of_nil. lia.
Qed.

Lemma dropLeadingControls_chars c s :
  hasChar c (Share.dropLeadingControls s) → hasChar c s.
Proof.
  induction s as [|x s IH]; [done|]. simpl.
  destruct (Share.isC0ControlOrSpace x); [|done].
  intros H. apply hasChar_cons. right. by apply IH.
Qed.

Lemma dropTrailingControls_chars c s :
  hasChar c (Share.dropTrailingControls s) → hasChar c s.
Proof.
  induction s as [|x s IH]; [done|]. simpl.
  destruct (Share.dropTrailingControls s) as [|y kept].
  - destruct (Share.isC0ControlOrSpace x).
    + intros H. by apply hasChar_empty in H.
    + rewrite !hasChar_cons. intros [->|H]; [by left|by apply hasChar_empty in H].
  - rewrite (hasChar_cons c x s), (hasChar_cons c x). intros [->|H]; [by left|right; by apply IH].
Qed.

Lemma removeTabsAndNewlines_chars c s :
  hasChar c (Share.removeTabsAndNewlines s) → hasChar c s.
Proof.
  induction s as [|x s IH]; [done|]. simpl.
  destruct (Share.isTabOrNewline x).
  - intros H. apply hasChar_cons. right. by apply IH.
  - rewrite !hasChar_cons. intros [->|H]; [by left|right; by apply IH].
Qed.

Lemma urlInput_chars c s : hasChar c (Share.urlInput s) → hasChar c s.
Proof.
  intros H. by apply dropLeadingControls_chars, dropTrailingControls_chars,
    removeTabsAndNewlines_chars.
Qed.

(** The parser reads a link whose query is visible text as it is written,
    apart from what it drops before the query. *)
Lemma urlInput_link base tail :
  tail ≠ "" → Forall (λ b, 32 < b)%N (Share.bytesOf tail) →
  ∃ base', Share.urlInput (base +:+ tail) = base' +:+ tail ∧
           ∀ c, hasChar c base' → hasChar c base.
Proof.
  intros Hne Htail.
  exists (Share.removeTabsAndNewlines (Share.dropLeadingControls base)). split.
  - unfold Share.urlInput. rewrite dropLeadingControls_app.
    + rewrite dropTrailingControls_app by done.
      by rewrite removeTabsAndNewlines_app, (removeTabsAndNewlines_clean tail).
    + intros c rest ->. simpl in Htail. apply Forall_cons in Htail as [Hc _].
      unfold Share.isC0ControlOrSpace. by rewrite bool_decide_false by lia.
  - intros c H. by apply dropLeadingControls_chars, removeTabsAndNewlines_chars.
Qed.


Lemma splitAtFirst_absent sep s :
  ¬ hasChar sep s → Share.splitAtFirst sep s = (s, None).
Proof.
  induction s as [|c s IH]; intros Hno; simpl; [done|].
  rewrite hasChar_cons in Hno.
  rewrite decide_False by (intros ->; tauto). rewrite IH by tauto. done.
Qed.

Lemma splitAtFirst_first sep a b :
  ¬ hasChar sep a → Share.splitAtFirst sep (a +:+ String sep b) = (a, Some b).
Proof.
  induction a as [|c a IH]; intros Hno.
  - simpl. by rewrite decide_True.
  - rewrite append_cons. simpl. rewrite hasChar_cons in Hno.
    rewrite decide_False by (intros ->; tauto). rewrite IH by tauto. done.
Qed.

Lemma splitOn_absent sep s : ¬ hasChar sep s → Share.splitOn sep s = [s].
Proof.
  induction s as [|c s IH]; intros Hno; simpl; [done|].
  rewrite hasChar_cons in Hno.
  rewrite decide_False by (intros ->; tauto). rewrite IH by tauto. done.
Qed.

Lemma formDecode_plain s :
  ¬ hasChar "+"%char s → ¬ hasChar "%"%char s → Share.formDecode s = s.
Proof.
  induction s as [|c s IH]; intros Hplus Hpercent; simpl; [done|].
  rewrite hasChar_cons in Hplus, Hpercent.
  rewrite decide_False by (intros ->; tauto).
  rewrite decide_False by (intros ->; tauto).
  rewrite IH by tauto. done.
Qed.

Lemma not_hasChar_bytes c s (P : N → Prop) :
  Forall P (Share.bytesOf s) → ¬ P (Share.byteOf c) → ¬ hasChar c s.
Proof.
  intros Hall Hc Hin%hasChar_bytesOf. rewrite Forall_forall in Hall. by apply Hc, Hall.
Qed.

Lemma searchParams_get_data base encoded :
  ¬ hasChar "?"%char base → ¬ hasChar "#"%char base →
  Forall (λ b, 32 < b ∧ b ≠ 43 ∧ b ≠ 37 ∧ b ≠ 38 ∧ b ≠ 35 ∧ b ≠ 63)%N
         (Share.bytesOf encoded) →
  Share.searchParams_get (base +:+ "?data=" +:+ encoded) "data" = Some encoded.
Proof.
  intros Hq Hf Henc.
  assert (¬ hasChar "+"%char encoded) as Hplus.
  { eapply not_hasChar_bytes; [exact Henc|]. vm_compute. tauto. }
  assert (¬ hasChar "%"%char encoded) as Hpercent.
  { eapply not_hasChar_bytes; [exact Henc|]. vm_compute. tauto. }
  assert (¬ hasChar "&"%char encoded) as Hamp.
  { eapply not_hasChar_bytes; [exact Henc|]. vm_compute. tauto. }
  assert (¬ hasChar "#"%char encoded) as Hhash.
  { eapply not_hasChar_bytes; [exact Henc|]. vm_compute. tauto. }
  assert (∀ c lit, bool_decide (Share.byteOf c ∉ Share.bytesOf lit) = true →
                   ¬ hasChar c encoded → ¬ hasChar c (lit +:+ encoded)) as Hlit.
  { intros c lit Hc%bool_decide_eq_true Hno [H%hasChar_bytesOf|H]%hasChar_app; done. }
  assert (¬ hasChar "#"%char (base +:+ "?data=" +:+ encoded)) as H1.
  { rewrite hasChar_app. intros [H|H]; [done|]. revert H. by apply Hlit. }
  assert (¬ hasChar "&"%char ("data=" +:+ encoded)) as H2 by by apply Hlit.
  assert (¬ hasChar "="%char "data") as H3.
  { rewrite hasChar_bytesOf. apply (bool_decide_unpack _). by vm_compute. }
  unfold Share.searchParams_get, Share.queryOf.
  rewrite (splitAtFirst_absent _ _ H1).
  change ("?data=" +:+ encoded) with (String "?"%char ("data=" +:+ encoded)).
  rewrite (splitAtFirst_first _ _ _ Hq).
  change (default "" (base, Some ("data=" +:+ encoded)).2) with ("data=" +:+ encoded).
  rewrite (splitOn_absent _ _ H2).
  rewrite filter_cons_True.
  2:{ change ("data=" +:+ encoded) with (String "d"%char ("ata=" +:+ encoded)). done. }
  rewrite filter_nil, list_fmap_singleton. unfold Share.formPair.
  change ("data=" +:+ encoded) with ("data" +:+ String "="%char encoded).
  rewrite (splitAtFirst_first _ _ _ H3).
  change (default "" (Some encoded)) with encoded.
  rewrite (formDecode_plain encoded) by done.
  change (Share.formDecode "data") with "data".
  rewrite filter_cons_True by done. done.
Qed.

Lemma encodeURIComponent_ascii s :
  Forall (λ b, b < 128)%N (Share.bytesOf (Share.encodeURIComponent s)).
Proof.
  induction s as [|c s IH]; simpl; [constructor|].
  rewrite bytesOf_app. apply Forall_app. split; [|done].
  destruct (Share.isUnreserved (Share.byteOf c)) eqn:Hun.
  - apply Forall_singleton.
    by destruct (isUnreserved_plain _ (N_ascii_bounded c) Hun).
  - eapply Forall_impl; [apply percentEncodeByte_plain, N_ascii_bounded|].
    by intros b (? & _).
Qed.

Lemma btoa_encodeURIComponent s :
  Share.btoa (Share.encodeURIComponent s) =
  Some (Share.base64Encode (Share.bytesOf (Share.encodeURIComponent s))).
Proof.
  unfold Share.btoa.
  destruct (latin1_ascii _ (encodeURIComponent_ascii s)) as [-> _]. done.
Qed.

Lemma encodeURIComponent_nonempty s :
  s ≠ "" → Share.bytesOf (Share.encodeURIComponent s) ≠ [].
Proof.
  destruct s as [|c s]; [done|]. intros _. simpl. rewrite bytesOf_app.
  by destruct (Share.isUnreserved (Share.byteOf c)).
Qed.

Lemma base64Encode_nonempty bytes : bytes ≠ [] → Share.base64Encode bytes ≠ "".
Proof. destruct bytes as [|a [|b [|c rest]]]; done. Qed.

Lemma generateShareableURL_Some origin pathname ld url :
  Share.generateShareableURL origin pathname ld = Some url →
  let encoded := Share.base64Encode (Share.bytesOf (Share.encodeURIComponent
                   (Share.JSON_stringify (participants ld) (results ld)))) in
  url = origin +:+ pathname +:+ "?data=" +:+ encoded ∧
  (String.length url ≤ 2000)%nat.
Proof.
  unfold Share.generateShareableURL. rewrite btoa_encodeURIComponent. simpl.
  case_decide; [done|]. intros [= <-]. split; [done|lia].
Qed.

(** X23. The round trip of the link, where it holds. When no participant
    and no result contains [~], the address of the page has neither [?] nor
    [#], and [decodeURIComponent] and [JSON.parse] invert
    [encodeURIComponent] and [JSON.stringify] on the data at hand, every
    link that [generateShareableURL] returns is parsed by
    [parseShareableURL] into the participants and results of the ladder if
    [new URL] accepts the link, and into [null] if [new URL] throws on
    it. *)
Theorem shareable_url_round_trip origin pathname
    (URL_canParse : string → bool)
    (decodeURIComponent : string → option string)
    (JSON_parse : string → option Share.JsValue) ld url :
  let data := Share.JSON_stringify (participants ld) (results ld) in
  let p := Share.JsArray (Share.JsString <$> participants ld) in
  let r := Share.JsArray (Share.JsString <$> results ld) in
  decodeURIComponent (Share.encodeURIComponent data) = Some data →
  JSON_parse data = Some (Share.JsObject [("p", p); ("r", r)]) →
  ¬ hasChar "?"%char (origin +:+ pathname) → ¬ hasChar "#"%char (origin +:+ pathname) →
  Forall (λ name, ¬ hasChar "~"%char name) (participants ld ++ results ld) →
  Share.generateShareableURL origin pathname ld = Some url →
  Share.parseShareableURL URL_canParse decodeURIComponent JSON_parse url =
    (if URL_canParse url
     then Some {| Share.parsedParticipants := p; Share.parsedResults := r |}
     else None).
Proof.
  intros data p r Hdecode Hparse Hq Hf Hnames Hgen.
  apply generateShareableURL_Some in Hgen as [-> _]. fold data.
  unfold Share.parseShareableURL, Share.newURL. destruct (URL_canParse _); [|done].
  set (text := Share.encodeURIComponent data).
  assert (Forall plainByte (Share.bytesOf text)) as Hplain.
  { apply encodeURIComponent_plain. intros (name & Hin & Hname)%JSON_stringify_tilde.
    rewrite Forall_forall in Hnames. by apply (Hnames name). }
  pose proof (base64Encode_plain _ Hplain) as Henc.
  rewrite <- append_assoc.
  destruct (urlInput_link (origin +:+ pathname)
              ("?data=" +:+ Share.base64Encode (Share.bytesOf text)))
    as (base & -> & Hbase).
  { done. }
  { rewrite bytesOf_app. apply Forall_app. split.
    - apply (bool_decide_unpack _). by vm_compute.
    - eapply Forall_impl; [exact Henc|]. by intros b (? & _). }
  cbn [mbind option_bind].
  rewrite searchParams_get_data;
    [|intros H; by apply Hq, Hbase|intros H; by apply Hf, Hbase|done].
  rewrite decide_False.
  2:{ apply base64Encode_nonempty, encodeURIComponent_nonempty. done. }
  rewrite atob_base64Encode by apply bytesOf_range.
  assert (Forall (λ b, b < 128)%N (Share.bytesOf text)) as Hascii.
  { eapply Forall_impl; [exact Hplain|]. by intros b (? & _). }
  destruct (latin1_ascii _ Hascii) as [_ ->]. rewrite stringOf_bytesOf. simpl.
  unfold text. rewrite Hdecode. simpl. rewrite Hparse. simpl. done.
Qed.

Lemma shareable_url_round_trip_witness :
  Share.parseShareableURL sampleURLCanParse sampleDecodeURIComponent sampleJSONParse
    ("https://homura-rtzr.github.io/ladder-draw/?data=" +:+
     "JTdCJTIycCUyMiUzQSU1QiUyMkElMjIlMkMlMjJCJTIyJTVEJTJDJTIyciUyMiUzQSU1QiUyMlglMjIl" +:+
     "MkMlMjJZJTIyJTVEJTdE") =
    Some {| Share.parsedParticipants :=
              Share.JsArray (Share.JsString <$> participants crossedLadder);
            Share.parsedResults :=
              Share.JsArray (Share.JsString <$> results crossedLadder) |}.
Proof.
  apply (shareable_url_round_trip pageOrigin pagePathname
           sampleURLCanParse sampleDecodeURIComponent sampleJSONParse crossedLadder).
  - vm_compute. reflexivity.
  - vm_compute. reflexivity.
  - rewrite hasChar_bytesOf. apply (bool_decide_unpack _). vm_compute. reflexivity.
  - rewrite hasChar_bytesOf. apply (bool_decide_unpack _). vm_compute. reflexivity.
  - repeat constructor; rewrite hasChar_bytesOf; apply (bool_decide_unpack _);
      vm_compute; reflexivity.
  - vm_compute. reflexivity.
Defined.

(** X24. [generateShareableURL] returns [null] exactly when the link would
    be longer than 2000 characters: [btoa] never throws on the text that
    [encodeURIComponent] produces. The data of the link is base64 text, a
    multiple of four characters long, which [atob] decodes back to the
    percent-encoded JSON text of the participants and results. *)
Theorem generateShareableURL_shape origin pathname ld :
  let encoded := Share.base64Encode (Share.bytesOf (Share.encodeURIComponent
                   (Share.JSON_stringify (participants ld) (results ld)))) in
  let url := origin +:+ pathname +:+ "?data=" +:+ encoded in
  Share.generateShareableURL origin pathname ld =
    (if decide (2000 < String.length url)%nat then None else Some url) ∧
  (length (Share.bytesOf encoded) mod 4 = 0)%nat ∧
  Forall (λ b, is_Some (Share.sextetValue b) ∨ b = 61%N) (Share.bytesOf encoded) ∧
  Share.atob encoded =
    Some (Share.encodeURIComponent (Share.JSON_stringify (participants ld) (results ld))).
Proof.
  intros encoded url. split_and!.
  - unfold Share.generateShareableURL. by rewrite btoa_encodeURIComponent.
  - unfold encoded. rewrite base64Encode_sextets, length_app, length_fmap.
    apply sextets_length.
  - unfold encoded. rewrite base64Encode_sextets. apply Forall_app. split.
    + rewrite Forall_fmap. eapply Forall_impl; [apply sextets_range, bytesOf_range|].
      simpl. intros v Hv. left. destruct (sextet_spec v Hv) as (-> & _). by eexists.
    + unfold padding. repeat case_match; repeat constructor; by right.
  - unfold encoded. rewrite atob_base64Encode by apply bytesOf_range.
    destruct (latin1_ascii _ (encodeURIComponent_ascii
                (Share.JSON_stringify (participants ld) (results ld)))) as [_ ->].
    by rewrite stringOf_bytesOf.
Qed.

(** ** The decorative rungs *)

Lemma fillWithDecorativePairs_pairs lines0 numRows numColumns s :
  ∃ pairs : list (Z * Z),
    (fillWithDecorativePairs lines0 numRows numColumns s).1 =
      lines0 ++ (pairs ≫= λ p, cancelingPair p.1 p.2) ∧
    Forall (λ p, 0 ≤ p.1 < numColumns - 1 ∧ 1 ≤ p.2 ∧ p.2 + 1 < numRows ∧
                 ∀ line, line ∈ lines0 → row line = p.2 ∨ row line = p.2 + 1 →
                         ¬ (p.1 ∈ touched line ∨ p.1 + 1 ∈ touched line)) pairs.
Proof.
  apply (fillWithDecorativePairs_ind
    (λ result, ∃ pairs : list (Z * Z),
       result = lines0 ++ (pairs ≫= λ p, cancelingPair p.1 p.2) ∧
       Forall (λ p, 0 ≤ p.1 < numColumns - 1 ∧ 1 ≤ p.2 ∧ p.2 + 1 < numRows ∧
                    ∀ line, line ∈ lines0 → row line = p.2 ∨ row line = p.2 + 1 →
                            ¬ (p.1 ∈ touched line ∨ p.1 + 1 ∈ touched line)) pairs)).
  - intros result r col (pairs & -> & Hpairs) Hr1 Hr2 Hcol Hfree.
    exists (pairs ++ [(col, r)]). split.
    + rewrite bind_app. simpl. by rewrite <- app_assoc.
    + apply Forall_app. split; [done|]. apply Forall_singleton. simpl.
      split_and!; [lia|lia|done|done|].
      intros line Hin. apply Hfree. apply elem_of_app. by left.
  - exists []. split; [by rewrite app_nil_r|constructor].
Qed.

(** X25. [fillWithDecorativePairs] keeps the given rungs, in their order,
    and appends canceling pairs only: each pair joins two existing columns
    in two consecutive rows between 1 and [numRows - 1], at a place where
    the given rungs leave both columns free in both rows. Row non-overlap
    is preserved, and with fewer than two columns or fewer than three rows
    nothing is added. *)
Theorem fillWithDecorativePairs_extends lines0 numRows numColumns s :
  let filled := (fillWithDecorativePairs lines0 numRows numColumns s).1 in
  (∃ pairs : list (Z * Z),
     filled = lines0 ++ (pairs ≫= λ p, cancelingPair p.1 p.2) ∧
     Forall (λ p, 0 ≤ p.1 < numColumns - 1 ∧ 1 ≤ p.2 ∧ p.2 + 1 < numRows ∧
                  ∀ line, line ∈ lines0 → row line = p.2 ∨ row line = p.2 + 1 →
                          ¬ (p.1 ∈ touched line ∨ p.1 + 1 ∈ touched line)) pairs) ∧
  (nonOverlapping lines0 → nonOverlapping filled) ∧
  (numColumns ≤ 1 ∨ numRows ≤ 2 → filled = lines0).
Proof.
  intros filled. split_and!.
  - apply fillWithDecorativePairs_pairs.
  - rewrite !nonOverlapping_pairwiseApart. apply fillWithDecorativePairs_apart.
  - intros Hsmall.
    destruct (fillWithDecorativePairs_pairs lines0 numRows numColumns s)
      as (pairs & Hfilled & Hpairs).
    fold filled in Hfilled. rewrite Hfilled.
    destruct pairs as [|p pairs]; [by rewrite app_nil_r|].
    apply Forall_cons in Hpairs as [(? & ? & ? & _) _]. lia.
Qed.

(** ** Links without data *)

Lemma splitAtFirst_chars sep s c :
  hasChar c (Share.splitAtFirst sep s).1 → hasChar c s.
Proof.
  induction s as [|x s IH]; simpl; [done|].
  case_decide as Hsep; simpl.
  - intros Hc. by apply hasChar_empty in Hc.
  - destruct (Share.splitAtFirst sep s) as [before after]. simpl in *.
    rewrite !hasChar_cons. intros [->|Hc]; [by left|right; by apply IH].
Qed.

(** X26. A link without a query has no [data] parameter, and
    [parseShareableURL] returns [null] for it, whether or not [new URL]
    accepts it and whatever [decodeURIComponent] and [JSON.parse] do. *)
Theorem parseShareableURL_no_data
    (URL_canParse : string → bool)
    (decodeURIComponent : string → option string)
    (JSON_parse : string → option Share.JsValue) url :
  ¬ hasChar "?"%char url →
  Share.searchParams_get url "data" = None ∧
  Share.parseShareableURL URL_canParse decodeURIComponent JSON_parse url = None.
Proof.
  intros Hno.
  assert (∀ text, ¬ hasChar "?"%char text → Share.searchParams_get text "data" = None)
    as Hget.
  { intros text Htext. unfold Share.searchParams_get, Share.queryOf.
    pose proof (splitAtFirst_chars "#"%char text "?"%char) as Hchars.
    destruct (Share.splitAtFirst "#"%char text) as [beforeFragment fragment]. simpl in *.
    rewrite splitAtFirst_absent by (intros H; by apply Htext, Hchars). done. }
  split; [by apply Hget|]. unfold Share.parseShareableURL, Share.newURL.
  destruct (URL_canParse _); [|done]. cbn [mbind option_bind].
  rewrite Hget; [done|]. intros H. by apply Hno, urlInput_chars.
Qed.

Lemma parseShareableURL_no_data_witness :
  Share.searchParams_get (pageOrigin +:+ pagePathname) "data" = None ∧
  Share.parseShareableURL sampleURLCanParse sampleDecodeURIComponent sampleJSONParse
    (pageOrigin +:+ pagePathname) = None.
Proof.
  apply (parseShareableURL_no_data sampleURLCanParse sampleDecodeURIComponent
           sampleJSONParse (pageOrigin +:+ pagePathname)).
  rewrite hasChar_bytesOf. apply (bool_decide_unpack _). vm_compute. reflexivity.
Defined.

(** ** The file name *)

Lemma substring_prefix n s :
  String.length (String.substring 0 n s) = (n `min` String.length s)%nat ∧
  ∀ c, hasChar c (String.substring 0 n s) → hasChar c s.
Proof.
  revert s. induction n as [|n IH]; intros s.
  - destruct s; simpl; split; try done; intros c H; by apply hasChar_empty in H.
  - destruct s as [|x s]; simpl; [split; [done|]; intros c H; by apply hasChar_empty in H|].
    destruct (IH s) as [Hlen Hchars]. split; [by rewrite Hlen|].
    intros c. rewrite !hasChar_cons. intros [->|H]; [by left|right; by apply Hchars].
Qed.

Lemma replaceColonsAndDots_spec text :
  String.length (Share.replaceColonsAndDots text) = String.length text ∧
  ¬ hasChar ":"%char (Share.replaceColonsAndDots text) ∧
  ¬ hasChar "."%char (Share.replaceColonsAndDots text).
Proof.
  induction text as [|c text (IHl & IHc & IHd)]; simpl.
  - split_and!; [done|apply hasChar_empty|apply hasChar_empty].
  - rewrite IHl, !hasChar_cons. split_and!; [done| |].
    + intros [H|H]; [|done]. case_decide as Hc; [done|]. apply Hc. by left.
    + intros [H|H]; [|done]. case_decide as Hc; [done|]. apply Hc. by right.
Qed.

(** X27. Whatever text [toISOString] returns, the file name is
    [ladder-result-], a stamp of at most 19 characters and [.png]; the
    stamp contains neither [:] nor [.], and the name is at most 37
    characters long. *)
Theorem generateFilename_safe iso :
  ∃ stamp,
    Share.generateFilename iso = "ladder-result-" +:+ stamp +:+ ".png" ∧
    String.length stamp = (19 `min` String.length iso)%nat ∧
    ¬ hasChar ":"%char stamp ∧ ¬ hasChar "."%char stamp ∧
    (String.length (Share.generateFilename iso) ≤ 37)%nat.
Proof.
  exists (String.substring 0 19 (Share.replaceColonsAndDots iso)).
  destruct (substring_prefix 19 (Share.replaceColonsAndDots iso)) as [Hlen Hchars].
  destruct (replaceColonsAndDots_spec iso) as (Hl & Hc & Hd).
  rewrite Hl in Hlen. split_and!; [done|done| | |].
  - intros H. by apply Hc, Hchars.
  - intros H. by apply Hd, Hchars.
  - unfold Share.generateFilename.
    assert (∀ a b, String.length (a +:+ b) = (String.length a + String.length b)%nat) as Happ.
    { intros a b. induction a as [|x a IH]; [done|]. rewrite append_cons. simpl. by rewrite IH. }
    rewrite !Happ, Hlen.
    change (String.length "ladder-result-") with 14%nat.
    change (String.length ".png") with 4%nat. lia.
Qed.

(** ** The draws behind the mapping *)

Lemma readsForward_ret {A} (a : A) : readsForward (ret a).
Proof. intros s. simpl. split_and!; [lia|done|]. intros s' [Hc _]. done. Qed.

Lemma readsForward_Math_random : readsForward Math_random.
Proof.
  intros s. simpl. split_and!; [lia|done|].
  intros s' [Hc Hd]. rewrite Hc. split; [|done]. apply Hd. lia.
Qed.

Lemma readsForward_bind {A B} (m : Rand A) (k : A → Rand B) :
  readsForward m → (∀ a, readsForward (k a)) → readsForward (bind m k).
Proof.
  intros Hm Hk s. unfold bind.
  destruct (Hm s) as (Hle1 & Hd1 & Hag1).
  destruct (m s) as [a s1] eqn:Hms. simpl in *.
  destruct (Hk a s1) as (Hle2 & Hd2 & Hag2).
  split_and!; [lia|congruence|].
  intros s' [Hc Hd].
  destruct (Hag1 s') as [Ha Hc1].
  { split; [done|]. intros t Ht. apply Hd. lia. }
  destruct (Hm s') as (_ & Hd1' & _).
  destruct (m s') as [a' s1'] eqn:Hms'. simpl in *. subst a'.
  apply Hag2. split; [done|].
  intros t Ht. rewrite Hd1', Hd1. by apply Hd.
Qed.

Lemma readsForward_forEachM {A S} (xs : list A) (body : A → S → Rand S) acc :
  (∀ x acc, readsForward (body x acc)) → readsForward (forEachM xs body acc).
Proof.
  intros Hbody. revert acc. induction xs as [|x xs IH]; intros acc.
  - apply readsForward_ret.
  - simpl. apply readsForward_bind; [apply Hbody|]. intros acc'. apply IH.
Qed.

Lemma readsForward_scanColumn r col st : readsForward (scanColumn r col st).
Proof.
  destruct st as [ls used]. unfold scanColumn.
  case_decide; [apply readsForward_ret|].
  apply readsForward_bind; [apply readsForward_Math_random|].
  intros x. destruct (Qlt_bool _ _); apply readsForward_ret.
Qed.

Lemma readsForward_generateRandomLines numColumns numRows :
  readsForward (generateRandomLines numColumns numRows).
Proof.
  unfold generateRandomLines. apply readsForward_forEachM.
  intros r ls. unfold scanRow. apply readsForward_bind.
  - apply readsForward_forEachM. intros col st. apply readsForward_scanColumn.
  - intros st. apply readsForward_ret.
Qed.

Lemma generate_mapping_stage participants0 results0 s :
  let n := Z.of_nat (length participants0) in
  let baseRows := Z.max 6 (Z.min 200 (3 * n)) in
  mapping (generate participants0 results0 s).1 =
    (generateRandomMapping n (generateRandomLines n baseRows s).2).1.
Proof.
  intros n baseRows. unfold generate. fold n. rewrite Math_round_rows.
  unfold MIN_ROWS, MAX_ROWS. fold baseRows. unfold bind, ret.
  destruct (generateRandomLines n baseRows s) as [natural s1]. cbn [snd].
  destruct (generateRandomMapping n s1) as [target s2].
  by destruct (fillWithDecorativePairs _ _ n s2) as [filled s3].
Qed.

Lemma drawnIndices_shift k d d' c t :
  (∀ u, d (c + u)%nat = d' u) →
  drawnIndices k {| draws := d; cursor := c + t |} =
  drawnIndices k {| draws := d'; cursor := t |}.
Proof.
  intros Hd. revert t. induction k as [|k IH]; intros t; [done|].
  cbn [drawnIndices]. unfold randomIndex, bind, ret, Math_random.
  cbn [fst snd draws cursor]. rewrite Hd. f_equal.
  replace (S (c + t)) with (c + S t)%nat by lia. apply IH.
Qed.

Lemma spliceChoices_valid s c k js :
  Z.of_nat k < 2 ^ 32 → valid_source s → js ∈ choiceVectors k →
  valid_source (spliceChoices s c k js).
Proof.
  intros Hk Hs Hjs t. unfold spliceChoices. cbn [draws].
  case_decide; [apply Hs|]. apply (sourceOfChoices_valid k js Hk Hjs).
Qed.

Lemma spliceChoices_drawnIndices s c k js :
  Z.of_nat k < 2 ^ 32 → js ∈ choiceVectors k →
  drawnIndices k {| draws := draws (spliceChoices s c k js); cursor := c |} = js.
Proof.
  intros Hk Hjs.
  replace c with (c + 0)%nat at 2 by lia.
  rewrite (drawnIndices_shift k _ (draws (sourceOfChoices k js)) c 0).
  - rewrite (drawnIndices_sourceOfChoices k js k 0 Hk Hjs) by lia. done.
  - intros u. unfold spliceChoices. cbn [draws].
    rewrite decide_False by lia. f_equal. lia.
Qed.

(** X28. The mapping of [generate] is settled by the [N - 1] random numbers
    that follow those read for the natural rungs.  With [c] the position
    the source has reached after [generateRandomLines], every source of
    doubles in [0,1) that agrees with [s] before [c] gives the mapping
    that the Fisher-Yates loop produces from the indices computed, with
    the rounded product, from the draws at [c], [c + 1], ...; and
    whatever came before [c], for the lengths an array can have these
    indices can be any vector of the sample space of the shuffle. *)
Theorem generate_mapping_fresh_draws participants0 results0 s :
  let n := Z.of_nat (length participants0) in
  1 ≤ n → valid_source s →
  ∃ c, (cursor s ≤ c)%nat ∧
    (∀ s', valid_source s' → agreeBefore c s s' →
       let js := drawnIndices (Z.to_nat (n - 1)) {| draws := draws s'; cursor := c |} in
       js ∈ sampleSpace n ∧
       mapping (generate participants0 results0 s').1 = outcome n js) ∧
    (n < 2 ^ 32 → ∀ js, js ∈ sampleSpace n →
       ∃ s', valid_source s' ∧ agreeBefore c s s' ∧
             drawnIndices (Z.to_nat (n - 1)) {| draws := draws s'; cursor := c |} = js).
Proof.
  intros n Hn Hs.
  set (baseRows := Z.max 6 (Z.min 200 (3 * n))).
  destruct (readsForward_generateRandomLines n baseRows s) as (Hle & Hd & Hag).
  exists (cursor (generateRandomLines n baseRows s).2). split_and!; [done|..].
  - intros s' Hs' Hagree js.
    destruct (Hag s' Hagree) as [_ Hc].
    destruct (readsForward_generateRandomLines n baseRows s') as (_ & Hd' & _).
    pose proof (generate_mapping_stage participants0 results0 s') as Hmap.
    cbv zeta in Hmap. fold n baseRows in Hmap. rewrite Hmap.
    destruct ((generateRandomLines n baseRows s').2) as [d1 c1] eqn:Hs1.
    simpl in Hc, Hd'. subst d1 c1.
    destruct (generateRandomMapping_arrangement n
                {| draws := draws s';
                   cursor := cursor (generateRandomLines n baseRows s).2 |} Hn)
      as [Hjs Hrep]; [done|].
    split; [done|].
    eapply represents_mapping_unique; [exact Hrep|]. by apply outcome_represents.
  - intros Hbound js Hjs.
    exists (spliceChoices s (cursor (generateRandomLines n baseRows s).2)
              (Z.to_nat (n - 1)) js).
    split_and!.
    + apply spliceChoices_valid; done || lia.
    + split; [done|]. intros t Ht. unfold spliceChoices. cbn [draws].
      by rewrite decide_True.
    + apply spliceChoices_drawnIndices; done || lia.
Qed.

Lemma generate_mapping_fresh_draws_witness :
  let n := Z.of_nat (length ["A"; "B"; "C"]) in
  ∃ c, (cursor quarterSource ≤ c)%nat ∧
    (∀ s', valid_source s' → agreeBefore c quarterSource s' →
       let js := drawnIndices (Z.to_nat (n - 1)) {| draws := draws s'; cursor := c |} in
       js ∈ sampleSpace n ∧
       mapping (generate ["A"; "B"; "C"] ["X"; "Y"; "Z"] s').1 = outcome n js) ∧
    (n < 2 ^ 32 → ∀ js, js ∈ sampleSpace n →
       ∃ s', valid_source s' ∧ agreeBefore c quarterSource s' ∧
             drawnIndices (Z.to_nat (n - 1)) {| draws := draws s'; cursor := c |} = js).
Proof.
  apply (generate_mapping_fresh_draws ["A"; "B"; "C"] ["X"; "Y"; "Z"] quarterSource).
  - simpl. lia.
  - apply quarterSource_valid.
Defined.
